(** * Buffer pool of the storage engine: LRU-K replacer, frame table,
      buffer pool manager and page guards.

    Shallow embedding of
      src/buffer/lru_k_replacer.cpp
      src/buffer/buffer_pool_manager.cpp
      src/storage/page/page_guard.cpp
    Every C++ member function becomes a state-passing function that returns
    an [outcome]: it returns normally, throws, waits on a lock that is held,
    or runs into undefined behaviour. *)

From Stdlib Require Import ZArith Lia String DecimalString.
From stdpp Require Import base option list sorting gmap.

Local Open Scope Z_scope.

(** ** Machine integers *)

Abbreviation frame_id_t := Z (only parsing).
Abbreviation page_id_t := Z (only parsing).

(** [size_t] is a 64-bit unsigned integer; arithmetic wraps. *)
Definition size_modulus : Z := 2 ^ 64.
Definition size_wrap (z : Z) : Z := z mod size_modulus.

(** [static_cast<int>] of a [size_t]: the low 32 bits, read as signed. *)
Definition static_cast_int (z : Z) : Z := (z + 2 ^ 31) mod 2 ^ 32 - 2 ^ 31.

(** [std::to_string] of an [int] or a [size_t]: the decimal digits, after a
    minus sign for a negative [int]. *)
Definition to_string (n : Z) : string := NilZero.string_of_int (Z.to_int n).

(** ** Outcomes of a member function *)

Inductive outcome (S A : Type) : Type :=
| Ret (a : A) (s : S)          (* normal return, with the state left behind *)
| Throws (msg : string) (s : S) (* an exception leaves the function, or an
                                   assertion that failed ends the process *)
| Blocks (s : S)               (* the thread waits on a lock that is held *)
| Undefined.                   (* undefined behaviour *)

Arguments Ret {S A} a s.
Arguments Throws {S A} msg s.
Arguments Blocks {S A} s.
Arguments Undefined {S A}.

Definition M (S A : Type) : Type := S -> outcome S A.

Definition ret {S A} (a : A) : M S A := fun s => Ret a s.

Definition bind {S A B} (m : M S A) (f : A -> M S B) : M S B :=
  fun s =>
    match m s with
    | Ret a s' => f a s'
    | Throws e s' => Throws e s'
    | Blocks s' => Blocks s'
    | Undefined => Undefined
    end.

Definition get {S} : M S S := fun s => Ret s s.
Definition put {S} (s : S) : M S unit := fun _ => Ret tt s.
Definition modify {S} (f : S -> S) : M S unit := fun s => Ret tt (f s).
Definition throw {S A} (msg : string) : M S A := fun s => Throws msg s.
Definition undefined {S A} : M S A := fun _ => Undefined.

Declare Scope cpp_scope.
Delimit Scope cpp_scope with cpp.
Notation "x <- m ;; k" := (bind m (fun x => k))
  (at level 100, m at next level, right associativity) : cpp_scope.
Notation "m ;;; k" := (bind m (fun _ => k))
  (at level 100, right associativity) : cpp_scope.

(** Running a member function of a sub-object inside the enclosing object. *)
Definition zoom {S T A} (prj : S -> T) (upd : T -> S -> S) (m : M T A) : M S A :=
  fun s =>
    match m (prj s) with
    | Ret a t => Ret a (upd t s)
    | Throws e t => Throws e (upd t s)
    | Blocks t => Blocks (upd t s)
    | Undefined => Undefined
    end.

(** ** LRU-K replacer (src/buffer/lru_k_replacer.cpp)

    Every member function holds [latch_] through a [std::unique_lock], from
    its first line to its return or its [throw]; between two calls the latch
    is free, and it is not part of the state. *)

Module LRUKReplacer.

(** Modelled from the spec: the class declarations of lru_k_replacer.h are
    missing. A node keeps the access timestamps of one frame, most recent
    first, and its evictable flag, false until [SetEvictable] says
    otherwise. *)
Record LRUKNode : Type := mkNode {
  history_ : list Z;
  is_evictable_ : bool
}.

Definition default_node : LRUKNode := mkNode [] false.

(** Modelled from the spec: the members used by lru_k_replacer.cpp.
    [new_frames_] and [cache_frames_] are the two [std::list]s, front first.
    A locator map sends a frame to the iterator of its list element; since a
    frame is pushed into a list together with its locator entry and erased
    together with it, the iterator is the position of the one occurrence of
    the frame, and the model keeps the key set of each locator map. *)
Record t : Type := mk {
  node_store_ : gmap Z LRUKNode;
  current_timestamp_ : Z;
  curr_size_ : Z;
  replacer_size_ : Z;
  k_ : Z;
  new_frames_ : list Z;
  new_frames_locator_ : gset Z;
  cache_frames_ : list Z;
  cache_frames_locator_ : gset Z
}.

(** [LRUKReplacer::LRUKReplacer(num_frames, k)] *)
Definition init (num_frames k : Z) : t :=
  mk ∅ 0 0 num_frames k [] ∅ [] ∅.

Definition set_node_store ns (r : t) : t :=
  mk ns (current_timestamp_ r) (curr_size_ r) (replacer_size_ r) (k_ r)
     (new_frames_ r) (new_frames_locator_ r) (cache_frames_ r) (cache_frames_locator_ r).
Definition set_current_timestamp ts (r : t) : t :=
  mk (node_store_ r) ts (curr_size_ r) (replacer_size_ r) (k_ r)
     (new_frames_ r) (new_frames_locator_ r) (cache_frames_ r) (cache_frames_locator_ r).
Definition set_curr_size n (r : t) : t :=
  mk (node_store_ r) (current_timestamp_ r) n (replacer_size_ r) (k_ r)
     (new_frames_ r) (new_frames_locator_ r) (cache_frames_ r) (cache_frames_locator_ r).
Definition set_new_frames l loc (r : t) : t :=
  mk (node_store_ r) (current_timestamp_ r) (curr_size_ r) (replacer_size_ r) (k_ r)
     l loc (cache_frames_ r) (cache_frames_locator_ r).
Definition set_cache_frames l loc (r : t) : t :=
  mk (node_store_ r) (current_timestamp_ r) (curr_size_ r) (replacer_size_ r) (k_ r)
     (new_frames_ r) (new_frames_locator_ r) l loc.

(** [std::list::back()]; undefined on an empty list. *)
Definition back (l : list Z) : option Z := last l.

(** [std::list::pop_back()]. *)
Definition pop_back (l : list Z) : list Z := removelast l.

(** [list.erase(locator[frame_id])]: the element the locator designates is
    the occurrence of [frame_id]; without a locator entry, or without the
    element, the iterator is singular and the erase is undefined. The result
    is the list before the element and the list after it. *)
Fixpoint split_at (f : Z) (l : list Z) : option (list Z * list Z) :=
  match l with
  | [] => None
  | x :: l' =>
      if decide (x = f) then Some ([], l')
      else match split_at f l' with
           | Some (pre, post) => Some (x :: pre, post)
           | None => None
           end
  end.

Definition erase_located (f : Z) (l : list Z) (loc : gset Z) : option (list Z * list Z) :=
  if decide (f ∈ loc) then split_at f l else None.

(** The K-th timestamp the code compares: [node_store_[id].history_.back()].
    For an id without a node, [operator[]] makes a node with an empty
    history, whose [back()] is undefined. *)
Definition kth_timestamp (ns : gmap Z LRUKNode) (id : Z) : option Z :=
  match ns !! id with
  | Some n => back (history_ n)
  | None => None
  end.

(** The scan of [Evict]: the list from back to front, skipping the frames
    that are not evictable. [node_store_[frame_id]] creates the node of a
    frame that has none. *)
Fixpoint evict_scan (rev_frames : list Z) (ns : gmap Z LRUKNode)
  : option Z * gmap Z LRUKNode :=
  match rev_frames with
  | [] => (None, ns)
  | f :: rest =>
      match ns !! f with
      | Some n => if is_evictable_ n then (Some f, ns) else evict_scan rest ns
      | None => evict_scan rest (<[f := default_node]> ns)
      end
  end.

(** [LRUKReplacer::Evict] *)
Definition Evict : M t (option Z) :=
  fun r =>
    let '(found, ns) := evict_scan (rev (new_frames_ r)) (node_store_ r) in
    match found with
    | Some f =>
        match erase_located f (new_frames_ r) (new_frames_locator_ r) with
        | Some (pre, post) =>
            Ret (Some f)
              (set_curr_size (size_wrap (curr_size_ r - 1))
                 (set_new_frames (pre ++ post) (new_frames_locator_ r ∖ {[f]})
                    (set_node_store (delete f ns) r)))
        | None => Undefined
        end
    | None =>
        let '(found, ns) := evict_scan (rev (cache_frames_ r)) ns in
        match found with
        | Some f =>
            match erase_located f (cache_frames_ r) (cache_frames_locator_ r) with
            | Some (pre, post) =>
                Ret (Some f)
                  (set_curr_size (size_wrap (curr_size_ r - 1))
                     (set_cache_frames (pre ++ post) (cache_frames_locator_ r ∖ {[f]})
                        (set_node_store (delete f ns) r)))
            | None => Undefined
            end
        | None => Ret None (set_node_store ns r)
        end
    end.

(** The loop of case (3) of [RecordAccess]: the first cached frame whose
    K-th timestamp is smaller than [k_timestamp]. [None] is undefined
    behaviour, [Some None] is a loop that ends without a [break]. *)
Fixpoint promote_scan (k_timestamp : Z) (ns : gmap Z LRUKNode) (l : list Z)
  : option (option Z) :=
  match l with
  | [] => Some None
  | id :: l' =>
      match kth_timestamp ns id with
      | Some ts => if k_timestamp >? ts then Some (Some id)
                   else promote_scan k_timestamp ns l'
      | None => None
      end
  end.

(** The loop of case (4) of [RecordAccess]: from the erased position towards
    the front, the number of elements stepped over before the [break]. *)
Fixpoint reposition_scan (k_timestamp : Z) (ns : gmap Z LRUKNode) (rev_pre : list Z)
  : option nat :=
  match rev_pre with
  | [] => Some O
  | id :: l' =>
      match kth_timestamp ns id with
      | Some ts => if k_timestamp <? ts then Some O
                   else S <$> reposition_scan k_timestamp ns l'
      | None => None
      end
  end.

Definition push_history (ts : Z) (n : LRUKNode) : LRUKNode :=
  mkNode (ts :: history_ n) (is_evictable_ n).

(** [LRUKReplacer::RecordAccess] *)
Definition RecordAccess (frame_id : Z) : M t unit :=
  fun r =>
    if frame_id >? static_cast_int (replacer_size_ r) then
      Throws (String.append (to_string frame_id)
                (String.append " is larger than replacer_size :"
                   (to_string (replacer_size_ r)))) r
    else
      let ts := current_timestamp_ r in
      let tick r' := Ret tt (set_current_timestamp (size_wrap (ts + 1)) r') in
      match node_store_ r !! frame_id with
      | None =>
          (* (1) a frame seen for the first time *)
          tick (set_new_frames (frame_id :: new_frames_ r)
                  ({[frame_id]} ∪ new_frames_locator_ r)
                  (set_node_store (<[frame_id := push_history ts default_node]> (node_store_ r)) r))
      | Some n =>
          let size := Z.of_nat (length (history_ n)) in
          if size <? size_wrap (k_ r - 1) then
            (* (2) fewer than k-1 accesses so far: the list position stays *)
            tick (set_node_store (<[frame_id := push_history ts n]> (node_store_ r)) r)
          else if size =? size_wrap (k_ r - 1) then
            (* (3) the k-th access: from the new list into the cache list *)
            let n' := push_history ts n in
            let ns := <[frame_id := n']> (node_store_ r) in
            match erase_located frame_id (new_frames_ r) (new_frames_locator_ r) with
            | Some (pre, post) =>
                let r1 := set_new_frames (pre ++ post) (new_frames_locator_ r ∖ {[frame_id]})
                            (set_node_store ns r) in
                match back (history_ n') with
                | Some k_timestamp =>
                    match promote_scan k_timestamp ns (cache_frames_ r) with
                    | Some None =>
                        tick (set_cache_frames (frame_id :: cache_frames_ r)
                                ({[frame_id]} ∪ cache_frames_locator_ r) r1)
                    | Some (Some id) =>
                        match erase_located id (cache_frames_ r) (cache_frames_locator_ r) with
                        | Some (before, after) =>
                            tick (set_cache_frames (before ++ frame_id :: id :: after)
                                    ({[frame_id]} ∪ cache_frames_locator_ r) r1)
                        | None => Undefined
                        end
                    | None => Undefined
                    end
                | None => Undefined
                end
            | None => Undefined
            end
          else if size =? k_ r then
            (* (4) already k accesses: rotate the history, move in the cache list *)
            let n' := mkNode (pop_back (ts :: history_ n)) (is_evictable_ n) in
            let ns := <[frame_id := n']> (node_store_ r) in
            match back (history_ n') with
            | Some k_timestamp =>
                match erase_located frame_id (cache_frames_ r) (cache_frames_locator_ r) with
                | Some (pre, post) =>
                    match reposition_scan k_timestamp ns (rev pre) with
                    | Some steps =>
                        let keep := (length pre - steps)%nat in
                        tick (set_cache_frames
                                (take keep pre ++ frame_id :: drop keep pre ++ post)
                                (cache_frames_locator_ r)
                                (set_node_store ns r))
                    | None => Undefined
                    end
                | None => Undefined
                end
            | None => Undefined
            end
          else tick r
      end.

(** [LRUKReplacer::SetEvictable] *)
Definition SetEvictable (frame_id : Z) (set_evictable : bool) : M t unit :=
  fun r =>
    match node_store_ r !! frame_id with
    | None => Ret tt r
    | Some n =>
        let size1 := if is_evictable_ n && negb set_evictable
                     then size_wrap (curr_size_ r - 1) else curr_size_ r in
        let size2 := if negb (is_evictable_ n) && set_evictable
                     then size_wrap (size1 + 1) else size1 in
        Ret tt (set_curr_size size2
                  (set_node_store (<[frame_id := mkNode (history_ n) set_evictable]> (node_store_ r)) r))
    end.

(** [LRUKReplacer::Remove] *)
Definition Remove (frame_id : Z) : M t unit :=
  fun r =>
    match node_store_ r !! frame_id with
    | None => Ret tt r
    | Some n =>
        if negb (is_evictable_ n)
        then Throws (String.append (to_string frame_id) " is not evictable.") r
        else
          let finish r' :=
            Ret tt (set_node_store (delete frame_id (node_store_ r))
                      (set_curr_size (size_wrap (curr_size_ r - 1)) r')) in
          if Z.of_nat (length (history_ n)) <? k_ r then
            match erase_located frame_id (new_frames_ r) (new_frames_locator_ r) with
            | Some (pre, post) =>
                finish (set_new_frames (pre ++ post) (new_frames_locator_ r ∖ {[frame_id]}) r)
            | None => Undefined
            end
          else
            match erase_located frame_id (cache_frames_ r) (cache_frames_locator_ r) with
            | Some (pre, post) =>
                finish (set_cache_frames (pre ++ post) (cache_frames_locator_ r ∖ {[frame_id]}) r)
            | None => Undefined
            end
    end.

(** [LRUKReplacer::Size] *)
Definition Size : M t Z := fun r => Ret (curr_size_ r) r.

End LRUKReplacer.

(** ** Reader/writer latch of a frame *)

Module RWLatch.

(** Modelled from the spec: [FrameHeader::rwlatch_] is declared in the
    missing buffer_pool_manager.h; the spec gives it as a reader/writer lock
    with many concurrent readers, a single writer, and writers excluding
    readers. A request that cannot be granted makes the caller wait. *)
Record t : Type := mk {
  writer : bool;
  readers : nat
}.

Definition free : t := mk false O.

Definition lock : M t unit :=
  fun l => if writer l || negb (Nat.eqb (readers l) O) then Blocks l
           else Ret tt (mk true (readers l)).

Definition lock_shared : M t unit :=
  fun l => if writer l then Blocks l else Ret tt (mk false (S (readers l))).

Definition unlock : M t unit :=
  fun l => if writer l then Ret tt (mk false (readers l)) else Undefined.

Definition unlock_shared : M t unit :=
  fun l => match readers l with
           | S n => Ret tt (mk (writer l) n)
           | O => Undefined
           end.

End RWLatch.

(** ** Frames (src/buffer/buffer_pool_manager.cpp, [FrameHeader]) *)

Definition INVALID_PAGE_ID : Z := -1.

Module FrameHeader.

(** Modelled from the spec: the members of [FrameHeader] are declared in the
    missing buffer_pool_manager.h. The spec lists frame id, resident page id
    (or none), atomic pin count, dirty flag, reader/writer lock and the byte
    buffer. *)
Record t : Type := mk {
  frame_id_ : Z;
  rwlatch_ : RWLatch.t;
  pin_count_ : Z;
  is_dirty_ : bool;
  data_ : list Byte.byte;
  page_id_ : Z
}.

Definition set_rwlatch l (f : t) : t :=
  mk (frame_id_ f) l (pin_count_ f) (is_dirty_ f) (data_ f) (page_id_ f).
Definition set_pin_count n (f : t) : t :=
  mk (frame_id_ f) (rwlatch_ f) n (is_dirty_ f) (data_ f) (page_id_ f).
Definition set_is_dirty b (f : t) : t :=
  mk (frame_id_ f) (rwlatch_ f) (pin_count_ f) b (data_ f) (page_id_ f).
Definition set_data d (f : t) : t :=
  mk (frame_id_ f) (rwlatch_ f) (pin_count_ f) (is_dirty_ f) d (page_id_ f).
Definition set_page_id p (f : t) : t :=
  mk (frame_id_ f) (rwlatch_ f) (pin_count_ f) (is_dirty_ f) (data_ f) p.

(** [FrameHeader::Reset] *)
Definition Reset (f : t) : t :=
  mk (frame_id_ f) (rwlatch_ f) 0 false (map (fun _ => Byte.x00) (data_ f)) (page_id_ f).

(** [FrameHeader::FrameHeader(frame_id)]; [BUSTUB_PAGE_SIZE] comes from the
    missing common/config.h and is a parameter. *)
Definition init (BUSTUB_PAGE_SIZE : nat) (frame_id : Z) : t :=
  Reset (mk frame_id RWLatch.free 0 false (replicate BUSTUB_PAGE_SIZE Byte.x00) INVALID_PAGE_ID).

End FrameHeader.

(** ** Disk scheduler *)

Module DiskScheduler.

(** Modelled from the spec: disk_scheduler.cpp is missing. The spec has
    requests served in submission order, a read filling the caller's buffer
    and a write copying from it, the caller awaiting each completion;
    [increase_disk_space] makes room and [deallocate_page] is a hint. The
    model keeps the page contents on disk, the requests served so far
    (oldest first) and the hints received. *)
Record t : Type := mk {
  pages_ : gmap Z (list Byte.byte);
  served_ : list (bool * Z);
  space_ : Z;
  deallocated_ : list Z
}.

Definition init : t := mk ∅ [] 0 [].

(** [Schedule] of a write request followed by [future.get()]. *)
Definition write_page (page_id : Z) (data : list Byte.byte) : M t unit :=
  fun d => Ret tt (mk (<[page_id := data]> (pages_ d)) (served_ d ++ [(true, page_id)])
                      (space_ d) (deallocated_ d)).

(** [Schedule] of a read request followed by [future.get()]: the buffer the
    caller passed, filled from disk; a page never written reads as zeros. *)
Definition read_page (page_id : Z) (buffer : list Byte.byte) : M t (list Byte.byte) :=
  fun d => Ret (default (map (fun _ => Byte.x00) buffer) (pages_ d !! page_id))
               (mk (pages_ d) (served_ d ++ [(false, page_id)]) (space_ d) (deallocated_ d)).

Definition IncreaseDiskSpace (pages : Z) : M t unit :=
  fun d => Ret tt (mk (pages_ d) (served_ d) (Z.max (space_ d) pages) (deallocated_ d)).

Definition DeallocatePage (page_id : Z) : M t unit :=
  fun d => Ret tt (mk (pages_ d) (served_ d) (space_ d) (deallocated_ d ++ [page_id])).

End DiskScheduler.

(** ** State of the buffer pool manager *)

Module BufferPool.

(** Modelled from the spec: the members of [BufferPoolManager] are declared
    in the missing buffer_pool_manager.h. [bpm_latch_] is the pool's mutex,
    [true] while some thread holds it. The frames, the replacer and the latch
    are shared with the page guards, which refer to them from outside. *)
Record t : Type := mk {
  num_frames_ : Z;
  next_page_id_ : Z;
  bpm_latch_ : bool;
  frames_ : list FrameHeader.t;
  page_table_ : gmap Z Z;
  free_frames_ : list Z;
  replacer_ : LRUKReplacer.t;
  disk_scheduler_ : DiskScheduler.t
}.

Definition set_next_page_id n (s : t) : t :=
  mk (num_frames_ s) n (bpm_latch_ s) (frames_ s) (page_table_ s) (free_frames_ s)
     (replacer_ s) (disk_scheduler_ s).
Definition set_bpm_latch b (s : t) : t :=
  mk (num_frames_ s) (next_page_id_ s) b (frames_ s) (page_table_ s) (free_frames_ s)
     (replacer_ s) (disk_scheduler_ s).
Definition set_frames fs (s : t) : t :=
  mk (num_frames_ s) (next_page_id_ s) (bpm_latch_ s) fs (page_table_ s) (free_frames_ s)
     (replacer_ s) (disk_scheduler_ s).
Definition set_page_table pt (s : t) : t :=
  mk (num_frames_ s) (next_page_id_ s) (bpm_latch_ s) (frames_ s) pt (free_frames_ s)
     (replacer_ s) (disk_scheduler_ s).
Definition set_free_frames l (s : t) : t :=
  mk (num_frames_ s) (next_page_id_ s) (bpm_latch_ s) (frames_ s) (page_table_ s) l
     (replacer_ s) (disk_scheduler_ s).
Definition set_replacer r (s : t) : t :=
  mk (num_frames_ s) (next_page_id_ s) (bpm_latch_ s) (frames_ s) (page_table_ s) (free_frames_ s)
     r (disk_scheduler_ s).
Definition set_disk_scheduler d (s : t) : t :=
  mk (num_frames_ s) (next_page_id_ s) (bpm_latch_ s) (frames_ s) (page_table_ s) (free_frames_ s)
     (replacer_ s) d.

(** Calls through [replacer_->] and [disk_scheduler_->]. *)
Definition on_replacer {A} (m : M LRUKReplacer.t A) : M t A :=
  zoom replacer_ set_replacer m.
Definition on_disk {A} (m : M DiskScheduler.t A) : M t A :=
  zoom disk_scheduler_ set_disk_scheduler m.

(** [frames_[frame_id]] and a dereference of a [shared_ptr<FrameHeader>]:
    the frame at that index of the vector; outside the vector it is
    undefined. *)
Definition frame_at (frame_id : Z) : M t FrameHeader.t :=
  fun s =>
    if frame_id <? 0 then Undefined
    else match frames_ s !! Z.to_nat frame_id with
         | Some fh => Ret fh s
         | None => Undefined
         end.

(** An assignment through [frames_[frame_id]->]. *)
Definition update_frame (frame_id : Z) (upd : FrameHeader.t -> FrameHeader.t) : M t unit :=
  bind (frame_at frame_id) (fun fh =>
  modify (fun s => set_frames (<[Z.to_nat frame_id := upd fh]> (frames_ s)) s)).

(** A call on [frames_[frame_id]->rwlatch_]. *)
Definition on_rwlatch (frame_id : Z) (m : M RWLatch.t unit) : M t unit :=
  bind (frame_at frame_id) (fun fh => fun s =>
    let put_latch l := set_frames (<[Z.to_nat frame_id := FrameHeader.set_rwlatch l fh]> (frames_ s)) s in
    match m (FrameHeader.rwlatch_ fh) with
    | Ret a l => Ret a (put_latch l)
    | Throws e l => Throws e (put_latch l)
    | Blocks l => Blocks (put_latch l)
    | Undefined => Undefined
    end).

End BufferPool.

(** ** Page guards (src/storage/page/page_guard.cpp)

    [ReadPageGuard] and [WritePageGuard] have the same members and, line by
    line, the same member functions, except for the kind of latch they take
    and for the dirty flag the write guard sets. The member functions are
    written once, with the kind of guard as a parameter. *)

Inductive guard_kind : Type := Read | Write.

Module PageGuard.

(** Modelled from the spec: the members of the guards are declared in the
    missing page_guard.h: page id, references to the frame, the replacer and
    the pool latch, and a validity flag. [frame_] is the index of the frame
    the [shared_ptr] points to, [None] for a null pointer; [replacer_] and
    [bpm_latch_] are [true] when the pointer is not null. *)
Record t : Type := mk {
  page_id_ : Z;
  frame_ : option Z;
  replacer_ : bool;
  bpm_latch_ : bool;
  is_valid_ : bool
}.

(** A guard before any constructor body ran, and [ReadPageGuard()]: null
    pointers, not valid. *)
Definition empty : t := mk INVALID_PAGE_ID None false false false.

(** [frame_->rwlatch_.lock_shared()] or [frame_->rwlatch_.lock()]. *)
Definition acquire (k : guard_kind) : M RWLatch.t unit :=
  match k with Read => RWLatch.lock_shared | Write => RWLatch.lock end.

(** [frame_->rwlatch_.unlock_shared()] or [frame_->rwlatch_.unlock()]. *)
Definition release (k : guard_kind) : M RWLatch.t unit :=
  match k with Read => RWLatch.unlock_shared | Write => RWLatch.unlock end.

(** [ReadPageGuard::ReadPageGuard(page_id, frame, replacer, bpm_latch)] and
    [WritePageGuard::WritePageGuard(...)], called by the pool with its own
    replacer and latch. *)
Definition construct (k : guard_kind) (page_id : Z) (frame : Z) : M BufferPool.t t :=
  (match k with
   | Read => ret tt
   | Write => BufferPool.update_frame frame (FrameHeader.set_is_dirty true)
   end;;;
   BufferPool.on_rwlatch frame (acquire k);;;
   ret (mk page_id (Some frame) true true true))%cpp.

(** [ReadPageGuard::Drop] and [WritePageGuard::Drop] *)
Definition Drop (k : guard_kind) (g : t) : M BufferPool.t t :=
  if negb (is_valid_ g) then ret g
  else
    match frame_ g with
    | None => undefined
    | Some frame =>
        (BufferPool.update_frame frame
           (fun fh => FrameHeader.set_pin_count (size_wrap (FrameHeader.pin_count_ fh - 1)) fh);;;
         fh <- BufferPool.frame_at frame;;
         (if FrameHeader.pin_count_ fh =? 0 then
            if replacer_ g
            then BufferPool.on_replacer
                   (LRUKReplacer.SetEvictable (FrameHeader.frame_id_ fh) true)
            else undefined
          else ret tt);;;
         BufferPool.on_rwlatch frame (release k);;;
         ret (mk (page_id_ g) None false (bpm_latch_ g) false))%cpp
    end.

(** The body shared by the move constructor and the move assignment, for
    [this] and [that] two different objects: the result is [this] and
    [that] afterwards. *)
Definition move_from (k : guard_kind) (this that : t) : M BufferPool.t (t * t) :=
  (_ <- Drop k this;;
   let this' := mk (page_id_ that) (frame_ that) (replacer_ that) (bpm_latch_ that)
                   (is_valid_ that) in
   let that' := mk (page_id_ that) None false false false in
   match replacer_ this', frame_ this' with
   | true, Some frame =>
       fh <- BufferPool.frame_at frame;;
       BufferPool.on_replacer (LRUKReplacer.SetEvictable (FrameHeader.frame_id_ fh) false);;;
       ret (this', that')
   | _, _ => undefined
   end)%cpp.

(** [ReadPageGuard::ReadPageGuard(ReadPageGuard &&that)] and the write
    guard's: [this] is the object under construction. *)
Definition move_construct (k : guard_kind) (that : t) : M BufferPool.t (t * t) :=
  move_from k empty that.

(** [ReadPageGuard::operator=(ReadPageGuard &&that)] and the write guard's,
    for [this != &that]. *)
Definition move_assign (k : guard_kind) (this that : t) : M BufferPool.t (t * t) :=
  move_from k this that.

(** [operator=] with [this == &that]: the guard is returned as it is. *)
Definition move_assign_self (k : guard_kind) (this : t) : M BufferPool.t t :=
  ret this.

(** [BUSTUB_ENSURE(is_valid_, ...)]: a failed assertion ends the process. *)
Definition ensure_valid (k : guard_kind) (g : t) : M BufferPool.t unit :=
  if is_valid_ g then ret tt
  else throw match k with
             | Read => "tried to use an invalid read guard"%string
             | Write => "tried to use an invalid write guard"%string
             end.

(** [GetPageId] *)
Definition GetPageId (k : guard_kind) (g : t) : M BufferPool.t Z :=
  (ensure_valid k g;;; ret (page_id_ g))%cpp.

(** [GetData] *)
Definition GetData (k : guard_kind) (g : t) : M BufferPool.t (list Byte.byte) :=
  (ensure_valid k g;;;
   match frame_ g with
   | Some frame => fh <- BufferPool.frame_at frame;; ret (FrameHeader.data_ fh)
   | None => undefined
   end)%cpp.

(** [IsDirty] *)
Definition IsDirty (k : guard_kind) (g : t) : M BufferPool.t bool :=
  (ensure_valid k g;;;
   match frame_ g with
   | Some frame => fh <- BufferPool.frame_at frame;; ret (FrameHeader.is_dirty_ fh)
   | None => undefined
   end)%cpp.

End PageGuard.

Module ReadPageGuard.
Definition Drop := PageGuard.Drop Read.
Definition move_construct := PageGuard.move_construct Read.
Definition move_assign := PageGuard.move_assign Read.
Definition IsDirty := PageGuard.IsDirty Read.
Definition GetPageId := PageGuard.GetPageId Read.
Definition GetData := PageGuard.GetData Read.
End ReadPageGuard.

Module WritePageGuard.
Definition Drop := PageGuard.Drop Write.
Definition move_construct := PageGuard.move_construct Write.
Definition move_assign := PageGuard.move_assign Write.
Definition IsDirty := PageGuard.IsDirty Write.
Definition GetPageId := PageGuard.GetPageId Write.
Definition GetData := PageGuard.GetData Write.

(** [WritePageGuard::GetDataMut]: [frame_->GetDataMut()] points to the same
    bytes as [frame_->GetData()]. *)
Definition GetDataMut (g : PageGuard.t) : M BufferPool.t (list Byte.byte) :=
  (PageGuard.ensure_valid Write g;;;
   match PageGuard.frame_ g with
   | Some frame => fh <- BufferPool.frame_at frame;; ret (FrameHeader.data_ fh)
   | None => undefined
   end)%cpp.
End WritePageGuard.

(** ** Buffer pool manager (src/buffer/buffer_pool_manager.cpp) *)

Module BufferPoolManager.

Import BufferPool.

(** [BufferPoolManager::BufferPoolManager(num_frames, disk_manager, k_dist,
    log_manager)]: the loop index is a [size_t], converted to [int] for the
    frame id. The scoped lock the constructor takes is released when it
    ends. *)
Definition init (BUSTUB_PAGE_SIZE : nat) (num_frames k_dist : Z) : t :=
  let ids := static_cast_int <$> seqZ 0 num_frames in
  mk num_frames 0 false (FrameHeader.init BUSTUB_PAGE_SIZE <$> ids) ∅ ids
     (LRUKReplacer.init num_frames k_dist) DiskScheduler.init.

(** [bpm_latch_->lock()]: a [std::mutex] that is held makes the caller
    wait; for the thread that holds it already the call is undefined, and
    in practice waits as well. *)
Definition lock_latch : M t unit :=
  fun s => if bpm_latch_ s then Blocks s else Ret tt (set_bpm_latch true s).

(** [bpm_latch_->unlock()]; undefined when the mutex is not held. *)
Definition unlock_latch : M t unit :=
  fun s => if bpm_latch_ s then Ret tt (set_bpm_latch false s) else Undefined.

(** A [std::scoped_lock] on [bpm_latch_]: locked on entry, unlocked when the
    scope is left, also by an exception. *)
Definition scoped_lock {A} (body : M t A) : M t A :=
  fun s =>
    if bpm_latch_ s then Blocks s
    else match body (set_bpm_latch true s) with
         | Ret a s' => Ret a (set_bpm_latch false s')
         | Throws e s' => Throws e (set_bpm_latch false s')
         | Blocks s' => Blocks s'
         | Undefined => Undefined
         end.

(** [BufferPoolManager::Size] *)
Definition Size : M t Z := fun s => Ret (num_frames_ s) s.

(** [BufferPoolManager::NewPage]: the counter is a [std::atomic<page_id_t>],
    whose increment wraps; [next_page_id_ - 1] is plain [int] arithmetic. *)
Definition NewPage : M t Z :=
  scoped_lock
    (s <- get;;
     let next := static_cast_int (next_page_id_ s + 1) in
     put (set_next_page_id next s);;;
     on_disk (DiskScheduler.IncreaseDiskSpace next);;;
     if next =? - 2 ^ 31 then undefined else ret (next - 1))%cpp.

(** [BufferPoolManager::DeletePage] *)
Definition DeletePage (page_id : Z) : M t bool :=
  scoped_lock
    (s <- get;;
     match page_table_ s !! page_id with
     | None =>
         on_disk (DiskScheduler.DeallocatePage page_id);;;
         ret true
     | Some frame_id =>
         fh <- frame_at frame_id;;
         if FrameHeader.pin_count_ fh >? 0 then ret false
         else
           update_frame frame_id FrameHeader.Reset;;;
           modify (fun s => set_page_table (delete page_id (page_table_ s)) s);;;
           modify (fun s => set_free_frames (free_frames_ s ++ [frame_id]) s);;;
           on_replacer (LRUKReplacer.Remove frame_id);;;
           on_disk (DiskScheduler.DeallocatePage page_id);;;
           ret true
     end)%cpp.

(** [BufferPoolManager::FlushPage]; it takes no lock. *)
Definition FlushPage (page_id : Z) : M t bool :=
  (s <- get;;
   match page_table_ s !! page_id with
   | None => ret false
   | Some frame_id =>
       fh <- frame_at frame_id;;
       (if FrameHeader.is_dirty_ fh
        then on_disk (DiskScheduler.write_page page_id (FrameHeader.data_ fh))
        else ret tt);;;
       ret true
   end)%cpp.

(** The frame a page that is not in the pool is loaded into: the front of
    the free list, or else the victim of the replacer, written back if it is
    dirty. [None] is the exit that unlocks the latch and returns
    [std::nullopt]. *)
Definition take_frame (page_id : Z) : M t (option Z) :=
  (s <- get;;
   match free_frames_ s with
   | [] =>
       frame_id_opt <- on_replacer LRUKReplacer.Evict;;
       match frame_id_opt with
       | None => unlock_latch;;; ret None
       | Some frame_id =>
           fh <- frame_at frame_id;;
           let evicted_page_id := FrameHeader.page_id_ fh in
           _ <- FlushPage evicted_page_id;;
           modify (fun s => set_page_table
                              (<[page_id := frame_id]> (delete evicted_page_id (page_table_ s))) s);;;
           ret (Some frame_id)
       end
   | frame_id :: rest =>
       put (set_page_table (<[page_id := frame_id]> (page_table_ s))
              (set_free_frames rest s));;;
       ret (Some frame_id)
   end)%cpp.

(** The pin, the access record and the guard: the lines both branches of the
    function end with. The guard returned in the [std::optional] is move
    constructed from the temporary the [return] statement makes. *)
Definition pin_and_guard (k : guard_kind) (page_id frame_id : Z)
  : M t (option PageGuard.t) :=
  (update_frame frame_id
     (fun fh => FrameHeader.set_page_id page_id
                  (FrameHeader.set_pin_count (size_wrap (FrameHeader.pin_count_ fh + 1)) fh));;;
   on_replacer (LRUKReplacer.RecordAccess frame_id);;;
   on_replacer (LRUKReplacer.SetEvictable frame_id false);;;
   temporary <- PageGuard.construct k page_id frame_id;;
   moved <- PageGuard.move_construct k temporary;;
   _ <- PageGuard.Drop k (snd moved);;
   ret (Some (fst moved)))%cpp.

(** [BufferPoolManager::CheckedWritePage] ([k = Write]) and
    [BufferPoolManager::CheckedReadPage] ([k = Read]): the two bodies differ
    in the guard they construct only. *)
Definition CheckedPage (k : guard_kind) (page_id : Z) : M t (option PageGuard.t) :=
  (lock_latch;;;
   s <- get;;
   match page_table_ s !! page_id with
   | None =>
       (* (1) the page is not in the buffer pool *)
       taken <- take_frame page_id;;
       match taken with
       | None => ret None
       | Some frame_id =>
           fh <- frame_at frame_id;;
           data <- on_disk (DiskScheduler.read_page page_id (FrameHeader.data_ fh));;
           update_frame frame_id (FrameHeader.set_data data);;;
           pin_and_guard k page_id frame_id
       end
   | Some frame_id =>
       (* (2) the page is in the buffer pool *)
       pin_and_guard k page_id frame_id
   end)%cpp.

Definition CheckedWritePage := CheckedPage Write.
Definition CheckedReadPage := CheckedPage Read.

(** [BufferPoolManager::WritePage] and [BufferPoolManager::ReadPage]: a
    missing guard aborts the process. *)
Definition Page (k : guard_kind) (page_id : Z) : M t PageGuard.t :=
  (guard_opt <- CheckedPage k page_id;;
   match guard_opt with
   | None => throw "failed to bring in page"%string
   | Some g =>
       moved <- PageGuard.move_construct k g;;
       _ <- PageGuard.Drop k (snd moved);;
       ret (fst moved)
   end)%cpp.

Definition WritePage := Page Write.
Definition ReadPage := Page Read.

(** The loop of [FlushAllPages] over [frames_]. *)
Fixpoint flush_frames (fs : list FrameHeader.t) : M t unit :=
  match fs with
  | [] => ret tt
  | fh :: rest =>
      ((if FrameHeader.is_dirty_ fh
        then on_disk (DiskScheduler.write_page (FrameHeader.page_id_ fh) (FrameHeader.data_ fh))
        else ret tt);;;
       flush_frames rest)%cpp
  end.

(** [BufferPoolManager::FlushAllPages] *)
Definition FlushAllPages : M t unit :=
  scoped_lock (s <- get;; flush_frames (frames_ s))%cpp.

(** [BufferPoolManager::GetPinCount] *)
Definition GetPinCount (page_id : Z) : M t (option Z) :=
  scoped_lock
    (s <- get;;
     match page_table_ s !! page_id with
     | None => ret None
     | Some frame_id => fh <- frame_at frame_id;; ret (Some (FrameHeader.pin_count_ fh))
     end)%cpp.

End BufferPoolManager.

(** ** Index iterator (src/include/storage/index/index_iterator.h and
       src/storage/index/index_iterator.cpp)

    The iterator consumes read guards. [bpm_] points to the one pool there
    is, and is not a member of the model. *)

Module IndexIterator.

Record t : Type := mk {
  page_guard_ : PageGuard.t;
  index_ : Z
}.

(** [IndexIterator(bpm, page_guard, index)]: [page_guard_] is move
    constructed from the parameter. The result is the iterator and the
    parameter as the constructor leaves it, for the caller to destroy. *)
Definition construct (page_guard : PageGuard.t) (index : Z)
  : M BufferPool.t (t * PageGuard.t) :=
  (moved <- PageGuard.move_construct Read page_guard;;
   ret (mk (fst moved) index, snd moved))%cpp.

(** [IsEnd] *)
Definition IsEnd (it : t) : bool := index_ it =? -1.

(** [operator==]: [||] and [&&] evaluate their right operand only when the
    left one does not decide. The two [GetPageId] calls only read, and are
    taken from left to right. *)
Definition equal (this itr : t) : M BufferPool.t bool :=
  if (index_ this =? -1) && (index_ itr =? -1) then ret true
  else if index_ this =? index_ itr then
    (a <- PageGuard.GetPageId Read (page_guard_ this);;
     b <- PageGuard.GetPageId Read (page_guard_ itr);;
     ret (a =? b))%cpp
  else ret false.

(** [operator!=] *)
Definition not_equal (this itr : t) : M BufferPool.t bool :=
  if negb (index_ this =? index_ itr) then ret true
  else if negb ((index_ this =? -1) && (index_ itr =? -1)) then
    (a <- PageGuard.GetPageId Read (page_guard_ this);;
     b <- PageGuard.GetPageId Read (page_guard_ itr);;
     ret (negb (a =? b)))%cpp
  else ret false.

Section LeafPage.

(** The leaf page of the B+ tree is not part of these sources: the view
    [page_guard_.As<LeafPage>()] of the guarded page and the two getters of
    a leaf page are parameters of [operator++]. *)
Variable LeafPage : Type.
Variable As : PageGuard.t -> M BufferPool.t LeafPage.
Variable GetSize : LeafPage -> Z.
Variable GetNextPageId : LeafPage -> Z.

(** [operator++]. [index_] is an [int], whose increment must not overflow.
    [page_guard_ = ReadPageGuard()] and [page_guard_ = bpm_->ReadPage(...)]
    are move assignments from a temporary, which is destroyed afterwards. *)
Definition increment (it : t) : M BufferPool.t t :=
  if index_ it =? 2 ^ 31 - 1 then undefined
  else
    let index := index_ it + 1 in
    (leaf_page <- As (page_guard_ it);;
     if index >=? GetSize leaf_page then
       let next_page_id := GetNextPageId leaf_page in
       if next_page_id =? INVALID_PAGE_ID then
         moved <- PageGuard.move_assign Read (page_guard_ it) PageGuard.empty;;
         _ <- PageGuard.Drop Read (snd moved);;
         ret (mk (fst moved) (-1))
       else
         temporary <- BufferPoolManager.ReadPage next_page_id;;
         moved <- PageGuard.move_assign Read (page_guard_ it) temporary;;
         _ <- PageGuard.Drop Read (snd moved);;
         ret (mk (fst moved) 0)
     else ret (mk (page_guard_ it) index))%cpp.

End LeafPage.

End IndexIterator.
(** ** Vocabulary of the properties *)

Module ReplacerSpec.

Import LRUKReplacer.

(** [RecordAccess] on each frame of a list, in order. *)
Fixpoint record_all (frames : list Z) : M t unit :=
  match frames with
  | [] => ret tt
  | f :: rest => (RecordAccess f;;; record_all rest)%cpp
  end.

(** [SetEvictable(f, true)] on each frame of a list, in order. *)
Fixpoint set_all_evictable (frames : list Z) : M t unit :=
  match frames with
  | [] => ret tt
  | f :: rest => (SetEvictable f true;;; set_all_evictable rest)%cpp
  end.

(** The frame has a node and the node is evictable. *)
Definition evictable_in (ns : gmap Z LRUKNode) (f : Z) : bool :=
  match ns !! f with
  | Some n => is_evictable_ n
  | None => false
  end.

(** The replacer has no evictable frame in either list. *)
Definition no_evictable (r : t) : Prop :=
  forall f, f ∈ new_frames_ r ++ cache_frames_ r -> evictable_in (node_store_ r) f = false.

(** The representation invariant of the replacer, for K at least 2: each
    list holds a frame at most once and its locator has exactly the frames of
    the list; the new list has the frames with fewer than K recorded
    accesses, the cache list the frames with K of them; every node has
    between one and K timestamps. *)
Record wf (r : t) : Prop := mk_wf {
  wf_k : 2 <= k_ r < size_modulus;
  wf_new_nodup : NoDup (new_frames_ r);
  wf_cache_nodup : NoDup (cache_frames_ r);
  wf_new_locator : forall f, f ∈ new_frames_locator_ r <-> f ∈ new_frames_ r;
  wf_cache_locator : forall f, f ∈ cache_frames_locator_ r <-> f ∈ cache_frames_ r;
  wf_new : forall f,
    f ∈ new_frames_ r <->
    exists n, node_store_ r !! f = Some n /\ Z.of_nat (length (history_ n)) < k_ r;
  wf_cache : forall f,
    f ∈ cache_frames_ r <->
    exists n, node_store_ r !! f = Some n /\ Z.of_nat (length (history_ n)) = k_ r;
  wf_history : forall f n,
    node_store_ r !! f = Some n ->
    1 <= Z.of_nat (length (history_ n)) <= k_ r
}.

(** Frame [a] has a newer K-th timestamp than frame [b]. *)
Definition newer (ns : gmap Z LRUKNode) (a b : Z) : Prop :=
  exists ta tb, kth_timestamp ns a = Some ta /\ kth_timestamp ns b = Some tb /\ tb < ta.

(** The order of the cache list: every frame has a newer K-th timestamp
    than all the frames behind it. *)
Definition cache_ordered (r : t) : Prop :=
  StronglySorted (newer (node_store_ r)) (cache_frames_ r).

(** The timestamps of a replacer whose counter has not wrapped: a history
    has the newest access first, every recorded access is in the past, and
    no timestamp was given to two frames. *)
Record ts_wf (r : t) : Prop := mk_ts_wf {
  ts_room : 0 <= current_timestamp_ r < size_modulus;
  ts_descending : forall f n,
    node_store_ r !! f = Some n -> StronglySorted Z.gt (history_ n);
  ts_past : forall f n ts,
    node_store_ r !! f = Some n -> ts ∈ history_ n -> ts < current_timestamp_ r;
  ts_own : forall f g n m ts,
    node_store_ r !! f = Some n -> node_store_ r !! g = Some m ->
    ts ∈ history_ n -> ts ∈ history_ m -> f = g
}.

(** The replacer after the access to [f] was recorded: the node of [f] is
    [n'], the lists are as given, the counter has ticked. *)
Definition recorded (f : Z) (n' : LRUKNode) (new_list : list Z) (new_loc : gset Z)
    (cache_list : list Z) (cache_loc : gset Z) (r : t) : t :=
  set_current_timestamp (size_wrap (current_timestamp_ r + 1))
    (set_cache_frames cache_list cache_loc
       (set_new_frames new_list new_loc
          (set_node_store (<[f := n']> (node_store_ r)) r))).

(** The K-th timestamps of the cache list, front first. *)
Definition kth_timestamps (r : t) : list (option Z) :=
  map (kth_timestamp (node_store_ r)) (cache_frames_ r).

(** Newest K-th timestamp at the front, oldest at the back. *)
Fixpoint newest_first (l : list (option Z)) : bool :=
  match l with
  | [] => true
  | Some a :: l' =>
      match l' with
      | [] => true
      | Some b :: _ => (b <? a) && newest_first l'
      | None :: _ => false
      end
  | None :: _ => false
  end.

(** The number of frames the replacer has as evictable. *)
Definition evictable_count (ns : gmap Z LRUKNode) : nat :=
  size (filter (fun entry : Z * LRUKNode => is_evictable_ entry.2 = true) ns).

(** [curr_size_] is the number of evictable frames, as the [size_t] it is
    kept in. *)
Definition sizes_agree (r : t) : Prop :=
  curr_size_ r = size_wrap (Z.of_nat (evictable_count (node_store_ r))).

(** The order of the new list. The history of a frame with fewer than K
    accesses has lost no timestamp, so that [history_.back()] is the frame's
    first access: every frame of the new list was first accessed later than
    all the frames behind it. *)
Definition new_ordered (r : t) : Prop :=
  StronglySorted (newer (node_store_ r)) (new_frames_ r).

(** [f] is the evictable frame of the list that is nearest to the back:
    [pre] is in front of it, and [post], behind it, has no evictable
    frame. *)
Definition last_evictable (ns : gmap Z LRUKNode) (l : list Z) (f : Z)
    (pre post : list Z) : Prop :=
  l = pre ++ f :: post
  /\ evictable_in ns f = true
  /\ forall g, g ∈ post -> evictable_in ns g = false.

(** The replacer without the frame [f] of the new list, [pre] and [post]
    being the list in front of [f] and behind it: the node and the list
    element are erased and the size is one less. *)
Definition without_new (f : Z) (pre post : list Z) (r : t) : t :=
  set_curr_size (size_wrap (curr_size_ r - 1))
    (set_new_frames (pre ++ post) (new_frames_locator_ r ∖ {[f]})
       (set_node_store (delete f (node_store_ r)) r)).

(** The replacer without the frame [f] of the cache list. *)
Definition without_cached (f : Z) (pre post : list Z) (r : t) : t :=
  set_curr_size (size_wrap (curr_size_ r - 1))
    (set_cache_frames (pre ++ post) (cache_frames_locator_ r ∖ {[f]})
       (set_node_store (delete f (node_store_ r)) r)).

(** A call a client makes on the replacer. *)
Inductive call : Type :=
| CallRecordAccess (frame_id : Z)
| CallSetEvictable (frame_id : Z) (set_evictable : bool)
| CallEvict
| CallRemove (frame_id : Z)
| CallSize.

Definition perform (c : call) : M t unit :=
  match c with
  | CallRecordAccess frame_id => RecordAccess frame_id
  | CallSetEvictable frame_id set_evictable => SetEvictable frame_id set_evictable
  | CallEvict => (_ <- Evict;; ret tt)%cpp
  | CallRemove frame_id => Remove frame_id
  | CallSize => (_ <- Size;; ret tt)%cpp
  end.

(** The replacer after a client made the calls one after the other, going
    on after an exception with the replacer as the exception left it;
    [None] when one of the calls was undefined. *)
Fixpoint perform_all (calls : list call) (r : t) : option t :=
  match calls with
  | [] => Some r
  | c :: rest =>
      match perform c r with
      | Ret _ r' => perform_all rest r'
      | Throws _ r' => perform_all rest r'
      | Blocks _ => None
      | Undefined => None
      end
  end.

(** The replacer a client has after the calls, made on a replacer for
    [num_frames] frames and the given K. *)
Definition replacer_after (calls : list call) (num_frames k : Z) : t :=
  default (init num_frames k) (perform_all calls (init num_frames k)).

End ReplacerSpec.


Module GuardSpec.

(** The guard holds the latch of its frame in its own mode. *)
Definition holds (k : guard_kind) (l : RWLatch.t) : Prop :=
  match k with
  | Read => RWLatch.readers l <> O
  | Write => RWLatch.writer l = true
  end.

(** The latch after the guard let go of it. *)
Definition released (k : guard_kind) (l : RWLatch.t) : RWLatch.t :=
  match k with
  | Read => RWLatch.mk (RWLatch.writer l) (Nat.pred (RWLatch.readers l))
  | Write => RWLatch.mk false (RWLatch.readers l)
  end.

(** The frame a guard was dropped from: one pin less, the latch released,
    everything else, the dirty flag included, as before. *)
Definition unpinned (k : guard_kind) (fh : FrameHeader.t) : FrameHeader.t :=
  FrameHeader.mk (FrameHeader.frame_id_ fh) (released k (FrameHeader.rwlatch_ fh))
    (FrameHeader.pin_count_ fh - 1) (FrameHeader.is_dirty_ fh)
    (FrameHeader.data_ fh) (FrameHeader.page_id_ fh).

(** The guard after [Drop]. *)
Definition dropped (g : PageGuard.t) : PageGuard.t :=
  PageGuard.mk (PageGuard.page_id_ g) None false (PageGuard.bpm_latch_ g) false.

(** The source of a move afterwards: null pointers, not valid. *)
Definition moved_from (that : PageGuard.t) : PageGuard.t :=
  PageGuard.mk (PageGuard.page_id_ that) None false false false.

(** The message of the assertion that an accessor of an invalid guard
    fails. *)
Definition invalid_use (k : guard_kind) : string :=
  match k with
  | Read => "tried to use an invalid read guard"%string
  | Write => "tried to use an invalid write guard"%string
  end.

(** A member function that neither waits nor throws: it returns, or its
    behaviour is undefined. *)
Definition returns_or_undefined {S A} (m : M S A) : Prop :=
  forall s, m s = Undefined \/ exists a s', m s = Ret a s'.

End GuardSpec.

Module PoolSpec.

Import BufferPool.

(** The pool after the scheduler served a write of [data] to [page_id]. *)
Definition written (page_id : Z) (data : list Byte.byte) (s : t) : t :=
  let d := disk_scheduler_ s in
  set_disk_scheduler
    (DiskScheduler.mk (<[page_id := data]> (DiskScheduler.pages_ d))
       (DiskScheduler.served_ d ++ [(true, page_id)])
       (DiskScheduler.space_ d) (DiskScheduler.deallocated_ d)) s.

(** The pool after the scheduler received the hint that [page_id] is
    deallocated. *)
Definition hinted (page_id : Z) (s : t) : t :=
  let d := disk_scheduler_ s in
  set_disk_scheduler
    (DiskScheduler.mk (DiskScheduler.pages_ d) (DiskScheduler.served_ d)
       (DiskScheduler.space_ d) (DiskScheduler.deallocated_ d ++ [page_id])) s.

(** The pool after the resident, unpinned page [page_id] of frame [f] was
    deleted, the replacer being left as [r']. *)
Definition deleted (page_id f : Z) (fh : FrameHeader.t) (r' : LRUKReplacer.t) (s : t) : t :=
  hinted page_id
    (set_replacer r'
       (set_free_frames (free_frames_ s ++ [f])
          (set_page_table (delete page_id (page_table_ s))
             (set_frames (<[Z.to_nat f := FrameHeader.Reset fh]> (frames_ s)) s)))).

(** The frame a guard of kind [k] was handed out on: one more pin, the page
    id set, the latch as the guard's constructor left it, and the dirty flag
    set by a write guard. *)
Definition pinned (k : guard_kind) (page_id : Z) (l' : RWLatch.t) (fh : FrameHeader.t)
  : FrameHeader.t :=
  FrameHeader.mk (FrameHeader.frame_id_ fh) l'
    (size_wrap (FrameHeader.pin_count_ fh + 1))
    (match k with Write => true | Read => FrameHeader.is_dirty_ fh end)
    (FrameHeader.data_ fh) page_id.

(** What the replacer is told when a guard on [frame_id] is handed out; the
    last call is the one of the guard's move constructor, which names the
    frame by the id stored in it. *)
Definition replacer_on_pin (frame_id stored_id : Z) : M LRUKReplacer.t unit :=
  (LRUKReplacer.RecordAccess frame_id;;;
   LRUKReplacer.SetEvictable frame_id false;;;
   LRUKReplacer.SetEvictable stored_id false)%cpp.

(** The guard [CheckedPage] hands out. *)
Definition guard_on (page_id frame_id : Z) : PageGuard.t :=
  PageGuard.mk page_id (Some frame_id) true true true.

(** The bytes a read of [page_id] puts into a buffer. *)
Definition read_bytes (s : t) (page_id : Z) (buffer : list Byte.byte) : list Byte.byte :=
  default (map (fun _ => Byte.x00) buffer)
          (DiskScheduler.pages_ (disk_scheduler_ s) !! page_id).

(** The pool after the scheduler served a read of [page_id]. *)
Definition read_served (page_id : Z) (s : t) : t :=
  let d := disk_scheduler_ s in
  set_disk_scheduler
    (DiskScheduler.mk (DiskScheduler.pages_ d)
       (DiskScheduler.served_ d ++ [(false, page_id)])
       (DiskScheduler.space_ d) (DiskScheduler.deallocated_ d)) s.

(** The pool [FlushPage(page_id)] leaves behind. *)
Definition after_flush (page_id : Z) (s : t) : t :=
  match page_table_ s !! page_id with
  | Some f =>
      match frames_ s !! Z.to_nat f with
      | Some fh => if FrameHeader.is_dirty_ fh
                   then written page_id (FrameHeader.data_ fh) s
                   else s
      | None => s
      end
  | None => s
  end.

(** The pool with [page_id] loaded from disk into frame [f], before the pin:
    the page table entry made, the read served, the bytes in the frame. *)
Definition loaded (page_id f : Z) (fh : FrameHeader.t) (s : t) : t :=
  let s1 := set_page_table (<[page_id := f]> (page_table_ s)) s in
  set_frames
    (<[Z.to_nat f := FrameHeader.set_data (read_bytes s page_id (FrameHeader.data_ fh)) fh]>
       (frames_ s))
    (read_served page_id s1).

(** The write requests [FlushAllPages] makes for a vector of frames. *)
Definition dirty_writes (fs : list FrameHeader.t) : list (bool * Z) :=
  (fun fh => (true, FrameHeader.page_id_ fh))
    <$> filter (fun fh => FrameHeader.is_dirty_ fh = true) fs.

(** A member function that returns with the pool latch as it found it. *)
Definition keeps_latch {A} (m : M t A) : Prop :=
  forall s a s', m s = Ret a s' -> bpm_latch_ s' = bpm_latch_ s.

(** A frame id the pool may hold: an index of the frame vector that the
    guard of [RecordAccess] lets through. *)
Definition valid_frame (s : t) (f : Z) : Prop :=
  0 <= f <= static_cast_int (LRUKReplacer.replacer_size_ (replacer_ s))
  /\ is_Some (frames_ s !! Z.to_nat f).

(** The pool is consistent: the replacer is, and the page table, the free
    list and the replacer's lists hold valid frame ids only. *)
Record wf (s : t) : Prop := mk_wf {
  wf_replacer : ReplacerSpec.wf (replacer_ s);
  wf_page_table : forall p f, page_table_ s !! p = Some f -> valid_frame s f;
  wf_free_frames : forall f, f ∈ free_frames_ s -> valid_frame s f;
  wf_listed : forall f,
    f ∈ LRUKReplacer.new_frames_ (replacer_ s) ++ LRUKReplacer.cache_frames_ (replacer_ s) ->
    valid_frame s f
}.

(** No latch of any frame stands in the way of a guard of kind [k]. *)
Definition latches_free_for (k : guard_kind) (s : t) : Prop :=
  forall i fh, frames_ s !! i = Some fh ->
    exists l', PageGuard.acquire k (FrameHeader.rwlatch_ fh) = Ret tt l'.

(** The pool a fetch of [page_id] makes its pin on, when frame [f], holding
    [fh], came from the free list: the latch locked, the frame off the free
    list, the page table entry made and the page read from disk. *)
Definition from_free_list (page_id f : Z) (fh : FrameHeader.t) (rest : list Z) (s : t) : t :=
  loaded page_id f fh (set_free_frames rest (set_bpm_latch true s)).

(** The same when the replacer, left as [r1], gave frame [f]: the page the
    frame held is flushed and its page table entry erased first. *)
Definition from_replacer (page_id f : Z) (fh : FrameHeader.t) (r1 : LRUKReplacer.t) (s : t)
  : t :=
  let s1 := after_flush (FrameHeader.page_id_ fh) (set_replacer r1 (set_bpm_latch true s)) in
  loaded page_id f fh (set_page_table (delete (FrameHeader.page_id_ fh) (page_table_ s1)) s1).

(** How a fetch of [page_id] comes by its frame [f], and the pool it makes
    the pin on: the page is resident in [f], or [f] is the front of the free
    list, or, the free list being empty, the victim of the replacer. *)
Inductive fetch_path (page_id : Z) (s : t) (f : Z) : t -> Prop :=
| fetch_hit :
    page_table_ s !! page_id = Some f ->
    fetch_path page_id s f (set_bpm_latch true s)
| fetch_free (rest : list Z) (fh : FrameHeader.t) :
    page_table_ s !! page_id = None ->
    free_frames_ s = f :: rest ->
    frames_ s !! Z.to_nat f = Some fh ->
    fetch_path page_id s f (from_free_list page_id f fh rest s)
| fetch_evict (fh : FrameHeader.t) (r1 : LRUKReplacer.t) :
    page_table_ s !! page_id = None ->
    free_frames_ s = [] ->
    LRUKReplacer.Evict (replacer_ s) = Ret (Some f) r1 ->
    frames_ s !! Z.to_nat f = Some fh ->
    fetch_path page_id s f (from_replacer page_id f fh r1 s).

(** The pool after the guard on frame [f] was handed out: the frame pinned,
    the replacer told. *)
Definition handed_out (k : guard_kind) (page_id f : Z) (l' : RWLatch.t)
    (fh : FrameHeader.t) (r' : LRUKReplacer.t) (s : t) : t :=
  set_replacer r' (set_frames (<[Z.to_nat f := pinned k page_id l' fh]> (frames_ s)) s).

(** No frame has so many pins that one more would wrap the counter. *)
Definition pins_have_room (s : t) : Prop :=
  forall i fh, frames_ s !! i = Some fh -> FrameHeader.pin_count_ fh + 1 < size_modulus.

(** The pool is coherent: it is consistent, every frame has its index as
    frame id, a resident page sits in the frame the page table names, the
    free frames hold no page and are unknown to the replacer, the replacer
    knows the frames of the resident pages and no others, and has a frame as
    evictable exactly when the frame has no pin. *)
Record coherent (s : t) : Prop := mk_coherent {
  co_wf : wf s;
  co_frame_ids : forall i fh,
    frames_ s !! i = Some fh -> FrameHeader.frame_id_ fh = Z.of_nat i;
  co_resident : forall p f,
    page_table_ s !! p = Some f ->
    exists fh, frames_ s !! Z.to_nat f = Some fh /\ FrameHeader.page_id_ fh = p;
  co_free_nodup : NoDup (free_frames_ s);
  co_free : forall f,
    f ∈ free_frames_ s ->
    (forall p, page_table_ s !! p <> Some f)
    /\ LRUKReplacer.node_store_ (replacer_ s) !! f = None;
  co_tracked : forall f n,
    LRUKReplacer.node_store_ (replacer_ s) !! f = Some n ->
    exists p, page_table_ s !! p = Some f;
  co_known : forall p f,
    page_table_ s !! p = Some f ->
    is_Some (LRUKReplacer.node_store_ (replacer_ s) !! f);
  co_pins : forall f n fh,
    LRUKReplacer.node_store_ (replacer_ s) !! f = Some n ->
    frames_ s !! Z.to_nat f = Some fh ->
    (LRUKReplacer.is_evictable_ n = true <-> FrameHeader.pin_count_ fh = 0);
  co_pin_range : forall i fh,
    frames_ s !! i = Some fh -> 0 <= FrameHeader.pin_count_ fh < size_modulus
}.

(** [NewPage] called [n] times, the page ids in the order they were given
    out. *)
Fixpoint new_pages (n : nat) : M t (list Z) :=
  match n with
  | O => ret []
  | S n' => (p <- BufferPoolManager.NewPage;; ps <- new_pages n';; ret (p :: ps))%cpp
  end.

(** A member function that leaves the pool latch as it found it however it
    ends: when it returns, when it throws and when it waits. *)
Definition latch_kept {A} (m : M t A) : Prop :=
  forall s,
    match m s with
    | Ret _ s' | Throws _ s' | Blocks s' => bpm_latch_ s' = bpm_latch_ s
    | Undefined => True
    end.

(** The pool is as the constructor made it, but for the counter of page ids
    and the room and the hints of the disk scheduler: the latch is free, the
    frames are the constructed ones, no page is resident, every frame is in
    the free list, the replacer knows no frame, and the disk has stored no
    page and served no request. *)
Definition untouched (BUSTUB_PAGE_SIZE : nat) (num_frames k_dist : Z) (s : t) : Prop :=
  bpm_latch_ s = false
  /\ frames_ s = frames_ (BufferPoolManager.init BUSTUB_PAGE_SIZE num_frames k_dist)
  /\ page_table_ s = ∅
  /\ free_frames_ s = free_frames_ (BufferPoolManager.init BUSTUB_PAGE_SIZE num_frames k_dist)
  /\ replacer_ s = LRUKReplacer.init num_frames k_dist
  /\ DiskScheduler.pages_ (disk_scheduler_ s) = ∅
  /\ DiskScheduler.served_ (disk_scheduler_ s) = [].

(** A function that leaves an untouched pool untouched however it ends. *)
Definition stays_untouched {A} (P : nat) (n k : Z) (m : M t A) : Prop :=
  forall s, untouched P n k s ->
    match m s with
    | Ret _ s' | Throws _ s' | Blocks s' => untouched P n k s'
    | Undefined => True
    end.

End PoolSpec.

(** ** A program that uses the pool *)

Module ClientSpec.

Import BufferPool BufferPoolManager.

(** What a program that uses the pool has in hand: the pool, and the guard
    objects it was given or default constructed, each with its kind, in the
    order it got them. A guard that was dropped or moved from stays in the
    list, as the object it still is. *)
Record t : Type := mk {
  pool : BufferPool.t;
  guards : list (guard_kind * PageGuard.t)
}.

(** A call the program makes: a member function of the pool, or of one of
    its guards, which is named by its place in the list. *)
Inductive call : Type :=
| CallNewPage
| CallDeletePage (page_id : Z)
| CallCheckedPage (k : guard_kind) (page_id : Z)
| CallPage (k : guard_kind) (page_id : Z)
| CallFlushPage (page_id : Z)
| CallFlushAllPages
| CallGetPinCount (page_id : Z)
| CallDefaultGuard (k : guard_kind)
| CallDrop (i : nat)
| CallMoveConstruct (i : nat)
| CallMoveAssign (i j : nat)
| CallGetPageId (i : nat)
| CallGetData (i : nat)
| CallIsDirty (i : nat)
| CallGetDataMut (i : nat).

(** The program after a call that gave it no guard, however the call ended:
    it returned, it threw, or it waits, while another thread makes the next
    call. [None] when the call was undefined. *)
Definition go_on {A} (cl : t) (o : outcome BufferPool.t A) : option t :=
  match o with
  | Ret _ s' => Some (mk s' (guards cl))
  | Throws _ s' => Some (mk s' (guards cl))
  | Blocks s' => Some (mk s' (guards cl))
  | Undefined => None
  end.

(** One call: [CheckedReadPage], [CheckedWritePage], [ReadPage] and
    [WritePage] add the guard they return to the list; [Drop] and the moves
    leave the guards they worked on as the call left them, the move
    constructor adding the guard it made. The two guards of a move
    assignment have the same type. A call on a guard the program does not
    have is no call. *)
Definition perform (c : call) (cl : t) : option t :=
  let s := pool cl in
  let gs := guards cl in
  match c with
  | CallNewPage => go_on cl (NewPage s)
  | CallDeletePage page_id => go_on cl (DeletePage page_id s)
  | CallCheckedPage k page_id =>
      match CheckedPage k page_id s with
      | Ret (Some g) s' => Some (mk s' (gs ++ [(k, g)]))
      | o => go_on cl o
      end
  | CallPage k page_id =>
      match Page k page_id s with
      | Ret g s' => Some (mk s' (gs ++ [(k, g)]))
      | o => go_on cl o
      end
  | CallFlushPage page_id => go_on cl (FlushPage page_id s)
  | CallFlushAllPages => go_on cl (FlushAllPages s)
  | CallGetPinCount page_id => go_on cl (GetPinCount page_id s)
  | CallDefaultGuard k => Some (mk s (gs ++ [(k, PageGuard.empty)]))
  | CallDrop i =>
      match gs !! i with
      | Some (k, g) =>
          match PageGuard.Drop k g s with
          | Ret g' s' => Some (mk s' (<[i := (k, g')]> gs))
          | o => go_on cl o
          end
      | None => Some cl
      end
  | CallMoveConstruct i =>
      match gs !! i with
      | Some (k, that) =>
          match PageGuard.move_construct k that s with
          | Ret (this', that') s' => Some (mk s' (<[i := (k, that')]> gs ++ [(k, this')]))
          | o => go_on cl o
          end
      | None => Some cl
      end
  | CallMoveAssign i j =>
      match gs !! i, gs !! j with
      | Some (k, this), Some (k', that) =>
          if bool_decide (i = j) then go_on cl (PageGuard.move_assign_self k this s)
          else
            match k, k' with
            | Read, Read | Write, Write =>
                match PageGuard.move_assign k this that s with
                | Ret (this', that') s' =>
                    Some (mk s' (<[j := (k, that')]> (<[i := (k, this')]> gs)))
                | o => go_on cl o
                end
            | _, _ => Some cl
            end
      | _, _ => Some cl
      end
  | CallGetPageId i =>
      match gs !! i with
      | Some (k, g) => go_on cl (PageGuard.GetPageId k g s)
      | None => Some cl
      end
  | CallGetData i =>
      match gs !! i with
      | Some (k, g) => go_on cl (PageGuard.GetData k g s)
      | None => Some cl
      end
  | CallIsDirty i =>
      match gs !! i with
      | Some (k, g) => go_on cl (PageGuard.IsDirty k g s)
      | None => Some cl
      end
  | CallGetDataMut i =>
      match gs !! i with
      | Some (Write, g) => go_on cl (WritePageGuard.GetDataMut g s)
      | _ => Some cl
      end
  end.

(** The calls one after the other; [None] when one of them was undefined. *)
Fixpoint perform_all (calls : list call) (cl : t) : option t :=
  match calls with
  | [] => Some cl
  | c :: rest =>
      match perform c cl with
      | Some cl' => perform_all rest cl'
      | None => None
      end
  end.

(** The program that has constructed its pool and nothing else. *)
Definition start (BUSTUB_PAGE_SIZE : nat) (num_frames k_dist : Z) : t :=
  mk (init BUSTUB_PAGE_SIZE num_frames k_dist) [].

(** A guard nobody can use: not valid, with null pointers to the frame and
    to the replacer. *)
Definition spent (g : PageGuard.t) : Prop :=
  PageGuard.is_valid_ g = false
  /\ PageGuard.frame_ g = None
  /\ PageGuard.replacer_ g = false.

(** The program has done nothing to the pool yet: the pool is untouched and
    the guards it holds are spent. *)
Definition idle (BUSTUB_PAGE_SIZE : nat) (num_frames k_dist : Z) (cl : t) : Prop :=
  PoolSpec.untouched BUSTUB_PAGE_SIZE num_frames k_dist (pool cl)
  /\ Forall (fun kg => spent kg.2) (guards cl).

End ClientSpec.

(** ** Concrete pools *)

Module Example.

Import BufferPool BufferPoolManager PoolSpec.

(** The state a member function leaves behind, however it ended. *)
Definition state_after {S A} (m : M S A) (s : S) : S :=
  match m s with
  | Ret _ s' => s'
  | Throws _ s' => s'
  | Blocks s' => s'
  | Undefined => s
  end.

(** A pool of two frames of 4 KiB with K = 2, as constructed. *)
Definition fresh_pool : t := init 4096 2 2.

(** The pool latch, released by hand. *)
Definition unlatched (s : t) : t := set_bpm_latch false s.

(** After [CheckedWritePage(0)] on the fresh pool: page 0 sits in frame 0,
    pinned once, write-latched and dirty. *)
Definition pool_with_writer : t := state_after (CheckedWritePage 0) fresh_pool.

Definition writer_frame : FrameHeader.t :=
  FrameHeader.mk 0 (RWLatch.mk true 0) 1 true (replicate 4096 Byte.x00) 0.

(** After [CheckedReadPage(0)] and [CheckedReadPage(1)] on the fresh pool,
    the latch released by hand in between and afterwards: two read guards,
    one per frame. *)
Definition pool_with_readers : t :=
  unlatched (state_after (CheckedReadPage 1)
               (unlatched (state_after (CheckedReadPage 0) fresh_pool))).


(** The program after the calls, made one after the other by a program
    that is as [cl] says. *)
Definition after_calls (calls : list ClientSpec.call) (cl : ClientSpec.t) : ClientSpec.t :=
  default cl (ClientSpec.perform_all calls cl).

End Example.

(** * Sequencing *)

Lemma bind_Ret {S A B} (m : M S A) (f : A -> M S B) s a s1 :
  m s = Ret a s1 -> bind m f s = f a s1.
Proof. intros H. unfold bind. rewrite H. reflexivity. Qed.

Lemma bind_Ret_inv {S A B} (m : M S A) (f : A -> M S B) s b s2 :
  bind m f s = Ret b s2 -> exists a s1, m s = Ret a s1 /\ f a s1 = Ret b s2.
Proof. unfold bind. destruct (m s); try discriminate. eauto. Qed.

(** * Properties of the replacer *)

Module ReplacerFacts.

Import LRUKReplacer ReplacerSpec.

(** C3. With K = 2 and the accesses F0, F1, F2, F0, F1 at timestamps 0..4,
    all three frames evictable, the first [Evict] returns F2 and the next
    one returns F0. *)
Theorem evict_order_scenario :
  exists r,
    (record_all [0; 1; 2; 0; 1];;;
     set_all_evictable [0; 1; 2];;;
     first <- Evict;;
     second <- Evict;;
     ret (first, second))%cpp (init 3 2)
    = Ret (Some 2, Some 0) r
    /\ new_frames_ r = [] /\ cache_frames_ r = [1] /\ curr_size_ r = 1.
Proof. eexists. vm_compute. repeat split; reflexivity. Qed.

(** C1, evaluated where it fails. With K = 2 the accesses F0, F1, F1, F0
    promote F1 first (K-th timestamp 1) and F0 after it (K-th timestamp 0).
    The loop of case (3) finds no cached frame older than F0, the insert
    position stays at [begin()], and F0 lands in front of F1: the cache list
    has the oldest K-th timestamp at the front. *)
Theorem promotion_breaks_cache_order :
  exists r,
    record_all [0; 1; 1; 0] (init 2 2) = Ret tt r
    /\ cache_frames_ r = [0; 1]
    /\ kth_timestamps r = [Some 0; Some 1]
    /\ newest_first (kth_timestamps r) = false
    /\ ~ cache_ordered r.
Proof.
  eexists. split; [vm_compute; reflexivity |].
  split; [reflexivity |]. split; [vm_compute; reflexivity |].
  split; [vm_compute; reflexivity |].
  unfold cache_ordered. cbn [cache_frames_ node_store_]. intros Hs.
  apply StronglySorted_cons in Hs as (Hfront & _).
  apply Forall_cons in Hfront as ((ta & tb & Hta & Htb & Hlt) & _).
  vm_compute in Hta. vm_compute in Htb.
  injection Hta as <-. injection Htb as <-. lia.
Qed.

Lemma static_cast_int_small n : 0 <= n < 2 ^ 31 -> static_cast_int n = n.
Proof.
  intros Hn. unfold static_cast_int.
  rewrite Z.mod_small by lia. lia.
Qed.

(** C6, as the code has it. Every frame id greater than the number of
    frames the replacer was made for is refused with the exception
    "<frame id> is larger than replacer_size :<number of frames>", and the
    replacer is left as it was. *)
Theorem RecordAccess_refuses_larger (r : t) (frame_id : Z) :
  0 <= replacer_size_ r < 2 ^ 31 ->
  replacer_size_ r < frame_id ->
  RecordAccess frame_id r
  = Throws (String.append (to_string frame_id)
              (String.append " is larger than replacer_size :"
                 (to_string (replacer_size_ r)))) r.
Proof.
  intros Hsize Hgt. unfold RecordAccess.
  rewrite static_cast_int_small by assumption.
  destruct (Z.gtb_spec frame_id (replacer_size_ r)); [reflexivity | lia].
Qed.

Lemma RecordAccess_refuses_larger_witness :
  RecordAccess 4 (init 3 2)
  = Throws "4 is larger than replacer_size :3"%string (init 3 2).
Proof. apply (RecordAccess_refuses_larger (init 3 2) 4); simpl; lia. Defined.

(** C6 fails as stated: with three frames (valid ids 0..2), the ids 3 and -1
    are outside the range and [RecordAccess] records them like any other
    frame. *)
Lemma RecordAccess_accepts_out_of_range :
  ~ (0 <= 3 < 3) /\ ~ (0 <= -1 < 3)
  /\ (exists r, RecordAccess 3 (init 3 2) = Ret tt r /\ new_frames_ r = [3])
  /\ (exists r, RecordAccess (-1) (init 3 2) = Ret tt r /\ new_frames_ r = [-1]).
Proof.
  split; [lia |]. split; [lia |].
  split; eexists; vm_compute; split; reflexivity.
Qed.


(** ** What [Evict] finds *)

Lemma elem_of_rev (x : Z) (l : list Z) : x ∈ rev l <-> x ∈ l.
Proof. rewrite !list_elem_of_In. symmetry. apply in_rev. Qed.

Lemma evict_scan_None (l : list Z) (ns ns' : gmap Z LRUKNode) :
  evict_scan l ns = (None, ns') ->
  (forall f, f ∈ l -> evictable_in ns f = false)
  /\ (forall f, evictable_in ns' f = evictable_in ns f).
Proof.
  revert ns. induction l as [| x l IH]; intros ns; cbn [evict_scan].
  - intros [= <-]. split; [| reflexivity]. intros f Hf. inversion Hf.
  - destruct (ns !! x) as [n |] eqn:Hx.
    + destruct (is_evictable_ n) eqn:Hn; [discriminate |].
      intros H. destruct (IH _ H) as (Hall & Hsame). split; [| exact Hsame].
      intros f Hf. apply elem_of_cons in Hf as [-> | Hf]; [| auto].
      unfold evictable_in. rewrite Hx. exact Hn.
    + intros H. destruct (IH _ H) as (Hall & Hsame).
      assert (Hins : forall f, evictable_in (<[x := default_node]> ns) f = evictable_in ns f).
      { intros f. unfold evictable_in. destruct (decide (x = f)) as [-> | Hne].
        - rewrite lookup_insert_eq, Hx. reflexivity.
        - rewrite lookup_insert_ne by exact Hne. reflexivity. }
      split.
      * intros f Hf. apply elem_of_cons in Hf as [-> | Hf].
        -- unfold evictable_in. rewrite Hx. reflexivity.
        -- rewrite <- Hins. auto.
      * intros f. rewrite Hsame. apply Hins.
Qed.

Lemma evict_scan_Some (l : list Z) (ns ns' : gmap Z LRUKNode) (f : Z) :
  evict_scan l ns = (Some f, ns') -> f ∈ l /\ evictable_in ns f = true.
Proof.
  revert ns. induction l as [| x l IH]; intros ns; cbn [evict_scan].
  - discriminate.
  - destruct (ns !! x) as [n |] eqn:Hx.
    + destruct (is_evictable_ n) eqn:Hn.
      * intros [= <- <-]. split; [left |]. unfold evictable_in. rewrite Hx. exact Hn.
      * intros H. destruct (IH _ H) as (Hin & Hev). split; [right; exact Hin | exact Hev].
    + intros H. destruct (IH _ H) as (Hin & Hev). split; [right; exact Hin |].
      unfold evictable_in in *. destruct (decide (x = f)) as [-> | Hne].
      * rewrite lookup_insert_eq in Hev. discriminate.
      * rewrite lookup_insert_ne in Hev by exact Hne. exact Hev.
Qed.

(** [Evict] returns no frame exactly when neither list has an evictable
    frame. *)
Lemma Evict_None_iff (r r1 : t) (o : option Z) :
  Evict r = Ret o r1 -> (o = None <-> no_evictable r).
Proof.
  unfold Evict, no_evictable.
  destruct (evict_scan (rev (new_frames_ r)) (node_store_ r)) as [[f1 |] ns1] eqn:Hnew.
  - destruct (erase_located f1 _ _) as [[pre post] |]; [| discriminate].
    intros [= <- _]. split; [discriminate |]. intros Hno.
    destruct (evict_scan_Some _ _ _ _ Hnew) as (Hin & Hev).
    rewrite Hno in Hev; [discriminate |].
    apply elem_of_app. left. apply elem_of_rev. exact Hin.
  - destruct (evict_scan_None _ _ _ Hnew) as (Hall1 & Hsame).
    destruct (evict_scan (rev (cache_frames_ r)) ns1) as [[f2 |] ns2] eqn:Hcache.
    + destruct (erase_located f2 _ _) as [[pre post] |]; [| discriminate].
      intros [= <- _]. split; [discriminate |]. intros Hno.
      destruct (evict_scan_Some _ _ _ _ Hcache) as (Hin & Hev).
      rewrite Hsame, Hno in Hev; [discriminate |].
      apply elem_of_app. right. apply elem_of_rev. exact Hin.
    + intros [= <- _]. split; [| reflexivity]. intros _ f Hf.
      destruct (evict_scan_None _ _ _ Hcache) as (Hall2 & _).
      apply elem_of_app in Hf as [Hf | Hf].
      * apply Hall1, elem_of_rev. exact Hf.
      * rewrite <- Hsame. apply Hall2, elem_of_rev. exact Hf.
Qed.

(** ** The representation invariant *)

Ltac rsimpl :=
  cbn [node_store_ current_timestamp_ curr_size_ replacer_size_ k_
       new_frames_ new_frames_locator_ cache_frames_ cache_frames_locator_
       set_node_store set_current_timestamp set_curr_size set_new_frames
       set_cache_frames history_ is_evictable_ push_history] in *.

Lemma split_at_Some (f : Z) (l pre post : list Z) :
  split_at f l = Some (pre, post) -> l = pre ++ f :: post.
Proof.
  revert pre. induction l as [| x l IH]; intros pre; cbn [split_at]; [discriminate |].
  destruct (decide (x = f)) as [-> | Hne].
  - intros [= <- <-]. reflexivity.
  - destruct (split_at f l) as [[pre' post'] |]; [| discriminate].
    intros [= <- <-]. rewrite (IH pre' eq_refl). reflexivity.
Qed.

Lemma split_at_elem (f : Z) (l : list Z) : f ∈ l -> is_Some (split_at f l).
Proof.
  induction l as [| x l IH]; intros Hin; [inversion Hin |]. cbn [split_at].
  destruct (decide (x = f)) as [-> | Hne]; [eexists; reflexivity |].
  apply elem_of_cons in Hin as [-> | Hin]; [congruence |].
  destruct (IH Hin) as [[pre post] ->]. eexists; reflexivity.
Qed.

Lemma erase_located_Some (f : Z) (l pre post : list Z) (loc : gset Z) :
  erase_located f l loc = Some (pre, post) -> f ∈ loc /\ l = pre ++ f :: post.
Proof.
  unfold erase_located. destruct (decide (f ∈ loc)); [| discriminate].
  intros H. split; [assumption | apply split_at_Some, H].
Qed.

Lemma erase_located_elem (f : Z) (l : list Z) (loc : gset Z) :
  f ∈ loc -> f ∈ l -> is_Some (erase_located f l loc).
Proof.
  intros Hloc Hin. unfold erase_located.
  destruct (decide (f ∈ loc)); [apply split_at_elem, Hin | contradiction].
Qed.

(** A list without its one occurrence of [f]. *)
Lemma NoDup_erase (f : Z) (pre post : list Z) :
  NoDup (pre ++ f :: post) ->
  NoDup (pre ++ post) /\ (forall x, x ∈ pre ++ post <-> x ∈ pre ++ f :: post /\ x <> f).
Proof.
  intros Hnd. rewrite <- Permutation_middle in Hnd.
  apply NoDup_cons in Hnd as (Hnotin & Hnd). split; [exact Hnd |].
  intros x. rewrite <- (Permutation_middle pre post f), elem_of_cons.
  split; [intros Hx; split; [right; exact Hx | congruence] | intros [[-> | Hx] Hne]; congruence].
Qed.

(** A list with [f] put in somewhere. *)
Lemma NoDup_put (f : Z) (l1 l2 : list Z) :
  NoDup (l1 ++ l2) -> f ∉ l1 ++ l2 ->
  NoDup (l1 ++ f :: l2) /\ (forall x, x ∈ l1 ++ f :: l2 <-> x = f \/ x ∈ l1 ++ l2).
Proof.
  intros Hnd Hnotin. split.
  - rewrite <- Permutation_middle. apply NoDup_cons. split; assumption.
  - intros x. rewrite <- (Permutation_middle l1 l2 f), elem_of_cons. reflexivity.
Qed.

Lemma init_wf (num_frames k : Z) : 2 <= k < size_modulus -> wf (init num_frames k).
Proof.
  intros Hk. constructor; unfold init; rsimpl.
  - exact Hk.
  - constructor.
  - constructor.
  - intros f. rewrite elem_of_nil. split; [| tauto].
    intros H. apply elem_of_empty in H. exact H.
  - intros f. rewrite elem_of_nil. split; [| tauto].
    intros H. apply elem_of_empty in H. exact H.
  - intros f. rewrite elem_of_nil. split; [tauto |].
    intros (n & Hn & _). rewrite lookup_empty in Hn. discriminate.
  - intros f. rewrite elem_of_nil. split; [tauto |].
    intros (n & Hn & _). rewrite lookup_empty in Hn. discriminate.
  - intros f n Hn. rewrite lookup_empty in Hn. discriminate.
Qed.

(** Changing the evictable flag of a node, or the counters, keeps the
    invariant. *)
Lemma wf_same_histories (r r' : t) :
  wf r ->
  k_ r' = k_ r ->
  new_frames_ r' = new_frames_ r ->
  new_frames_locator_ r' = new_frames_locator_ r ->
  cache_frames_ r' = cache_frames_ r ->
  cache_frames_locator_ r' = cache_frames_locator_ r ->
  (forall f, history_ <$> (node_store_ r' !! f) = history_ <$> (node_store_ r !! f)) ->
  wf r'.
Proof.
  intros [Hk Hn1 Hn2 Hl1 Hl2 Hnew Hcache Hhist] Ek En El Ec Ecl Ens.
  assert (Hnode : forall f (P : list Z -> Prop),
            (exists n, node_store_ r' !! f = Some n /\ P (history_ n))
            <-> (exists n, node_store_ r !! f = Some n /\ P (history_ n))).
  { intros f P. specialize (Ens f).
    destruct (node_store_ r' !! f) as [n' |], (node_store_ r !! f) as [n |];
      cbn in Ens; try discriminate.
    - injection Ens as Ens. split; intros (m & Hm & HP); injection Hm as <-.
      + exists n. split; [reflexivity | rewrite <- Ens; exact HP].
      + exists n'. split; [reflexivity | rewrite Ens; exact HP].
    - split; intros (m & Hm & _); discriminate. }
  constructor; rewrite ?Ek, ?En, ?El, ?Ec, ?Ecl; try assumption.
  - intros f. rewrite Hnew. symmetry.
    apply (Hnode f (fun h => Z.of_nat (length h) < k_ r)).
  - intros f. rewrite Hcache. symmetry.
    apply (Hnode f (fun h => Z.of_nat (length h) = k_ r)).
  - intros f n' Hn'. specialize (Ens f). rewrite Hn' in Ens.
    destruct (node_store_ r !! f) as [n |] eqn:E; [| discriminate].
    injection Ens as ->. eapply Hhist, E.
Qed.

Lemma SetEvictable_wf (f : Z) (b : bool) (r r' : t) :
  wf r -> SetEvictable f b r = Ret tt r' -> wf r'.
Proof.
  intros Hwf. unfold SetEvictable.
  destruct (node_store_ r !! f) as [n |] eqn:Hn.
  - intros [= <-]. eapply wf_same_histories; [exact Hwf | reflexivity ..|].
    intros g. rsimpl. destruct (decide (f = g)) as [<- | Hne].
    + rewrite lookup_insert_eq, Hn. reflexivity.
    + rewrite lookup_insert_ne by exact Hne. reflexivity.
  - intros [= <-]. exact Hwf.
Qed.

Lemma node_insert_iff (ns : gmap Z LRUKNode) (f f' : Z) (n' : LRUKNode)
    (P : LRUKNode -> Prop) :
  (exists n, <[f := n']> ns !! f' = Some n /\ P n)
  <-> (f' = f /\ P n') \/ (f' <> f /\ exists n, ns !! f' = Some n /\ P n).
Proof.
  destruct (decide (f = f')) as [<- | Hne].
  - rewrite lookup_insert_eq. split.
    + intros (n & [= <-] & HP). left. auto.
    + intros [[_ HP] | [Hne _]]; [eauto | congruence].
  - rewrite lookup_insert_ne by exact Hne. split.
    + intros H. right. split; [congruence | exact H].
    + intros [[-> _] | [_ H]]; [congruence | exact H].
Qed.

Lemma node_delete_iff (ns : gmap Z LRUKNode) (f f' : Z) (P : LRUKNode -> Prop) :
  (exists n, delete f ns !! f' = Some n /\ P n)
  <-> f' <> f /\ exists n, ns !! f' = Some n /\ P n.
Proof.
  destruct (decide (f = f')) as [<- | Hne].
  - rewrite lookup_delete_eq. split.
    + intros (n & Hn & _). discriminate.
    + intros [Hne _]. congruence.
  - rewrite lookup_delete_ne by exact Hne. split.
    + intros H. split; [congruence | exact H].
    + intros [_ H]. exact H.
Qed.

(** Taking a frame out of the replacer: out of the new list. *)
Lemma wf_forget_new (r r' : t) (f : Z) (pre post : list Z) :
  wf r ->
  erase_located f (new_frames_ r) (new_frames_locator_ r) = Some (pre, post) ->
  k_ r' = k_ r ->
  node_store_ r' = delete f (node_store_ r) ->
  new_frames_ r' = pre ++ post ->
  new_frames_locator_ r' = new_frames_locator_ r ∖ {[f]} ->
  cache_frames_ r' = cache_frames_ r ->
  cache_frames_locator_ r' = cache_frames_locator_ r ->
  wf r'.
Proof.
  intros [Hk Hn1 Hn2 Hl1 Hl2 Hnew Hcache Hhist] Herase Ek Ens En El Ec Ecl.
  apply erase_located_Some in Herase as (Hloc & Hsplit).
  rewrite Hsplit in Hn1. destruct (NoDup_erase _ _ _ Hn1) as (Hnd & Hmem).
  rewrite <- Hsplit in Hmem.
  assert (Hf : f ∈ new_frames_ r) by (rewrite Hsplit; apply elem_of_app; right; left).
  constructor; rewrite ?Ek, ?Ens, ?En, ?El, ?Ec, ?Ecl; try assumption.
  - intros g. rewrite elem_of_difference, elem_of_singleton, Hl1, Hmem. reflexivity.
  - intros g. rewrite Hmem, Hnew, node_delete_iff. tauto.
  - intros g. rewrite Hcache, node_delete_iff. split; [| tauto].
    intros (n & Hn & Hlen). split; [| eauto].
    intros ->. apply Hnew in Hf as (n' & Hn' & Hlen'). rewrite Hn in Hn'.
    injection Hn' as <-. lia.
  - intros g n Hn. apply lookup_delete_Some in Hn as (_ & Hn). eapply Hhist, Hn.
Qed.

(** Taking a frame out of the replacer: out of the cache list. *)
Lemma wf_forget_cache (r r' : t) (f : Z) (pre post : list Z) :
  wf r ->
  erase_located f (cache_frames_ r) (cache_frames_locator_ r) = Some (pre, post) ->
  k_ r' = k_ r ->
  node_store_ r' = delete f (node_store_ r) ->
  new_frames_ r' = new_frames_ r ->
  new_frames_locator_ r' = new_frames_locator_ r ->
  cache_frames_ r' = pre ++ post ->
  cache_frames_locator_ r' = cache_frames_locator_ r ∖ {[f]} ->
  wf r'.
Proof.
  intros [Hk Hn1 Hn2 Hl1 Hl2 Hnew Hcache Hhist] Herase Ek Ens En El Ec Ecl.
  apply erase_located_Some in Herase as (Hloc & Hsplit).
  rewrite Hsplit in Hn2. destruct (NoDup_erase _ _ _ Hn2) as (Hnd & Hmem).
  rewrite <- Hsplit in Hmem.
  assert (Hf : f ∈ cache_frames_ r) by (rewrite Hsplit; apply elem_of_app; right; left).
  constructor; rewrite ?Ek, ?Ens, ?En, ?El, ?Ec, ?Ecl; try assumption.
  - intros g. rewrite elem_of_difference, elem_of_singleton, Hl2, Hmem. reflexivity.
  - intros g. rewrite Hnew, node_delete_iff. split; [| tauto].
    intros (n & Hn & Hlen). split; [| eauto].
    intros ->. apply Hcache in Hf as (n' & Hn' & Hlen'). rewrite Hn in Hn'.
    injection Hn' as <-. lia.
  - intros g. rewrite Hmem, Hcache, node_delete_iff. tauto.
  - intros g n Hn. apply lookup_delete_Some in Hn as (_ & Hn). eapply Hhist, Hn.
Qed.

(** With the invariant, the scan of [Evict] makes no node. *)
Lemma evict_scan_store (l : list Z) (ns : gmap Z LRUKNode) :
  (forall f, f ∈ l -> is_Some (ns !! f)) -> (evict_scan l ns).2 = ns.
Proof.
  induction l as [| x l IH]; intros Hall; cbn [evict_scan]; [reflexivity |].
  destruct (Hall x) as [n Hn]; [left |]. rewrite Hn.
  destruct (is_evictable_ n); [reflexivity |].
  apply IH. intros f Hf. apply Hall. right. exact Hf.
Qed.

Lemma wf_listed (r : t) (f : Z) :
  wf r -> f ∈ new_frames_ r ++ cache_frames_ r -> is_Some (node_store_ r !! f).
Proof.
  intros Hwf Hf. apply elem_of_app in Hf as [Hf | Hf].
  - apply (wf_new r Hwf) in Hf as (n & Hn & _). eauto.
  - apply (wf_cache r Hwf) in Hf as (n & Hn & _). eauto.
Qed.

(** [Evict] on a consistent replacer returns, and keeps it consistent. *)
Lemma Evict_wf (r : t) :
  wf r -> exists o r', Evict r = Ret o r' /\ wf r'.
Proof.
  intros Hwf. unfold Evict.
  assert (Hs1 : (evict_scan (rev (new_frames_ r)) (node_store_ r)).2 = node_store_ r).
  { apply evict_scan_store. intros f Hf. rewrite elem_of_rev in Hf.
    apply (wf_listed r f Hwf), elem_of_app. left. exact Hf. }
  destruct (evict_scan (rev (new_frames_ r)) (node_store_ r)) as [[f1 |] ns1] eqn:Hnew;
    cbn [snd] in Hs1; subst ns1.
  - destruct (evict_scan_Some _ _ _ _ Hnew) as (Hin & _). rewrite elem_of_rev in Hin.
    destruct (erase_located_elem f1 (new_frames_ r) (new_frames_locator_ r))
      as [[pre post] Herase]; [apply (wf_new_locator r Hwf); exact Hin | exact Hin |].
    rewrite Herase. eexists _, _. split; [reflexivity |].
    eapply wf_forget_new; [exact Hwf | exact Herase | reflexivity ..].
  - assert (Hs2 : (evict_scan (rev (cache_frames_ r)) (node_store_ r)).2 = node_store_ r).
    { apply evict_scan_store. intros f Hf. rewrite elem_of_rev in Hf.
      apply (wf_listed r f Hwf), elem_of_app. right. exact Hf. }
    destruct (evict_scan (rev (cache_frames_ r)) (node_store_ r)) as [[f2 |] ns2] eqn:Hcache;
      cbn [snd] in Hs2; subst ns2.
    + destruct (evict_scan_Some _ _ _ _ Hcache) as (Hin & _). rewrite elem_of_rev in Hin.
      destruct (erase_located_elem f2 (cache_frames_ r) (cache_frames_locator_ r))
        as [[pre post] Herase]; [apply (wf_cache_locator r Hwf); exact Hin | exact Hin |].
      rewrite Herase. eexists _, _. split; [reflexivity |].
      eapply wf_forget_cache; [exact Hwf | exact Herase | reflexivity ..].
    + eexists _, _. split; [reflexivity |]. destruct r; exact Hwf.
Qed.

(** [Remove] of a frame that is evictable, or unknown, returns and keeps
    the replacer consistent. *)
Lemma Remove_wf (r : t) (f : Z) :
  wf r ->
  (forall n, node_store_ r !! f = Some n -> is_evictable_ n = true) ->
  exists r', Remove f r = Ret tt r' /\ wf r' /\ node_store_ r' !! f = None.
Proof.
  intros Hwf Hev. unfold Remove.
  destruct (node_store_ r !! f) as [n |] eqn:Hn.
  - rewrite (Hev n eq_refl). cbn [negb].
    destruct (Z.ltb_spec (Z.of_nat (length (history_ n))) (k_ r)) as [Hlt | Hge].
    + assert (Hin : f ∈ new_frames_ r) by (apply (wf_new r Hwf); eauto).
      destruct (erase_located_elem f (new_frames_ r) (new_frames_locator_ r))
        as [[pre post] Herase]; [apply (wf_new_locator r Hwf); exact Hin | exact Hin |].
      rewrite Herase. eexists. split; [reflexivity |]. split.
      * eapply wf_forget_new; [exact Hwf | exact Herase | reflexivity ..].
      * rsimpl. apply lookup_delete_eq.
    + assert (Hin : f ∈ cache_frames_ r).
      { apply (wf_cache r Hwf). exists n. split; [exact Hn |].
        pose proof (wf_history r Hwf f n Hn). lia. }
      destruct (erase_located_elem f (cache_frames_ r) (cache_frames_locator_ r))
        as [[pre post] Herase]; [apply (wf_cache_locator r Hwf); exact Hin | exact Hin |].
      rewrite Herase. eexists. split; [reflexivity |]. split.
      * eapply wf_forget_cache; [exact Hwf | exact Herase | reflexivity ..].
      * rsimpl. apply lookup_delete_eq.
  - exists r. split; [reflexivity |]. split; [exact Hwf | exact Hn].
Qed.

Lemma promote_scan_total (k_timestamp : Z) (ns : gmap Z LRUKNode) (l : list Z) :
  (forall id, id ∈ l -> is_Some (kth_timestamp ns id)) ->
  promote_scan k_timestamp ns l = Some None
  \/ exists id, promote_scan k_timestamp ns l = Some (Some id) /\ id ∈ l.
Proof.
  induction l as [| x l IH]; intros Hall; cbn [promote_scan]; [left; reflexivity |].
  destruct (Hall x) as [ts Hts]; [left |]. rewrite Hts.
  destruct (k_timestamp >? ts).
  - right. exists x. split; [reflexivity | left].
  - destruct IH as [IH | (id & IH & Hin)].
    + intros id Hid. apply Hall. right. exact Hid.
    + left. exact IH.
    + right. exists id. split; [exact IH | right; exact Hin].
Qed.

Lemma reposition_scan_total (k_timestamp : Z) (ns : gmap Z LRUKNode) (l : list Z) :
  (forall id, id ∈ l -> is_Some (kth_timestamp ns id)) ->
  exists steps, reposition_scan k_timestamp ns l = Some steps /\ (steps <= length l)%nat.
Proof.
  induction l as [| x l IH]; intros Hall; cbn [reposition_scan].
  - exists O. split; [reflexivity | cbn; lia].
  - destruct (Hall x) as [ts Hts]; [left |]. rewrite Hts.
    destruct (k_timestamp <? ts).
    + exists O. split; [reflexivity | cbn; lia].
    + destruct IH as (steps & -> & Hle).
      * intros id Hid. apply Hall. right. exact Hid.
      * exists (S steps). split; [reflexivity | cbn; lia].
Qed.

Lemma length_pop_back (x : Z) (l : list Z) : length (pop_back (x :: l)) = length l.
Proof.
  unfold pop_back. revert x. induction l as [| y l IH]; intros x; [reflexivity |].
  change (removelast (x :: y :: l)) with (x :: removelast (y :: l)).
  cbn [length]. rewrite IH. reflexivity.
Qed.

Lemma back_is_Some (l : list Z) : l <> [] -> is_Some (back l).
Proof.
  unfold back. induction l as [| x l IH]; [congruence |]. intros _.
  destruct l as [| y l]; [eexists; reflexivity |].
  change (last (x :: y :: l)) with (last (y :: l)). apply IH. discriminate.
Qed.

Lemma nonempty_length (l : list Z) : (0 < length l)%nat -> l <> [].
Proof. destruct l; cbn; [lia | discriminate]. Qed.

(** Every listed frame has a K-th timestamp, also after the node of [f] got
    a history that is not empty. *)
Lemma wf_kth_timestamp (r : t) (f id : Z) (n' : LRUKNode) :
  wf r -> history_ n' <> [] -> id ∈ cache_frames_ r ->
  is_Some (kth_timestamp (<[f := n']> (node_store_ r)) id).
Proof.
  intros Hwf Hn' Hid. unfold kth_timestamp.
  destruct (decide (f = id)) as [<- | Hne].
  - rewrite lookup_insert_eq. apply back_is_Some, Hn'.
  - rewrite lookup_insert_ne by exact Hne.
    apply (wf_cache r Hwf) in Hid as (n & Hn & Hlen). rewrite Hn.
    apply back_is_Some, nonempty_length. pose proof (wf_k r Hwf). lia.
Qed.

(** [RecordAccess] on a consistent replacer, for a frame id the guard lets
    through, returns and keeps the replacer consistent. *)
Lemma RecordAccess_wf (r : t) (f : Z) :
  wf r -> f <= static_cast_int (replacer_size_ r) ->
  exists r', RecordAccess f r = Ret tt r' /\ wf r'.
Proof.
  intros Hwf Hle. pose proof Hwf as [Hk Hn1 Hn2 Hl1 Hl2 Hnew Hcache Hhist].
  unfold RecordAccess.
  destruct (Z.gtb_spec f (static_cast_int (replacer_size_ r))) as [| _]; [lia |].
  assert (Hk1 : size_wrap (k_ r - 1) = k_ r - 1)
    by (apply Z.mod_small; lia).
  rewrite Hk1.
  destruct (node_store_ r !! f) as [n |] eqn:Hn.
  2:{ (* (1) *)
    eexists. split; [reflexivity |].
    assert (Hnotin : f ∉ new_frames_ r).
    { intros Hin. apply Hnew in Hin as (n & Hn' & _). congruence. }
    constructor; rsimpl; try assumption.
    - apply NoDup_cons. split; assumption.
    - intros g. rewrite elem_of_union, elem_of_singleton, elem_of_cons, Hl1. reflexivity.
    - intros g. rewrite elem_of_cons, Hnew, node_insert_iff. cbn beta; cbn [length history_ push_history default_node].
      destruct (decide (g = f)) as [-> | Hne]; [| tauto].
      split; [intros _; left; split; [reflexivity | lia] | tauto].
    - intros g. rewrite Hcache, node_insert_iff. cbn beta; cbn [length history_ push_history default_node]. split.
      + intros (m & Hm & Hlen). right. split; [congruence | eauto].
      + intros [[_ Hlen] | [_ H]]; [lia | exact H].
    - intros g m Hm. apply lookup_insert_Some in Hm as [[_ <-] | [_ Hm]].
      + cbn [length history_ push_history default_node]. lia.
      + eapply Hhist, Hm. }
  pose proof (Hhist f n Hn) as Hlen.
  destruct (Z.ltb_spec (Z.of_nat (length (history_ n))) (k_ r - 1)) as [Hlt | Hge].
  { (* (2) *)
    eexists. split; [reflexivity |].
    constructor; rsimpl; try assumption.
    - intros g. rewrite Hnew, node_insert_iff. cbn beta; cbn [length history_ push_history default_node].
      destruct (decide (g = f)) as [-> | Hne]; [| tauto].
      split; [intros _; left; split; [reflexivity | lia] |].
      intros _. exists n. split; [exact Hn | lia].
    - intros g. rewrite Hcache, node_insert_iff. cbn beta; cbn [length history_ push_history default_node]. split.
      + intros (m & Hm & Hlenm). right. split; [| eauto].
        intros ->. rewrite Hn in Hm. injection Hm as <-. lia.
      + intros [[_ Hlenm] | [_ H]]; [lia | exact H].
    - intros g m Hm. apply lookup_insert_Some in Hm as [[_ <-] | [_ Hm]].
      + cbn [length history_ push_history default_node]. lia.
      + eapply Hhist, Hm. }
  destruct (Z.eqb_spec (Z.of_nat (length (history_ n))) (k_ r - 1)) as [Heq | Hne1].
  { (* (3) *)
    assert (Hin : f ∈ new_frames_ r) by (apply Hnew; exists n; split; [exact Hn | lia]).
    assert (Hnotin : f ∉ cache_frames_ r).
    { intros Hc. apply Hcache in Hc as (m & Hm & Hlenm). rewrite Hn in Hm.
      injection Hm as <-. lia. }
    destruct (erase_located_elem f (new_frames_ r) (new_frames_locator_ r))
      as [[pre post] Herase]; [apply Hl1; exact Hin | exact Hin |].
    rewrite Herase.
    destruct (erase_located_Some _ _ _ _ _ Herase) as (_ & Hsplit).
    rewrite Hsplit in Hn1. destruct (NoDup_erase _ _ _ Hn1) as (Hnd & Hmem).
    rewrite <- Hsplit in Hmem.
    destruct (back_is_Some (current_timestamp_ r :: history_ n)) as [kts Hkts];
      [discriminate |].
    cbn [history_ push_history]. rewrite Hkts.
    assert (Hgoal : forall l1 l2, cache_frames_ r = l1 ++ l2 ->
      wf (set_current_timestamp (size_wrap (current_timestamp_ r + 1))
            (set_cache_frames (l1 ++ f :: l2) ({[f]} ∪ cache_frames_locator_ r)
               (set_new_frames (pre ++ post) (new_frames_locator_ r ∖ {[f]})
                  (set_node_store (<[f := push_history (current_timestamp_ r) n]> (node_store_ r))
                     r))))).
    { intros l1 l2 Hl12. rewrite Hl12 in Hn2, Hnotin.
      destruct (NoDup_put f l1 l2 Hn2 Hnotin) as (Hnd' & Hmem').
      rewrite <- Hl12 in Hmem'.
      constructor; rsimpl; try assumption.
      - intros g. rewrite elem_of_difference, elem_of_singleton, Hl1, Hmem. reflexivity.
      - intros g. rewrite elem_of_union, elem_of_singleton, Hl2, Hmem'. reflexivity.
      - intros g. rewrite Hmem, Hnew, node_insert_iff. cbn beta; cbn [length history_ push_history default_node]. split.
        + intros [H Hne]. right. split; assumption.
        + intros [[_ Hlenm] | [Hne H]]; [lia | split; assumption].
      - intros g. rewrite Hmem', Hcache, node_insert_iff. cbn beta; cbn [length history_ push_history default_node]. split.
        + intros [-> | (m & Hm & Hlenm)].
          * left. split; [reflexivity | lia].
          * right. split; [| eauto]. intros ->. rewrite Hn in Hm.
            injection Hm as <-. lia.
        + intros [[-> _] | [_ H]]; [left; reflexivity | right; exact H].
      - intros g m Hm. apply lookup_insert_Some in Hm as [[_ <-] | [_ Hm]].
        + cbn [length history_ push_history default_node]. lia.
        + eapply Hhist, Hm. }
    destruct (promote_scan_total kts
                (<[f := push_history (current_timestamp_ r) n]> (node_store_ r))
                (cache_frames_ r)) as [-> | (id & -> & Hid)].
    - intros id Hid. apply wf_kth_timestamp; [exact Hwf | discriminate | exact Hid].
    - eexists. split; [reflexivity |]. apply (Hgoal [] (cache_frames_ r)). reflexivity.
    - destruct (erase_located_elem id (cache_frames_ r) (cache_frames_locator_ r))
        as [[before after] Herase2]; [apply Hl2; exact Hid | exact Hid |].
      rewrite Herase2. eexists. split; [reflexivity |].
      apply (Hgoal before (id :: after)).
      apply erase_located_Some in Herase2 as (_ & H). exact H. }
  destruct (Z.eqb_spec (Z.of_nat (length (history_ n))) (k_ r)) as [Heqk | Hnek].
  { (* (4) *)
    assert (Hin : f ∈ cache_frames_ r) by (apply Hcache; exists n; split; [exact Hn | lia]).
    pose proof (length_pop_back (current_timestamp_ r) (history_ n)) as Hpop.
    destruct (back_is_Some (pop_back (current_timestamp_ r :: history_ n))) as [kts Hkts].
    { apply nonempty_length. lia. }
    cbn [history_]. rewrite Hkts.
    destruct (erase_located_elem f (cache_frames_ r) (cache_frames_locator_ r))
      as [[pre post] Herase]; [apply Hl2; exact Hin | exact Hin |].
    rewrite Herase.
    destruct (erase_located_Some _ _ _ _ _ Herase) as (_ & Hsplit).
    set (n' := mkNode (pop_back (current_timestamp_ r :: history_ n)) (is_evictable_ n)).
    destruct (reposition_scan_total kts (<[f := n']> (node_store_ r)) (rev pre))
      as (steps & -> & Hsteps).
    { intros id Hid. rewrite elem_of_rev in Hid. apply wf_kth_timestamp.
      - exact Hwf.
      - apply nonempty_length. cbn [history_ n']. lia.
      - rewrite Hsplit. apply elem_of_app. left. exact Hid. }
    eexists. split; [reflexivity |].
    rewrite Hsplit in Hn2. destruct (NoDup_erase _ _ _ Hn2) as (Hnd & Hmem).
    set (keep := (length pre - steps)%nat).
    assert (Hparts : take keep pre ++ drop keep pre ++ post = pre ++ post)
      by (rewrite app_assoc, take_drop; reflexivity).
    assert (Hnotin : f ∉ take keep pre ++ drop keep pre ++ post).
    { rewrite Hparts. intros H. apply Hmem in H as [_ H]. congruence. }
    rewrite <- Hparts in Hnd.
    destruct (NoDup_put f _ _ Hnd Hnotin) as (Hnd' & Hmem').
    assert (Hsame : forall g,
              g ∈ take keep pre ++ f :: drop keep pre ++ post <-> g ∈ cache_frames_ r).
    { intros g. rewrite Hmem', Hparts, Hmem, Hsplit.
      destruct (decide (g = f)) as [-> | Hne]; [| tauto].
      split; [intros _ | tauto]. apply elem_of_app. right. left. }
    constructor; rsimpl; try assumption.
    - intros g. rewrite Hl2, Hsame. reflexivity.
    - intros g. rewrite Hnew, node_insert_iff. cbn [history_ n']. rewrite Hpop. split.
      + intros (m & Hm & Hlenm). right. split; [| eauto].
        intros ->. rewrite Hn in Hm. injection Hm as <-. lia.
      + intros [[_ Hlenm] | [_ H]]; [lia | exact H].
    - intros g. rewrite Hsame, Hcache, node_insert_iff. cbn [history_ n']. rewrite Hpop.
      destruct (decide (g = f)) as [-> | Hne]; [| tauto].
      split; [intros _; left; split; [reflexivity | lia] |].
      intros _. exists n. split; [exact Hn | lia].
    - intros g m Hm. apply lookup_insert_Some in Hm as [[_ <-] | [_ Hm]].
      + cbn [history_ n']. rewrite Hpop. lia.
      + eapply Hhist, Hm. }
  eexists. split; [reflexivity |].
  eapply wf_same_histories; [exact Hwf | reflexivity ..].
Qed.

Lemma Evict_Some_listed (r r1 : t) (f : Z) :
  Evict r = Ret (Some f) r1 -> f ∈ new_frames_ r ++ cache_frames_ r.
Proof.
  unfold Evict.
  destruct (evict_scan (rev (new_frames_ r)) (node_store_ r)) as [[f1 |] ns1] eqn:Hnew.
  - destruct (erase_located f1 _ _) as [[pre post] |]; [| discriminate].
    intros [= <- _]. apply evict_scan_Some in Hnew as (Hin & _).
    rewrite elem_of_rev in Hin. apply elem_of_app. left. exact Hin.
  - destruct (evict_scan (rev (cache_frames_ r)) ns1) as [[f2 |] ns2] eqn:Hcache.
    + destruct (erase_located f2 _ _) as [[pre post] |]; [| discriminate].
      intros [= <- _]. apply evict_scan_Some in Hcache as (Hin & _).
      rewrite elem_of_rev in Hin. apply elem_of_app. right. exact Hin.
    + discriminate.
Qed.

(** ** The cases of [RecordAccess] *)

(** Where [promote_scan] stops: in front of the first frame with an older
    K-th timestamp. *)
Lemma promote_scan_Some (k_timestamp : Z) (ns : gmap Z LRUKNode) (l : list Z) (id : Z) :
  promote_scan k_timestamp ns l = Some (Some id) ->
  exists before after,
    l = before ++ id :: after
    /\ split_at id l = Some (before, after)
    /\ (forall e, e ∈ before ->
          exists ts, kth_timestamp ns e = Some ts /\ k_timestamp <= ts)
    /\ exists ts, kth_timestamp ns id = Some ts /\ ts < k_timestamp.
Proof.
  induction l as [| x l IH]; cbn [promote_scan]; [discriminate |].
  destruct (kth_timestamp ns x) as [ts |] eqn:Hx; [| discriminate].
  destruct (Z.gtb_spec k_timestamp ts) as [Hgt | Hle].
  - intros [= <-]. exists [], l. split; [reflexivity |]. split.
    + cbn [split_at]. rewrite decide_True by reflexivity. reflexivity.
    + split; [intros e He; inversion He |]. exists ts. split; [exact Hx | lia].
  - intros H. destruct (IH H) as (before & after & -> & Hsplit & Hbefore & Hid).
    exists (x :: before), after. split; [reflexivity |]. split.
    + cbn [split_at]. destruct (decide (x = id)) as [-> | Hne].
      * destruct Hid as (ts' & Hts' & Hlt). rewrite Hx in Hts'. injection Hts' as <-. lia.
      * rewrite Hsplit. reflexivity.
    + split; [| exact Hid]. intros e He. apply elem_of_cons in He as [-> | He].
      * exists ts. split; [exact Hx | exact Hle].
      * apply Hbefore, He.
Qed.

Lemma promote_scan_None (k_timestamp : Z) (ns : gmap Z LRUKNode) (l : list Z) :
  promote_scan k_timestamp ns l = Some None ->
  forall e, e ∈ l -> exists ts, kth_timestamp ns e = Some ts /\ k_timestamp <= ts.
Proof.
  induction l as [| x l IH]; cbn [promote_scan]; [intros _ e He; inversion He |].
  destruct (kth_timestamp ns x) as [ts |] eqn:Hx; [| discriminate].
  destruct (Z.gtb_spec k_timestamp ts) as [Hgt | Hle]; [discriminate |].
  intros H e He. apply elem_of_cons in He as [-> | He].
  - exists ts. split; [exact Hx | exact Hle].
  - apply (IH H), He.
Qed.

(** Where [reposition_scan] stops on the reversed front part: the frames
    stepped over are not newer than [k_timestamp], the one it stops at
    is. *)
Lemma reposition_scan_Some (k_timestamp : Z) (ns : gmap Z LRUKNode) (l : list Z) (steps : nat) :
  reposition_scan k_timestamp ns l = Some steps ->
  exists moved rest,
    l = moved ++ rest /\ length moved = steps
    /\ (forall e, e ∈ moved ->
          exists ts, kth_timestamp ns e = Some ts /\ ts <= k_timestamp)
    /\ match rest with
       | [] => True
       | e :: _ => exists ts, kth_timestamp ns e = Some ts /\ k_timestamp < ts
       end.
Proof.
  revert steps. induction l as [| x l IH]; intros steps; cbn [reposition_scan].
  - intros [= <-]. exists [], []. repeat split. intros e He. inversion He.
  - destruct (kth_timestamp ns x) as [ts |] eqn:Hx; [| discriminate].
    destruct (Z.ltb_spec k_timestamp ts) as [Hlt | Hge].
    + intros [= <-]. exists [], (x :: l). split; [reflexivity |]. split; [reflexivity |].
      split; [intros e He; inversion He |]. exists ts. split; [exact Hx | exact Hlt].
    + destruct (reposition_scan k_timestamp ns l) as [steps' |] eqn:Hl; [| discriminate].
      intros [= <-]. destruct (IH steps' eq_refl) as (moved & rest & -> & Hlen & Hmoved & Hrest).
      exists (x :: moved), rest. split; [reflexivity |]. split; [cbn; lia |].
      split; [| exact Hrest]. intros e He. apply elem_of_cons in He as [-> | He].
      * exists ts. split; [exact Hx | exact Hge].
      * apply Hmoved, He.
Qed.

(** What a call of [RecordAccess] that returns has done, case by case as in
    the source. *)
Lemma RecordAccess_cases (r r' : t) (f : Z) :
  2 <= k_ r < size_modulus ->
  RecordAccess f r = Ret tt r' ->
  let ts := current_timestamp_ r in
  (node_store_ r !! f = None
   /\ r' = recorded f (mkNode [ts] false) (f :: new_frames_ r)
             ({[f]} ∪ new_frames_locator_ r) (cache_frames_ r) (cache_frames_locator_ r) r)
  \/ exists n,
       node_store_ r !! f = Some n
       /\ ((Z.of_nat (length (history_ n)) < k_ r - 1
            /\ r' = recorded f (push_history ts n) (new_frames_ r) (new_frames_locator_ r)
                      (cache_frames_ r) (cache_frames_locator_ r) r)
           \/ (Z.of_nat (length (history_ n)) = k_ r - 1
               /\ exists pre post l1 l2 k_timestamp,
                    new_frames_ r = pre ++ f :: post
                    /\ cache_frames_ r = l1 ++ l2
                    /\ back (ts :: history_ n) = Some k_timestamp
                    /\ r' = recorded f (push_history ts n) (pre ++ post)
                              (new_frames_locator_ r ∖ {[f]}) (l1 ++ f :: l2)
                              ({[f]} ∪ cache_frames_locator_ r) r
                    /\ ((l1 = []
                         /\ promote_scan k_timestamp
                              (<[f := push_history ts n]> (node_store_ r)) (cache_frames_ r)
                            = Some None)
                        \/ exists id after,
                             l2 = id :: after
                             /\ split_at id (cache_frames_ r) = Some (l1, after)
                             /\ promote_scan k_timestamp
                                  (<[f := push_history ts n]> (node_store_ r)) (cache_frames_ r)
                                = Some (Some id)))
           \/ (Z.of_nat (length (history_ n)) = k_ r
               /\ exists pre post steps k_timestamp,
                    cache_frames_ r = pre ++ f :: post
                    /\ back (pop_back (ts :: history_ n)) = Some k_timestamp
                    /\ reposition_scan k_timestamp
                         (<[f := mkNode (pop_back (ts :: history_ n)) (is_evictable_ n)]>
                            (node_store_ r)) (rev pre) = Some steps
                    /\ r' = recorded f
                              (mkNode (pop_back (ts :: history_ n)) (is_evictable_ n))
                              (new_frames_ r) (new_frames_locator_ r)
                              (take (length pre - steps) pre ++ f
                                 :: drop (length pre - steps) pre ++ post)
                              (cache_frames_locator_ r) r)
           \/ (k_ r < Z.of_nat (length (history_ n))
               /\ r' = set_current_timestamp (size_wrap (ts + 1)) r)).
Proof.
  intros Hk H ts. subst ts. unfold RecordAccess in H.
  destruct (f >? static_cast_int (replacer_size_ r)); [discriminate |].
  assert (Hk1 : size_wrap (k_ r - 1) = k_ r - 1) by (apply Z.mod_small; lia).
  rewrite Hk1 in H. cbv zeta in H.
  destruct (node_store_ r !! f) as [n |] eqn:Hn.
  2:{ injection H as <-. left. split; reflexivity. }
  right. exists n. split; [reflexivity |].
  destruct (Z.ltb_spec (Z.of_nat (length (history_ n))) (k_ r - 1)) as [Hlt | Hge].
  { injection H as <-. left. split; [exact Hlt | reflexivity]. }
  destruct (Z.eqb_spec (Z.of_nat (length (history_ n))) (k_ r - 1)) as [Heq | Hne1].
  { right. left. split; [exact Heq |].
    destruct (erase_located f (new_frames_ r) _) as [[pre post] |] eqn:Herase;
      [| discriminate].
    apply erase_located_Some in Herase as (_ & Hsplit).
    cbn [history_ push_history] in H.
    destruct (back (current_timestamp_ r :: history_ n)) as [kts |] eqn:Hkts;
      [| discriminate].
    destruct (promote_scan kts _ (cache_frames_ r)) as [[id |] |] eqn:Hscan;
      [| | discriminate].
    - destruct (erase_located id (cache_frames_ r) _) as [[before after] |] eqn:Herase2;
        [| discriminate].
      pose proof Herase2 as Hsplit_at. unfold erase_located in Hsplit_at.
      destruct (decide (id ∈ cache_frames_locator_ r)); [| discriminate].
      apply erase_located_Some in Herase2 as (_ & Hsplit2).
      injection H as <-.
      exists pre, post, before, (id :: after), kts.
      split; [exact Hsplit |]. split; [exact Hsplit2 |]. split; [reflexivity |].
      split; [reflexivity |]. right. exists id, after.
      split; [reflexivity |]. split; [exact Hsplit_at | exact Hscan].
    - injection H as <-.
      exists pre, post, [], (cache_frames_ r), kts.
      split; [exact Hsplit |]. split; [reflexivity |]. split; [reflexivity |].
      split; [reflexivity |]. left. split; [reflexivity | exact Hscan]. }
  destruct (Z.eqb_spec (Z.of_nat (length (history_ n))) (k_ r)) as [Heqk | Hnek].
  { right. right. left. split; [exact Heqk |].
    cbn [history_] in H.
    destruct (back (pop_back (current_timestamp_ r :: history_ n))) as [kts |] eqn:Hkts;
      [| discriminate].
    destruct (erase_located f (cache_frames_ r) _) as [[pre post] |] eqn:Herase;
      [| discriminate].
    apply erase_located_Some in Herase as (_ & Hsplit).
    destruct (reposition_scan kts _ (rev pre)) as [steps |] eqn:Hscan; [| discriminate].
    injection H as <-.
    exists pre, post, steps, kts.
    split; [exact Hsplit |]. split; [reflexivity |]. split; [exact Hscan | reflexivity]. }
  injection H as <-. right. right. right. split; [lia | reflexivity].
Qed.

(** ** Timestamps *)

Lemma pop_back_snoc (l : list Z) (x : Z) : pop_back (l ++ [x]) = l.
Proof. apply removelast_last. Qed.

Lemma back_snoc (l : list Z) (x : Z) : back (l ++ [x]) = Some x.
Proof. apply last_snoc. Qed.

Lemma back_elem (l : list Z) (x : Z) : back l = Some x -> x ∈ l.
Proof.
  intros H. apply last_Some in H as (l' & ->). apply elem_of_app. right. left.
Qed.

(** The last timestamp of a history that has the newest access first is the
    oldest one. *)
Lemma back_oldest (l : list Z) (x y : Z) :
  StronglySorted Z.gt l -> back l = Some x -> y ∈ l -> x <= y.
Proof.
  intros Hs H Hy. apply last_Some in H as (l' & ->).
  apply elem_of_app in Hy as [Hy | Hy].
  - apply StronglySorted_app in Hs as (Hall & _).
    assert (x ∈ [x]) as Hx by left.
    pose proof (Hall y x Hy Hx). lia.
  - apply list_elem_of_singleton in Hy as ->. lia.
Qed.

Lemma kth_timestamp_elem (ns : gmap Z LRUKNode) (id ts : Z) :
  kth_timestamp ns id = Some ts ->
  exists n, ns !! id = Some n /\ back (history_ n) = Some ts /\ ts ∈ history_ n.
Proof.
  unfold kth_timestamp. destruct (ns !! id) as [n |]; [| discriminate].
  intros H. exists n. split; [reflexivity |]. split; [exact H | apply back_elem, H].
Qed.

Lemma kth_timestamp_insert_ne (ns : gmap Z LRUKNode) (f id : Z) (n' : LRUKNode) :
  id <> f -> kth_timestamp (<[f := n']> ns) id = kth_timestamp ns id.
Proof. intros Hne. unfold kth_timestamp. rewrite lookup_insert_ne by congruence. reflexivity. Qed.

Lemma kth_timestamp_insert_eq (ns : gmap Z LRUKNode) (f : Z) (n' : LRUKNode) :
  kth_timestamp (<[f := n']> ns) f = back (history_ n').
Proof. unfold kth_timestamp. rewrite lookup_insert_eq. reflexivity. Qed.

Lemma newer_insert_ne (ns : gmap Z LRUKNode) (f a b : Z) (n' : LRUKNode) :
  a <> f -> b <> f -> newer ns a b -> newer (<[f := n']> ns) a b.
Proof.
  intros Ha Hb (ta & tb & Hta & Htb & Hlt). exists ta, tb.
  rewrite !kth_timestamp_insert_ne by assumption. auto.
Qed.

Lemma newer_trans (ns : gmap Z LRUKNode) (a b c : Z) :
  newer ns a b -> newer ns b c -> newer ns a c.
Proof.
  intros (ta & tb & Hta & Htb & Hab) (tb' & tc & Htb' & Htc & Hbc).
  rewrite Htb in Htb'. injection Htb' as <-. exists ta, tc. repeat split; try assumption. lia.
Qed.

Lemma StronglySorted_weaken {A} (R R' : relation A) (l : list A) :
  StronglySorted R l ->
  (forall a b, a ∈ l -> b ∈ l -> R a b -> R' a b) ->
  StronglySorted R' l.
Proof.
  induction 1 as [| x l Hs IH Hall]; intros Himp; constructor.
  - apply IH. intros a b Ha Hb. apply Himp; right; assumption.
  - apply Forall_forall. intros y Hy. apply Himp; [left | right; exact Hy |].
    eapply Forall_forall in Hall; eassumption.
Qed.

Lemma StronglySorted_without {A} (R : relation A) (l1 l2 : list A) (x : A) :
  StronglySorted R (l1 ++ x :: l2) -> StronglySorted R (l1 ++ l2).
Proof.
  rewrite !StronglySorted_app, StronglySorted_cons.
  intros (Hall & Hs1 & _ & Hs2). split; [| split; assumption].
  intros a b Ha Hb. apply Hall; [exact Ha | right; exact Hb].
Qed.

(** The order of a list of frames does not depend on the node of a frame
    that is not in the list. *)
Lemma ordered_insert_ne (ns : gmap Z LRUKNode) (f : Z) (n' : LRUKNode) (l : list Z) :
  f ∉ l -> StronglySorted (newer ns) l -> StronglySorted (newer (<[f := n']> ns)) l.
Proof.
  intros Hnotin Hs. eapply StronglySorted_weaken; [exact Hs |].
  intros a b Ha Hb. apply newer_insert_ne; intros ->; contradiction.
Qed.

Lemma list_snoc_or_nil (l : list Z) : l = [] \/ exists l' x, l = l' ++ [x].
Proof.
  destruct (last l) as [x |] eqn:H.
  - right. apply last_Some in H as (l' & ->). eauto.
  - left. apply last_None, H.
Qed.

Lemma pop_back_elem (l : list Z) (x : Z) : x ∈ pop_back l -> x ∈ l.
Proof.
  destruct (list_snoc_or_nil l) as [-> | (l' & y & ->)]; [trivial |].
  rewrite pop_back_snoc. intros H. apply elem_of_app. left. exact H.
Qed.

Lemma pop_back_sorted (l : list Z) :
  StronglySorted Z.gt l -> StronglySorted Z.gt (pop_back l).
Proof.
  destruct (list_snoc_or_nil l) as [-> | (l' & y & ->)]; [trivial |].
  rewrite pop_back_snoc. apply StronglySorted_app_1_l.
Qed.

Lemma ts_wf_recorded (r : t) (f : Z) (n' : LRUKNode) (new_list cache_list : list Z)
    (new_loc cache_loc : gset Z) :
  ts_wf r ->
  current_timestamp_ r + 1 < size_modulus ->
  StronglySorted Z.gt (history_ n') ->
  (forall ts, ts ∈ history_ n' ->
     ts = current_timestamp_ r
     \/ exists n, node_store_ r !! f = Some n /\ ts ∈ history_ n) ->
  ts_wf (recorded f n' new_list new_loc cache_list cache_loc r).
Proof.
  intros [Hroom Hdesc Hpast Hown] Hnext Hsorted Hfrom.
  assert (Htick : size_wrap (current_timestamp_ r + 1) = current_timestamp_ r + 1)
    by (apply Z.mod_small; lia).
  assert (Hold : forall g m ts,
            <[f := n']> (node_store_ r) !! g = Some m -> ts ∈ history_ m ->
            (g = f /\ ts = current_timestamp_ r)
            \/ exists n, node_store_ r !! g = Some n /\ ts ∈ history_ n).
  { intros g m ts Hm Hts. apply lookup_insert_Some in Hm as [[<- <-] | [_ Hm]].
    - destruct (Hfrom ts Hts) as [-> | H]; [left; auto | right; exact H].
    - right. eauto. }
  constructor; unfold recorded; rsimpl; rewrite ?Htick.
  - lia.
  - intros g m Hm. apply lookup_insert_Some in Hm as [[_ <-] | [_ Hm]].
    + exact Hsorted.
    + eapply Hdesc, Hm.
  - intros g m ts Hm Hts. destruct (Hold g m ts Hm Hts) as [[_ ->] | (n & Hn & Hin)].
    + lia.
    + pose proof (Hpast g n ts Hn Hin). lia.
  - intros g1 g2 m1 m2 ts Hm1 Hm2 Hts1 Hts2.
    destruct (Hold g1 m1 ts Hm1 Hts1) as [[-> ->] | (n1 & Hn1 & Hin1)];
      destruct (Hold g2 m2 _ Hm2 Hts2) as [[-> Heq] | (n2 & Hn2 & Hin2)].
    + reflexivity.
    + pose proof (Hpast g2 n2 _ Hn2 Hin2). lia.
    + pose proof (Hpast g1 n1 _ Hn1 Hin1). lia.
    + eapply Hown; eassumption.
Qed.

(** [RecordAccess] keeps the timestamps in order, as long as the counter
    does not wrap. *)
Lemma RecordAccess_ts_wf (r r' : t) (f : Z) :
  2 <= k_ r < size_modulus ->
  ts_wf r ->
  current_timestamp_ r + 1 < size_modulus ->
  RecordAccess f r = Ret tt r' ->
  ts_wf r'.
Proof.
  intros Hk Hts Hnext Hrun. pose proof Hts as [Hroom Hdesc Hpast Hown].
  assert (Hpush : forall n, node_store_ r !! f = Some n ->
            StronglySorted Z.gt (current_timestamp_ r :: history_ n)).
  { intros n Hn. apply StronglySorted_cons. split; [| eapply Hdesc, Hn].
    apply Forall_forall. intros ts Hin. pose proof (Hpast f n ts Hn Hin). lia. }
  destruct (RecordAccess_cases r r' f Hk Hrun)
    as [(Hnone & ->) | (n & Hn & [(_ & ->) | [(_ & Hc) | [(_ & Hc) | (_ & ->)]]])].
  - apply ts_wf_recorded; try assumption; cbn [history_].
    + repeat constructor.
    + intros ts Hin. apply list_elem_of_singleton in Hin. left. exact Hin.
  - apply ts_wf_recorded; try assumption; cbn [history_ push_history].
    + apply Hpush, Hn.
    + intros ts Hin. apply elem_of_cons in Hin as [-> | Hin]; [left; reflexivity |].
      right. eauto.
  - destruct Hc as (pre & post & l1 & l2 & kts & _ & _ & _ & -> & _).
    apply ts_wf_recorded; try assumption; cbn [history_ push_history].
    + apply Hpush, Hn.
    + intros ts Hin. apply elem_of_cons in Hin as [-> | Hin]; [left; reflexivity |].
      right. eauto.
  - destruct Hc as (pre & post & steps & kts & _ & _ & _ & ->).
    apply ts_wf_recorded; try assumption; cbn [history_].
    + apply pop_back_sorted, Hpush, Hn.
    + intros ts Hin. apply pop_back_elem, elem_of_cons in Hin as [-> | Hin];
        [left; reflexivity |].
      right. eauto.
  - assert (Htick : size_wrap (current_timestamp_ r + 1) = current_timestamp_ r + 1)
      by (apply Z.mod_small; lia).
    constructor; rsimpl; rewrite ?Htick.
    + lia.
    + exact Hdesc.
    + intros g m ts Hm Hin. pose proof (Hpast g m ts Hm Hin). lia.
    + exact Hown.
Qed.

(** ** The order of the cache list *)

Lemma kth_distinct (r : t) (a b ta tb : Z) :
  ts_wf r -> a <> b ->
  kth_timestamp (node_store_ r) a = Some ta ->
  kth_timestamp (node_store_ r) b = Some tb ->
  ta <> tb.
Proof.
  intros Hts Hne Ha Hb ->.
  apply kth_timestamp_elem in Ha as (n & Hn & _ & Hin).
  apply kth_timestamp_elem in Hb as (m & Hm & _ & Hin').
  apply Hne. eapply (ts_own r Hts); eassumption.
Qed.

(** Case (3) with a [break]: the promoted frame goes in front of the first
    cached frame with an older K-th timestamp, and the order is kept. *)
Lemma promotion_keeps_order (ns : gmap Z LRUKNode) (f id x : Z) (before after : list Z) :
  (forall a ta, a ∈ before ++ id :: after -> kth_timestamp ns a = Some ta -> ta <> x) ->
  kth_timestamp ns f = Some x ->
  StronglySorted (newer ns) (before ++ id :: after) ->
  (forall e, e ∈ before -> exists ts, kth_timestamp ns e = Some ts /\ x <= ts) ->
  (exists ts, kth_timestamp ns id = Some ts /\ ts < x) ->
  StronglySorted (newer ns) (before ++ f :: id :: after).
Proof.
  intros Hdistinct Hf Hs Hbefore (tid & Htid & Hlt).
  pose proof Hs as Hs0.
  apply StronglySorted_app in Hs as (Hall & Hs1 & Hs2).
  assert (Hfid : newer ns f id) by (exists x, tid; auto).
  apply StronglySorted_app. split; [| split; [exact Hs1 |]].
  - intros a c Ha Hc. apply elem_of_cons in Hc as [-> | Hc]; [| apply Hall; assumption].
    destruct (Hbefore a Ha) as (ta & Hta & Hle). exists ta, x.
    split; [exact Hta |]. split; [exact Hf |].
    assert (ta <> x); [| lia].
    eapply Hdistinct; [| exact Hta]. apply elem_of_app. left. exact Ha.
  - apply StronglySorted_cons. split; [| exact Hs2].
    apply Forall_cons. split; [exact Hfid |].
    apply StronglySorted_cons in Hs2 as (Hafter & _).
    apply Forall_forall. intros c Hc. eapply newer_trans; [exact Hfid |].
    eapply Forall_forall in Hafter; eassumption.
Qed.

(** Case (4): the frame moves towards the front, past the frames that are
    not newer than its new K-th timestamp, and the order is kept. *)
Lemma reposition_keeps_order (ns : gmap Z LRUKNode) (f x : Z) (front moved post : list Z) :
  (forall a ta, a ∈ front ++ moved ++ post -> kth_timestamp ns a = Some ta -> ta <> x) ->
  kth_timestamp ns f = Some x ->
  StronglySorted (newer ns) (front ++ moved ++ post) ->
  (forall e, e ∈ moved ++ post -> exists ts, kth_timestamp ns e = Some ts /\ ts <= x) ->
  match last front with
  | None => True
  | Some e => exists ts, kth_timestamp ns e = Some ts /\ x < ts
  end ->
  StronglySorted (newer ns) (front ++ f :: moved ++ post).
Proof.
  intros Hdistinct Hf Hs Hold Hstop.
  pose proof Hs as Hs0.
  apply StronglySorted_app in Hs as (Hall & Hs1 & Hs2).
  assert (Hfront : forall a, a ∈ front -> newer ns a f).
  { intros a Ha. destruct (last front) as [e |] eqn:Hlast.
    - destruct Hstop as (te & Hte & Hlt). apply last_Some in Hlast as (front' & ->).
      assert (He : newer ns e f) by (exists te, x; auto).
      apply elem_of_app in Ha as [Ha | Ha].
      + eapply newer_trans; [| exact He].
        apply StronglySorted_app in Hs1 as (Hfe & _). apply Hfe; [exact Ha | left].
      + apply list_elem_of_singleton in Ha as ->. exact He.
    - apply last_None in Hlast. subst front. inversion Ha. }
  apply StronglySorted_app. split; [| split; [exact Hs1 |]].
  - intros a c Ha Hc. apply elem_of_cons in Hc as [-> | Hc];
      [apply Hfront, Ha | apply Hall; assumption].
  - apply StronglySorted_cons. split; [| exact Hs2].
    apply Forall_forall. intros c Hc. destruct (Hold c Hc) as (tc & Htc & Hle).
    exists x, tc. split; [exact Hf |]. split; [exact Htc |].
    assert (tc <> x); [| lia].
    eapply Hdistinct; [| exact Htc]. apply elem_of_app. right. exact Hc.
Qed.

Lemma split_at_unique (f : Z) (l pre post pre' post' : list Z) :
  split_at f l = Some (pre, post) -> split_at f l = Some (pre', post') ->
  pre = pre' /\ post = post'.
Proof. intros H H'. rewrite H in H'. injection H' as <- <-. auto. Qed.

(** The front part of the cache list, cut where the scan of case (4)
    stopped. *)
Lemma reposition_parts (pre moved rest : list Z) (steps : nat) :
  rev pre = moved ++ rest -> length moved = steps ->
  pre = rev rest ++ rev moved
  /\ take (length pre - steps) pre = rev rest
  /\ drop (length pre - steps) pre = rev moved.
Proof.
  intros Hrev Hlen.
  assert (Hpre : pre = rev rest ++ rev moved).
  { rewrite <- (rev_involutive pre), Hrev. apply rev_app_distr. }
  split; [exact Hpre |].
  assert (Hkeep : (length pre - steps)%nat = length (rev rest)).
  { rewrite Hpre, List.length_app, !length_rev. lia. }
  rewrite Hkeep, Hpre. split; [apply take_app_length | apply drop_app_length].
Qed.

(** X10. One recorded access and the order of the cache list. On a consistent
    replacer whose cache list is in order, [RecordAccess] leaves the cache
    list in order in every case but one: the frame gets its K-th access
    while every cached frame has a newer K-th timestamp. The loop of case
    (3) then ends without a [break], the frame is put at the front, and the
    list is out of order. *)
Theorem RecordAccess_cache_order (r r' : t) (f : Z) :
  wf r -> ts_wf r -> cache_ordered r ->
  current_timestamp_ r + 1 < size_modulus ->
  RecordAccess f r = Ret tt r' ->
  cache_ordered r'
  \/ (cache_frames_ r <> []
      /\ cache_frames_ r' = f :: cache_frames_ r
      /\ (forall e, e ∈ cache_frames_ r -> newer (node_store_ r') e f)
      /\ ~ cache_ordered r').
Proof.
  intros Hwf Hts Hord Hnext Hrun.
  pose proof (wf_k r Hwf) as Hk.
  pose proof (RecordAccess_ts_wf r r' f Hk Hts Hnext Hrun) as Hts'.
  assert (Hnotcached : forall n, node_store_ r !! f = Some n ->
            Z.of_nat (length (history_ n)) <> k_ r -> f ∉ cache_frames_ r).
  { intros n Hn Hlen Hin. apply (wf_cache r Hwf) in Hin as (m & Hm & Hlenm).
    rewrite Hn in Hm. injection Hm as <-. contradiction. }
  unfold cache_ordered in *.
  destruct (RecordAccess_cases r r' f Hk Hrun)
    as [(Hnone & ->) | (n & Hn & [(Hlen & ->) | [(Hlen & Hc) | [(Hlen & Hc) | (_ & ->)]]])].
  - (* (1) *)
    left. unfold recorded. rsimpl. apply ordered_insert_ne; [| exact Hord].
    intros Hin. apply (wf_cache r Hwf) in Hin as (m & Hm & _). congruence.
  - (* (2) *)
    left. unfold recorded. rsimpl. apply ordered_insert_ne; [| exact Hord].
    apply (Hnotcached n Hn). lia.
  - (* (3) *)
    destruct Hc as (pre & post & l1 & l2 & kts & _ & Hcache & Hkts & -> & Hscan).
    assert (Hnotin : f ∉ cache_frames_ r) by (apply (Hnotcached n Hn); lia).
    set (ns' := <[f := push_history (current_timestamp_ r) n]> (node_store_ r)) in *.
    assert (Hstore : node_store_ (recorded f (push_history (current_timestamp_ r) n)
                        (pre ++ post) (new_frames_locator_ r ∖ {[f]}) (l1 ++ f :: l2)
                        ({[f]} ∪ cache_frames_locator_ r) r) = ns') by reflexivity.
    assert (Hf : kth_timestamp ns' f = Some kts)
      by (unfold ns'; rewrite kth_timestamp_insert_eq; exact Hkts).
    assert (Hdistinct : forall a ta, a ∈ cache_frames_ r ->
              kth_timestamp ns' a = Some ta -> ta <> kts).
    { intros a ta Ha Hta. eapply (kth_distinct _ a f ta kts Hts'); [| exact Hta | exact Hf].
      intros ->. contradiction. }
    assert (Hord' : StronglySorted (newer ns') (cache_frames_ r))
      by (apply ordered_insert_ne; assumption).
    unfold recorded. rsimpl. fold ns'.
    destruct Hscan as [(-> & Hscan) | (id & after & -> & Hsplit & Hscan)].
    + (* the loop ends without a break *)
      pose proof (promote_scan_None _ _ _ Hscan) as Hall.
      cbn [app] in Hcache. subst l2. cbn [app].
      destruct (cache_frames_ r) as [| e rest] eqn:Hlist.
      * left. repeat constructor.
      * right. split; [discriminate |]. split; [reflexivity |].
        assert (Hnewer : forall a, a ∈ e :: rest -> newer ns' a f).
        { intros a Ha. destruct (Hall a Ha) as (ta & Hta & Hle).
          exists ta, kts. split; [exact Hta |]. split; [exact Hf |].
          pose proof (Hdistinct a ta Ha Hta). lia. }
        split; [exact Hnewer |].
        intros Hs. apply StronglySorted_cons in Hs as (Hfe & _).
        apply Forall_cons in Hfe as ((tf & te & Htf & Hte & Hlt) & _).
        destruct (Hall e) as (te' & Hte' & Hle); [left |].
        rewrite Hf in Htf. injection Htf as <-.
        rewrite Hte in Hte'. injection Hte' as <-. lia.
    + (* the loop breaks at [id] *)
      destruct (promote_scan_Some _ _ _ _ Hscan)
        as (before & after' & Hlist & Hsplit' & Hbefore & Hid).
      destruct (split_at_unique _ _ _ _ _ _ Hsplit Hsplit') as (-> & ->).
      left. rewrite Hlist in Hord', Hdistinct.
      apply (promotion_keeps_order ns' f id kts before after'); assumption.
  - (* (4) *)
    destruct Hc as (pre & post & steps & kts & Hcache & Hkts & Hscan & ->).
    set (n' := mkNode (pop_back (current_timestamp_ r :: history_ n)) (is_evictable_ n)) in *.
    set (ns' := <[f := n']> (node_store_ r)) in *.
    assert (Hf : kth_timestamp ns' f = Some kts)
      by (unfold ns'; rewrite kth_timestamp_insert_eq; exact Hkts).
    pose proof (wf_cache_nodup r Hwf) as Hnd. rewrite Hcache in Hnd, Hord.
    destruct (NoDup_erase _ _ _ Hnd) as (_ & Hmem).
    assert (Hnotin : f ∉ pre ++ post) by (intros H; apply Hmem in H as [_ H]; congruence).
    destruct (reposition_scan_Some _ _ _ _ Hscan) as (moved & rest & Hrev & Hlen' & Hmoved & Hrest).
    destruct (reposition_parts pre moved rest steps Hrev Hlen') as (Hpre & Htake & Hdrop).
    left. unfold recorded. rsimpl. fold n' ns'. rewrite Htake, Hdrop.
    assert (Hord' : StronglySorted (newer ns') (rev rest ++ rev moved ++ post)).
    { rewrite app_assoc, <- Hpre. apply ordered_insert_ne; [exact Hnotin |].
      eapply StronglySorted_without, Hord. }
    assert (Hne : forall a, a ∈ pre ++ post -> a <> f) by (intros a Ha ->; contradiction).
    apply (reposition_keeps_order ns' f kts (rev rest) (rev moved) post).
    + intros a ta Ha Hta. rewrite app_assoc, <- Hpre in Ha.
      eapply (kth_distinct _ a f ta kts Hts'); [apply Hne, Ha | exact Hta | exact Hf].
    + exact Hf.
    + exact Hord'.
    + intros e He. apply elem_of_app in He as [He | He].
      * apply Hmoved. rewrite <- elem_of_rev. exact He.
      * (* a frame behind the old position is older than the old K-th
           timestamp, which is older than the new one *)
        apply StronglySorted_app_1_r, StronglySorted_cons in Hord as (Hbehind & _).
        eapply Forall_forall in Hbehind as (tf & te & Htf & Hte & Hlt); [| exact He].
        assert (He' : e <> f) by (apply Hne, elem_of_app; right; exact He).
        exists te. split; [unfold ns'; rewrite kth_timestamp_insert_ne by exact He'; exact Hte |].
        apply kth_timestamp_elem in Htf as (m & Hm & Hback & _).
        rewrite Hn in Hm. injection Hm as <-.
        assert (tf <= kts); [| lia].
        apply back_elem, pop_back_elem, elem_of_cons in Hkts as [-> | Hin].
        -- pose proof (ts_past r Hts f n tf Hn (back_elem _ _ Hback)). lia.
        -- eapply back_oldest; [eapply (ts_descending r Hts), Hn | exact Hback | exact Hin].
    + destruct rest as [| e0 rest0]; [exact I |].
      cbn [rev]. rewrite last_snoc. exact Hrest.
  - left. rsimpl. exact Hord.
Qed.

(** ** Runs of recorded accesses *)

Lemma init_ts_wf (num_frames k : Z) : ts_wf (init num_frames k).
Proof.
  constructor; unfold init; rsimpl.
  - unfold size_modulus. lia.
  - intros f n Hn. rewrite lookup_empty in Hn. discriminate.
  - intros f n ts Hn. rewrite lookup_empty in Hn. discriminate.
  - intros f g n m ts Hn. rewrite lookup_empty in Hn. discriminate.
Qed.

Lemma init_cache_ordered (num_frames k : Z) : cache_ordered (init num_frames k).
Proof. unfold cache_ordered, init. rsimpl. constructor. Qed.

Lemma RecordAccess_tick (r r' : t) (f : Z) :
  2 <= k_ r < size_modulus ->
  RecordAccess f r = Ret tt r' ->
  replacer_size_ r' = replacer_size_ r
  /\ current_timestamp_ r' = size_wrap (current_timestamp_ r + 1).
Proof.
  intros Hk Hrun.
  destruct (RecordAccess_cases r r' f Hk Hrun)
    as [(_ & ->) | (n & _ & [(_ & ->) | [(_ & Hc) | [(_ & Hc) | (_ & ->)]]])].
  - split; reflexivity.
  - split; reflexivity.
  - destruct Hc as (pre & post & l1 & l2 & kts & _ & _ & _ & -> & _). split; reflexivity.
  - destruct Hc as (pre & post & steps & kts & _ & _ & _ & ->). split; reflexivity.
  - split; reflexivity.
Qed.

(** Every run of [RecordAccess] calls on frame ids the guard lets through
    returns, and keeps the replacer and its timestamps consistent, as long
    as the counter does not wrap. *)
Lemma record_all_wf (frames : list Z) (r : t) :
  wf r -> ts_wf r ->
  current_timestamp_ r + Z.of_nat (length frames) < size_modulus ->
  (forall f, f ∈ frames -> f <= static_cast_int (replacer_size_ r)) ->
  exists r',
    record_all frames r = Ret tt r' /\ wf r' /\ ts_wf r'
    /\ current_timestamp_ r' = current_timestamp_ r + Z.of_nat (length frames).
Proof.
  revert r. induction frames as [| f frames IH]; intros r Hwf Hts Hroom Hids.
  - exists r. cbn. split; [reflexivity |]. split; [exact Hwf |]. split; [exact Hts | lia].
  - cbn [length] in Hroom.
    destruct (RecordAccess_wf r f Hwf) as (r1 & Hrun & Hwf1); [apply Hids; left |].
    pose proof (wf_k r Hwf) as Hk.
    destruct (RecordAccess_tick r r1 f Hk Hrun) as (Hsize & Htick).
    pose proof (ts_room r Hts) as H0.
    unfold size_wrap in Htick. rewrite Z.mod_small in Htick by lia.
    assert (Hts1 : ts_wf r1) by (apply (RecordAccess_ts_wf r r1 f Hk Hts); [lia | exact Hrun]).
    destruct (IH r1 Hwf1 Hts1) as (r' & Hrest & Hwf' & Hts' & Hstamp).
    + lia.
    + intros g Hg. rewrite Hsize. apply Hids. right. exact Hg.
    + exists r'. cbn [record_all]. rewrite (bind_Ret _ _ _ _ _ Hrun).
      split; [exact Hrest |]. split; [exact Hwf' |]. split; [exact Hts' |].
      cbn [length]. lia.
Qed.

End ReplacerFacts.
(** * Properties of the page guards *)

Module GuardFacts.

Import BufferPool GuardSpec.

Lemma frame_at_Ret s f fh :
  0 <= f -> frames_ s !! Z.to_nat f = Some fh -> frame_at f s = Ret fh s.
Proof.
  intros Hf Hfh. unfold frame_at.
  destruct (Z.ltb_spec f 0); [lia |]. rewrite Hfh. reflexivity.
Qed.

Lemma frame_at_inv s f fh s' :
  frame_at f s = Ret fh s' -> s' = s /\ 0 <= f /\ frames_ s !! Z.to_nat f = Some fh.
Proof.
  unfold frame_at. destruct (Z.ltb_spec f 0); [discriminate |].
  destruct (frames_ s !! Z.to_nat f) eqn:E; [| discriminate].
  intros [= -> ->]. auto.
Qed.

Lemma update_frame_Ret s f fh upd :
  0 <= f -> frames_ s !! Z.to_nat f = Some fh ->
  update_frame f upd s = Ret tt (set_frames (<[Z.to_nat f := upd fh]> (frames_ s)) s).
Proof.
  intros Hf Hfh. unfold update_frame.
  rewrite (bind_Ret _ _ _ _ _ (frame_at_Ret _ _ _ Hf Hfh)). reflexivity.
Qed.

Lemma on_rwlatch_Ret s f fh m l' :
  0 <= f -> frames_ s !! Z.to_nat f = Some fh ->
  m (FrameHeader.rwlatch_ fh) = Ret tt l' ->
  on_rwlatch f m s
  = Ret tt (set_frames (<[Z.to_nat f := FrameHeader.set_rwlatch l' fh]> (frames_ s)) s).
Proof.
  intros Hf Hfh Hm. unfold on_rwlatch.
  rewrite (bind_Ret _ _ _ _ _ (frame_at_Ret _ _ _ Hf Hfh)). rewrite Hm. reflexivity.
Qed.

Lemma on_replacer_Ret {A} (m : M LRUKReplacer.t A) s a r' :
  m (replacer_ s) = Ret a r' -> on_replacer m s = Ret a (set_replacer r' s).
Proof. intros H. unfold on_replacer, zoom. rewrite H. reflexivity. Qed.

Lemma release_Ret k l : holds k l -> PageGuard.release k l = Ret tt (released k l).
Proof.
  destruct k, l as [w n]; simpl.
  - intros Hn. unfold RWLatch.unlock_shared. simpl. destruct n; [congruence | reflexivity].
  - intros ->. reflexivity.
Qed.

(** [SetEvictable] always returns; a frame the replacer knows gets the flag
    it was given and keeps its history. *)
Lemma SetEvictable_Ret f b r :
  exists r',
    LRUKReplacer.SetEvictable f b r = Ret tt r'
    /\ (forall n, LRUKReplacer.node_store_ r !! f = Some n ->
          LRUKReplacer.node_store_ r' !! f
          = Some (LRUKReplacer.mkNode (LRUKReplacer.history_ n) b))
    /\ (LRUKReplacer.node_store_ r !! f = None -> r' = r).
Proof.
  unfold LRUKReplacer.SetEvictable.
  destruct (LRUKReplacer.node_store_ r !! f) as [n |] eqn:E.
  - eexists. split; [reflexivity |]. split; [| discriminate].
    intros n' [= <-]. simpl. apply lookup_insert_eq.
  - exists r. split; [reflexivity |]. split; [discriminate | reflexivity].
Qed.

Lemma Drop_invalid k g s : PageGuard.is_valid_ g = false -> PageGuard.Drop k g s = Ret g s.
Proof. intros H. unfold PageGuard.Drop. rewrite H. reflexivity. Qed.

Lemma Drop_invalidates k g s g' s' :
  PageGuard.Drop k g s = Ret g' s' -> PageGuard.is_valid_ g' = false.
Proof.
  unfold PageGuard.Drop.
  destruct (PageGuard.is_valid_ g) eqn:Hv; simpl.
  - destruct (PageGuard.frame_ g) as [f |]; [| discriminate].
    intros H.
    apply bind_Ret_inv in H as (? & ? & _ & H).
    apply bind_Ret_inv in H as (? & ? & _ & H).
    apply bind_Ret_inv in H as (? & ? & _ & H).
    apply bind_Ret_inv in H as (? & ? & _ & H).
    injection H as <- _. reflexivity.
  - intros [= <- _]. exact Hv.
Qed.


Lemma lookup_insert_frame (fs : list FrameHeader.t) i fh fh' :
  fs !! i = Some fh -> <[i := fh']> fs !! i = Some fh'.
Proof. intros H. apply list_lookup_insert_eq. eapply lookup_lt_Some, H. Qed.

Lemma size_wrap_small n : 0 <= n < 2 ^ 64 -> size_wrap n = n.
Proof. intros H. unfold size_wrap, size_modulus. apply Z.mod_small. exact H. Qed.

(** C5. Dropping a valid guard takes one pin off the frame, releases the
    frame's latch in the guard's mode, leaves the dirty flag and the rest of
    the frame alone, and calls [SetEvictable(frame, true)] exactly when the
    pin count has reached zero; nothing else in the pool changes, and the
    guard is left invalid. *)
Theorem Drop_valid_guard (k : guard_kind) (g : PageGuard.t) (s : t)
    (f : Z) (fh : FrameHeader.t) :
  PageGuard.is_valid_ g = true ->
  PageGuard.frame_ g = Some f ->
  PageGuard.replacer_ g = true ->
  0 <= f -> frames_ s !! Z.to_nat f = Some fh ->
  0 < FrameHeader.pin_count_ fh < 2 ^ 64 ->
  holds k (FrameHeader.rwlatch_ fh) ->
  exists r',
    PageGuard.Drop k g s
    = Ret (dropped g)
          (set_frames (<[Z.to_nat f := unpinned k fh]> (frames_ s)) (set_replacer r' s))
    /\ FrameHeader.pin_count_ (unpinned k fh) = FrameHeader.pin_count_ fh - 1
    /\ FrameHeader.is_dirty_ (unpinned k fh) = FrameHeader.is_dirty_ fh
    /\ (if FrameHeader.pin_count_ fh - 1 =? 0
        then LRUKReplacer.SetEvictable (FrameHeader.frame_id_ fh) true (replacer_ s)
             = Ret tt r'
             /\ forall n,
                  LRUKReplacer.node_store_ (replacer_ s) !! FrameHeader.frame_id_ fh = Some n ->
                  LRUKReplacer.node_store_ r' !! FrameHeader.frame_id_ fh
                  = Some (LRUKReplacer.mkNode (LRUKReplacer.history_ n) true)
        else r' = replacer_ s).
Proof.
  intros Hvalid Hframe Hrepl Hf Hfh Hpin Hheld.
  set (fh1 := FrameHeader.set_pin_count (FrameHeader.pin_count_ fh - 1) fh).
  set (s1 := set_frames (<[Z.to_nat f := fh1]> (frames_ s)) s).
  assert (Hfh1 : frames_ s1 !! Z.to_nat f = Some fh1)
    by (apply lookup_insert_frame with (fh := fh); exact Hfh).
  assert (Hstep1 : update_frame f
            (fun fh => FrameHeader.set_pin_count (size_wrap (FrameHeader.pin_count_ fh - 1)) fh) s
          = Ret tt s1).
  { rewrite (update_frame_Ret _ _ _ _ Hf Hfh).
    rewrite size_wrap_small by lia. reflexivity. }
  destruct (SetEvictable_Ret (FrameHeader.frame_id_ fh) true (replacer_ s))
    as (r1 & Hset & Hnode & _).
  set (r' := if FrameHeader.pin_count_ fh - 1 =? 0 then r1 else replacer_ s).
  exists r'.
  split; [| split; [reflexivity | split; [reflexivity |]]].
  - unfold PageGuard.Drop. rewrite Hvalid, Hframe. cbn [negb].
    rewrite (bind_Ret _ _ _ _ _ Hstep1).
    rewrite (bind_Ret _ _ _ _ _ (frame_at_Ret _ _ _ Hf Hfh1)).
    assert (Hstep2 :
      (if FrameHeader.pin_count_ fh1 =? 0
       then if PageGuard.replacer_ g
            then on_replacer (LRUKReplacer.SetEvictable (FrameHeader.frame_id_ fh1) true)
            else undefined
       else ret tt) s1 = Ret tt (set_replacer r' s1)).
    { rewrite Hrepl. subst r'. cbn [fh1 FrameHeader.set_pin_count FrameHeader.pin_count_
        FrameHeader.frame_id_].
      destruct (FrameHeader.pin_count_ fh - 1 =? 0).
      - apply on_replacer_Ret. exact Hset.
      - destruct s; reflexivity. }
    rewrite (bind_Ret _ _ _ _ _ Hstep2).
    assert (Hfh2 : frames_ (set_replacer r' s1) !! Z.to_nat f = Some fh1) by exact Hfh1.
    rewrite (bind_Ret _ _ _ _ _
               (on_rwlatch_Ret _ _ _ _ _ Hf Hfh2 (release_Ret k _ Hheld))).
    unfold ret, dropped. f_equal.
    destruct s; cbn. unfold set_frames, set_replacer; cbn. f_equal.
    apply list_insert_insert_eq.
  - subst r'. destruct (FrameHeader.pin_count_ fh - 1 =? 0); [| reflexivity].
    split; [exact Hset | exact Hnode].
Qed.

(** C8. Dropping a guard twice is dropping it once, whatever the guard and
    the pool are; and a guard that is not valid is dropped without any
    change. *)
Theorem Drop_idempotent (k : guard_kind) (g : PageGuard.t) (s : t) :
  (g' <- PageGuard.Drop k g;; PageGuard.Drop k g')%cpp s = PageGuard.Drop k g s
  /\ PageGuard.Drop k (PageGuard.mk (PageGuard.page_id_ g) (PageGuard.frame_ g)
                         (PageGuard.replacer_ g) (PageGuard.bpm_latch_ g) false) s
     = Ret (PageGuard.mk (PageGuard.page_id_ g) (PageGuard.frame_ g)
              (PageGuard.replacer_ g) (PageGuard.bpm_latch_ g) false) s.
Proof.
  split; [| reflexivity].
  unfold bind at 1.
  destruct (PageGuard.Drop k g s) as [g' s' | | |] eqn:E; try reflexivity.
  apply Drop_invalid. eapply Drop_invalidates, E.
Qed.


Lemma move_from_valid_source (k : guard_kind) (this that this0 : PageGuard.t)
    (s s1 : t) (f : Z) (fh : FrameHeader.t) :
  PageGuard.is_valid_ that = true ->
  PageGuard.frame_ that = Some f ->
  PageGuard.replacer_ that = true ->
  PageGuard.Drop k this s = Ret this0 s1 ->
  0 <= f -> frames_ s1 !! Z.to_nat f = Some fh ->
  exists r',
    LRUKReplacer.SetEvictable (FrameHeader.frame_id_ fh) false (replacer_ s1) = Ret tt r'
    /\ PageGuard.move_from k this that s = Ret (that, moved_from that) (set_replacer r' s1).
Proof.
  intros Hvalid Hframe Hrepl Hdrop Hf Hfh.
  destruct (SetEvictable_Ret (FrameHeader.frame_id_ fh) false (replacer_ s1))
    as (r' & Hset & _).
  exists r'. split; [exact Hset |].
  unfold PageGuard.move_from.
  rewrite (bind_Ret _ _ _ _ _ Hdrop). cbn [PageGuard.replacer_ PageGuard.frame_].
  rewrite Hrepl, Hframe.
  rewrite (bind_Ret _ _ _ _ _ (frame_at_Ret _ _ _ Hf Hfh)).
  rewrite (bind_Ret _ _ _ _ _ (on_replacer_Ret _ _ _ _ Hset)).
  unfold ret. destruct that; cbn in *. subst. reflexivity.
Qed.


End GuardFacts.

(** * Properties of the buffer pool manager *)

Module PoolFacts.

Import BufferPool BufferPoolManager GuardSpec PoolSpec GuardFacts.

Lemma on_disk_Ret {A} (m : M DiskScheduler.t A) s a d' :
  m (disk_scheduler_ s) = Ret a d' -> on_disk m s = Ret a (set_disk_scheduler d' s).
Proof. intros H. unfold on_disk, zoom. rewrite H. reflexivity. Qed.

Lemma scoped_lock_Ret {A} (body : M t A) s a s' :
  bpm_latch_ s = false ->
  body (set_bpm_latch true s) = Ret a s' ->
  scoped_lock body s = Ret a (set_bpm_latch false s').
Proof. intros Hl Hb. unfold scoped_lock. rewrite Hl, Hb. reflexivity. Qed.

Lemma relock_free s : bpm_latch_ s = false -> set_bpm_latch false s = s.
Proof. destruct s; cbn. intros ->. reflexivity. Qed.

(** C7. [FlushPage] returns [false] exactly when the page is not in the
    page table. For a resident page whose frame is dirty, the frame's bytes
    are written through the scheduler and the write is complete on return;
    for a clean one nothing happens. No frame changes: the dirty flag is as
    it was. *)
Theorem FlushPage_spec (s : t) (page_id : Z) :
  (forall f, page_table_ s !! page_id = Some f ->
             0 <= f /\ is_Some (frames_ s !! Z.to_nat f)) ->
  exists b s',
    FlushPage page_id s = Ret b s'
    /\ (b = false <-> page_table_ s !! page_id = None)
    /\ frames_ s' = frames_ s
    /\ match page_table_ s !! page_id with
       | None => s' = s
       | Some f =>
           forall fh, frames_ s !! Z.to_nat f = Some fh ->
             s' = if FrameHeader.is_dirty_ fh
                  then written page_id (FrameHeader.data_ fh) s
                  else s
       end.
Proof.
  intros Hwf. unfold FlushPage, get. cbn [bind].
  destruct (page_table_ s !! page_id) as [f |] eqn:Hpt.
  - destruct (Hwf f eq_refl) as (Hf & fh & Hfh).
    rewrite (bind_Ret _ _ _ _ _ (frame_at_Ret _ _ _ Hf Hfh)).
    destruct (FrameHeader.is_dirty_ fh) eqn:Hd.
    + exists true, (written page_id (FrameHeader.data_ fh) s).
      split; [reflexivity |]. split; [split; discriminate |].
      split; [reflexivity |].
      intros fh' Hfh'. rewrite Hfh in Hfh'. injection Hfh' as <-.
      rewrite Hd. reflexivity.
    + exists true, s.
      split; [reflexivity |]. split; [split; discriminate |].
      split; [reflexivity |].
      intros fh' Hfh'. rewrite Hfh in Hfh'. injection Hfh' as <-.
      rewrite Hd. reflexivity.
  - exists false, s. repeat split; reflexivity.
Qed.


(** The body of [DeletePage], for a call that gets the pool latch. A page
    that is not resident: the deallocation hint is passed on, nothing else
    changes, [true]. A resident page with pins: [false], and the pool is
    exactly as before. A resident page without pins, in a consistent
    replacer that has the frame evictable or does not know it: the frame is
    reset, the page table entry erased, the frame appended to the free list,
    the frame's node removed from the replacer, the hint passed on,
    [true]. *)
Lemma DeletePage_spec (s : t) (page_id : Z) :
  bpm_latch_ s = false ->
  match page_table_ s !! page_id with
  | None => DeletePage page_id s = Ret true (hinted page_id s)
  | Some f =>
      forall fh, 0 <= f -> frames_ s !! Z.to_nat f = Some fh ->
        if FrameHeader.pin_count_ fh >? 0
        then DeletePage page_id s = Ret false s
        else ReplacerSpec.wf (replacer_ s) ->
             (forall n, LRUKReplacer.node_store_ (replacer_ s) !! f = Some n ->
                        LRUKReplacer.is_evictable_ n = true) ->
             exists r',
               LRUKReplacer.Remove f (replacer_ s) = Ret tt r'
               /\ LRUKReplacer.node_store_ r' !! f = None
               /\ DeletePage page_id s = Ret true (deleted page_id f fh r' s)
  end.
Proof.
  intros Hlatch.
  destruct (page_table_ s !! page_id) as [f |] eqn:Hpt.
  - intros fh Hf Hfh.
    assert (Hfh' : frames_ (set_bpm_latch true s) !! Z.to_nat f = Some fh) by exact Hfh.
    destruct (FrameHeader.pin_count_ fh >? 0) eqn:Hpin.
    + unfold DeletePage.
      erewrite scoped_lock_Ret; [| exact Hlatch |].
      2:{ unfold get. cbn [bind]. cbn [page_table_ set_bpm_latch]. rewrite Hpt.
          rewrite (bind_Ret _ _ _ _ _ (frame_at_Ret _ _ _ Hf Hfh')).
          rewrite Hpin. reflexivity. }
      f_equal. destruct s; cbn in *; subst. reflexivity.
    + intros Hwf Hev.
      destruct (ReplacerFacts.Remove_wf _ _ Hwf Hev) as (r' & Hremove & _ & Hgone).
      exists r'. split; [exact Hremove |]. split; [exact Hgone |].
      unfold DeletePage.
      erewrite scoped_lock_Ret; [| exact Hlatch |].
      2:{ unfold get. cbn [bind]. cbn [page_table_ set_bpm_latch]. rewrite Hpt.
          rewrite (bind_Ret _ _ _ _ _ (frame_at_Ret _ _ _ Hf Hfh')).
          rewrite Hpin.
          rewrite (bind_Ret _ _ _ _ _ (update_frame_Ret _ _ _ _ Hf Hfh')).
          unfold modify. cbn [bind].
          erewrite bind_Ret; [| apply on_replacer_Ret; cbn; exact Hremove].
          erewrite bind_Ret; [| apply on_disk_Ret; reflexivity].
          reflexivity. }
      f_equal. destruct s; cbn in *; subst. reflexivity.
  - unfold DeletePage.
    erewrite scoped_lock_Ret; [| exact Hlatch |].
    2:{ unfold get. cbn [bind]. cbn [page_table_ set_bpm_latch]. rewrite Hpt.
        erewrite bind_Ret; [| apply on_disk_Ret; reflexivity].
        reflexivity. }
    f_equal. destruct s; cbn in *; subst. reflexivity.
Qed.


(** ** Handing out a guard *)

Lemma acquire_Ret_held k l l' :
  PageGuard.acquire k l = Ret tt l' -> holds k l'.
Proof.
  destruct k, l as [w n]; cbn.
  - unfold RWLatch.lock_shared. cbn. destruct w; [discriminate |].
    intros [= <-]. cbn. congruence.
  - unfold RWLatch.lock. cbn. destruct (w || negb (n =? 0)%nat); [discriminate |].
    intros [= <-]. reflexivity.
Qed.

Lemma pin_and_guard_Ret (k : guard_kind) (page_id f : Z) (s : t)
    (fh : FrameHeader.t) (l' : RWLatch.t) (r' : LRUKReplacer.t) :
  0 <= f -> frames_ s !! Z.to_nat f = Some fh ->
  replacer_on_pin f (FrameHeader.frame_id_ fh) (replacer_ s) = Ret tt r' ->
  PageGuard.acquire k (FrameHeader.rwlatch_ fh) = Ret tt l' ->
  pin_and_guard k page_id f s
  = Ret (Some (guard_on page_id f))
        (set_replacer r' (set_frames (<[Z.to_nat f := pinned k page_id l' fh]> (frames_ s)) s)).
Proof.
  intros Hf Hfh Hrepl Hacq.
  unfold replacer_on_pin in Hrepl.
  apply bind_Ret_inv in Hrepl as ([] & r1 & Hrec & Hrepl).
  apply bind_Ret_inv in Hrepl as ([] & r2 & Hset1 & Hset2).
  unfold pin_and_guard.
  rewrite (bind_Ret _ _ _ _ _ (update_frame_Ret _ _ _ _ Hf Hfh)).
  erewrite bind_Ret; [| apply on_replacer_Ret; exact Hrec].
  erewrite bind_Ret; [| apply on_replacer_Ret; exact Hset1].
  set (fh1 := FrameHeader.set_page_id page_id
                (FrameHeader.set_pin_count (size_wrap (FrameHeader.pin_count_ fh + 1)) fh)).
  match goal with |- bind _ _ ?s0 = _ => set (s1 := s0) end.
  assert (Hfh1 : frames_ s1 !! Z.to_nat f = Some fh1)
    by (apply lookup_insert_frame with (fh := fh); exact Hfh).
  assert (Hconstruct : exists fh2 s2,
            PageGuard.construct k page_id f s1 = Ret (guard_on page_id f) s2
            /\ s2 = set_frames (<[Z.to_nat f := fh2]> (frames_ s1)) s1
            /\ fh2 = pinned k page_id l' fh).
  { unfold PageGuard.construct. destruct k.
    - cbn [bind ret].
      erewrite bind_Ret; [| eapply on_rwlatch_Ret; [exact Hf | exact Hfh1 | exact Hacq]].
      eexists _, _. split; [reflexivity |]. split; reflexivity.
    - rewrite (bind_Ret _ _ _ _ _ (update_frame_Ret _ _ _ _ Hf Hfh1)).
      erewrite bind_Ret.
      2:{ eapply on_rwlatch_Ret;
            [exact Hf | apply lookup_insert_frame with (fh := fh1); exact Hfh1 | exact Hacq]. }
      eexists _, _. split; [reflexivity |]. split.
      + cbn [set_frames frames_]. rewrite list_insert_insert_eq. reflexivity.
      + reflexivity. }
  destruct Hconstruct as (fh2 & s2 & Hcon & -> & ->).
  rewrite (bind_Ret _ _ _ _ _ Hcon).
  match goal with |- bind _ _ ?s0 = _ => set (s2 := s0) end.
  assert (Hfh2 : frames_ s2 !! Z.to_nat f = Some (pinned k page_id l' fh))
    by (apply lookup_insert_frame with (fh := fh1); exact Hfh1).
  destruct (move_from_valid_source k PageGuard.empty (guard_on page_id f) PageGuard.empty
              s2 s2 f _ eq_refl eq_refl eq_refl eq_refl Hf Hfh2)
    as (r'' & Hset & Hmove).
  assert (r'' = r') as -> by (cbn in Hset; congruence).
  unfold PageGuard.move_construct.
  rewrite (bind_Ret _ _ _ _ _ Hmove). cbn [snd fst].
  erewrite bind_Ret; [| apply Drop_invalid; reflexivity].
  unfold ret. f_equal.
  subst s2 s1. destruct s; cbn. unfold set_replacer, set_frames; cbn. f_equal.
  rewrite list_insert_insert_eq. reflexivity.
Qed.

(** ** The paths of [CheckedPage] *)

Lemma FlushPage_Ret (s : t) (page_id : Z) :
  (forall f, page_table_ s !! page_id = Some f ->
             0 <= f /\ is_Some (frames_ s !! Z.to_nat f)) ->
  exists b, FlushPage page_id s = Ret b (after_flush page_id s).
Proof.
  intros Hwf. unfold FlushPage, after_flush, get. cbn [bind].
  destruct (page_table_ s !! page_id) as [f |] eqn:Hpt.
  - destruct (Hwf f eq_refl) as (Hf & fh & Hfh).
    rewrite (bind_Ret _ _ _ _ _ (frame_at_Ret _ _ _ Hf Hfh)). rewrite Hfh.
    destruct (FrameHeader.is_dirty_ fh); eexists; reflexivity.
  - eexists; reflexivity.
Qed.

Lemma after_flush_cases (page_id : Z) (s : t) :
  after_flush page_id s = s
  \/ exists data, after_flush page_id s = written page_id data s.
Proof.
  unfold after_flush.
  destruct (page_table_ s !! page_id) as [f |]; [| left; reflexivity].
  destruct (frames_ s !! Z.to_nat f) as [fh |]; [| left; reflexivity].
  destruct (FrameHeader.is_dirty_ fh); [right; eexists; reflexivity | left; reflexivity].
Qed.

Lemma after_flush_frames (page_id : Z) (s : t) :
  frames_ (after_flush page_id s) = frames_ s.
Proof. destruct (after_flush_cases page_id s) as [-> | [data ->]]; reflexivity. Qed.

Lemma after_flush_page_table (page_id : Z) (s : t) :
  page_table_ (after_flush page_id s) = page_table_ s.
Proof. destruct (after_flush_cases page_id s) as [-> | [data ->]]; reflexivity. Qed.

Lemma after_flush_replacer (page_id : Z) (s : t) :
  replacer_ (after_flush page_id s) = replacer_ s.
Proof. destruct (after_flush_cases page_id s) as [-> | [data ->]]; reflexivity. Qed.

Lemma after_flush_latch (page_id : Z) (s : t) :
  bpm_latch_ (after_flush page_id s) = bpm_latch_ s.
Proof. destruct (after_flush_cases page_id s) as [-> | [data ->]]; reflexivity. Qed.

Lemma CheckedPage_latch_held k page_id s :
  bpm_latch_ s = true -> CheckedPage k page_id s = Blocks s.
Proof. intros H. unfold CheckedPage, bind, lock_latch. rewrite H. reflexivity. Qed.

Lemma CheckedPage_hit k page_id s f :
  bpm_latch_ s = false ->
  page_table_ s !! page_id = Some f ->
  CheckedPage k page_id s = pin_and_guard k page_id f (set_bpm_latch true s).
Proof.
  intros Hl Hpt. unfold CheckedPage, bind at 1, lock_latch. rewrite Hl.
  unfold get. cbn [bind]. cbn [page_table_ set_bpm_latch]. rewrite Hpt. reflexivity.
Qed.

Lemma CheckedPage_free_frame k page_id s f rest fh :
  bpm_latch_ s = false ->
  page_table_ s !! page_id = None ->
  free_frames_ s = f :: rest ->
  0 <= f -> frames_ s !! Z.to_nat f = Some fh ->
  CheckedPage k page_id s
  = pin_and_guard k page_id f
      (loaded page_id f fh (set_free_frames rest (set_bpm_latch true s))).
Proof.
  intros Hl Hpt Hfree Hf Hfh. unfold CheckedPage, bind at 1, lock_latch. rewrite Hl.
  unfold get. cbn [bind]. cbn [page_table_ set_bpm_latch]. rewrite Hpt.
  assert (Htake : take_frame page_id (set_bpm_latch true s)
                  = Ret (Some f)
                      (set_page_table (<[page_id := f]> (page_table_ s))
                         (set_free_frames rest (set_bpm_latch true s)))).
  { unfold take_frame, get. cbn [bind]. cbn [free_frames_ set_bpm_latch]. rewrite Hfree.
    reflexivity. }
  rewrite (bind_Ret _ _ _ _ _ Htake).
  erewrite bind_Ret; [| apply frame_at_Ret; [exact Hf | exact Hfh]].
  erewrite bind_Ret; [| apply on_disk_Ret; reflexivity].
  erewrite bind_Ret; [| apply update_frame_Ret; [exact Hf | exact Hfh]].
  reflexivity.
Qed.

Lemma CheckedPage_no_frame k page_id s r1 :
  bpm_latch_ s = false ->
  page_table_ s !! page_id = None ->
  free_frames_ s = [] ->
  LRUKReplacer.Evict (replacer_ s) = Ret None r1 ->
  CheckedPage k page_id s = Ret None (set_replacer r1 s).
Proof.
  intros Hl Hpt Hfree Hev. unfold CheckedPage, bind at 1, lock_latch. rewrite Hl.
  unfold get. cbn [bind]. cbn [page_table_ set_bpm_latch]. rewrite Hpt.
  assert (Htake : take_frame page_id (set_bpm_latch true s)
                  = Ret None (set_bpm_latch false (set_replacer r1 (set_bpm_latch true s)))).
  { unfold take_frame, get. cbn [bind]. cbn [free_frames_ set_bpm_latch]. rewrite Hfree.
    erewrite bind_Ret; [| apply on_replacer_Ret; exact Hev].
    reflexivity. }
  rewrite (bind_Ret _ _ _ _ _ Htake).
  unfold ret. f_equal. destruct s; cbn in *; subst. reflexivity.
Qed.

Lemma CheckedPage_evict k page_id s f fh r1 :
  bpm_latch_ s = false ->
  page_table_ s !! page_id = None ->
  free_frames_ s = [] ->
  LRUKReplacer.Evict (replacer_ s) = Ret (Some f) r1 ->
  0 <= f -> frames_ s !! Z.to_nat f = Some fh ->
  (forall f', page_table_ s !! FrameHeader.page_id_ fh = Some f' ->
              0 <= f' /\ is_Some (frames_ s !! Z.to_nat f')) ->
  let s1 := after_flush (FrameHeader.page_id_ fh) (set_replacer r1 (set_bpm_latch true s)) in
  CheckedPage k page_id s
  = pin_and_guard k page_id f
      (loaded page_id f fh
         (set_page_table (delete (FrameHeader.page_id_ fh) (page_table_ s1)) s1)).
Proof.
  intros Hl Hpt Hfree Hev Hf Hfh Hwf s1.
  unfold CheckedPage, bind at 1, lock_latch. rewrite Hl.
  unfold get. cbn [bind]. cbn [page_table_ set_bpm_latch]. rewrite Hpt.
  destruct (FlushPage_Ret (set_replacer r1 (set_bpm_latch true s)) (FrameHeader.page_id_ fh) Hwf)
    as (b & Hflush). fold s1 in Hflush.
  assert (Hframes : frames_ s1 = frames_ s)
    by (subst s1; rewrite after_flush_frames; reflexivity).
  assert (Htake : take_frame page_id (set_bpm_latch true s)
                  = Ret (Some f)
                      (set_page_table (<[page_id := f]>
                         (delete (FrameHeader.page_id_ fh) (page_table_ s1))) s1)).
  { unfold take_frame, get. cbn [bind]. cbn [free_frames_ set_bpm_latch]. rewrite Hfree.
    erewrite bind_Ret; [| apply on_replacer_Ret; exact Hev]. cbv beta iota.
    erewrite bind_Ret; [| apply frame_at_Ret; [exact Hf | exact Hfh]].
    rewrite (bind_Ret _ _ _ _ _ Hflush). reflexivity. }
  rewrite (bind_Ret _ _ _ _ _ Htake).
  erewrite bind_Ret; [| apply frame_at_Ret; [exact Hf | cbn; rewrite Hframes; exact Hfh]].
  erewrite bind_Ret; [| apply on_disk_Ret; reflexivity].
  erewrite bind_Ret; [| apply update_frame_Ret; [exact Hf | cbn; rewrite Hframes; exact Hfh]].
  f_equal.
Qed.

(** ** Eviction of a dirty frame *)

Lemma Evict_Some (r r1 : LRUKReplacer.t) (f : Z) :
  LRUKReplacer.Evict r = Ret (Some f) r1 ->
  LRUKReplacer.node_store_ r1 !! f = None
  /\ LRUKReplacer.replacer_size_ r1 = LRUKReplacer.replacer_size_ r.
Proof.
  unfold LRUKReplacer.Evict.
  destruct (LRUKReplacer.evict_scan (rev (LRUKReplacer.new_frames_ r)) _) as [[f1 |] ns1].
  - destruct (LRUKReplacer.erase_located f1 _ _) as [[pre post] |]; [| discriminate].
    intros [= -> <-]. cbn. split; [apply lookup_delete_eq | reflexivity].
  - destruct (LRUKReplacer.evict_scan (rev (LRUKReplacer.cache_frames_ r)) _) as [[f2 |] ns2].
    + destruct (LRUKReplacer.erase_located f2 _ _) as [[pre post] |]; [| discriminate].
      intros [= -> <-]. cbn. split; [apply lookup_delete_eq | reflexivity].
    + discriminate.
Qed.

Lemma replacer_on_pin_fresh (r : LRUKReplacer.t) (f stored : Z) :
  LRUKReplacer.node_store_ r !! f = None ->
  f <= static_cast_int (LRUKReplacer.replacer_size_ r) ->
  exists r', replacer_on_pin f stored r = Ret tt r'.
Proof.
  intros Hnone Hle. unfold replacer_on_pin.
  assert (Hrec : exists r1, LRUKReplacer.RecordAccess f r = Ret tt r1).
  { unfold LRUKReplacer.RecordAccess.
    destruct (Z.gtb_spec f (static_cast_int (LRUKReplacer.replacer_size_ r))); [lia |].
    rewrite Hnone. eexists; reflexivity. }
  destruct Hrec as (r1 & Hrec).
  destruct (SetEvictable_Ret f false r1) as (r2 & Hset1 & _).
  destruct (SetEvictable_Ret stored false r2) as (r3 & Hset2 & _).
  exists r3.
  rewrite (bind_Ret _ _ _ _ _ Hrec), (bind_Ret _ _ _ _ _ Hset1). exact Hset2.
Qed.

Lemma flush_frames_spec (fs : list FrameHeader.t) (s : t) :
  exists d',
    flush_frames fs s = Ret tt (set_disk_scheduler d' s)
    /\ DiskScheduler.served_ d'
       = DiskScheduler.served_ (disk_scheduler_ s) ++ dirty_writes fs.
Proof.
  revert s. induction fs as [| fh fs IH]; intros s.
  - exists (disk_scheduler_ s). split.
    + destruct s; reflexivity.
    + unfold dirty_writes. cbn. rewrite app_nil_r. reflexivity.
  - cbn [flush_frames]. destruct (FrameHeader.is_dirty_ fh) eqn:Hd.
    + destruct (IH (written (FrameHeader.page_id_ fh) (FrameHeader.data_ fh) s))
        as (d' & Hrun & Hserved).
      exists d'. split.
      * erewrite bind_Ret; [| apply on_disk_Ret; reflexivity].
        etransitivity; [exact Hrun |]. destruct s; reflexivity.
      * rewrite Hserved. unfold dirty_writes. rewrite filter_cons_True by exact Hd.
        cbn. rewrite <- app_assoc. reflexivity.
    + cbn [bind ret]. destruct (IH s) as (d' & Hrun & Hserved).
      exists d'. split; [exact Hrun |].
      rewrite Hserved. unfold dirty_writes. rewrite filter_cons_False by congruence.
      reflexivity.
Qed.

(** [FlushAllPages], called with the latch free, asks for one write per
    dirty frame, in the order of the frames, under the page id the frame
    holds, and changes nothing but the disk. *)
Lemma FlushAllPages_spec (s : t) :
  bpm_latch_ s = false ->
  exists d',
    FlushAllPages s = Ret tt (set_disk_scheduler d' s)
    /\ DiskScheduler.served_ d'
       = DiskScheduler.served_ (disk_scheduler_ s) ++ dirty_writes (frames_ s).
Proof.
  intros Hl. destruct (flush_frames_spec (frames_ s) (set_bpm_latch true s))
    as (d' & Hrun & Hserved).
  exists d'. split; [| exact Hserved].
  unfold FlushAllPages.
  erewrite scoped_lock_Ret; [| exact Hl | unfold get; cbn [bind]; exact Hrun].
  f_equal. destruct s; cbn in *; subst. reflexivity.
Qed.

Lemma dirty_frame_written (fs : list FrameHeader.t) (i : nat) (fh : FrameHeader.t) :
  fs !! i = Some fh -> FrameHeader.is_dirty_ fh = true ->
  exists before after,
    dirty_writes fs = before ++ (true, FrameHeader.page_id_ fh) :: after.
Proof.
  intros Hfh Hd. apply list_elem_of_split. unfold dirty_writes.
  apply (list_elem_of_fmap_2 (fun fh => (true, FrameHeader.page_id_ fh))).
  apply list_elem_of_filter. split; [exact Hd |].
  eapply list_elem_of_lookup_2, Hfh.
Qed.

(** The body of a fetch that gets the pool latch and has to evict, a dirty
    frame being the replacer's victim: the victim's bytes are written to
    disk under its old page id, the frame is loaded with the new page from
    disk, and its dirty flag is still set. The read guard handed out says
    [IsDirty() = true] about a page nobody wrote to, and a [FlushAllPages]
    that got the latch and found the frame like that would write it to disk
    under the new page id. *)
Lemma dirty_flag_survives_eviction (s : t) (page_id f : Z)
    (fh : FrameHeader.t) (r1 : LRUKReplacer.t) :
  bpm_latch_ s = false ->
  page_table_ s !! page_id = None ->
  free_frames_ s = [] ->
  LRUKReplacer.Evict (replacer_ s) = Ret (Some f) r1 ->
  0 <= f -> frames_ s !! Z.to_nat f = Some fh ->
  page_table_ s !! FrameHeader.page_id_ fh = Some f ->
  FrameHeader.is_dirty_ fh = true ->
  RWLatch.writer (FrameHeader.rwlatch_ fh) = false ->
  f <= static_cast_int (LRUKReplacer.replacer_size_ (replacer_ s)) ->
  exists s' fh',
    CheckedReadPage page_id s = Ret (Some (guard_on page_id f)) s'
    /\ frames_ s' !! Z.to_nat f = Some fh'
    /\ FrameHeader.page_id_ fh' = page_id
    /\ FrameHeader.is_dirty_ fh' = true
    /\ FrameHeader.data_ fh' = read_bytes s page_id (FrameHeader.data_ fh)
    /\ DiskScheduler.pages_ (disk_scheduler_ s') !! FrameHeader.page_id_ fh
       = Some (FrameHeader.data_ fh)
    /\ ReadPageGuard.IsDirty (guard_on page_id f) s' = Ret true s'
    /\ forall t, bpm_latch_ t = false -> frames_ t = frames_ s' ->
         exists d' before after,
           FlushAllPages t = Ret tt (set_disk_scheduler d' t)
           /\ DiskScheduler.served_ d'
              = DiskScheduler.served_ (disk_scheduler_ t)
                ++ before ++ (true, page_id) :: after.
Proof.
  intros Hl Hpt Hfree Hev Hf Hfh Hvictim Hdirty Hwriter Hsize.
  assert (Hne : page_id <> FrameHeader.page_id_ fh) by congruence.
  destruct (Evict_Some _ _ _ Hev) as (Hnode & Hsame).
  destruct (replacer_on_pin_fresh r1 f (FrameHeader.frame_id_ fh) Hnode)
    as (r' & Hrepl); [rewrite Hsame; exact Hsize |].
  set (s0 := set_replacer r1 (set_bpm_latch true s)).
  assert (Hflush : after_flush (FrameHeader.page_id_ fh) s0
                   = written (FrameHeader.page_id_ fh) (FrameHeader.data_ fh) s0).
  { unfold after_flush. cbn [page_table_ frames_ s0 set_replacer set_bpm_latch].
    rewrite Hvictim, Hfh, Hdirty. reflexivity. }
  set (fh1 := FrameHeader.set_data (read_bytes s page_id (FrameHeader.data_ fh)) fh).
  set (l' := RWLatch.mk false (S (RWLatch.readers (FrameHeader.rwlatch_ fh)))).
  exists (set_replacer r'
            (set_frames (<[Z.to_nat f := pinned Read page_id l' fh1]> (frames_ s))
               (loaded page_id f fh
                  (set_page_table (delete (FrameHeader.page_id_ fh) (page_table_ s))
                     (written (FrameHeader.page_id_ fh) (FrameHeader.data_ fh) s0))))),
         (pinned Read page_id l' fh1).
  assert (Hlook : <[Z.to_nat f := pinned Read page_id l' fh1]> (frames_ s) !! Z.to_nat f
                  = Some (pinned Read page_id l' fh1))
    by (apply lookup_insert_frame with (fh := fh); exact Hfh).
  split; [| split; [exact Hlook | split; [reflexivity | split; [exact Hdirty |
           split; [reflexivity | split; [| split]]]]]].
  - unfold CheckedReadPage.
    rewrite (CheckedPage_evict Read page_id s f fh r1 Hl Hpt Hfree Hev Hf Hfh).
    2:{ intros f' Hf'. rewrite Hvictim in Hf'. injection Hf' as <-.
        split; [exact Hf | eexists; exact Hfh]. }
    fold s0. rewrite Hflush.
    erewrite (pin_and_guard_Ret Read page_id f _ fh1 l' r').
    + f_equal. cbn [loaded frames_ set_frames read_served set_page_table
                    set_disk_scheduler written page_table_ disk_scheduler_].
      rewrite list_insert_insert_eq. reflexivity.
    + exact Hf.
    + cbn [loaded frames_ set_frames]. unfold fh1, read_bytes.
      cbn [disk_scheduler_ set_page_table written set_disk_scheduler DiskScheduler.pages_].
      rewrite lookup_insert_ne by congruence.
      apply lookup_insert_frame with (fh := fh). exact Hfh.
    + exact Hrepl.
    + cbn. unfold RWLatch.lock_shared. rewrite Hwriter. reflexivity.
  - cbn. apply lookup_insert_eq.
  - unfold ReadPageGuard.IsDirty, PageGuard.IsDirty, PageGuard.ensure_valid.
    cbn [guard_on PageGuard.is_valid_ PageGuard.frame_ bind ret].
    erewrite bind_Ret; [| apply frame_at_Ret; [exact Hf | exact Hlook]].
    unfold ret. cbn [pinned FrameHeader.is_dirty_ fh1 FrameHeader.set_data].
    rewrite Hdirty. reflexivity.
  - intros t Hlt Hframes.
    destruct (FlushAllPages_spec t Hlt) as (d' & Hrun & Hserved).
    destruct (dirty_frame_written (frames_ t) (Z.to_nat f) (pinned Read page_id l' fh1))
      as (before & after & Hsplit).
    + rewrite Hframes. exact Hlook.
    + exact Hdirty.
    + exists d', before, after. split; [exact Hrun |].
      rewrite Hserved, Hsplit. reflexivity.
Qed.

(** ** The pool latch across a fetch *)

Lemma keeps_latch_bind {A B} (m : M t A) (f : A -> M t B) :
  keeps_latch m -> (forall a, keeps_latch (f a)) -> keeps_latch (bind m f).
Proof.
  intros Hm Hf s b s2 H. apply bind_Ret_inv in H as (a & s1 & H1 & H2).
  rewrite (Hf _ _ _ _ H2). eapply Hm, H1.
Qed.

Lemma keeps_latch_ret {A} (a : A) : keeps_latch (ret a).
Proof. intros s a' s' [= _ <-]. reflexivity. Qed.

Lemma keeps_latch_frame_at f : keeps_latch (frame_at f).
Proof. intros s a s' H. apply frame_at_inv in H as (-> & _). reflexivity. Qed.

Lemma keeps_latch_update_frame f upd : keeps_latch (update_frame f upd).
Proof.
  apply keeps_latch_bind; [apply keeps_latch_frame_at |].
  intros fh s a s' [= _ <-]. reflexivity.
Qed.

Lemma keeps_latch_on_rwlatch f m : keeps_latch (on_rwlatch f m).
Proof.
  apply keeps_latch_bind; [apply keeps_latch_frame_at |].
  intros fh s a s'. destruct (m (FrameHeader.rwlatch_ fh)); try discriminate.
  intros [= _ <-]. reflexivity.
Qed.

Lemma keeps_latch_on_replacer {A} (m : M LRUKReplacer.t A) : keeps_latch (on_replacer m).
Proof.
  intros s a s'. unfold on_replacer, zoom. destruct (m (replacer_ s)); try discriminate.
  intros [= _ <-]. reflexivity.
Qed.

Lemma keeps_latch_on_disk {A} (m : M DiskScheduler.t A) : keeps_latch (on_disk m).
Proof.
  intros s a s'. unfold on_disk, zoom. destruct (m (disk_scheduler_ s)); try discriminate.
  intros [= _ <-]. reflexivity.
Qed.

Lemma keeps_latch_Drop k g : keeps_latch (PageGuard.Drop k g).
Proof.
  unfold PageGuard.Drop. destruct (negb (PageGuard.is_valid_ g)); [apply keeps_latch_ret |].
  destruct (PageGuard.frame_ g) as [f |]; [| intros s a s'; discriminate].
  apply keeps_latch_bind; [apply keeps_latch_update_frame | intros _].
  apply keeps_latch_bind; [apply keeps_latch_frame_at | intros fh].
  apply keeps_latch_bind.
  - destruct (FrameHeader.pin_count_ fh =? 0); [| apply keeps_latch_ret].
    destruct (PageGuard.replacer_ g); [apply keeps_latch_on_replacer |].
    intros s a s'; discriminate.
  - intros _. apply keeps_latch_bind; [apply keeps_latch_on_rwlatch | intros _].
    apply keeps_latch_ret.
Qed.

Lemma keeps_latch_move_from k this that : keeps_latch (PageGuard.move_from k this that).
Proof.
  unfold PageGuard.move_from.
  apply keeps_latch_bind; [apply keeps_latch_Drop | intros _].
  cbn [PageGuard.replacer_ PageGuard.frame_].
  destruct (PageGuard.replacer_ that); [| intros s a s'; discriminate].
  destruct (PageGuard.frame_ that) as [f |]; [| intros s a s'; discriminate].
  apply keeps_latch_bind; [apply keeps_latch_frame_at | intros fh].
  apply keeps_latch_bind; [apply keeps_latch_on_replacer | intros _].
  apply keeps_latch_ret.
Qed.

Lemma keeps_latch_construct k page_id f : keeps_latch (PageGuard.construct k page_id f).
Proof.
  unfold PageGuard.construct.
  apply keeps_latch_bind.
  - destruct k; [apply keeps_latch_ret | apply keeps_latch_update_frame].
  - intros _. apply keeps_latch_bind; [apply keeps_latch_on_rwlatch | intros _].
    apply keeps_latch_ret.
Qed.

Lemma keeps_latch_pin_and_guard k page_id f : keeps_latch (pin_and_guard k page_id f).
Proof.
  unfold pin_and_guard.
  apply keeps_latch_bind; [apply keeps_latch_update_frame | intros _].
  apply keeps_latch_bind; [apply keeps_latch_on_replacer | intros _].
  apply keeps_latch_bind; [apply keeps_latch_on_replacer | intros _].
  apply keeps_latch_bind; [apply keeps_latch_construct | intros temporary].
  apply keeps_latch_bind; [apply keeps_latch_move_from | intros moved].
  apply keeps_latch_bind; [apply keeps_latch_Drop | intros _].
  apply keeps_latch_ret.
Qed.

Lemma pin_and_guard_Some k page_id f s o s' :
  pin_and_guard k page_id f s = Ret o s' -> exists g, o = Some g.
Proof.
  unfold pin_and_guard. intros H.
  apply bind_Ret_inv in H as (? & ? & _ & H).
  apply bind_Ret_inv in H as (? & ? & _ & H).
  apply bind_Ret_inv in H as (? & ? & _ & H).
  apply bind_Ret_inv in H as (? & ? & _ & H).
  apply bind_Ret_inv in H as (moved & ? & _ & H).
  apply bind_Ret_inv in H as (? & ? & _ & H).
  injection H as <- _. eauto.
Qed.

Lemma keeps_latch_FlushPage page_id : keeps_latch (FlushPage page_id).
Proof.
  unfold FlushPage. intros s a s'. unfold get. cbn [bind].
  destruct (page_table_ s !! page_id) as [f |]; [| intros [= _ <-]; reflexivity].
  revert s a s'. change (keeps_latch
    (fh <- frame_at f;;
     (if FrameHeader.is_dirty_ fh
      then on_disk (DiskScheduler.write_page page_id (FrameHeader.data_ fh))
      else ret tt);;; ret true)%cpp).
  apply keeps_latch_bind; [apply keeps_latch_frame_at | intros fh].
  apply keeps_latch_bind; [| intros _; apply keeps_latch_ret].
  destruct (FrameHeader.is_dirty_ fh); [apply keeps_latch_on_disk | apply keeps_latch_ret].
Qed.

(** What [take_frame] returns: a frame with the latch as before, or no
    frame, which needs the free list empty and the replacer without a
    victim, and then the latch is unlocked. *)
Lemma take_frame_inv page_id s taken s' :
  take_frame page_id s = Ret taken s' ->
  match taken with
  | Some f => bpm_latch_ s' = bpm_latch_ s
  | None => free_frames_ s = []
            /\ (exists r1, LRUKReplacer.Evict (replacer_ s) = Ret None r1)
            /\ bpm_latch_ s' = false
  end.
Proof.
  unfold take_frame, get. cbn [bind].
  destruct (free_frames_ s) as [| f rest] eqn:Hfree.
  - intros H. apply bind_Ret_inv in H as (o & s1 & Hev & H).
    assert (Hl1 : bpm_latch_ s1 = bpm_latch_ s) by (eapply keeps_latch_on_replacer, Hev).
    destruct o as [f |].
    + apply bind_Ret_inv in H as (fh & s2 & Hfr & H).
      apply frame_at_inv in Hfr as (-> & _).
      apply bind_Ret_inv in H as (b & s3 & Hfl & H).
      apply keeps_latch_FlushPage in Hfl.
      injection H as <- <-. cbn. congruence.
    + apply bind_Ret_inv in H as ([] & s2 & Hun & H). injection H as <- <-.
      split; [reflexivity |]. split.
      * unfold on_replacer, zoom in Hev.
        destruct (LRUKReplacer.Evict (replacer_ s)) as [o r1 | | |] eqn:E; try discriminate.
        injection Hev as -> _. eauto.
      * unfold unlock_latch in Hun. destruct (bpm_latch_ s1); [| discriminate].
        injection Hun as <-. reflexivity.
  - intros [= <- <-]. reflexivity.
Qed.

(** A fetch that returns a guard returns with the pool latch locked; the
    only exit that unlocks it is the one that returns no guard. *)
Lemma CheckedPage_inv k page_id s o s' :
  CheckedPage k page_id s = Ret o s' ->
  bpm_latch_ s = false
  /\ match o with
     | Some g => bpm_latch_ s' = true
     | None => page_table_ s !! page_id = None
               /\ free_frames_ s = []
               /\ (exists r1, LRUKReplacer.Evict (replacer_ s) = Ret None r1)
               /\ bpm_latch_ s' = false
     end.
Proof.
  unfold CheckedPage. intros H.
  apply bind_Ret_inv in H as ([] & s1 & Hlock & H).
  unfold lock_latch in Hlock. destruct (bpm_latch_ s) eqn:Hl; [discriminate |].
  injection Hlock as <-. split; [reflexivity |].
  unfold get in H. cbn [bind] in H. cbn [page_table_ set_bpm_latch] in H.
  destruct (page_table_ s !! page_id) as [f |] eqn:Hpt.
  - destruct (pin_and_guard_Some _ _ _ _ _ _ H) as (g & ->).
    apply keeps_latch_pin_and_guard in H. exact H.
  - apply bind_Ret_inv in H as (taken & s2 & Htake & H).
    apply take_frame_inv in Htake. destruct taken as [f |].
    + apply bind_Ret_inv in H as (fh & s3 & Hfr & H).
      apply keeps_latch_frame_at in Hfr.
      apply bind_Ret_inv in H as (data & s4 & Hrd & H).
      apply keeps_latch_on_disk in Hrd.
      apply bind_Ret_inv in H as ([] & s5 & Hup & H).
      apply keeps_latch_update_frame in Hup.
      destruct (pin_and_guard_Some _ _ _ _ _ _ H) as (g & ->).
      apply keeps_latch_pin_and_guard in H. cbn in Htake. congruence.
    + injection H as <- <-. destruct Htake as (Hfree & Hev & Hl').
      split; [reflexivity |]. split; [exact Hfree |]. split; [exact Hev | exact Hl'].
Qed.

(** After a fetch that returned a guard, the latch is never unlocked again:
    no later fetch gets past its first line, and neither does any member
    function that takes a scoped lock. *)
Lemma fetch_after_fetch_blocks k page_id s g s' :
  CheckedPage k page_id s = Ret (Some g) s' ->
  forall k' page_id',
    CheckedPage k' page_id' s' = Blocks s'
    /\ DeletePage page_id' s' = Blocks s'
    /\ GetPinCount page_id' s' = Blocks s'
    /\ FlushAllPages s' = Blocks s'
    /\ NewPage s' = Blocks s'.
Proof.
  intros H k' page_id'. apply CheckedPage_inv in H as (_ & Hl).
  split; [apply CheckedPage_latch_held; exact Hl |].
  unfold DeletePage, GetPinCount, FlushAllPages, NewPage, scoped_lock. rewrite Hl.
  repeat split; reflexivity.
Qed.

(** A fetch returns no guard exactly when the page is not resident, the
    free list is empty and the replacer has no evictable frame. *)
Lemma CheckedPage_None_iff k page_id s o s' :
  CheckedPage k page_id s = Ret o s' ->
  (o = None <->
   page_table_ s !! page_id = None /\ free_frames_ s = []
   /\ ReplacerSpec.no_evictable (replacer_ s)).
Proof.
  intros H. split.
  - intros ->. apply CheckedPage_inv in H as (_ & Hpt & Hfree & (r1 & Hev) & _).
    split; [exact Hpt |]. split; [exact Hfree |].
    eapply ReplacerFacts.Evict_None_iff; [exact Hev | reflexivity].
  - intros (Hpt & Hfree & Hno). destruct o as [g |]; [| reflexivity]. exfalso.
    unfold CheckedPage in H.
    apply bind_Ret_inv in H as ([] & s1 & Hlock & H).
    unfold lock_latch in Hlock. destruct (bpm_latch_ s); [discriminate |].
    injection Hlock as <-.
    unfold get in H. cbn [bind] in H. cbn [page_table_ set_bpm_latch] in H.
    rewrite Hpt in H.
    apply bind_Ret_inv in H as (taken & s2 & Htake & H).
    unfold take_frame, get in Htake. cbn [bind] in Htake.
    cbn [free_frames_ set_bpm_latch] in Htake. rewrite Hfree in Htake.
    apply bind_Ret_inv in Htake as (ov & s3 & Hev & Htake).
    unfold on_replacer, zoom in Hev. cbn [replacer_ set_bpm_latch] in Hev.
    destruct (LRUKReplacer.Evict (replacer_ s)) as [ov' r1 | | |] eqn:E; try discriminate.
    injection Hev as -> _.
    apply (ReplacerFacts.Evict_None_iff _ _ _ E) in Hno. subst ov.
    apply bind_Ret_inv in Htake as ([] & s4 & _ & Htake). injection Htake as <- _.
    discriminate.
Qed.

(** ** Each single fetch *)

(** The pool the constructor makes is consistent. *)
Lemma pool_init_wf (BUSTUB_PAGE_SIZE : nat) (num_frames k_dist : Z) :
  0 <= num_frames < 2 ^ 31 -> 2 <= k_dist < size_modulus ->
  wf (init BUSTUB_PAGE_SIZE num_frames k_dist).
Proof.
  intros Hn Hk. constructor; unfold init; cbn [replacer_ page_table_ free_frames_].
  - apply ReplacerFacts.init_wf. exact Hk.
  - intros p f Hp. rewrite lookup_empty in Hp. discriminate.
  - intros f Hf. apply list_elem_of_fmap in Hf as (x & -> & Hx).
    apply elem_of_seqZ in Hx.
    rewrite (ReplacerFacts.static_cast_int_small x) by lia.
    unfold valid_frame. cbn [replacer_ frames_ LRUKReplacer.init LRUKReplacer.replacer_size_].
    rewrite (ReplacerFacts.static_cast_int_small num_frames) by lia.
    split; [lia |]. rewrite !list_lookup_fmap, lookup_seqZ_lt by lia.
    eexists; reflexivity.
  - intros f Hf. cbn in Hf. inversion Hf.
Qed.

Lemma replacer_on_pin_wf (r : LRUKReplacer.t) (f stored : Z) :
  ReplacerSpec.wf r ->
  f <= static_cast_int (LRUKReplacer.replacer_size_ r) ->
  exists r', replacer_on_pin f stored r = Ret tt r'.
Proof.
  intros Hwf Hle. unfold replacer_on_pin.
  destruct (ReplacerFacts.RecordAccess_wf r f Hwf Hle) as (r1 & Hrec & _).
  destruct (SetEvictable_Ret f false r1) as (r2 & Hset1 & _).
  destruct (SetEvictable_Ret stored false r2) as (r3 & Hset2 & _).
  exists r3.
  rewrite (bind_Ret _ _ _ _ _ Hrec), (bind_Ret _ _ _ _ _ Hset1). exact Hset2.
Qed.

(** A fetch on a consistent pool, with the pool latch free and no frame
    latch in the way, returns: no guard if the page is not resident, the
    free list is empty and the replacer has no evictable frame, and a guard
    in every other case. *)
Lemma CheckedPage_returns (k : guard_kind) (page_id : Z) (s : t) :
  wf s -> bpm_latch_ s = false -> latches_free_for k s ->
  exists o s',
    CheckedPage k page_id s = Ret o s'
    /\ (o = None <->
        page_table_ s !! page_id = None /\ free_frames_ s = []
        /\ ReplacerSpec.no_evictable (replacer_ s)).
Proof.
  intros [Hrepl Htable Hfree Hlisted] Hl Hlatches.
  assert (Hrun : exists o s', CheckedPage k page_id s = Ret o s').
  { destruct (page_table_ s !! page_id) as [f |] eqn:Hpt.
    - (* the page is resident *)
      destruct (Htable _ _ Hpt) as ((Hf & Hle) & fh & Hfh).
      destruct (Hlatches _ _ Hfh) as (l' & Hacq).
      destruct (replacer_on_pin_wf (replacer_ s) f (FrameHeader.frame_id_ fh) Hrepl Hle)
        as (r' & Hpin).
      rewrite (CheckedPage_hit k page_id s f Hl Hpt).
      erewrite pin_and_guard_Ret; [eexists _, _; reflexivity | exact Hf | exact Hfh | | exact Hacq].
      exact Hpin.
    - destruct (free_frames_ s) as [| f rest] eqn:Hfr.
      + (* the replacer picks the frame *)
        destruct (ReplacerFacts.Evict_wf (replacer_ s) Hrepl) as (ov & r1 & Hev & Hwf1).
        destruct ov as [f |].
        * destruct (Hlisted f (ReplacerFacts.Evict_Some_listed _ _ _ Hev))
            as ((Hf & Hle) & fh & Hfh).
          destruct (Hlatches _ _ Hfh) as (l' & Hacq).
          destruct (Evict_Some _ _ _ Hev) as (_ & Hsize).
          destruct (replacer_on_pin_wf r1 f (FrameHeader.frame_id_ fh) Hwf1) as (r' & Hpin);
            [rewrite Hsize; exact Hle |].
          rewrite (CheckedPage_evict k page_id s f fh r1 Hl Hpt Hfr Hev Hf Hfh).
          2:{ intros f' Hf'. destruct (Htable _ _ Hf') as ((Hf0 & _) & Hsome).
              split; assumption. }
          erewrite (pin_and_guard_Ret k page_id f _
                      (FrameHeader.set_data _ fh) l' r');
            [eexists _, _; reflexivity | exact Hf | | | exact Hacq].
          -- cbn [loaded frames_ set_frames]. apply lookup_insert_frame with (fh := fh).
             cbn [frames_ read_served set_page_table set_disk_scheduler].
             rewrite after_flush_frames. exact Hfh.
          -- cbn [loaded replacer_ set_frames read_served set_page_table set_disk_scheduler].
             rewrite after_flush_replacer. exact Hpin.
        * rewrite (CheckedPage_no_frame k page_id s r1 Hl Hpt Hfr Hev).
          eexists _, _; reflexivity.
      + (* a free frame *)
        destruct (Hfree f) as ((Hf & Hle) & fh & Hfh); [left |].
        destruct (Hlatches _ _ Hfh) as (l' & Hacq).
        destruct (replacer_on_pin_wf (replacer_ s) f (FrameHeader.frame_id_ fh) Hrepl Hle)
          as (r' & Hpin).
        rewrite (CheckedPage_free_frame k page_id s f rest fh Hl Hpt Hfr Hf Hfh).
        erewrite (pin_and_guard_Ret k page_id f _ (FrameHeader.set_data _ fh) l' r');
          [eexists _, _; reflexivity | exact Hf | | exact Hpin | exact Hacq].
        cbn [loaded frames_ set_frames]. apply lookup_insert_frame with (fh := fh).
        exact Hfh. }
  destruct Hrun as (o & s' & Hrun). exists o, s'. split; [exact Hrun |].
  eapply CheckedPage_None_iff, Hrun.
Qed.

(** C2, evaluated where it fails. On a fresh pool of two frames the first
    [CheckedWritePage] returns a guard and leaves the pool latch locked: the
    [return] of the guard has no [unlock] before it. The second fetch finds
    a free frame in the free list and yet never returns: neither a guard nor
    nothing; it waits for the latch at its first line. This is the start of
    the capacity scenario, which holds two write guards before it asks for a
    third page. *)
Theorem second_fetch_waits_for_latch :
  exists g s1,
    (p0 <- NewPage;; _ <- NewPage;; _ <- NewPage;; CheckedWritePage p0)%cpp
      (init 4096 2 2) = Ret (Some g) s1
    /\ bpm_latch_ s1 = true
    /\ page_table_ s1 !! 1 = None
    /\ free_frames_ s1 = [1]
    /\ CheckedWritePage 1 s1 = Blocks s1
    /\ CheckedReadPage 1 s1 = Blocks s1.
Proof.
  eexists _, _. split; [vm_compute; reflexivity |].
  split; [reflexivity |]. split; [vm_compute; reflexivity |].
  split; [reflexivity |]. split; reflexivity.
Qed.

(** C4, evaluated where it fails. On a fresh pool of two frames page 0 is
    made and fetched for writing; the fetch returns its guard with the pool
    latch locked. [DeletePage(0)], the page being resident with one pin,
    does not return [false]: it waits for the latch at its first line. Once
    the guard is dropped the page is resident without a pin, in a frame the
    replacer has as evictable, and [DeletePage(0)] does not free the frame
    and return [true] either: [Drop] has its unlock commented out, and the
    call waits as before. Only the page that is not resident, deleted
    before any fetch, is answered as claimed. *)
Theorem DeletePage_resident_waits :
  exists s1 s2 fh1 fh2,
    (p0 <- NewPage;; CheckedWritePage p0)%cpp (init 4096 2 2)
    = Ret (Some (guard_on 0 0)) s1
    /\ page_table_ s1 !! 0 = Some 0
    /\ frames_ s1 !! 0%nat = Some fh1 /\ FrameHeader.pin_count_ fh1 = 1
    /\ DeletePage 0 s1 = Blocks s1
    /\ PageGuard.Drop Write (guard_on 0 0) s1 = Ret (dropped (guard_on 0 0)) s2
    /\ page_table_ s2 !! 0 = Some 0
    /\ frames_ s2 !! 0%nat = Some fh2 /\ FrameHeader.pin_count_ fh2 = 0
    /\ ReplacerSpec.evictable_in (LRUKReplacer.node_store_ (replacer_ s2)) 0 = true
    /\ DeletePage 0 s2 = Blocks s2
    /\ DeletePage 7 (init 4096 2 2) = Ret true (hinted 7 (init 4096 2 2)).
Proof.
  eexists _, _, _, _. split; [vm_compute; reflexivity |].
  split; [vm_compute; reflexivity |]. split; [vm_compute; reflexivity |].
  split; [reflexivity |]. split; [reflexivity |].
  split; [vm_compute; reflexivity |]. split; [vm_compute; reflexivity |].
  split; [vm_compute; reflexivity |]. split; [reflexivity |].
  split; [vm_compute; reflexivity |]. split; [reflexivity |].
  vm_compute. reflexivity.
Qed.


End PoolFacts.

(** * The theorems at concrete pools *)

Module Witness.

Import BufferPool BufferPoolManager GuardSpec PoolSpec Example GuardFacts PoolFacts.

Lemma Drop_valid_guard_witness :
  exists r',
    PageGuard.Drop Write (guard_on 0 0) pool_with_writer
    = Ret (dropped (guard_on 0 0))
          (set_frames (<[0%nat := unpinned Write writer_frame]> (frames_ pool_with_writer))
             (set_replacer r' pool_with_writer)).
Proof.
  destruct (Drop_valid_guard Write (guard_on 0 0) pool_with_writer 0 writer_frame)
    as (r' & H & _).
  - reflexivity.
  - reflexivity.
  - reflexivity.
  - lia.
  - vm_compute. reflexivity.
  - vm_compute. split; reflexivity.
  - reflexivity.
  - exists r'. exact H.
Defined.


Lemma FlushPage_spec_witness :
  exists b s',
    FlushPage 0 pool_with_writer = Ret b s'
    /\ (b = false <-> page_table_ pool_with_writer !! 0 = None)
    /\ frames_ s' = frames_ pool_with_writer.
Proof.
  destruct (FlushPage_spec pool_with_writer 0) as (b & s' & Hrun & Hiff & Hframes & _).
  - assert (Hpt : page_table_ pool_with_writer !! 0 = Some 0) by (vm_compute; reflexivity).
    intros f Hf. rewrite Hpt in Hf. injection Hf as <-.
    split; [lia |]. exists writer_frame. vm_compute. reflexivity.
  - exists b, s'. split; [exact Hrun |]. split; [exact Hiff | exact Hframes].
Defined.



End Witness.

(** * The replacer, operation by operation *)

Module ReplacerLaws.

Import LRUKReplacer ReplacerSpec ReplacerFacts.

(** ** The victim of [Evict] *)

(** The scan of [Evict] stops at the first evictable frame it meets. *)
Lemma evict_scan_skips (l : list Z) (ns ns' : gmap Z LRUKNode) (f : Z) :
  evict_scan l ns = (Some f, ns') ->
  exists skipped rest,
    l = skipped ++ f :: rest
    /\ (forall g, g ∈ skipped -> evictable_in ns g = false)
    /\ evictable_in ns f = true.
Proof.
  revert ns. induction l as [| x l IH]; intros ns; cbn [evict_scan]; [discriminate |].
  destruct (ns !! x) as [n |] eqn:Hx.
  - destruct (is_evictable_ n) eqn:Hn.
    + intros [= <- <-]. exists [], l. split; [reflexivity |]. split.
      * intros g Hg. inversion Hg.
      * unfold evictable_in. rewrite Hx. exact Hn.
    + intros H. destruct (IH _ H) as (skipped & rest & -> & Hskip & Hev).
      exists (x :: skipped), rest. split; [reflexivity |]. split; [| exact Hev].
      intros g Hg. apply elem_of_cons in Hg as [-> | Hg]; [| auto].
      unfold evictable_in. rewrite Hx. exact Hn.
  - intros H. destruct (IH _ H) as (skipped & rest & -> & Hskip & Hev).
    assert (Hins : forall g, evictable_in (<[x := default_node]> ns) g = evictable_in ns g).
    { intros g. unfold evictable_in. destruct (decide (x = g)) as [-> | Hne].
      - rewrite lookup_insert_eq, Hx. reflexivity.
      - rewrite lookup_insert_ne by exact Hne. reflexivity. }
    exists (x :: skipped), rest. split; [reflexivity |]. split.
    + intros g Hg. apply elem_of_cons in Hg as [-> | Hg].
      * unfold evictable_in. rewrite Hx. reflexivity.
      * rewrite <- Hins. auto.
    + rewrite <- Hins. exact Hev.
Qed.

(** A list without repetition is cut at a frame in one way only. *)
Lemma NoDup_split_unique (f : Z) (a b c d : list Z) :
  NoDup (a ++ f :: b) -> a ++ f :: b = c ++ f :: d -> a = c /\ b = d.
Proof.
  revert c. induction a as [| x a IH]; intros c Hnd Heq.
  - destruct c as [| y c]; cbn in Heq.
    + injection Heq as <-. auto.
    + injection Heq as <- ->. cbn in Hnd. apply NoDup_cons in Hnd as (Hnotin & _).
      exfalso. apply Hnotin, elem_of_app. right. left.
  - destruct c as [| y c]; cbn in Heq.
    + injection Heq as -> <-. cbn in Hnd. apply NoDup_cons in Hnd as (Hnotin & _).
      exfalso. apply Hnotin, elem_of_app. right. left.
    + injection Heq as <- Heq. cbn in Hnd. apply NoDup_cons in Hnd as (_ & Hnd).
      destruct (IH c Hnd Heq) as (-> & ->). auto.
Qed.

(** The frame the backward scan of a list finds, seen from the front of the
    list. *)
Lemma evict_scan_last (l pre post : list Z) (ns ns' : gmap Z LRUKNode) (f : Z) :
  NoDup l ->
  evict_scan (rev l) ns = (Some f, ns') ->
  l = pre ++ f :: post ->
  last_evictable ns l f pre post.
Proof.
  intros Hnd Hscan Hsplit.
  destruct (evict_scan_skips _ _ _ _ Hscan) as (skipped & rest & Hrev & Hskip & Hev).
  assert (Hl : l = rev rest ++ f :: rev skipped).
  { rewrite <- (rev_involutive l), Hrev, rev_app_distr. cbn [rev].
    rewrite <- app_assoc. reflexivity. }
  rewrite Hsplit in Hnd. rewrite Hsplit in Hl.
  destruct (NoDup_split_unique _ _ _ _ _ Hnd Hl) as (_ & ->).
  split; [exact Hsplit |]. split; [exact Hev |].
  intros g Hg. apply Hskip. rewrite <- elem_of_rev. exact Hg.
Qed.

Lemma Evict_scan_new (r : t) :
  wf r -> (evict_scan (rev (new_frames_ r)) (node_store_ r)).2 = node_store_ r.
Proof.
  intros Hwf. apply evict_scan_store. intros f Hf. rewrite elem_of_rev in Hf.
  apply (wf_listed r f Hwf), elem_of_app. left. exact Hf.
Qed.

Lemma Evict_scan_cache (r : t) :
  wf r -> (evict_scan (rev (cache_frames_ r)) (node_store_ r)).2 = node_store_ r.
Proof.
  intros Hwf. apply evict_scan_store. intros f Hf. rewrite elem_of_rev in Hf.
  apply (wf_listed r f Hwf), elem_of_app. right. exact Hf.
Qed.

(** What [Evict] has done when it returns a frame. *)
Lemma Evict_Some_inv (r r' : t) (f : Z) :
  wf r -> Evict r = Ret (Some f) r' ->
  exists pre post,
    (last_evictable (node_store_ r) (new_frames_ r) f pre post
     /\ r' = without_new f pre post r)
    \/ ((forall g, g ∈ new_frames_ r -> evictable_in (node_store_ r) g = false)
        /\ last_evictable (node_store_ r) (cache_frames_ r) f pre post
        /\ r' = without_cached f pre post r).
Proof.
  intros Hwf. unfold Evict.
  pose proof (Evict_scan_new r Hwf) as Hs1.
  destruct (evict_scan (rev (new_frames_ r)) (node_store_ r)) as [[f1 |] ns1] eqn:Hnew;
    cbn [snd] in Hs1; subst ns1.
  - destruct (erase_located f1 _ _) as [[pre post] |] eqn:Herase; [| discriminate].
    intros [= <- <-]. exists pre, post. left. split; [| reflexivity].
    apply erase_located_Some in Herase as (_ & Hsplit).
    eapply evict_scan_last; [apply (wf_new_nodup r Hwf) | exact Hnew | exact Hsplit].
  - pose proof (Evict_scan_cache r Hwf) as Hs2.
    destruct (evict_scan_None _ _ _ Hnew) as (Hall & _).
    destruct (evict_scan (rev (cache_frames_ r)) (node_store_ r)) as [[f2 |] ns2] eqn:Hcache;
      cbn [snd] in Hs2; subst ns2; [| discriminate].
    destruct (erase_located f2 _ _) as [[pre post] |] eqn:Herase; [| discriminate].
    intros [= <- <-]. exists pre, post. right.
    split; [intros g Hg; apply Hall, elem_of_rev; exact Hg |].
    split; [| reflexivity].
    apply erase_located_Some in Herase as (_ & Hsplit).
    eapply evict_scan_last; [apply (wf_cache_nodup r Hwf) | exact Hcache | exact Hsplit].
Qed.

(** [Evict] without a victim changes nothing. *)
Lemma Evict_None_inv (r r' : t) : wf r -> Evict r = Ret None r' -> r' = r.
Proof.
  intros Hwf. unfold Evict.
  pose proof (Evict_scan_new r Hwf) as Hs1.
  destruct (evict_scan (rev (new_frames_ r)) (node_store_ r)) as [[f1 |] ns1] eqn:Hnew;
    cbn [snd] in Hs1; subst ns1.
  - destruct (erase_located f1 _ _) as [[pre post] |]; discriminate.
  - pose proof (Evict_scan_cache r Hwf) as Hs2.
    destruct (evict_scan (rev (cache_frames_ r)) (node_store_ r)) as [[f2 |] ns2] eqn:Hcache;
      cbn [snd] in Hs2; subst ns2.
    + destruct (erase_located f2 _ _) as [[pre post] |]; discriminate.
    + intros [= <-]. destruct r; reflexivity.
Qed.

(** ** Counting the evictable frames *)

Lemma evictable_count_insert (ns : gmap Z LRUKNode) (f : Z) (n' : LRUKNode) :
  is_evictable_ n' = evictable_in ns f ->
  evictable_count (<[f := n']> ns) = evictable_count ns.
Proof.
  intros Hsame. unfold evictable_count. rewrite map_filter_insert.
  unfold evictable_in in Hsame.
  destruct (decide _) as [Hev | Hev]; cbn [snd] in Hev.
  - rewrite Hev in Hsame. destruct (ns !! f) as [n |] eqn:Hn; [| discriminate].
    apply map_size_insert_Some. exists n. apply map_lookup_filter_Some.
    split; [exact Hn | cbn; congruence].
  - f_equal. apply map_filter_delete_not. intros n Hn. cbn. rewrite Hn in Hsame. congruence.
Qed.

Lemma evictable_count_insert_fresh (ns : gmap Z LRUKNode) (f : Z) (n' : LRUKNode) :
  ns !! f = None ->
  Z.of_nat (evictable_count (<[f := n']> ns))
  = Z.of_nat (evictable_count ns) + (if is_evictable_ n' then 1 else 0).
Proof.
  intros Hnone. destruct (is_evictable_ n') eqn:Hev.
  - unfold evictable_count. rewrite map_filter_insert_True by exact Hev.
    rewrite map_size_insert_None; [lia |].
    apply map_lookup_filter_None. left. exact Hnone.
  - rewrite evictable_count_insert; [lia |].
    unfold evictable_in. rewrite Hnone. exact Hev.
Qed.

Lemma evictable_count_delete (ns : gmap Z LRUKNode) (f : Z) :
  Z.of_nat (evictable_count (delete f ns))
  = Z.of_nat (evictable_count ns) - (if evictable_in ns f then 1 else 0).
Proof.
  unfold evictable_count, evictable_in. rewrite map_filter_delete.
  set (m := filter _ ns).
  destruct (ns !! f) as [n |] eqn:Hn.
  - destruct (is_evictable_ n) eqn:Hev.
    + assert (Hm : m !! f = Some n)
        by (apply map_lookup_filter_Some; split; [exact Hn | exact Hev]).
      assert (Hsize : size m = S (size (delete f m))).
      { rewrite <- (insert_id m f n Hm) at 1. rewrite <- insert_delete_eq.
        apply map_size_insert_None, lookup_delete_eq. }
      lia.
    + rewrite map_size_delete_None; [lia |].
      apply map_lookup_filter_None. right. intros n' Hn'. cbn. congruence.
  - rewrite map_size_delete_None; [lia |].
    apply map_lookup_filter_None. left. exact Hn.
Qed.

Lemma evictable_count_flag (ns : gmap Z LRUKNode) (f : Z) (n : LRUKNode) (b : bool) :
  ns !! f = Some n ->
  Z.of_nat (evictable_count (<[f := mkNode (history_ n) b]> ns))
  = Z.of_nat (evictable_count ns) - (if is_evictable_ n then 1 else 0)
    + (if b then 1 else 0).
Proof.
  intros Hn. rewrite <- insert_delete_eq.
  rewrite evictable_count_insert_fresh by apply lookup_delete_eq.
  rewrite evictable_count_delete. unfold evictable_in. rewrite Hn. reflexivity.
Qed.

Lemma size_wrap_pred (a : Z) : size_wrap (size_wrap a - 1) = size_wrap (a - 1).
Proof. unfold size_wrap. apply Zminus_mod_idemp_l. Qed.

Lemma size_wrap_succ (a : Z) : size_wrap (size_wrap a + 1) = size_wrap (a + 1).
Proof. unfold size_wrap. apply Zplus_mod_idemp_l. Qed.

Lemma SetEvictable_sizes (f : Z) (b : bool) (r r' : t) :
  sizes_agree r -> SetEvictable f b r = Ret tt r' -> sizes_agree r'.
Proof.
  unfold sizes_agree, SetEvictable. intros Hsz.
  destruct (node_store_ r !! f) as [n |] eqn:Hn; [| intros [= <-]; exact Hsz].
  intros [= <-]. rsimpl. rewrite (evictable_count_flag _ _ _ b Hn), Hsz.
  destruct (is_evictable_ n), b; cbn [andb negb].
  - f_equal. lia.
  - rewrite size_wrap_pred. f_equal. lia.
  - rewrite size_wrap_succ. f_equal. lia.
  - f_equal. lia.
Qed.

Lemma without_new_sizes (f : Z) (pre post : list Z) (r : t) :
  sizes_agree r -> evictable_in (node_store_ r) f = true ->
  sizes_agree (without_new f pre post r).
Proof.
  unfold sizes_agree, without_new. intros Hsz Hev. rsimpl.
  rewrite evictable_count_delete, Hev, Hsz. apply size_wrap_pred.
Qed.

Lemma without_cached_sizes (f : Z) (pre post : list Z) (r : t) :
  sizes_agree r -> evictable_in (node_store_ r) f = true ->
  sizes_agree (without_cached f pre post r).
Proof.
  unfold sizes_agree, without_cached. intros Hsz Hev. rsimpl.
  rewrite evictable_count_delete, Hev, Hsz. apply size_wrap_pred.
Qed.

(** ** What [RecordAccess] and [Remove] do to the nodes *)

(** [RecordAccess] writes the node of its frame only, leaves the evictable
    flag as it is (not evictable, for a frame that had no node), and does not
    touch the size. *)
Lemma RecordAccess_store (r r' : t) (f : Z) :
  2 <= k_ r < size_modulus ->
  RecordAccess f r = Ret tt r' ->
  curr_size_ r' = curr_size_ r /\ k_ r' = k_ r
  /\ exists n',
       node_store_ r' = <[f := n']> (node_store_ r)
       /\ is_evictable_ n' = evictable_in (node_store_ r) f.
Proof.
  intros Hk Hrun. unfold evictable_in.
  destruct (RecordAccess_cases r r' f Hk Hrun)
    as [(Hnone & ->) | (n & Hn & [(_ & ->) | [(_ & Hc) | [(_ & Hc) | (_ & ->)]]])].
  - rewrite Hnone. split; [reflexivity |]. split; [reflexivity |]. eexists. split; reflexivity.
  - rewrite Hn. split; [reflexivity |]. split; [reflexivity |]. eexists. split; reflexivity.
  - destruct Hc as (pre & post & l1 & l2 & kts & _ & _ & _ & -> & _).
    rewrite Hn. split; [reflexivity |]. split; [reflexivity |]. eexists. split; reflexivity.
  - destruct Hc as (pre & post & steps & kts & _ & _ & _ & ->).
    rewrite Hn. split; [reflexivity |]. split; [reflexivity |]. eexists. split; reflexivity.
  - rewrite Hn. split; [reflexivity |]. split; [reflexivity |]. exists n.
    split; [| reflexivity]. rsimpl. symmetry. apply insert_id, Hn.
Qed.

Lemma RecordAccess_sizes (r r' : t) (f : Z) :
  2 <= k_ r < size_modulus -> sizes_agree r ->
  RecordAccess f r = Ret tt r' -> sizes_agree r'.
Proof.
  intros Hk Hsz Hrun.
  destruct (RecordAccess_store r r' f Hk Hrun) as (Hsize & _ & n' & Hstore & Hev).
  unfold sizes_agree. rewrite Hsize, Hstore, (evictable_count_insert _ _ _ Hev). exact Hsz.
Qed.

(** What [Remove] does, case by case as in the source. *)
Lemma Remove_inv (r : t) (f : Z) :
  wf r ->
  match node_store_ r !! f with
  | None => Remove f r = Ret tt r
  | Some n =>
      if is_evictable_ n
      then exists pre post,
             (Z.of_nat (length (history_ n)) < k_ r
              /\ new_frames_ r = pre ++ f :: post
              /\ Remove f r = Ret tt (without_new f pre post r))
             \/ (Z.of_nat (length (history_ n)) = k_ r
                 /\ cache_frames_ r = pre ++ f :: post
                 /\ Remove f r = Ret tt (without_cached f pre post r))
      else Remove f r = Throws (String.append (to_string f) " is not evictable.") r
  end.
Proof.
  intros Hwf. unfold Remove.
  destruct (node_store_ r !! f) as [n |] eqn:Hn; [| reflexivity].
  destruct (is_evictable_ n) eqn:Hev; cbn [negb]; [| reflexivity].
  destruct (Z.ltb_spec (Z.of_nat (length (history_ n))) (k_ r)) as [Hlt | Hge].
  - assert (Hin : f ∈ new_frames_ r) by (apply (wf_new r Hwf); eauto).
    destruct (erase_located_elem f (new_frames_ r) (new_frames_locator_ r))
      as [[pre post] Herase]; [apply (wf_new_locator r Hwf); exact Hin | exact Hin |].
    rewrite Herase. apply erase_located_Some in Herase as (_ & Hsplit).
    exists pre, post. left. split; [exact Hlt |]. split; [exact Hsplit | reflexivity].
  - assert (Hlen : Z.of_nat (length (history_ n)) = k_ r)
      by (pose proof (wf_history r Hwf f n Hn); lia).
    assert (Hin : f ∈ cache_frames_ r) by (apply (wf_cache r Hwf); eauto).
    destruct (erase_located_elem f (cache_frames_ r) (cache_frames_locator_ r))
      as [[pre post] Herase]; [apply (wf_cache_locator r Hwf); exact Hin | exact Hin |].
    rewrite Herase. apply erase_located_Some in Herase as (_ & Hsplit).
    exists pre, post. right. split; [exact Hlen |]. split; [exact Hsplit | reflexivity].
Qed.

(** ** The orders of the two lists *)

Lemma ordered_same_kth (ns ns' : gmap Z LRUKNode) (l : list Z) :
  (forall g, g ∈ l -> kth_timestamp ns' g = kth_timestamp ns g) ->
  StronglySorted (newer ns) l -> StronglySorted (newer ns') l.
Proof.
  intros Hsame Hs. eapply StronglySorted_weaken; [exact Hs |].
  intros a b Ha Hb (ta & tb & Hta & Htb & Hlt). exists ta, tb.
  rewrite !Hsame by assumption. auto.
Qed.

Lemma ordered_delete (ns : gmap Z LRUKNode) (f : Z) (l : list Z) :
  f ∉ l -> StronglySorted (newer ns) l -> StronglySorted (newer (delete f ns)) l.
Proof.
  intros Hnotin. apply ordered_same_kth. intros g Hg. unfold kth_timestamp.
  rewrite lookup_delete_ne; [reflexivity |]. intros ->. contradiction.
Qed.

Lemma back_push (ts : Z) (h : list Z) : h <> [] -> back (ts :: h) = back h.
Proof. destruct h; [congruence | reflexivity]. Qed.

Lemma wf_lists_disjoint (r : t) (f : Z) :
  wf r -> f ∈ new_frames_ r -> f ∈ cache_frames_ r -> False.
Proof.
  intros Hwf Hnew Hcache.
  apply (wf_new r Hwf) in Hnew as (n & Hn & Hlt).
  apply (wf_cache r Hwf) in Hcache as (m & Hm & Heq).
  rewrite Hn in Hm. injection Hm as <-. lia.
Qed.

Lemma wf_history_nonempty (r : t) (f : Z) (n : LRUKNode) :
  wf r -> node_store_ r !! f = Some n -> history_ n <> [].
Proof.
  intros Hwf Hn. apply nonempty_length. pose proof (wf_history r Hwf f n Hn). lia.
Qed.

(** [RecordAccess] keeps the new list in the order of the first accesses:
    a frame that comes in was accessed after all the others, and a further
    access to a frame of the list changes neither its place nor its first
    timestamp. *)
Lemma RecordAccess_new_ordered (r r' : t) (f : Z) :
  wf r -> ts_wf r -> new_ordered r -> RecordAccess f r = Ret tt r' -> new_ordered r'.
Proof.
  intros Hwf Hts Hord Hrun. pose proof (wf_k r Hwf) as Hk. unfold new_ordered in *.
  destruct (RecordAccess_cases r r' f Hk Hrun)
    as [(Hnone & ->) | (n & Hn & [(Hlen & ->) | [(Hlen & Hc) | [(Hlen & Hc) | (_ & ->)]]])];
    unfold recorded; rsimpl.
  - (* (1) *)
    assert (Hnotin : f ∉ new_frames_ r).
    { intros Hin. apply (wf_new r Hwf) in Hin as (n & Hn & _). congruence. }
    apply StronglySorted_cons. split; [| apply ordered_insert_ne; assumption].
    apply Forall_forall. intros g Hg.
    assert (Hne : g <> f) by (intros ->; contradiction).
    apply (wf_new r Hwf) in Hg as (m & Hm & _).
    destruct (back_is_Some (history_ m) (wf_history_nonempty r g m Hwf Hm)) as [tg Htg].
    exists (current_timestamp_ r), tg.
    split; [rewrite kth_timestamp_insert_eq; reflexivity |].
    split; [rewrite kth_timestamp_insert_ne by exact Hne; unfold kth_timestamp;
            rewrite Hm; exact Htg |].
    apply (ts_past r Hts g m tg Hm), back_elem, Htg.
  - (* (2) *)
    eapply ordered_same_kth; [| exact Hord]. intros g _.
    destruct (decide (g = f)) as [-> | Hne].
    + rewrite kth_timestamp_insert_eq. unfold kth_timestamp. rewrite Hn.
      apply back_push, (wf_history_nonempty r f n Hwf Hn).
    + apply kth_timestamp_insert_ne, Hne.
  - (* (3) *)
    destruct Hc as (pre & post & l1 & l2 & kts & Hnew & _ & _ & -> & _).
    unfold recorded; rsimpl.
    pose proof (wf_new_nodup r Hwf) as Hnd. rewrite Hnew in Hnd, Hord.
    destruct (NoDup_erase _ _ _ Hnd) as (_ & Hmem).
    apply ordered_insert_ne; [| eapply StronglySorted_without, Hord].
    intros Hin. apply Hmem in Hin as [_ Hin]. congruence.
  - (* (4) *)
    destruct Hc as (pre & post & steps & kts & Hcache & _ & _ & ->).
    unfold recorded; rsimpl.
    apply ordered_insert_ne; [| exact Hord].
    intros Hin. apply (wf_lists_disjoint r f Hwf Hin).
    rewrite Hcache. apply elem_of_app. right. left.
  - exact Hord.
Qed.

Lemma without_new_orders (f : Z) (pre post : list Z) (r : t) :
  wf r -> new_frames_ r = pre ++ f :: post ->
  (new_ordered r -> new_ordered (without_new f pre post r))
  /\ (cache_ordered r -> cache_ordered (without_new f pre post r)).
Proof.
  intros Hwf Hnew. unfold new_ordered, cache_ordered, without_new. rsimpl.
  pose proof (wf_new_nodup r Hwf) as Hnd. rewrite Hnew in Hnd.
  destruct (NoDup_erase _ _ _ Hnd) as (_ & Hmem).
  split; intros Hord.
  - rewrite Hnew in Hord. apply ordered_delete; [| eapply StronglySorted_without, Hord].
    intros Hin. apply Hmem in Hin as [_ Hin]. congruence.
  - apply ordered_delete; [| exact Hord].
    intros Hin. apply (wf_lists_disjoint r f Hwf); [| exact Hin].
    rewrite Hnew. apply elem_of_app. right. left.
Qed.

Lemma without_cached_orders (f : Z) (pre post : list Z) (r : t) :
  wf r -> cache_frames_ r = pre ++ f :: post ->
  (new_ordered r -> new_ordered (without_cached f pre post r))
  /\ (cache_ordered r -> cache_ordered (without_cached f pre post r)).
Proof.
  intros Hwf Hcache. unfold new_ordered, cache_ordered, without_cached. rsimpl.
  pose proof (wf_cache_nodup r Hwf) as Hnd. rewrite Hcache in Hnd.
  destruct (NoDup_erase _ _ _ Hnd) as (_ & Hmem).
  split; intros Hord.
  - apply ordered_delete; [| exact Hord].
    intros Hin. apply (wf_lists_disjoint r f Hwf Hin).
    rewrite Hcache. apply elem_of_app. right. left.
  - rewrite Hcache in Hord. apply ordered_delete; [| eapply StronglySorted_without, Hord].
    intros Hin. apply Hmem in Hin as [_ Hin]. congruence.
Qed.

Lemma SetEvictable_histories (f : Z) (b : bool) (r r' : t) :
  SetEvictable f b r = Ret tt r' ->
  new_frames_ r' = new_frames_ r /\ cache_frames_ r' = cache_frames_ r
  /\ current_timestamp_ r' = current_timestamp_ r
  /\ forall g, history_ <$> (node_store_ r' !! g) = history_ <$> (node_store_ r !! g).
Proof.
  unfold SetEvictable. destruct (node_store_ r !! f) as [n |] eqn:Hn.
  - intros [= <-]. rsimpl. repeat split. intros g.
    destruct (decide (f = g)) as [<- | Hne].
    + rewrite lookup_insert_eq, Hn. reflexivity.
    + rewrite lookup_insert_ne by exact Hne. reflexivity.
  - intros [= <-]. repeat split.
Qed.

Lemma SetEvictable_orders (f : Z) (b : bool) (r r' : t) :
  SetEvictable f b r = Ret tt r' ->
  (new_ordered r -> new_ordered r') /\ (cache_ordered r -> cache_ordered r').
Proof.
  intros Hrun. destruct (SetEvictable_histories f b r r' Hrun) as (Hnew & Hcache & _ & Hhist).
  assert (Hkth : forall g, kth_timestamp (node_store_ r') g = kth_timestamp (node_store_ r) g).
  { intros g. unfold kth_timestamp. specialize (Hhist g).
    destruct (node_store_ r' !! g), (node_store_ r !! g); cbn in Hhist;
      try discriminate; [| reflexivity].
    injection Hhist as ->. reflexivity. }
  unfold new_ordered, cache_ordered. rewrite Hnew, Hcache.
  split; apply ordered_same_kth; intros g _; apply Hkth.
Qed.

(** Timestamps stay in order when nodes go away or keep their history. *)
Lemma ts_wf_shrink (r r' : t) :
  ts_wf r -> current_timestamp_ r' = current_timestamp_ r ->
  (forall g n', node_store_ r' !! g = Some n' ->
     exists n, node_store_ r !! g = Some n /\ history_ n' = history_ n) ->
  ts_wf r'.
Proof.
  intros [Hroom Hdesc Hpast Hown] Hstamp Hsub. constructor; rewrite ?Hstamp.
  - exact Hroom.
  - intros g n' Hn'. destruct (Hsub g n' Hn') as (n & Hn & ->). eapply Hdesc, Hn.
  - intros g n' ts Hn'. destruct (Hsub g n' Hn') as (n & Hn & ->). eapply Hpast, Hn.
  - intros g1 g2 n1 n2 ts Hn1 Hn2.
    destruct (Hsub g1 n1 Hn1) as (m1 & Hm1 & ->).
    destruct (Hsub g2 n2 Hn2) as (m2 & Hm2 & ->).
    eapply Hown; eassumption.
Qed.

Lemma ts_wf_delete (r r' : t) (f : Z) :
  ts_wf r -> current_timestamp_ r' = current_timestamp_ r ->
  node_store_ r' = delete f (node_store_ r) -> ts_wf r'.
Proof.
  intros Hts Hstamp Hstore. apply (ts_wf_shrink r r' Hts Hstamp).
  intros g n' Hn'. rewrite Hstore in Hn'. apply lookup_delete_Some in Hn' as (_ & Hn').
  exists n'. auto.
Qed.

Lemma SetEvictable_ts_wf (f : Z) (b : bool) (r r' : t) :
  ts_wf r -> SetEvictable f b r = Ret tt r' -> ts_wf r'.
Proof.
  intros Hts Hrun. destruct (SetEvictable_histories f b r r' Hrun) as (_ & _ & Hstamp & Hhist).
  apply (ts_wf_shrink r r' Hts Hstamp). intros g n' Hn'. specialize (Hhist g).
  rewrite Hn' in Hhist. destruct (node_store_ r !! g) as [n |]; [| discriminate].
  injection Hhist as Hhist. exists n. auto.
Qed.

(** [Remove] that returns has found no node, or has taken an evictable
    frame out of its list. *)
Lemma Remove_Ret_inv (r r' : t) (f : Z) :
  wf r -> Remove f r = Ret tt r' ->
  (node_store_ r !! f = None /\ r' = r)
  \/ (evictable_in (node_store_ r) f = true
      /\ exists pre post,
           (new_frames_ r = pre ++ f :: post /\ r' = without_new f pre post r)
           \/ (cache_frames_ r = pre ++ f :: post /\ r' = without_cached f pre post r)).
Proof.
  intros Hwf Hrun. pose proof (Remove_inv r f Hwf) as Hcases. unfold evictable_in.
  destruct (node_store_ r !! f) as [n |] eqn:Hn.
  - right. destruct (is_evictable_ n); [| rewrite Hcases in Hrun; discriminate].
    split; [reflexivity |].
    destruct Hcases as (pre & post & [(_ & Hl & Hrem) | (_ & Hl & Hrem)]);
      rewrite Hrem in Hrun; injection Hrun as <-; exists pre, post; auto.
  - left. rewrite Hcases in Hrun. injection Hrun as <-. auto.
Qed.

(** X1. The victim of [Evict] on a consistent replacer is the evictable
    frame nearest to the back of the new list; the cache list is looked at
    only when the new list has no evictable frame, and then gives its
    evictable frame nearest to the back. The node and the list element of
    the victim are erased, the size goes down by one, and the replacer stays
    consistent. *)
Theorem Evict_victim (r r' : t) (f : Z) :
  wf r -> Evict r = Ret (Some f) r' ->
  (exists pre post,
     (last_evictable (node_store_ r) (new_frames_ r) f pre post
      /\ r' = without_new f pre post r)
     \/ ((forall g, g ∈ new_frames_ r -> evictable_in (node_store_ r) g = false)
         /\ last_evictable (node_store_ r) (cache_frames_ r) f pre post
         /\ r' = without_cached f pre post r))
  /\ node_store_ r' = delete f (node_store_ r)
  /\ (f ∉ new_frames_ r' ++ cache_frames_ r')
  /\ curr_size_ r' = size_wrap (curr_size_ r - 1)
  /\ wf r'.
Proof.
  intros Hwf Hrun.
  destruct (Evict_wf r Hwf) as (o & r'' & Hrun' & Hwf').
  rewrite Hrun in Hrun'. injection Hrun' as <- <-.
  pose proof (Evict_Some_inv r r' f Hwf Hrun) as (pre & post & Hcases).
  assert (Hstore : node_store_ r' = delete f (node_store_ r)
                   /\ curr_size_ r' = size_wrap (curr_size_ r - 1)).
  { destruct Hcases as [(_ & ->) | (_ & _ & ->)]; split; reflexivity. }
  destruct Hstore as (Hstore & Hsize).
  split; [exists pre, post; exact Hcases |].
  split; [exact Hstore |]. split; [| split; [exact Hsize | exact Hwf']].
  intros Hin. destruct (wf_listed r' f Hwf' Hin) as [n Hn].
  rewrite Hstore, lookup_delete_eq in Hn. discriminate.
Qed.

(** X2. [Evict] on a consistent replacer returns no frame exactly when no
    frame of either list is evictable, and it then leaves the replacer as it
    was. *)
Theorem Evict_none_iff (r : t) :
  wf r ->
  (no_evictable r <-> Evict r = Ret None r)
  /\ (forall r', Evict r = Ret None r' -> r' = r).
Proof.
  intros Hwf. split; [split |].
  - intros Hno. destruct (Evict_wf r Hwf) as (o & r' & Hrun & _).
    assert (o = None) as -> by (apply (Evict_None_iff r r' o Hrun); exact Hno).
    rewrite Hrun. f_equal. apply (Evict_None_inv r r' Hwf Hrun).
  - intros Hrun. apply (Evict_None_iff r r None Hrun). reflexivity.
  - intros r' Hrun. apply (Evict_None_inv r r' Hwf Hrun).
Qed.

(** X3. The replacement policy, read off the two lists. Let [Evict] return
    [f], and let [g] be another evictable frame. If [g] has fewer than K
    accesses, so has [f], and, the new list being in order, [f] was first
    accessed before [g]. If both have K accesses and the cache list is in
    order, the K-th most recent access of [f] is older than that of [g]. *)
Theorem Evict_takes_oldest (r r' : t) (f g : Z) :
  wf r -> Evict r = Ret (Some f) r' ->
  g <> f -> evictable_in (node_store_ r) g = true ->
  (g ∈ new_frames_ r ->
   f ∈ new_frames_ r /\ (new_ordered r -> newer (node_store_ r) g f))
  /\ (g ∈ cache_frames_ r -> f ∈ cache_frames_ r -> cache_ordered r ->
      newer (node_store_ r) g f).
Proof.
  intros Hwf Hrun Hne Hev.
  assert (Hfront : forall l pre post,
            last_evictable (node_store_ r) l f pre post -> g ∈ l ->
            StronglySorted (newer (node_store_ r)) l -> newer (node_store_ r) g f).
  { intros l pre post (-> & _ & Hpost) Hg Hord.
    apply StronglySorted_app in Hord as (Hall & _).
    apply Hall; [| left].
    apply elem_of_app in Hg as [Hg | Hg]; [exact Hg |].
    apply elem_of_cons in Hg as [-> | Hg]; [congruence |].
    rewrite (Hpost g Hg) in Hev. discriminate. }
  destruct (Evict_Some_inv r r' f Hwf Hrun) as (pre & post & [(Hlast & _) | (Hnone & Hlast & _)]).
  - assert (Hf : f ∈ new_frames_ r).
    { destruct Hlast as (-> & _). apply elem_of_app. right. left. }
    split.
    + intros Hg. split; [exact Hf |]. intros Hord. apply (Hfront _ _ _ Hlast Hg Hord).
    + intros _ Hc _. destruct (wf_lists_disjoint r f Hwf Hf Hc).
  - split.
    + intros Hg. rewrite (Hnone g Hg) in Hev. discriminate.
    + intros Hg _ Hord. apply (Hfront _ _ _ Hlast Hg Hord).
Qed.

(** X4. The order of the lists is kept. On a consistent replacer,
    [RecordAccess] leaves the new list in the order of the first accesses;
    [SetEvictable], [Evict] and [Remove] leave both lists in the order they
    had. *)
Theorem list_orders_kept (r : t) :
  wf r -> ts_wf r ->
  (forall f r', RecordAccess f r = Ret tt r' -> new_ordered r -> new_ordered r')
  /\ (forall f b r', SetEvictable f b r = Ret tt r' ->
        (new_ordered r -> new_ordered r') /\ (cache_ordered r -> cache_ordered r'))
  /\ (forall o r', Evict r = Ret o r' ->
        (new_ordered r -> new_ordered r') /\ (cache_ordered r -> cache_ordered r'))
  /\ (forall f r', Remove f r = Ret tt r' ->
        (new_ordered r -> new_ordered r') /\ (cache_ordered r -> cache_ordered r')).
Proof.
  intros Hwf Hts. split; [| split; [| split]].
  - intros f r' Hrun Hord. apply (RecordAccess_new_ordered r r' f Hwf Hts Hord Hrun).
  - intros f b r' Hrun. apply (SetEvictable_orders f b r r' Hrun).
  - intros [f |] r' Hrun.
    + destruct (Evict_Some_inv r r' f Hwf Hrun)
        as (pre & post & [((Hl & _) & ->) | (_ & (Hl & _) & ->)]).
      * apply without_new_orders; assumption.
      * apply without_cached_orders; assumption.
    + rewrite (Evict_None_inv r r' Hwf Hrun). auto.
  - intros f r' Hrun.
    destruct (Remove_Ret_inv r r' f Hwf Hrun)
      as [(_ & ->) | (_ & pre & post & [(Hl & ->) | (Hl & ->)])].
    + auto.
    + apply without_new_orders; assumption.
    + apply without_cached_orders; assumption.
Qed.

(** ** Runs of calls *)

Lemma init_sizes_agree (num_frames k : Z) : sizes_agree (init num_frames k).
Proof.
  unfold sizes_agree, init, evictable_count. rsimpl.
  rewrite map_filter_empty, map_size_empty. reflexivity.
Qed.

Lemma init_new_ordered (num_frames k : Z) : new_ordered (init num_frames k).
Proof. unfold new_ordered, init. rsimpl. constructor. Qed.

Lemma without_new_ts_wf (f : Z) (pre post : list Z) (r : t) :
  ts_wf r -> ts_wf (without_new f pre post r).
Proof. intros Hts. apply (ts_wf_delete r _ f Hts); reflexivity. Qed.

Lemma without_cached_ts_wf (f : Z) (pre post : list Z) (r : t) :
  ts_wf r -> ts_wf (without_cached f pre post r).
Proof. intros Hts. apply (ts_wf_delete r _ f Hts); reflexivity. Qed.

(** One call on a consistent replacer returns or throws, and leaves the
    replacer consistent, with the size it should have, and, as long as the
    counter of timestamps does not wrap, with the timestamps and the new list
    in order. *)
Lemma perform_step (c : call) (r : t) :
  wf r -> sizes_agree r ->
  exists r',
    (perform c r = Ret tt r' \/ exists msg, perform c r = Throws msg r')
    /\ wf r' /\ sizes_agree r'
    /\ (ts_wf r -> new_ordered r -> current_timestamp_ r + 1 < size_modulus ->
        ts_wf r' /\ new_ordered r'
        /\ current_timestamp_ r' <= current_timestamp_ r + 1).
Proof.
  intros Hwf Hsz. pose proof (wf_k r Hwf) as Hk.
  assert (Hstay : (ts_wf r -> new_ordered r -> current_timestamp_ r + 1 < size_modulus ->
                   ts_wf r /\ new_ordered r
                   /\ current_timestamp_ r <= current_timestamp_ r + 1))
    by (intros Hts Hord _; split; [exact Hts | split; [exact Hord | lia]]).
  destruct c as [f | f b | | f |]; cbn [perform].
  - (* RecordAccess *)
    destruct (Z.gtb_spec f (static_cast_int (replacer_size_ r))) as [Hgt | Hle].
    + exists r. split; [| auto]. right. eexists. unfold RecordAccess.
      destruct (Z.gtb_spec f (static_cast_int (replacer_size_ r))); [reflexivity | lia].
    + destruct (RecordAccess_wf r f Hwf Hle) as (r' & Hrun & Hwf').
      exists r'. split; [left; exact Hrun |]. split; [exact Hwf' |].
      split; [apply (RecordAccess_sizes r r' f Hk Hsz Hrun) |].
      intros Hts Hord Hroom.
      split; [apply (RecordAccess_ts_wf r r' f Hk Hts Hroom Hrun) |].
      split; [apply (RecordAccess_new_ordered r r' f Hwf Hts Hord Hrun) |].
      destruct (RecordAccess_tick r r' f Hk Hrun) as (_ & ->).
      pose proof (ts_room r Hts). unfold size_wrap. rewrite Z.mod_small; lia.
  - (* SetEvictable *)
    destruct (GuardFacts.SetEvictable_Ret f b r) as (r' & Hrun & _).
    exists r'. split; [left; exact Hrun |].
    split; [apply (SetEvictable_wf f b r r' Hwf Hrun) |].
    split; [apply (SetEvictable_sizes f b r r' Hsz Hrun) |].
    intros Hts Hord Hroom.
    split; [apply (SetEvictable_ts_wf f b r r' Hts Hrun) |].
    split; [apply (SetEvictable_orders f b r r' Hrun), Hord |].
    destruct (SetEvictable_histories f b r r' Hrun) as (_ & _ & -> & _). lia.
  - (* Evict *)
    destruct (Evict_wf r Hwf) as (o & r' & Hrun & Hwf').
    exists r'. split; [left; unfold bind; rewrite Hrun; reflexivity |].
    split; [exact Hwf' |]. destruct o as [f |].
    + destruct (Evict_Some_inv r r' f Hwf Hrun)
        as (pre & post & [((Hl & Hev & _) & ->) | (_ & (Hl & Hev & _) & ->)]).
      * split; [apply without_new_sizes; assumption |]. intros Hts Hord _.
        split; [apply without_new_ts_wf, Hts |].
        split; [apply without_new_orders; assumption | cbn; lia].
      * split; [apply without_cached_sizes; assumption |]. intros Hts Hord _.
        split; [apply without_cached_ts_wf, Hts |].
        split; [apply without_cached_orders; assumption | cbn; lia].
    + rewrite (Evict_None_inv r r' Hwf Hrun). auto.
  - (* Remove *)
    pose proof (Remove_inv r f Hwf) as Hcases. unfold evictable_in in *.
    destruct (node_store_ r !! f) as [n |] eqn:Hn.
    + destruct (is_evictable_ n) eqn:Hev.
      * assert (Hev' : evictable_in (node_store_ r) f = true)
          by (unfold evictable_in; rewrite Hn; exact Hev).
        destruct (Remove_wf r f Hwf) as (r' & Hrun & Hwf' & _).
        { intros m Hm. rewrite Hn in Hm. injection Hm as <-. exact Hev. }
        exists r'. split; [left; exact Hrun |]. split; [exact Hwf' |].
        destruct Hcases as (pre & post & [(_ & Hl & Hrem) | (_ & Hl & Hrem)]);
          rewrite Hrem in Hrun; injection Hrun as <-.
        -- split; [apply without_new_sizes; assumption |]. intros Hts Hord _.
           split; [apply without_new_ts_wf, Hts |].
           split; [apply without_new_orders; assumption | cbn; lia].
        -- split; [apply without_cached_sizes; assumption |]. intros Hts Hord _.
           split; [apply without_cached_ts_wf, Hts |].
           split; [apply without_cached_orders; assumption | cbn; lia].
      * exists r. split; [right; eexists; exact Hcases | auto].
    + exists r. split; [left; exact Hcases | auto].
  - (* Size *)
    exists r. split; [left; reflexivity | auto].
Qed.

Lemma perform_all_inv (calls : list call) (r : t) :
  wf r -> sizes_agree r ->
  exists r',
    perform_all calls r = Some r' /\ wf r' /\ sizes_agree r'
    /\ (ts_wf r -> new_ordered r ->
        current_timestamp_ r + Z.of_nat (length calls) < size_modulus ->
        ts_wf r' /\ new_ordered r').
Proof.
  revert r. induction calls as [| c calls IH]; intros r Hwf Hsz.
  - exists r. cbn. auto.
  - destruct (perform_step c r Hwf Hsz) as (r1 & Hrun & Hwf1 & Hsz1 & Hts1).
    destruct (IH r1 Hwf1 Hsz1) as (r' & Hrest & Hwf' & Hsz' & Hts').
    exists r'. split.
    + cbn [perform_all]. destruct Hrun as [-> | (msg & ->)]; exact Hrest.
    + split; [exact Hwf' |]. split; [exact Hsz' |].
      intros Hts Hord Hroom. cbn [length] in Hroom.
      destruct Hts1 as (Hts1 & Hord1 & Hstamp); [assumption | assumption | lia |].
      apply Hts'; [assumption | assumption | lia].
Qed.

Lemma replacer_after_inv (calls : list call) (num_frames k : Z) :
  2 <= k < size_modulus -> Z.of_nat (length calls) < size_modulus ->
  wf (replacer_after calls num_frames k)
  /\ ts_wf (replacer_after calls num_frames k)
  /\ new_ordered (replacer_after calls num_frames k).
Proof.
  intros Hk Hlen. unfold replacer_after.
  destruct (perform_all_inv calls (init num_frames k))
    as (r & -> & Hwf & _ & Hts); [apply init_wf, Hk | apply init_sizes_agree |].
  cbn [default option_rect from_option]. split; [exact Hwf |].
  apply Hts; [apply init_ts_wf | apply init_new_ordered | cbn; lia].
Qed.

(** X5. A replacer made for K at least 2 never runs into undefined
    behaviour: whatever calls of [RecordAccess], [SetEvictable], [Evict],
    [Remove] and [Size] a client makes, with whatever arguments, each of them
    returns or throws. After them the two lists and the node store are
    consistent and [Size()] is the number of evictable frames (kept in a
    [size_t]); and, the counter of timestamps not having wrapped, the
    histories are in order and the new list is in the order of the first
    accesses. *)
Theorem replacer_calls_defined (num_frames k : Z) (calls : list call) :
  2 <= k < size_modulus ->
  exists r,
    perform_all calls (init num_frames k) = Some r
    /\ wf r
    /\ Size r = Ret (size_wrap (Z.of_nat (evictable_count (node_store_ r)))) r
    /\ (Z.of_nat (length calls) < size_modulus -> ts_wf r /\ new_ordered r).
Proof.
  intros Hk.
  destruct (perform_all_inv calls (init num_frames k))
    as (r & Hrun & Hwf & Hsz & Hts).
  - apply init_wf, Hk.
  - apply init_sizes_agree.
  - exists r. split; [exact Hrun |]. split; [exact Hwf |]. split.
    + unfold Size. rewrite Hsz. reflexivity.
    + intros Hlen. apply Hts.
      * apply init_ts_wf.
      * apply init_new_ordered.
      * cbn. lia.
Qed.

Lemma replacer_calls_defined_witness :
  exists r,
    perform_all [CallRecordAccess 0; CallRecordAccess 1; CallRecordAccess 7;
                 CallSetEvictable 0 true; CallRemove 1; CallSetEvictable 1 true;
                 CallRecordAccess 0; CallEvict; CallEvict; CallSize] (init 3 2)
    = Some r
    /\ wf r
    /\ Size r = Ret (size_wrap (Z.of_nat (evictable_count (node_store_ r)))) r.
Proof.
  destruct (replacer_calls_defined 3 2
              [CallRecordAccess 0; CallRecordAccess 1; CallRecordAccess 7;
               CallSetEvictable 0 true; CallRemove 1; CallSetEvictable 1 true;
               CallRecordAccess 0; CallEvict; CallEvict; CallSize])
    as (r & Hrun & Hwf & Hsize & _).
  - unfold size_modulus. lia.
  - exists r. split; [exact Hrun |]. split; [exact Hwf | exact Hsize].
Defined.

(** ** [Remove] and [SetEvictable] *)

(** X6. [Remove] on a consistent replacer. A frame without a node: nothing
    happens. A frame that is not evictable: the exception "<frame id> is
    not evictable." and the replacer as it was. An evictable frame: the replacer
    is left exactly as [Evict] leaves it when that frame is the victim, which
    is the new list or the cache list without the frame, according to whether
    the frame has fewer than K accesses in its history, no node, and the size
    one less. Whenever [Remove] returns, the frame has no node afterwards and
    the replacer is consistent. *)
Theorem Remove_cases (r : t) (f : Z) :
  wf r ->
  match node_store_ r !! f with
  | None => Remove f r = Ret tt r
  | Some n =>
      if is_evictable_ n
      then exists pre post,
             (Z.of_nat (length (history_ n)) < k_ r
              /\ new_frames_ r = pre ++ f :: post
              /\ Remove f r = Ret tt (without_new f pre post r))
             \/ (Z.of_nat (length (history_ n)) = k_ r
                 /\ cache_frames_ r = pre ++ f :: post
                 /\ Remove f r = Ret tt (without_cached f pre post r))
      else Remove f r = Throws (String.append (to_string f) " is not evictable.") r
  end
  /\ forall r', Remove f r = Ret tt r' ->
       node_store_ r' !! f = None /\ (f ∉ new_frames_ r' ++ cache_frames_ r') /\ wf r'.
Proof.
  intros Hwf. split; [apply Remove_inv, Hwf |].
  intros r' Hrun.
  assert (Hev : forall n, node_store_ r !! f = Some n -> is_evictable_ n = true).
  { intros n Hn.
    destruct (Remove_Ret_inv r r' f Hwf Hrun) as [(Hnone & _) | (Hev & _)]; [congruence |].
    unfold evictable_in in Hev. rewrite Hn in Hev. exact Hev. }
  destruct (Remove_wf r f Hwf Hev) as (r'' & Hrun' & Hwf' & Hgone).
  rewrite Hrun in Hrun'. injection Hrun' as <-.
  split; [exact Hgone |]. split; [| exact Hwf'].
  intros Hin. destruct (wf_listed r' f Hwf' Hin) as [n Hn]. congruence.
Qed.

(** X7. A frame that [Evict] or [Remove] took out of the replacer has lost
    its history: the next [RecordAccess] of it finds no node, gives it a
    history of one timestamp, not evictable, and puts it at the front of the
    new list, whatever list it was in before. *)
Theorem taken_out_frame_starts_anew (r r1 : t) (f : Z) :
  wf r -> f <= static_cast_int (replacer_size_ r) ->
  Evict r = Ret (Some f) r1
  \/ (is_Some (node_store_ r !! f) /\ Remove f r = Ret tt r1) ->
  (f ∉ new_frames_ r1 ++ cache_frames_ r1)
  /\ exists r2,
       RecordAccess f r1 = Ret tt r2
       /\ node_store_ r2 !! f = Some (mkNode [current_timestamp_ r] false)
       /\ new_frames_ r2 = f :: new_frames_ r1
       /\ cache_frames_ r2 = cache_frames_ r1
       /\ curr_size_ r2 = size_wrap (curr_size_ r - 1).
Proof.
  intros Hwf Hle Htaken.
  assert (Hform : exists pre post,
            r1 = without_new f pre post r \/ r1 = without_cached f pre post r).
  { destruct Htaken as [Hrun | ([n Hn] & Hrun)].
    - destruct (Evict_Some_inv r r1 f Hwf Hrun) as (pre & post & [(_ & ->) | (_ & _ & ->)]);
        exists pre, post; auto.
    - destruct (Remove_Ret_inv r r1 f Hwf Hrun)
        as [(Hnone & _) | (_ & pre & post & [(_ & ->) | (_ & ->)])];
        [congruence | exists pre, post; auto ..]. }
  assert (Hwf1 : wf r1).
  { destruct Htaken as [Hrun | (_ & Hrun)].
    - destruct (Evict_wf r Hwf) as (o & r' & Hrun' & Hwf').
      rewrite Hrun in Hrun'. injection Hrun' as <- <-. exact Hwf'.
    - destruct (Remove_Ret_inv r r1 f Hwf Hrun) as [(_ & ->) | (Hev & _)]; [exact Hwf |].
      destruct (Remove_wf r f Hwf) as (r' & Hrun' & Hwf' & _).
      + intros n Hn. unfold evictable_in in Hev. rewrite Hn in Hev. exact Hev.
      + rewrite Hrun in Hrun'. injection Hrun' as <-. exact Hwf'. }
  destruct Hform as (pre & post & Hform).
  assert (Hfacts : node_store_ r1 !! f = None
                   /\ replacer_size_ r1 = replacer_size_ r
                   /\ current_timestamp_ r1 = current_timestamp_ r
                   /\ curr_size_ r1 = size_wrap (curr_size_ r - 1)).
  { destruct Hform as [-> | ->]; rsimpl; unfold without_new, without_cached; rsimpl;
      (split; [apply lookup_delete_eq | repeat split]). }
  destruct Hfacts as (Hnone & Hsize & Hstamp & Hcurr).
  split.
  - intros Hin. destruct (wf_listed r1 f Hwf1 Hin) as [n Hn]. congruence.
  - unfold RecordAccess. rewrite Hsize.
    destruct (Z.gtb_spec f (static_cast_int (replacer_size_ r))) as [| _]; [lia |].
    rewrite Hnone. eexists. split; [reflexivity |]. rsimpl.
    split; [rewrite lookup_insert_eq, Hstamp; reflexivity |].
    split; [reflexivity |]. split; [reflexivity | exact Hcurr].
Qed.

Lemma taken_out_frame_starts_anew_witness :
  exists r1 r2,
    (RecordAccess 0;;; RecordAccess 0;;; SetEvictable 0 true;;; Evict)%cpp (init 3 2)
    = Ret (Some 0) r1
    /\ RecordAccess 0 r1 = Ret tt r2
    /\ node_store_ r2 !! 0 = Some (mkNode [2] false)
    /\ new_frames_ r2 = [0] /\ cache_frames_ r2 = [].
Proof.
  set (r := Example.state_after
              (RecordAccess 0;;; RecordAccess 0;;; SetEvictable 0 true)%cpp (init 3 2)).
  set (r1 := Example.state_after Evict r).
  assert (Hwf : wf r).
  { destruct (record_all_wf [0; 0] (init 3 2)) as (r0 & Hrun & Hwf0 & _).
    - apply init_wf. unfold size_modulus. lia.
    - apply init_ts_wf.
    - vm_compute. reflexivity.
    - intros f Hf. vm_compute. apply elem_of_cons in Hf as [-> | Hf]; [discriminate |].
      apply elem_of_cons in Hf as [-> | Hf]; [discriminate | inversion Hf].
    - vm_compute in Hrun. injection Hrun as <-.
      apply (SetEvictable_wf 0 true _ _ Hwf0). vm_compute. reflexivity. }
  destruct (taken_out_frame_starts_anew r r1 0 Hwf) as (_ & r2 & Hrun & Hnode & Hnew & Hcache & _).
  - vm_compute. discriminate.
  - left. vm_compute. reflexivity.
  - exists r1, r2. split; [vm_compute; reflexivity |]. split; [exact Hrun |].
    split; [exact Hnode |]. split; [exact Hnew | exact Hcache].
Defined.

(** X8. Of two [SetEvictable] calls in a row on the same frame the last one
    wins: the node, the lists and the size are as if only the second call had
    been made. A frame without a node is left without one, and the size as it
    is. *)
Theorem SetEvictable_last_call_wins (r : t) (f : Z) (b b' : bool) :
  0 <= curr_size_ r < size_modulus ->
  (SetEvictable f b;;; SetEvictable f b')%cpp r = SetEvictable f b' r
  /\ (node_store_ r !! f = None -> SetEvictable f b' r = Ret tt r).
Proof.
  intros Hrange. unfold bind, SetEvictable.
  destruct (node_store_ r !! f) as [n |] eqn:Hn.
  - split; [| discriminate]. rsimpl. rewrite lookup_insert_eq. rsimpl.
    rewrite insert_insert_eq. f_equal. unfold set_curr_size, set_node_store. rsimpl.
    f_equal.
    assert (Hsmall : size_wrap (curr_size_ r) = curr_size_ r)
      by (apply Z.mod_small; exact Hrange).
    destruct (is_evictable_ n), b, b'; cbn [andb negb]; try reflexivity.
    + rewrite size_wrap_succ. rewrite <- Hsmall at 2. f_equal. lia.
    + rewrite size_wrap_pred. rewrite <- Hsmall at 2. f_equal. lia.
  - split; [rewrite Hn; reflexivity | reflexivity].
Qed.

Lemma SetEvictable_last_call_wins_witness :
  (SetEvictable 0 true;;; SetEvictable 0 false)%cpp
    (Example.state_after (RecordAccess 0) (init 3 2))
  = SetEvictable 0 false (Example.state_after (RecordAccess 0) (init 3 2)).
Proof.
  destruct (SetEvictable_last_call_wins (Example.state_after (RecordAccess 0) (init 3 2)) 0
              true false) as (Hwins & _).
  - vm_compute. split; [discriminate | reflexivity].
  - exact Hwins.
Defined.

(** X9. K = 1 is not served. The first access puts a frame into the new
    list, as for every K; with K = 1 the second access finds a history of K
    timestamps, takes the branch of a cached frame and erases through
    [cache_frames_locator_[frame_id]], an iterator that was never set: the
    second [RecordAccess] of a frame is undefined behaviour. *)
Theorem second_access_undefined_for_K1 (r : t) (f : Z) :
  k_ r = 1 ->
  f <= static_cast_int (replacer_size_ r) ->
  node_store_ r !! f = None ->
  f ∉ cache_frames_locator_ r ->
  exists r1,
    RecordAccess f r = Ret tt r1
    /\ new_frames_ r1 = f :: new_frames_ r
    /\ RecordAccess f r1 = Undefined.
Proof.
  intros Hk Hle Hnone Hloc. unfold RecordAccess at 1.
  destruct (Z.gtb_spec f (static_cast_int (replacer_size_ r))) as [| _]; [lia |].
  rewrite Hnone. eexists. split; [reflexivity |]. split; [reflexivity |].
  unfold RecordAccess. rsimpl.
  destruct (Z.gtb_spec f (static_cast_int (replacer_size_ r))) as [| _]; [lia |].
  rewrite lookup_insert_eq, Hk. cbn [history_ push_history default_node length is_evictable_].
  change (Z.of_nat 1 <? size_wrap (1 - 1)) with false.
  change (Z.of_nat 1 =? size_wrap (1 - 1)) with false.
  change (Z.of_nat 1 =? 1) with true. cbv iota.
  unfold pop_back. cbn [removelast].
  cbn [back last]. rsimpl.
  unfold erase_located. rewrite decide_False by exact Hloc. reflexivity.
Qed.

Lemma second_access_undefined_for_K1_witness :
  (RecordAccess 0;;; RecordAccess 0)%cpp (init 3 1) = Undefined.
Proof.
  destruct (second_access_undefined_for_K1 (init 3 1) 0) as (r1 & Hfirst & _ & Hsecond).
  - reflexivity.
  - vm_compute. discriminate.
  - reflexivity.
  - intros H. apply elem_of_empty in H. exact H.
  - unfold bind. rewrite Hfirst. exact Hsecond.
Defined.

(** ** The theorems at concrete replacers *)

Lemma two_young_frames_inv :
  let r := replacer_after [CallRecordAccess 0; CallRecordAccess 1;
                           CallSetEvictable 0 true; CallSetEvictable 1 true] 3 2 in
  wf r /\ ts_wf r /\ new_ordered r.
Proof. apply replacer_after_inv; [unfold size_modulus; lia | cbn; unfold size_modulus; lia]. Qed.

Lemma Remove_cases_witness :
  let r := replacer_after [CallRecordAccess 0; CallRecordAccess 1;
                           CallSetEvictable 0 true; CallSetEvictable 1 true] 3 2 in
  Remove 5 r = Ret tt r
  /\ (exists pre post, Remove 1 r = Ret tt (without_new 1 pre post r))
  /\ Remove 2 (Example.state_after (RecordAccess 2) r)
     = Throws "2 is not evictable."%string (Example.state_after (RecordAccess 2) r).
Proof.
  intros r. destruct two_young_frames_inv as (Hwf & _). fold r in Hwf.
  split; [| split].
  - destruct (Remove_cases r 5 Hwf) as (Hcase & _).
    replace (node_store_ r !! 5) with (@None LRUKNode) in Hcase by (vm_compute; reflexivity).
    exact Hcase.
  - destruct (Remove_cases r 1 Hwf) as (Hcase & _).
    replace (node_store_ r !! 1) with (Some (mkNode [1] true)) in Hcase
      by (vm_compute; reflexivity).
    cbn [is_evictable_] in Hcase.
    destruct Hcase as (pre & post & [(_ & _ & Hrun) | (Hlen & _)]).
    + exists pre, post. exact Hrun.
    + vm_compute in Hlen. discriminate.
  - assert (Hwf2 : wf (Example.state_after (RecordAccess 2) r)).
    { destruct (RecordAccess_wf r 2 Hwf) as (r' & Hrun & Hwf'); [vm_compute; discriminate |].
      unfold Example.state_after. rewrite Hrun. exact Hwf'. }
    destruct (Remove_cases _ 2 Hwf2) as (Hcase & _).
    replace (node_store_ (Example.state_after (RecordAccess 2) r) !! 2)
      with (Some (mkNode [2] false)) in Hcase by (vm_compute; reflexivity).
    exact Hcase.
Defined.

Lemma Evict_victim_witness :
  let r := replacer_after [CallRecordAccess 0; CallRecordAccess 1;
                           CallSetEvictable 0 true; CallSetEvictable 1 true] 3 2 in
  exists r',
    Evict r = Ret (Some 0) r'
    /\ node_store_ r' = delete 0 (node_store_ r)
    /\ curr_size_ r' = size_wrap (curr_size_ r - 1)
    /\ wf r'.
Proof.
  intros r. destruct two_young_frames_inv as (Hwf & _).
  assert (Hrun : Evict r = Ret (Some 0) (Example.state_after Evict r))
    by (vm_compute; reflexivity).
  destruct (Evict_victim r _ 0 Hwf Hrun) as (_ & Hstore & _ & Hsize & Hwf').
  eexists. split; [exact Hrun |]. split; [exact Hstore |]. split; [exact Hsize | exact Hwf'].
Defined.

Lemma Evict_none_iff_witness :
  Evict (replacer_after [CallRecordAccess 0; CallRecordAccess 1] 3 2)
  = Ret None (replacer_after [CallRecordAccess 0; CallRecordAccess 1] 3 2).
Proof.
  destruct (replacer_after_inv [CallRecordAccess 0; CallRecordAccess 1] 3 2) as (Hwf & _);
    [unfold size_modulus; lia | cbn; unfold size_modulus; lia |].
  apply (Evict_none_iff _ Hwf).
  intros f Hf. vm_compute in Hf.
  apply elem_of_cons in Hf as [-> | Hf]; [reflexivity |].
  apply elem_of_cons in Hf as [-> | Hf]; [reflexivity | inversion Hf].
Defined.

Lemma Evict_takes_oldest_witness :
  let r := replacer_after [CallRecordAccess 0; CallRecordAccess 1;
                           CallSetEvictable 0 true; CallSetEvictable 1 true] 3 2 in
  exists r', Evict r = Ret (Some 0) r' /\ newer (node_store_ r) 1 0.
Proof.
  intros r. destruct two_young_frames_inv as (Hwf & _ & Hord).
  assert (Hrun : Evict r = Ret (Some 0) (Example.state_after Evict r))
    by (vm_compute; reflexivity).
  destruct (Evict_takes_oldest r _ 0 1 Hwf Hrun) as (Hyoung & _).
  - discriminate.
  - vm_compute. reflexivity.
  - destruct Hyoung as (_ & Hnewer).
    + replace (new_frames_ r) with [1; 0] by (vm_compute; reflexivity). left.
    + eexists. split; [exact Hrun | apply Hnewer, Hord].
Defined.

Lemma list_orders_kept_witness :
  let r := replacer_after [CallRecordAccess 0; CallRecordAccess 1;
                           CallSetEvictable 0 true; CallSetEvictable 1 true] 3 2 in
  new_ordered (Example.state_after (RecordAccess 2) r)
  /\ new_ordered (Example.state_after Evict r).
Proof.
  intros r. destruct two_young_frames_inv as (Hwf & Hts & Hord).
  destruct (list_orders_kept r Hwf Hts) as (Hrec & _ & Hevict & _). split.
  - apply (Hrec 2); [vm_compute; reflexivity | exact Hord].
  - apply (Hevict (Some 0)); [vm_compute; reflexivity | exact Hord].
Defined.

Lemma RecordAccess_cache_order_witness :
  let r := replacer_after [CallRecordAccess 0; CallRecordAccess 0; CallRecordAccess 1] 3 2 in
  exists r',
    RecordAccess 1 r = Ret tt r'
    /\ cache_frames_ r' = [1; 0]
    /\ (cache_ordered r'
        \/ (cache_frames_ r <> [] /\ cache_frames_ r' = 1 :: cache_frames_ r
            /\ (forall e, e ∈ cache_frames_ r -> newer (node_store_ r') e 1)
            /\ ~ cache_ordered r')).
Proof.
  intros r.
  destruct (replacer_after_inv [CallRecordAccess 0; CallRecordAccess 0; CallRecordAccess 1] 3 2)
    as (Hwf & Hts & _); [unfold size_modulus; lia | cbn; unfold size_modulus; lia |].
  fold r in Hwf, Hts.
  assert (Hrun : RecordAccess 1 r = Ret tt (Example.state_after (RecordAccess 1) r))
    by (vm_compute; reflexivity).
  eexists. split; [exact Hrun |]. split; [vm_compute; reflexivity |].
  apply (RecordAccess_cache_order r _ 1 Hwf Hts); [| vm_compute; reflexivity | exact Hrun].
  unfold cache_ordered. replace (cache_frames_ r) with [0] by (vm_compute; reflexivity).
  repeat constructor.
Defined.

End ReplacerLaws.

(** * The page guards, released and moved *)

Module GuardLaws.

Import BufferPool GuardSpec GuardFacts.

(** ** [Drop] never waits *)

Lemma steady_ret {S A} (a : A) : returns_or_undefined (ret a : M S A).
Proof. intros s. right. eexists _, _. reflexivity. Qed.

Lemma steady_undefined {S A} : returns_or_undefined (undefined : M S A).
Proof. intros s. left. reflexivity. Qed.

Lemma steady_bind {S A B} (m : M S A) (f : A -> M S B) :
  returns_or_undefined m -> (forall a, returns_or_undefined (f a)) ->
  returns_or_undefined (bind m f).
Proof.
  intros Hm Hf s. unfold bind. destruct (Hm s) as [-> | (a & s' & ->)]; [left; reflexivity |].
  apply Hf.
Qed.

Lemma steady_frame_at (f : Z) : returns_or_undefined (frame_at f).
Proof.
  intros s. unfold frame_at. destruct (f <? 0); [left; reflexivity |].
  destruct (frames_ s !! Z.to_nat f); [right; eexists _, _; reflexivity | left; reflexivity].
Qed.

Lemma steady_update_frame (f : Z) (upd : FrameHeader.t -> FrameHeader.t) :
  returns_or_undefined (update_frame f upd).
Proof.
  apply steady_bind; [apply steady_frame_at |].
  intros fh s. right. eexists _, _. reflexivity.
Qed.

Lemma steady_SetEvictable (f : Z) (b : bool) :
  returns_or_undefined (on_replacer (LRUKReplacer.SetEvictable f b)).
Proof.
  intros s. right. destruct (SetEvictable_Ret f b (replacer_ s)) as (r' & Hrun & _).
  eexists _, _. apply on_replacer_Ret, Hrun.
Qed.

Lemma steady_release (k : guard_kind) (f : Z) :
  returns_or_undefined (on_rwlatch f (PageGuard.release k)).
Proof.
  apply steady_bind; [apply steady_frame_at |].
  intros fh s. destruct k; cbn [PageGuard.release].
  - unfold RWLatch.unlock_shared. destruct (RWLatch.readers (FrameHeader.rwlatch_ fh));
      [left; reflexivity | right; eexists _, _; reflexivity].
  - unfold RWLatch.unlock. destruct (RWLatch.writer (FrameHeader.rwlatch_ fh));
      [right; eexists _, _; reflexivity | left; reflexivity].
Qed.

Lemma steady_Drop (k : guard_kind) (g : PageGuard.t) :
  returns_or_undefined (PageGuard.Drop k g).
Proof.
  unfold PageGuard.Drop. destruct (negb (PageGuard.is_valid_ g)); [apply steady_ret |].
  destruct (PageGuard.frame_ g) as [f |]; [| apply steady_undefined].
  apply steady_bind; [apply steady_update_frame | intros _].
  apply steady_bind; [apply steady_frame_at | intros fh].
  apply steady_bind.
  - destruct (FrameHeader.pin_count_ fh =? 0); [| apply steady_ret].
    destruct (PageGuard.replacer_ g); [apply steady_SetEvictable | apply steady_undefined].
  - intros _. apply steady_bind; [apply steady_release | intros _; apply steady_ret].
Qed.

(** Moving from a guard whose pointers are null. *)
Lemma move_from_null (k : guard_kind) (this that : PageGuard.t) (s : t) :
  PageGuard.replacer_ that = false -> PageGuard.move_from k this that s = Undefined.
Proof.
  intros Hnull. unfold PageGuard.move_from, bind.
  destruct (steady_Drop k this s) as [-> | (g' & s' & ->)]; [reflexivity |].
  cbn [PageGuard.replacer_]. rewrite Hnull. reflexivity.
Qed.

(** The source of a move that returned is left invalid, with null
    pointers. *)
Lemma move_from_source (k : guard_kind) (this that this' that' : PageGuard.t) (s s' : t) :
  PageGuard.move_from k this that s = Ret (this', that') s' ->
  that' = moved_from that /\ this' = that.
Proof.
  unfold PageGuard.move_from. intros H.
  apply bind_Ret_inv in H as (g0 & s0 & _ & H).
  cbn [PageGuard.replacer_ PageGuard.frame_] in H.
  destruct (PageGuard.replacer_ that) eqn:Hr; [| discriminate].
  destruct (PageGuard.frame_ that) as [f |] eqn:Hf; [| discriminate].
  apply bind_Ret_inv in H as (fh & s1 & _ & H).
  apply bind_Ret_inv in H as ([] & s2 & _ & H).
  injection H as <- <- _. split; [reflexivity |].
  destruct that; cbn in *; subst; reflexivity.
Qed.

(** The drop of a valid guard, step by step. *)
Lemma Drop_Ret (k : guard_kind) (g : PageGuard.t) (s : t) (f : Z) (fh : FrameHeader.t) :
  PageGuard.is_valid_ g = true ->
  PageGuard.frame_ g = Some f ->
  PageGuard.replacer_ g = true ->
  0 <= f -> frames_ s !! Z.to_nat f = Some fh ->
  0 < FrameHeader.pin_count_ fh < 2 ^ 64 ->
  holds k (FrameHeader.rwlatch_ fh) ->
  exists r',
    PageGuard.Drop k g s
    = Ret (dropped g)
          (set_frames (<[Z.to_nat f := unpinned k fh]> (frames_ s)) (set_replacer r' s))
    /\ (if FrameHeader.pin_count_ fh - 1 =? 0
        then LRUKReplacer.SetEvictable (FrameHeader.frame_id_ fh) true (replacer_ s)
             = Ret tt r'
        else r' = replacer_ s).
Proof.
  intros Hvalid Hframe Hrepl Hf Hfh Hpin Hheld.
  set (fh1 := FrameHeader.set_pin_count (FrameHeader.pin_count_ fh - 1) fh).
  set (s1 := set_frames (<[Z.to_nat f := fh1]> (frames_ s)) s).
  assert (Hfh1 : frames_ s1 !! Z.to_nat f = Some fh1)
    by (apply lookup_insert_frame with (fh := fh); exact Hfh).
  destruct (SetEvictable_Ret (FrameHeader.frame_id_ fh) true (replacer_ s))
    as (r1 & Hset & _).
  exists (if FrameHeader.pin_count_ fh - 1 =? 0 then r1 else replacer_ s).
  split; [| destruct (FrameHeader.pin_count_ fh - 1 =? 0); [exact Hset | reflexivity]].
  unfold PageGuard.Drop. rewrite Hvalid, Hframe. cbn [negb].
  rewrite (bind_Ret _ _ _ _ _ (update_frame_Ret _ _ _ _ Hf Hfh)).
  rewrite size_wrap_small by lia. fold fh1. fold s1.
  rewrite (bind_Ret _ _ _ _ _ (frame_at_Ret _ _ _ Hf Hfh1)).
  rewrite Hrepl. cbn [fh1 FrameHeader.set_pin_count FrameHeader.pin_count_
                      FrameHeader.frame_id_].
  destruct (FrameHeader.pin_count_ fh - 1 =? 0).
  - rewrite (bind_Ret _ _ _ _ _ (on_replacer_Ret _ s1 tt r1 Hset)).
    assert (Hfh2 : frames_ (set_replacer r1 s1) !! Z.to_nat f = Some fh1) by exact Hfh1.
    rewrite (bind_Ret _ _ _ _ _
               (on_rwlatch_Ret _ _ _ _ _ Hf Hfh2 (release_Ret k _ Hheld))).
    unfold ret, dropped. f_equal.
    destruct s; cbn. unfold set_frames, set_replacer; cbn. f_equal.
    apply list_insert_insert_eq.
  - unfold ret at 1. cbn [bind].
    rewrite (bind_Ret _ _ _ _ _
               (on_rwlatch_Ret _ _ _ _ _ Hf Hfh1 (release_Ret k _ Hheld))).
    unfold ret, dropped. f_equal.
    destruct s; cbn. unfold set_frames, set_replacer; cbn. f_equal.
    apply list_insert_insert_eq.
Qed.

(** A latch a guard acquired is held by it, and is the latch as it was once
    the guard has released it. *)
Lemma acquire_released (k : guard_kind) (l l' : RWLatch.t) :
  PageGuard.acquire k l = Ret tt l' -> holds k l' /\ released k l' = l.
Proof.
  destruct k, l as [w n]; cbn.
  - unfold RWLatch.lock_shared. cbn. destruct w; [discriminate |].
    intros [= <-]. split; [discriminate | reflexivity].
  - unfold RWLatch.lock. cbn. destruct w; [discriminate |]. destruct n; [| discriminate].
    cbn. intros [= <-]. split; reflexivity.
Qed.

(** X11. A guard that was dropped, and the source of a move, are of no
    further use: [GetPageId], [GetData], [GetDataMut] and [IsDirty] fail the
    assertion on [is_valid_], which ends the process, and touch nothing;
    only a further [Drop] is harmless. *)
Theorem released_guard_accessors_abort (k : guard_kind) (g g' : PageGuard.t) (s s' : t) :
  PageGuard.Drop k g s = Ret g' s'
  \/ (exists this this', PageGuard.move_from k this g s = Ret (this', g') s') ->
  PageGuard.GetPageId k g' s' = Throws (invalid_use k) s'
  /\ PageGuard.GetData k g' s' = Throws (invalid_use k) s'
  /\ PageGuard.IsDirty k g' s' = Throws (invalid_use k) s'
  /\ WritePageGuard.GetDataMut g' s' = Throws (invalid_use Write) s'
  /\ PageGuard.Drop k g' s' = Ret g' s'.
Proof.
  intros Hreleased.
  assert (Hinvalid : PageGuard.is_valid_ g' = false).
  { destruct Hreleased as [Hdrop | (this & this' & Hmove)].
    - eapply Drop_invalidates, Hdrop.
    - apply move_from_source in Hmove as (-> & _). reflexivity. }
  unfold PageGuard.GetPageId, PageGuard.GetData, PageGuard.IsDirty, WritePageGuard.GetDataMut,
    PageGuard.ensure_valid, bind, throw.
  rewrite Hinvalid. destruct k; repeat split; try reflexivity;
    apply Drop_invalid, Hinvalid.
Qed.

(** X12. A guard with null pointers must not be moved from. The move
    constructor and the move assignment end with
    [replacer_->SetEvictable(frame_->frame_id_, false)], on the pointers
    they took over from the source: for a source that is default
    constructed, was dropped, or was moved from before, both pointers are
    null and the call is undefined behaviour, whatever the destination
    held. *)
Theorem move_from_released_guard_undefined (k : guard_kind) (this that : PageGuard.t)
    (s : t) :
  PageGuard.replacer_ that = false ->
  PageGuard.move_construct k that s = Undefined
  /\ PageGuard.move_assign k this that s = Undefined.
Proof.
  intros Hnull. unfold PageGuard.move_construct, PageGuard.move_assign.
  split; apply move_from_null, Hnull.
Qed.

End GuardLaws.

(** * The buffer pool manager, call by call *)

Module PoolLaws.

Import BufferPool BufferPoolManager GuardSpec PoolSpec GuardFacts PoolFacts GuardLaws.

(** ** What the replacer is told on a pin *)

Lemma SetEvictable_store (f : Z) (b : bool) (r r' : LRUKReplacer.t) :
  LRUKReplacer.SetEvictable f b r = Ret tt r' ->
  LRUKReplacer.replacer_size_ r' = LRUKReplacer.replacer_size_ r
  /\ match LRUKReplacer.node_store_ r !! f with
     | Some n =>
         LRUKReplacer.node_store_ r'
         = <[f := LRUKReplacer.mkNode (LRUKReplacer.history_ n) b]> (LRUKReplacer.node_store_ r)
     | None => r' = r
     end.
Proof.
  unfold LRUKReplacer.SetEvictable.
  destruct (LRUKReplacer.node_store_ r !! f) as [n |]; intros [= <-]; split; reflexivity.
Qed.

(** [SetEvictable] with the flag the frame has already changes nothing. *)
Lemma SetEvictable_again (f : Z) (b : bool) (r r' : LRUKReplacer.t) :
  LRUKReplacer.SetEvictable f b r = Ret tt r' ->
  LRUKReplacer.SetEvictable f b r' = Ret tt r'.
Proof.
  unfold LRUKReplacer.SetEvictable.
  destruct (LRUKReplacer.node_store_ r !! f) as [n |] eqn:Hn.
  - intros [= <-]. cbn [LRUKReplacer.node_store_ LRUKReplacer.set_curr_size
                        LRUKReplacer.set_node_store].
    rewrite lookup_insert_eq. cbn [LRUKReplacer.is_evictable_ LRUKReplacer.history_].
    rewrite insert_insert_eq.
    assert (Hsame : b && negb b = false) by (destruct b; reflexivity).
    assert (Hsame' : negb b && b = false) by (destruct b; reflexivity).
    rewrite Hsame, Hsame'. reflexivity.
  - intros [= <-]. rewrite Hn. reflexivity.
Qed.

(** The replacer after [RecordAccess] and the two [SetEvictable] calls of a
    pin of frame [f]: consistent, for as many frames as before, with a node
    for [f] that is not evictable and every other node as it was. *)
Lemma replacer_on_pin_inv (r r' : LRUKReplacer.t) (f : Z) :
  ReplacerSpec.wf r ->
  replacer_on_pin f f r = Ret tt r' ->
  ReplacerSpec.wf r'
  /\ LRUKReplacer.replacer_size_ r' = LRUKReplacer.replacer_size_ r
  /\ (forall g, g <> f ->
        LRUKReplacer.node_store_ r' !! g = LRUKReplacer.node_store_ r !! g)
  /\ exists n', LRUKReplacer.node_store_ r' !! f = Some n'
                /\ LRUKReplacer.is_evictable_ n' = false.
Proof.
  intros Hwf Hrun. unfold replacer_on_pin in Hrun.
  apply bind_Ret_inv in Hrun as ([] & r1 & Hrec & Hrun).
  apply bind_Ret_inv in Hrun as ([] & r2 & Hset1 & Hset2).
  pose proof (ReplacerSpec.wf_k r Hwf) as Hk.
  destruct (ReplacerLaws.RecordAccess_store r r1 f Hk Hrec) as (_ & _ & n1 & Hstore1 & _).
  destruct (ReplacerFacts.RecordAccess_tick r r1 f Hk Hrec) as (Hsize1 & _).
  assert (Hwf1 : ReplacerSpec.wf r1).
  { destruct (ReplacerFacts.RecordAccess_wf r f Hwf) as (r1' & Hrec' & Hwf1).
    - unfold LRUKReplacer.RecordAccess in Hrec.
      destruct (Z.gtb_spec f (static_cast_int (LRUKReplacer.replacer_size_ r)));
        [discriminate | lia].
    - rewrite Hrec in Hrec'. injection Hrec' as <-. exact Hwf1. }
  pose proof (ReplacerFacts.SetEvictable_wf _ _ _ _ Hwf1 Hset1) as Hwf2.
  pose proof (ReplacerFacts.SetEvictable_wf _ _ _ _ Hwf2 Hset2) as Hwf'.
  destruct (SetEvictable_store _ _ _ _ Hset1) as (Hsize2 & Hstore2).
  destruct (SetEvictable_store _ _ _ _ Hset2) as (Hsize3 & Hstore3).
  rewrite Hstore1, lookup_insert_eq in Hstore2. cbv beta iota in Hstore2.
  rewrite Hstore2, lookup_insert_eq in Hstore3. cbv beta iota in Hstore3.
  split; [exact Hwf' |]. split; [congruence |]. split.
  - intros g Hne. rewrite Hstore3.
    rewrite !lookup_insert_ne by congruence. reflexivity.
  - eexists. rewrite Hstore3, lookup_insert_eq. split; reflexivity.
Qed.

(** ** The result of a fetch *)

Lemma set_replacer_same (s : t) : set_replacer (replacer_ s) s = s.
Proof. destruct s; reflexivity. Qed.

(** A fetch on a consistent pool, with the pool latch free and no frame
    latch in the way: either the page is not resident and there is no frame
    to be had, and the pool is left as it was; or the frame is found on one
    of the three paths, pinned, and handed out. *)
Lemma CheckedPage_result (k : guard_kind) (page_id : Z) (s : t) :
  wf s -> bpm_latch_ s = false -> latches_free_for k s ->
  (page_table_ s !! page_id = None /\ free_frames_ s = []
   /\ ReplacerSpec.no_evictable (replacer_ s)
   /\ CheckedPage k page_id s = Ret None s)
  \/ exists f s0 fh0 l' r',
       fetch_path page_id s f s0
       /\ 0 <= f
       /\ frames_ s0 !! Z.to_nat f = Some fh0
       /\ PageGuard.acquire k (FrameHeader.rwlatch_ fh0) = Ret tt l'
       /\ replacer_on_pin f (FrameHeader.frame_id_ fh0) (replacer_ s0) = Ret tt r'
       /\ CheckedPage k page_id s
          = Ret (Some (guard_on page_id f)) (handed_out k page_id f l' fh0 r' s0).
Proof.
  intros [Hrepl Htable Hfree Hlisted] Hl Hlatches.
  destruct (page_table_ s !! page_id) as [f |] eqn:Hpt.
  - (* the page is resident *)
    right. destruct (Htable _ _ Hpt) as ((Hf & Hle) & fh & Hfh).
    destruct (Hlatches _ _ Hfh) as (l' & Hacq).
    destruct (replacer_on_pin_wf (replacer_ s) f (FrameHeader.frame_id_ fh) Hrepl Hle)
      as (r' & Hpin).
    exists f, (set_bpm_latch true s), fh, l', r'.
    split; [apply fetch_hit; exact Hpt |]. split; [exact Hf |]. split; [exact Hfh |].
    split; [exact Hacq |]. split; [exact Hpin |].
    rewrite (CheckedPage_hit k page_id s f Hl Hpt).
    apply pin_and_guard_Ret; assumption.
  - destruct (free_frames_ s) as [| f rest] eqn:Hfr.
    + (* the replacer picks the frame *)
      destruct (ReplacerFacts.Evict_wf (replacer_ s) Hrepl) as (ov & r1 & Hev & Hwf1).
      destruct ov as [f |].
      * right.
        destruct (Hlisted f (ReplacerFacts.Evict_Some_listed _ _ _ Hev))
          as ((Hf & Hle) & fh & Hfh).
        destruct (Hlatches _ _ Hfh) as (l' & Hacq).
        destruct (Evict_Some _ _ _ Hev) as (_ & Hsize).
        destruct (replacer_on_pin_wf r1 f (FrameHeader.frame_id_ fh) Hwf1) as (r' & Hpin);
          [rewrite Hsize; exact Hle |].
        set (s0 := from_replacer page_id f fh r1 s).
        assert (Hfh0 : exists fh0, frames_ s0 !! Z.to_nat f = Some fh0
                  /\ FrameHeader.rwlatch_ fh0 = FrameHeader.rwlatch_ fh
                  /\ FrameHeader.frame_id_ fh0 = FrameHeader.frame_id_ fh).
        { eexists. split.
          - unfold s0, from_replacer. cbn [loaded frames_ set_frames].
            apply lookup_insert_frame with (fh := fh).
            cbn [frames_ read_served set_page_table set_disk_scheduler].
            rewrite after_flush_frames. exact Hfh.
          - split; reflexivity. }
        destruct Hfh0 as (fh0 & Hfh0 & Hlatch0 & Hid0).
        exists f, s0, fh0, l', r'.
        split; [apply fetch_evict; assumption |]. split; [exact Hf |].
        split; [exact Hfh0 |]. split; [rewrite Hlatch0; exact Hacq |].
        assert (Hpin0 : replacer_on_pin f (FrameHeader.frame_id_ fh0) (replacer_ s0)
                        = Ret tt r').
        { rewrite Hid0. unfold s0, from_replacer.
          cbn [loaded replacer_ set_frames read_served set_page_table set_disk_scheduler].
          rewrite after_flush_replacer. exact Hpin. }
        split; [exact Hpin0 |].
        rewrite (CheckedPage_evict k page_id s f fh r1 Hl Hpt Hfr Hev Hf Hfh).
        2:{ intros f' Hf'. destruct (Htable _ _ Hf') as ((Hf0 & _) & Hsome).
            split; assumption. }
        apply pin_and_guard_Ret; [exact Hf | exact Hfh0 | exact Hpin0 |].
        rewrite Hlatch0. exact Hacq.
      * left. split; [reflexivity |]. split; [reflexivity |].
        split; [apply (ReplacerFacts.Evict_None_iff _ _ _ Hev); reflexivity |].
        rewrite (CheckedPage_no_frame k page_id s r1 Hl Hpt Hfr Hev).
        rewrite (ReplacerLaws.Evict_None_inv _ _ Hrepl Hev), set_replacer_same. reflexivity.
    + (* a free frame *)
      right. destruct (Hfree f) as ((Hf & Hle) & fh & Hfh); [left |].
      destruct (Hlatches _ _ Hfh) as (l' & Hacq).
      destruct (replacer_on_pin_wf (replacer_ s) f (FrameHeader.frame_id_ fh) Hrepl Hle)
        as (r' & Hpin).
      set (s0 := from_free_list page_id f fh rest s).
      assert (Hfh0 : exists fh0, frames_ s0 !! Z.to_nat f = Some fh0
                /\ FrameHeader.rwlatch_ fh0 = FrameHeader.rwlatch_ fh
                /\ FrameHeader.frame_id_ fh0 = FrameHeader.frame_id_ fh).
      { eexists. split.
        - unfold s0, from_free_list. cbn [loaded frames_ set_frames].
          apply lookup_insert_frame with (fh := fh). exact Hfh.
        - split; reflexivity. }
      destruct Hfh0 as (fh0 & Hfh0 & Hlatch0 & Hid0).
      exists f, s0, fh0, l', r'.
      split; [eapply fetch_free; eassumption |]. split; [exact Hf |].
      split; [exact Hfh0 |]. split; [rewrite Hlatch0; exact Hacq |].
      assert (Hpin0 : replacer_on_pin f (FrameHeader.frame_id_ fh0) (replacer_ s0)
                      = Ret tt r') by (rewrite Hid0; exact Hpin).
      split; [exact Hpin0 |].
      rewrite (CheckedPage_free_frame k page_id s f rest fh Hl Hpt Hfr Hf Hfh).
      apply pin_and_guard_Ret; [exact Hf | exact Hfh0 | exact Hpin0 |].
      rewrite Hlatch0. exact Hacq.
Qed.

(** ** [WritePage] and [ReadPage] *)

Lemma construct_inv (k : guard_kind) (page_id f : Z) (s s' : t) (g : PageGuard.t) :
  PageGuard.construct k page_id f s = Ret g s' -> g = guard_on page_id f.
Proof.
  unfold PageGuard.construct. intros H.
  apply bind_Ret_inv in H as ([] & s1 & _ & H).
  apply bind_Ret_inv in H as ([] & s2 & _ & H).
  injection H as <- _. reflexivity.
Qed.

Lemma on_replacer_inv {A} (m : M LRUKReplacer.t A) (s s' : t) (a : A) :
  on_replacer m s = Ret a s' ->
  exists r', m (replacer_ s) = Ret a r' /\ s' = set_replacer r' s.
Proof.
  unfold on_replacer, zoom. destruct (m (replacer_ s)) as [a' r' | | |]; try discriminate.
  intros [= <- <-]. eauto.
Qed.

(** The guard [pin_and_guard] hands out is on a frame of the vector, and
    the replacer has been told that the frame is not evictable. *)
Lemma pin_and_guard_inv (k : guard_kind) (page_id f : Z) (s s' : t)
    (o : option PageGuard.t) :
  pin_and_guard k page_id f s = Ret o s' ->
  o = Some (guard_on page_id f)
  /\ 0 <= f
  /\ exists fh,
       frames_ s' !! Z.to_nat f = Some fh
       /\ LRUKReplacer.SetEvictable (FrameHeader.frame_id_ fh) false (replacer_ s')
          = Ret tt (replacer_ s').
Proof.
  unfold pin_and_guard. intros H.
  apply bind_Ret_inv in H as ([] & s1 & _ & H).
  apply bind_Ret_inv in H as ([] & s2 & _ & H).
  apply bind_Ret_inv in H as ([] & s3 & _ & H).
  apply bind_Ret_inv in H as (temporary & s4 & Hcon & H).
  apply construct_inv in Hcon as ->.
  apply bind_Ret_inv in H as (moved & s5 & Hmove & H).
  apply bind_Ret_inv in H as (g6 & s6 & Hdrop & H).
  injection H as <- <-.
  unfold PageGuard.move_construct, PageGuard.move_from in Hmove.
  rewrite (bind_Ret _ _ _ _ _ (Drop_invalid k PageGuard.empty s4 eq_refl)) in Hmove.
  cbn [PageGuard.replacer_ PageGuard.frame_ guard_on] in Hmove.
  apply bind_Ret_inv in Hmove as (fh & s4' & Hfr & Hmove).
  apply frame_at_inv in Hfr as (-> & Hf & Hfh).
  apply bind_Ret_inv in Hmove as ([] & s5' & Hset & Hmove).
  injection Hmove as <- <-.
  apply on_replacer_inv in Hset as (r' & Hset & ->).
  rewrite Drop_invalid in Hdrop by reflexivity. injection Hdrop as _ <-.
  split; [reflexivity |]. split; [exact Hf |]. exists fh. split; [exact Hfh |].
  cbn [replacer_ set_replacer]. eapply SetEvictable_again, Hset.
Qed.

Lemma CheckedPage_Some_pin (k : guard_kind) (page_id : Z) (s s' : t) (g : PageGuard.t) :
  CheckedPage k page_id s = Ret (Some g) s' ->
  exists f s0, pin_and_guard k page_id f s0 = Ret (Some g) s'.
Proof.
  unfold CheckedPage. intros H.
  apply bind_Ret_inv in H as ([] & s1 & _ & H).
  unfold get in H. cbn [bind] in H.
  destruct (page_table_ s1 !! page_id) as [f |]; [eauto |].
  apply bind_Ret_inv in H as (taken & s2 & _ & H).
  destruct taken as [f |]; [| discriminate].
  apply bind_Ret_inv in H as (fh & s3 & _ & H).
  apply bind_Ret_inv in H as (data & s4 & _ & H).
  apply bind_Ret_inv in H as ([] & s5 & _ & H).
  eauto.
Qed.

(** X13. [WritePage] and [ReadPage] are [CheckedWritePage] and
    [CheckedReadPage] unwrapped: the guard of a fetch that returned one, and
    the pool exactly as the fetch left it, since the move of the guard out of
    the [std::optional] only tells the replacer once more what it knows; the
    end of the process when the fetch returned none; and they wait whenever
    the fetch waits. *)
Theorem Page_unwraps (k : guard_kind) (page_id : Z) (s : t) :
  match CheckedPage k page_id s with
  | Ret (Some g) s' => Page k page_id s = Ret g s'
  | Ret None s' => Page k page_id s = Throws "failed to bring in page"%string s'
  | Throws msg s' => Page k page_id s = Throws msg s'
  | Blocks s' => Page k page_id s = Blocks s'
  | Undefined => Page k page_id s = Undefined
  end.
Proof.
  destruct (CheckedPage k page_id s) as [[g |] s' | | |] eqn:Hfetch;
    unfold Page; unfold bind at 1; rewrite Hfetch; try reflexivity.
  destruct (CheckedPage_Some_pin _ _ _ _ _ Hfetch) as (f & s0 & Hpin).
  destruct (pin_and_guard_inv _ _ _ _ _ _ Hpin) as (Hg & Hf & fh & Hfh & Hset).
  injection Hg as ->.
  destruct (move_from_valid_source k PageGuard.empty (guard_on page_id f) PageGuard.empty
              s' s' f fh eq_refl eq_refl eq_refl eq_refl Hf Hfh)
    as (r'' & Hset' & Hmove).
  rewrite Hset in Hset'. injection Hset' as <-.
  rewrite set_replacer_same in Hmove.
  unfold PageGuard.move_construct. rewrite (bind_Ret _ _ _ _ _ Hmove). cbn [snd fst].
  rewrite (bind_Ret _ _ _ _ _
             (Drop_invalid k (moved_from (guard_on page_id f)) s' eq_refl)).
  reflexivity.
Qed.

(** ** [NewPage] *)

Lemma NewPage_Ret (s : t) :
  bpm_latch_ s = false -> 0 <= next_page_id_ s < 2 ^ 31 - 1 ->
  NewPage s
  = Ret (next_page_id_ s)
        (set_disk_scheduler
           (DiskScheduler.mk (DiskScheduler.pages_ (disk_scheduler_ s))
              (DiskScheduler.served_ (disk_scheduler_ s))
              (Z.max (DiskScheduler.space_ (disk_scheduler_ s)) (next_page_id_ s + 1))
              (DiskScheduler.deallocated_ (disk_scheduler_ s)))
           (set_next_page_id (next_page_id_ s + 1) s)).
Proof.
  intros Hl Hnext. unfold NewPage.
  erewrite scoped_lock_Ret; [| exact Hl |].
  2:{ unfold get, put. cbn [bind]. cbn [next_page_id_ set_bpm_latch].
      rewrite (ReplacerFacts.static_cast_int_small (next_page_id_ s + 1)) by lia.
      erewrite bind_Ret; [| apply on_disk_Ret; reflexivity].
      destruct (Z.eqb_spec (next_page_id_ s + 1) (- 2 ^ 31)) as [Heq | _]; [lia |].
      reflexivity. }
  f_equal; [lia |]. destruct s; cbn in *; subst. reflexivity.
Qed.

(** X14. [NewPage] gives out the page ids one after the other: [n] calls
    on a pool whose latch is free return the counter and its [n - 1]
    successors, in this order, and leave the counter [n] higher. The frames,
    the page table, the free list, the replacer and the pages on disk are
    not touched, and the latch is free again. *)
Theorem new_pages_consecutive (n : nat) (s : t) :
  bpm_latch_ s = false ->
  0 <= next_page_id_ s -> next_page_id_ s + Z.of_nat n < 2 ^ 31 ->
  exists s',
    new_pages n s = Ret (seqZ (next_page_id_ s) (Z.of_nat n)) s'
    /\ next_page_id_ s' = next_page_id_ s + Z.of_nat n
    /\ bpm_latch_ s' = false
    /\ frames_ s' = frames_ s /\ page_table_ s' = page_table_ s
    /\ free_frames_ s' = free_frames_ s /\ replacer_ s' = replacer_ s
    /\ DiskScheduler.pages_ (disk_scheduler_ s') = DiskScheduler.pages_ (disk_scheduler_ s)
    /\ DiskScheduler.served_ (disk_scheduler_ s') = DiskScheduler.served_ (disk_scheduler_ s).
Proof.
  revert s. induction n as [| n IH]; intros s Hl Hlow Hhigh.
  - exists s. cbn [new_pages ret]. rewrite Z.add_0_r.
    repeat split; try reflexivity. exact Hl.
  - cbn [new_pages]. rewrite (bind_Ret _ _ _ _ _ (NewPage_Ret s Hl ltac:(lia))).
    match goal with |- context [bind _ _ ?s0] => set (s1 := s0) end.
    destruct (IH s1) as (s' & Hrun & Hnext & Hl' & Hfr & Hpt & Hfree & Hrepl & Hpages & Hserved).
    + exact Hl.
    + cbn. lia.
    + cbn. lia.
    + exists s'. rewrite (bind_Ret _ _ _ _ _ Hrun). split.
      * unfold ret. f_equal. rewrite (seqZ_cons (next_page_id_ s)) by lia.
        f_equal. f_equal; cbn; lia.
      * rewrite Hnext, Hl', Hfr, Hpt, Hfree, Hrepl, Hpages, Hserved. cbn.
        repeat split; try reflexivity. lia.
Qed.

(** ** The coherent pool *)

Lemma wf_node_listed (r : LRUKReplacer.t) (g : Z) (n : LRUKReplacer.LRUKNode) :
  ReplacerSpec.wf r -> LRUKReplacer.node_store_ r !! g = Some n ->
  g ∈ LRUKReplacer.new_frames_ r ++ LRUKReplacer.cache_frames_ r.
Proof.
  intros Hwf Hn. pose proof (ReplacerSpec.wf_history r Hwf g n Hn) as Hlen.
  apply elem_of_app.
  destruct (Z.ltb_spec (Z.of_nat (length (LRUKReplacer.history_ n))) (LRUKReplacer.k_ r)).
  - left. apply (ReplacerSpec.wf_new r Hwf). eauto.
  - right. apply (ReplacerSpec.wf_cache r Hwf). exists n. split; [exact Hn | lia].
Qed.

Lemma valid_frame_kept (s s' : t) (g : Z) :
  LRUKReplacer.replacer_size_ (replacer_ s') = LRUKReplacer.replacer_size_ (replacer_ s) ->
  length (frames_ s') = length (frames_ s) ->
  valid_frame s g -> valid_frame s' g.
Proof.
  intros Hsize Hlen (Hrange & Hsome). split; [rewrite Hsize; exact Hrange |].
  apply lookup_lt_is_Some. rewrite Hlen. apply lookup_lt_is_Some, Hsome.
Qed.

Lemma coherent_valid_node (s : t) (g : Z) (n : LRUKReplacer.LRUKNode) :
  coherent s -> LRUKReplacer.node_store_ (replacer_ s) !! g = Some n -> valid_frame s g.
Proof.
  intros Hco Hn. apply (wf_listed s (co_wf s Hco)).
  eapply wf_node_listed; [apply (wf_replacer s (co_wf s Hco)) | exact Hn].
Qed.

(** No two pages share a frame. *)
Lemma coherent_injective (s : t) (p q f : Z) :
  coherent s -> page_table_ s !! p = Some f -> page_table_ s !! q = Some f -> p = q.
Proof.
  intros Hco Hp Hq.
  destruct (co_resident s Hco p f Hp) as (fh & Hfh & <-).
  destruct (co_resident s Hco q f Hq) as (fh' & Hfh' & <-).
  congruence.
Qed.

Lemma coherent_frame_id (s : t) (f : Z) (fh : FrameHeader.t) :
  coherent s -> 0 <= f -> frames_ s !! Z.to_nat f = Some fh -> FrameHeader.frame_id_ fh = f.
Proof. intros Hco Hf Hfh. rewrite (co_frame_ids s Hco _ _ Hfh). lia. Qed.

(** The pool after frame [f] was given to [page_id] and pinned: what has to
    be known about it for it to be coherent. *)
Lemma coherent_after_pin (s s' : t) (page_id f : Z) (fh fh' : FrameHeader.t)
    (T : gmap Z Z) :
  coherent s ->
  valid_frame s f -> frames_ s !! Z.to_nat f = Some fh ->
  (forall g, page_table_ s !! page_id = Some g -> g = f) ->
  frames_ s' = <[Z.to_nat f := fh']> (frames_ s) ->
  FrameHeader.frame_id_ fh' = FrameHeader.frame_id_ fh ->
  FrameHeader.page_id_ fh' = page_id ->
  0 < FrameHeader.pin_count_ fh' < size_modulus ->
  page_table_ s' = <[page_id := f]> T ->
  (forall q g, T !! q = Some g <-> page_table_ s !! q = Some g /\ g <> f) ->
  NoDup (free_frames_ s') ->
  (forall g, g ∈ free_frames_ s' -> g ∈ free_frames_ s /\ g <> f) ->
  ReplacerSpec.wf (replacer_ s') ->
  LRUKReplacer.replacer_size_ (replacer_ s') = LRUKReplacer.replacer_size_ (replacer_ s) ->
  (forall g, g <> f ->
     LRUKReplacer.node_store_ (replacer_ s') !! g
     = LRUKReplacer.node_store_ (replacer_ s) !! g) ->
  (exists n', LRUKReplacer.node_store_ (replacer_ s') !! f = Some n'
              /\ LRUKReplacer.is_evictable_ n' = false) ->
  coherent s'.
Proof.
  intros Hco Hvalid Hfh Hown Hframes Hid Hpage Hpin Htable HT Hnodup Hfree Hwf' Hsize
    Hnodes (n' & Hn' & Hev').
  pose proof Hvalid as ((Hf & _) & _).
  assert (Hlen : length (frames_ s') = length (frames_ s))
    by (rewrite Hframes; apply length_insert).
  assert (Hkept : forall g, valid_frame s g -> valid_frame s' g)
    by (intros g; apply valid_frame_kept; assumption).
  assert (Hat : frames_ s' !! Z.to_nat f = Some fh')
    by (rewrite Hframes; apply lookup_insert_frame with (fh := fh); exact Hfh).
  assert (Hother : forall g, 0 <= g -> g <> f ->
            frames_ s' !! Z.to_nat g = frames_ s !! Z.to_nat g).
  { intros g Hg Hne. rewrite Hframes. apply list_lookup_insert_ne. lia. }
  assert (Hentry : forall q g, page_table_ s' !! q = Some g ->
            (q = page_id /\ g = f)
            \/ (q <> page_id /\ g <> f /\ page_table_ s !! q = Some g)).
  { intros q g Hq. rewrite Htable in Hq.
    apply lookup_insert_Some in Hq as [(<- & <-) | (Hne & Hq)]; [left; auto |].
    apply HT in Hq as (Hq & Hgf). right. auto. }
  constructor.
  - (* consistent *)
    constructor.
    + exact Hwf'.
    + intros q g Hq. destruct (Hentry q g Hq) as [(_ & ->) | (_ & _ & Hq')].
      * apply Hkept, Hvalid.
      * apply Hkept, (wf_page_table s (co_wf s Hco) q g Hq').
    + intros g Hg. apply Hkept, (wf_free_frames s (co_wf s Hco)), Hfree, Hg.
    + intros g Hg. destruct (decide (g = f)) as [-> | Hne]; [apply Hkept, Hvalid |].
      destruct (ReplacerFacts.wf_listed _ g Hwf' Hg) as [n Hn].
      rewrite (Hnodes g Hne) in Hn. apply Hkept. eapply coherent_valid_node; eassumption.
  - (* frame ids *)
    intros i fhi Hi. destruct (decide (i = Z.to_nat f)) as [-> | Hne].
    + rewrite Hat in Hi. injection Hi as <-.
      rewrite Hid. apply (co_frame_ids s Hco _ _ Hfh).
    + rewrite Hframes, list_lookup_insert_ne in Hi by congruence.
      apply (co_frame_ids s Hco _ _ Hi).
  - (* resident pages *)
    intros q g Hq. destruct (Hentry q g Hq) as [(-> & ->) | (_ & Hne & Hq')].
    + exists fh'. auto.
    + destruct (wf_page_table s (co_wf s Hco) q g Hq') as ((Hg & _) & _).
      rewrite (Hother g Hg Hne). apply (co_resident s Hco q g Hq').
  - exact Hnodup.
  - (* free frames *)
    intros g Hg. destruct (Hfree g Hg) as (Hg' & Hne).
    destruct (co_free s Hco g Hg') as (Hnot & Hnone). split.
    + intros q Hq. destruct (Hentry q g Hq) as [(_ & ->) | (_ & _ & Hq')];
        [congruence | exact (Hnot q Hq')].
    + rewrite (Hnodes g Hne). exact Hnone.
  - (* frames the replacer knows *)
    intros g n Hn. destruct (decide (g = f)) as [-> | Hne].
    + exists page_id. rewrite Htable. apply lookup_insert_eq.
    + rewrite (Hnodes g Hne) in Hn. destruct (co_tracked s Hco g n Hn) as (q & Hq).
      exists q. rewrite Htable.
      assert (q <> page_id) by (intros ->; apply Hne, Hown, Hq).
      rewrite lookup_insert_ne by congruence. apply HT. auto.
  - (* frames of resident pages *)
    intros q g Hq. destruct (Hentry q g Hq) as [(_ & ->) | (_ & Hne & Hq')].
    + rewrite Hn'. eauto.
    + rewrite (Hnodes g Hne). apply (co_known s Hco q g Hq').
  - (* pins *)
    intros g n fhg Hn Hg. destruct (decide (g = f)) as [-> | Hne].
    + rewrite Hn' in Hn. injection Hn as <-. rewrite Hat in Hg. injection Hg as <-.
      rewrite Hev'. split; [discriminate | lia].
    + rewrite (Hnodes g Hne) in Hn.
      destruct (coherent_valid_node s g n Hco Hn) as ((Hg0 & _) & _).
      rewrite (Hother g Hg0 Hne) in Hg. apply (co_pins s Hco g n fhg Hn Hg).
  - (* range of the pin counts *)
    intros i fhi Hi. destruct (decide (i = Z.to_nat f)) as [-> | Hne].
    + rewrite Hat in Hi. injection Hi as <-. lia.
    + rewrite Hframes, list_lookup_insert_ne in Hi by congruence.
      apply (co_pin_range s Hco _ _ Hi).
Qed.

Lemma frame_ids_seq (num_frames : Z) :
  0 <= num_frames < 2 ^ 31 -> static_cast_int <$> seqZ 0 num_frames = seqZ 0 num_frames.
Proof.
  intros Hn. apply list_eq. intros i. rewrite list_lookup_fmap.
  destruct (seqZ 0 num_frames !! i) as [x |] eqn:Hx; [| reflexivity].
  apply lookup_seqZ in Hx as (-> & Hi). cbn.
  rewrite ReplacerFacts.static_cast_int_small by lia. reflexivity.
Qed.

(** Every frame of the constructed pool is as its constructor made it. *)
Lemma init_frame_at (BUSTUB_PAGE_SIZE : nat) (num_frames k_dist : Z) (i : nat)
    (fh : FrameHeader.t) :
  0 <= num_frames < 2 ^ 31 ->
  frames_ (init BUSTUB_PAGE_SIZE num_frames k_dist) !! i = Some fh ->
  fh = FrameHeader.init BUSTUB_PAGE_SIZE (Z.of_nat i).
Proof.
  intros Hn Hfh. unfold init in Hfh. cbn [frames_] in Hfh.
  rewrite frame_ids_seq in Hfh by exact Hn.
  rewrite list_lookup_fmap in Hfh.
  destruct (seqZ 0 num_frames !! i) as [x |] eqn:Hx; [| discriminate].
  apply lookup_seqZ in Hx as (-> & _). injection Hfh as <-. reflexivity.
Qed.

Lemma init_coherent (BUSTUB_PAGE_SIZE : nat) (num_frames k_dist : Z) :
  0 <= num_frames < 2 ^ 31 -> 2 <= k_dist < size_modulus ->
  coherent (init BUSTUB_PAGE_SIZE num_frames k_dist).
Proof.
  intros Hn Hk. set (s := init BUSTUB_PAGE_SIZE num_frames k_dist).
  assert (Hframe : forall i fh, frames_ s !! i = Some fh ->
            fh = FrameHeader.init BUSTUB_PAGE_SIZE (Z.of_nat i))
    by (intros i fh; apply init_frame_at; exact Hn).
  assert (Hfree : free_frames_ s = seqZ 0 num_frames) by (apply frame_ids_seq, Hn).
  constructor.
  - apply pool_init_wf; assumption.
  - intros i fh Hfh. rewrite (Hframe i fh Hfh). reflexivity.
  - intros p f Hp. unfold s, init in Hp. cbn in Hp. rewrite lookup_empty in Hp. discriminate.
  - rewrite Hfree. apply NoDup_seqZ.
  - intros f _. split; [| apply lookup_empty].
    intros p Hp. unfold s, init in Hp. cbn in Hp. rewrite lookup_empty in Hp. discriminate.
  - intros f n Hn'. unfold s, init in Hn'. cbn in Hn'. rewrite lookup_empty in Hn'.
    discriminate.
  - intros p f Hp. unfold s, init in Hp. cbn in Hp. rewrite lookup_empty in Hp. discriminate.
  - intros f n fh Hn'. unfold s, init in Hn'. cbn in Hn'. rewrite lookup_empty in Hn'.
    discriminate.
  - intros i fh Hfh. rewrite (Hframe i fh Hfh). cbn. unfold size_modulus. lia.
Qed.

(** In the constructed pool no pin counter is about to wrap and no latch is
    held. *)
Lemma init_ready (BUSTUB_PAGE_SIZE : nat) (num_frames k_dist : Z) :
  0 <= num_frames < 2 ^ 31 ->
  pins_have_room (init BUSTUB_PAGE_SIZE num_frames k_dist)
  /\ forall k, latches_free_for k (init BUSTUB_PAGE_SIZE num_frames k_dist).
Proof.
  intros Hn. split.
  - intros i fh Hfh. rewrite (init_frame_at _ _ _ _ _ Hn Hfh). cbn. unfold size_modulus. lia.
  - intros k i fh Hfh. rewrite (init_frame_at _ _ _ _ _ Hn Hfh).
    destruct k; eexists; reflexivity.
Qed.

(** X17. The pool the constructor makes, for fewer than 2^31 frames and K
    at least 2, is coherent: the frames have their index as frame id, no
    pin, a clean flag, zeroed bytes and a free latch; all of them are in the
    free list, in the order of their ids; no page is resident, the replacer
    knows no frame, and the pool latch is free. *)
Theorem constructed_pool_coherent (BUSTUB_PAGE_SIZE : nat) (num_frames k_dist : Z) :
  0 <= num_frames < 2 ^ 31 -> 2 <= k_dist < size_modulus ->
  let s := init BUSTUB_PAGE_SIZE num_frames k_dist in
  coherent s
  /\ free_frames_ s = seqZ 0 num_frames
  /\ length (frames_ s) = Z.to_nat num_frames
  /\ page_table_ s = ∅
  /\ bpm_latch_ s = false
  /\ pins_have_room s
  /\ (forall k, latches_free_for k s)
  /\ forall i fh,
       frames_ s !! i = Some fh ->
       FrameHeader.frame_id_ fh = Z.of_nat i
       /\ FrameHeader.pin_count_ fh = 0
       /\ FrameHeader.is_dirty_ fh = false
       /\ FrameHeader.data_ fh = replicate BUSTUB_PAGE_SIZE Byte.x00.
Proof.
  intros Hn Hk s.
  destruct (init_ready BUSTUB_PAGE_SIZE num_frames k_dist Hn) as (Hroom & Hlatches).
  split; [apply init_coherent; assumption |].
  split; [apply frame_ids_seq, Hn |].
  split.
  { unfold s, init. cbn [frames_]. rewrite !length_fmap, length_seqZ. reflexivity. }
  split; [reflexivity |]. split; [reflexivity |].
  split; [exact Hroom |]. split; [exact Hlatches |].
  intros i fh Hfh. rewrite (init_frame_at _ _ _ _ _ Hn Hfh). cbn.
  repeat split. clear. induction BUSTUB_PAGE_SIZE as [| n IH]; cbn; congruence.
Qed.

(** What a fetch that hands out a guard leaves behind, with the pool
    coherent. *)
Lemma fetch_path_coherent (k : guard_kind) (page_id f : Z) (s s0 : t)
    (fh0 : FrameHeader.t) (l' : RWLatch.t) (r' : LRUKReplacer.t) :
  coherent s -> pins_have_room s ->
  fetch_path page_id s f s0 -> 0 <= f ->
  frames_ s0 !! Z.to_nat f = Some fh0 ->
  replacer_on_pin f (FrameHeader.frame_id_ fh0) (replacer_ s0) = Ret tt r' ->
  coherent (handed_out k page_id f l' fh0 r' s0)
  /\ page_table_ (handed_out k page_id f l' fh0 r' s0) !! page_id = Some f
  /\ exists fh,
       frames_ s !! Z.to_nat f = Some fh
       /\ FrameHeader.pin_count_ fh0 = FrameHeader.pin_count_ fh
       /\ FrameHeader.rwlatch_ fh0 = FrameHeader.rwlatch_ fh
       /\ frames_ (handed_out k page_id f l' fh0 r' s0)
          = <[Z.to_nat f := pinned k page_id l' fh0]> (frames_ s)
       /\ (forall q g, g <> f -> q <> page_id -> page_table_ s !! q = Some g ->
             page_table_ (handed_out k page_id f l' fh0 r' s0) !! q = Some g)
       /\ FrameHeader.frame_id_ fh0 = f
       /\ exists n', LRUKReplacer.node_store_ r' !! f = Some n'
                     /\ LRUKReplacer.is_evictable_ n' = false.
Proof.
  intros Hco Hroom Hpath Hf Hfh0 Hpin.
  pose proof (co_wf s Hco) as Hwf. pose proof (wf_replacer s Hwf) as Hrepl.
  assert (Hpins : forall fh, frames_ s !! Z.to_nat f = Some fh ->
            FrameHeader.pin_count_ fh0 = FrameHeader.pin_count_ fh ->
            0 < FrameHeader.pin_count_ (pinned k page_id l' fh0) < size_modulus).
  { intros fh Hfh Hsame. pose proof (co_pin_range s Hco _ _ Hfh).
    pose proof (Hroom _ _ Hfh). cbn [pinned FrameHeader.pin_count_]. rewrite Hsame.
    unfold size_wrap. rewrite Z.mod_small; lia. }
  destruct Hpath as [Hpt | rest fh Hpt Hfree Hfh | fh r1 Hpt Hfree Hev Hfh].
  - (* the page is resident *)
    assert (Hfh : frames_ s !! Z.to_nat f = Some fh0) by exact Hfh0.
    pose proof (wf_page_table s Hwf _ _ Hpt) as Hvalid.
    rewrite (coherent_frame_id s f fh0 Hco Hf Hfh) in Hpin.
    destruct (replacer_on_pin_inv _ _ _ Hrepl Hpin) as (Hwf' & Hsize & Hnodes & Hnode).
    split; [| split; [exact Hpt |]].
    + apply (coherent_after_pin s _ page_id f fh0 (pinned k page_id l' fh0)
               (delete page_id (page_table_ s)) Hco Hvalid Hfh);
        try assumption; try reflexivity.
      * intros g Hg. congruence.
      * apply (Hpins fh0 Hfh eq_refl).
      * cbn. rewrite insert_delete_eq. symmetry. apply insert_id, Hpt.
      * intros q g. rewrite lookup_delete_Some. split.
        -- intros (Hne & Hq). split; [exact Hq |]. intros ->.
           apply Hne. apply (coherent_injective s page_id q f Hco Hpt Hq).
        -- intros (Hq & Hne). split; [| exact Hq]. intros <-. congruence.
      * apply (co_free_nodup s Hco).
      * intros g Hg. split; [exact Hg |]. intros ->.
        destruct (co_free s Hco f Hg) as (Hnot & _). apply (Hnot page_id Hpt).
    + exists fh0. split; [exact Hfh |]. split; [reflexivity |]. split; [reflexivity |].
      split; [reflexivity |]. split; [intros q g _ _ Hq; exact Hq |].
      split; [apply (coherent_frame_id s f fh0 Hco Hf Hfh) | exact Hnode].
  - (* a free frame *)
    assert (Hin : f ∈ free_frames_ s) by (rewrite Hfree; left).
    pose proof (wf_free_frames s Hwf f Hin) as Hvalid.
    destruct (co_free s Hco f Hin) as (Hnot & Hnone).
    assert (Hfh0' : fh0 = FrameHeader.set_data
                            (read_bytes (set_free_frames rest (set_bpm_latch true s)) page_id
                               (FrameHeader.data_ fh)) fh).
    { unfold from_free_list, loaded in Hfh0. cbn [frames_ set_frames] in Hfh0.
      rewrite (lookup_insert_frame _ _ fh _ Hfh) in Hfh0. congruence. }
    assert (Hid0 : FrameHeader.frame_id_ fh0 = f)
      by (rewrite Hfh0'; apply (coherent_frame_id s f fh Hco Hf Hfh)).
    rewrite Hid0 in Hpin.
    destruct (replacer_on_pin_inv _ _ _ Hrepl Hpin) as (Hwf' & Hsize & Hnodes & Hnode).
    pose proof (co_free_nodup s Hco) as Hnd. rewrite Hfree in Hnd.
    apply NoDup_cons in Hnd as (Hnotin & Hnd).
    assert (Hframes : frames_ (handed_out k page_id f l' fh0 r' (from_free_list page_id f fh rest s))
                      = <[Z.to_nat f := pinned k page_id l' fh0]> (frames_ s)).
    { cbn. apply list_insert_insert_eq. }
    split; [| split; [apply lookup_insert_eq |]].
    + apply (coherent_after_pin s _ page_id f fh (pinned k page_id l' fh0)
               (page_table_ s) Hco Hvalid Hfh);
        try assumption; try reflexivity.
      * intros g Hg. congruence.
      * rewrite Hfh0'. reflexivity.
      * apply (Hpins fh Hfh). rewrite Hfh0'. reflexivity.
      * intros q g. split; [| tauto]. intros Hq. split; [exact Hq |].
        intros ->. apply (Hnot q Hq).
      * intros g Hg. cbn in Hg. split; [rewrite Hfree; right; exact Hg |].
        intros ->. contradiction.
    + exists fh. split; [exact Hfh |].
      split; [rewrite Hfh0'; reflexivity |].
      split; [rewrite Hfh0'; reflexivity |]. split; [exact Hframes |].
      split; [| split; [exact Hid0 | exact Hnode]].
      intros q g _ Hne Hq. cbn. rewrite lookup_insert_ne by congruence. exact Hq.
  - (* the victim of the replacer *)
    pose proof (ReplacerFacts.Evict_Some_listed _ _ _ Hev) as Hlisted.
    pose proof (wf_listed s Hwf f Hlisted) as Hvalid.
    destruct (ReplacerFacts.wf_listed _ f Hrepl Hlisted) as [n Hn].
    destruct (co_tracked s Hco f n Hn) as (vp & Hvp).
    destruct (co_resident s Hco vp f Hvp) as (fh_ & Hfh_ & Hpage).
    rewrite Hfh in Hfh_. injection Hfh_ as <-.
    set (s1 := after_flush (FrameHeader.page_id_ fh) (set_replacer r1 (set_bpm_latch true s))).
    assert (Hs1f : frames_ s1 = frames_ s) by (unfold s1; rewrite after_flush_frames; reflexivity).
    assert (Hs1t : page_table_ s1 = page_table_ s)
      by (unfold s1; rewrite after_flush_page_table; reflexivity).
    assert (Hs1r : replacer_ s1 = r1) by (unfold s1; rewrite after_flush_replacer; reflexivity).
    assert (Hs1free : free_frames_ s1 = free_frames_ s).
    { unfold s1. destruct (after_flush_cases (FrameHeader.page_id_ fh)
                             (set_replacer r1 (set_bpm_latch true s))) as [-> | [data ->]];
        reflexivity. }
    unfold from_replacer in *. fold s1 in Hfh0, Hpin |- *.
    assert (Hfh0' : exists data, fh0 = FrameHeader.set_data data fh).
    { unfold loaded in Hfh0. cbn [frames_ set_frames read_served set_page_table
                                   set_disk_scheduler] in Hfh0.
      rewrite Hs1f, (lookup_insert_frame _ _ fh _ Hfh) in Hfh0.
      injection Hfh0 as <-. eexists. reflexivity. }
    destruct Hfh0' as (data & Hfh0').
    assert (Hid0 : FrameHeader.frame_id_ fh0 = f)
      by (rewrite Hfh0'; apply (coherent_frame_id s f fh Hco Hf Hfh)).
    rewrite Hid0 in Hpin.
    cbn [loaded replacer_ set_frames read_served set_page_table set_disk_scheduler] in Hpin.
    rewrite Hs1r in Hpin.
    destruct (ReplacerFacts.Evict_wf _ Hrepl) as (o & r1' & Hev' & Hwf1).
    rewrite Hev in Hev'. injection Hev' as <- <-.
    destruct (replacer_on_pin_inv _ _ _ Hwf1 Hpin) as (Hwf' & Hsize & Hnodes & Hnode).
    destruct (Evict_Some _ _ _ Hev) as (_ & Hsize1).
    assert (Hnodes1 : forall g, g <> f ->
              LRUKReplacer.node_store_ r1 !! g
              = LRUKReplacer.node_store_ (replacer_ s) !! g).
    { intros g Hne.
      destruct (ReplacerLaws.Evict_Some_inv _ _ _ Hrepl Hev)
        as (pre & post & [(_ & ->) | (_ & _ & ->)]); cbn;
        apply lookup_delete_ne; congruence. }
    assert (Hframes : frames_ (handed_out k page_id f l' fh0 r'
                                 (loaded page_id f fh
                                    (set_page_table
                                       (delete (FrameHeader.page_id_ fh) (page_table_ s1)) s1)))
                      = <[Z.to_nat f := pinned k page_id l' fh0]> (frames_ s)).
    { cbn. rewrite Hs1f. apply list_insert_insert_eq. }
    assert (Htable : page_table_ (handed_out k page_id f l' fh0 r'
                                    (loaded page_id f fh
                                       (set_page_table
                                          (delete (FrameHeader.page_id_ fh) (page_table_ s1)) s1)))
                     = <[page_id := f]> (delete vp (page_table_ s))).
    { cbn. rewrite Hs1t, Hpage. reflexivity. }
    split; [| split; [rewrite Htable; apply lookup_insert_eq |]].
    + apply (coherent_after_pin s _ page_id f fh (pinned k page_id l' fh0)
               (delete vp (page_table_ s)) Hco Hvalid Hfh);
        try assumption.
      * intros g Hg. congruence.
      * rewrite Hfh0'. reflexivity.
      * reflexivity.
      * apply (Hpins fh Hfh). rewrite Hfh0'. reflexivity.
      * intros q g. rewrite lookup_delete_Some. split.
        -- intros (Hne & Hq). split; [exact Hq |]. intros ->.
           apply Hne. apply (coherent_injective s vp q f Hco Hvp Hq).
        -- intros (Hq & Hne). split; [| exact Hq]. intros <-. congruence.
      * cbn. rewrite Hs1free, Hfree. constructor.
      * intros g Hg. cbn in Hg. rewrite Hs1free, Hfree in Hg. inversion Hg.
      * cbn. congruence.
      * intros g Hne. cbn. rewrite (Hnodes g Hne). apply Hnodes1, Hne.
    + exists fh. split; [exact Hfh |].
      split; [rewrite Hfh0'; reflexivity |].
      split; [rewrite Hfh0'; reflexivity |]. split; [exact Hframes |].
      split; [| split; [exact Hid0 | exact Hnode]].
      intros q g Hgf Hne Hq. rewrite Htable. rewrite lookup_insert_ne by congruence.
      apply lookup_delete_Some. split; [| exact Hq]. intros <-. congruence.
Qed.

(** The pool latch is no part of the coherence of the pool. *)
Lemma coherent_latch (s : t) (b : bool) : coherent s -> coherent (set_bpm_latch b s).
Proof.
  intros [[Hrepl Htable Hfree Hlisted] Hids Hres Hnd Hfr Htr Hkn Hpins Hrange].
  constructor; try assumption. constructor; assumption.
Qed.

Lemma fetch_coherent (k : guard_kind) (page_id : Z) (s s' : t) (g : PageGuard.t) :
  coherent s -> pins_have_room s -> bpm_latch_ s = false -> latches_free_for k s ->
  CheckedPage k page_id s = Ret (Some g) s' ->
  coherent s'.
Proof.
  intros Hco Hroom Hl Hlatches Hfetch.
  destruct (CheckedPage_result k page_id s (co_wf s Hco) Hl Hlatches)
    as [(_ & _ & _ & Hnone) | (f & s0 & fh0 & l' & r' & Hpath & Hf & Hfh0 & _ & Hpin & Hret)].
  { rewrite Hnone in Hfetch. discriminate. }
  rewrite Hret in Hfetch. injection Hfetch as <- <-.
  apply (fetch_path_coherent k page_id f s s0 fh0 l' r' Hco Hroom Hpath Hf Hfh0 Hpin).
Qed.

(** X18. A fetch that hands out a guard keeps the pool coherent. The guard
    is on the frame the page table then names for the page; that frame has
    one more pin than before and holds the page id; no other frame
    changes. The pool is coherent before the call, its latch and the frame
    latches are free for the guard, and no pin counter is about to wrap. *)
Theorem fetch_keeps_pool_coherent (k : guard_kind) (page_id : Z) (s s' : t)
    (g : PageGuard.t) :
  coherent s -> pins_have_room s -> bpm_latch_ s = false -> latches_free_for k s ->
  CheckedPage k page_id s = Ret (Some g) s' ->
  coherent s'
  /\ exists f fh fh',
       g = guard_on page_id f
       /\ 0 <= f
       /\ page_table_ s' !! page_id = Some f
       /\ frames_ s !! Z.to_nat f = Some fh
       /\ frames_ s' !! Z.to_nat f = Some fh'
       /\ FrameHeader.pin_count_ fh' = FrameHeader.pin_count_ fh + 1
       /\ FrameHeader.page_id_ fh' = page_id
       /\ forall i, i <> Z.to_nat f -> frames_ s' !! i = frames_ s !! i.
Proof.
  intros Hco Hroom Hl Hlatches Hfetch.
  destruct (CheckedPage_result k page_id s (co_wf s Hco) Hl Hlatches)
    as [(_ & _ & _ & Hnone) | (f & s0 & fh0 & l' & r' & Hpath & Hf & Hfh0 & _ & Hpin & Hret)].
  { rewrite Hnone in Hfetch. discriminate. }
  rewrite Hret in Hfetch. injection Hfetch as <- <-.
  destruct (fetch_path_coherent k page_id f s s0 fh0 l' r' Hco Hroom Hpath Hf Hfh0 Hpin)
    as (Hco' & Htable & fh & Hfh & Hsame & _ & Hframes & _).
  split; [exact Hco' |].
  exists f, fh, (pinned k page_id l' fh0).
  split; [reflexivity |]. split; [exact Hf |]. split; [exact Htable |].
  split; [exact Hfh |].
  split; [rewrite Hframes; apply lookup_insert_frame with (fh := fh); exact Hfh |].
  split.
  - cbn [pinned FrameHeader.pin_count_]. rewrite Hsame.
    pose proof (co_pin_range s Hco _ _ Hfh). pose proof (Hroom _ _ Hfh).
    apply size_wrap_small. unfold size_modulus in *. lia.
  - split; [reflexivity |].
    intros i Hi. rewrite Hframes. apply list_lookup_insert_ne. congruence.
Qed.

(** ** Dropping a guard *)

(** The pool after a guard on frame [f] was dropped is coherent. *)
Lemma coherent_after_unpin (k : guard_kind) (s : t) (f : Z) (fh : FrameHeader.t)
    (r' : LRUKReplacer.t) :
  coherent s -> 0 <= f -> frames_ s !! Z.to_nat f = Some fh ->
  0 < FrameHeader.pin_count_ fh ->
  (if FrameHeader.pin_count_ fh - 1 =? 0
   then LRUKReplacer.SetEvictable (FrameHeader.frame_id_ fh) true (replacer_ s) = Ret tt r'
   else r' = replacer_ s) ->
  coherent (set_frames (<[Z.to_nat f := unpinned k fh]> (frames_ s)) (set_replacer r' s)).
Proof.
  intros Hco Hf Hfh Hpin Hr'.
  pose proof (co_wf s Hco) as Hwf. pose proof (wf_replacer s Hwf) as Hrepl.
  rewrite (coherent_frame_id s f fh Hco Hf Hfh) in Hr'.
  set (s' := set_frames (<[Z.to_nat f := unpinned k fh]> (frames_ s)) (set_replacer r' s)).
  assert (Hfacts :
    ReplacerSpec.wf r'
    /\ LRUKReplacer.replacer_size_ r' = LRUKReplacer.replacer_size_ (replacer_ s)
    /\ (forall g, g <> f ->
          LRUKReplacer.node_store_ r' !! g = LRUKReplacer.node_store_ (replacer_ s) !! g)
    /\ (forall n', LRUKReplacer.node_store_ r' !! f = Some n' ->
          exists n, LRUKReplacer.node_store_ (replacer_ s) !! f = Some n
                    /\ LRUKReplacer.is_evictable_ n'
                       = if FrameHeader.pin_count_ fh - 1 =? 0 then true
                         else LRUKReplacer.is_evictable_ n)
    /\ (is_Some (LRUKReplacer.node_store_ (replacer_ s) !! f) ->
        is_Some (LRUKReplacer.node_store_ r' !! f))).
  { destruct (FrameHeader.pin_count_ fh - 1 =? 0).
    - pose proof (ReplacerFacts.SetEvictable_wf _ _ _ _ Hrepl Hr') as Hwf'.
      destruct (SetEvictable_store _ _ _ _ Hr') as (Hsize & Hstore).
      split; [exact Hwf' |]. split; [exact Hsize |].
      destruct (LRUKReplacer.node_store_ (replacer_ s) !! f) as [n |] eqn:Hn.
      + rewrite Hstore. split; [| split].
        * intros g Hne. apply lookup_insert_ne. congruence.
        * intros n'. rewrite lookup_insert_eq. intros [= <-]. exists n. auto.
        * intros _. rewrite lookup_insert_eq. eauto.
      + subst r'. split; [reflexivity |]. split; [| rewrite Hn; auto].
        intros n'. rewrite Hn. discriminate.
    - subst r'. split; [exact Hrepl |]. split; [reflexivity |]. split; [reflexivity |].
      split; [| auto]. intros n' Hn'. exists n'. auto. }
  destruct Hfacts as (Hwf' & Hsize & Hnodes & Hnode & Hstays).
  assert (Hlen : length (frames_ s') = length (frames_ s)) by apply length_insert.
  assert (Hkept : forall g, valid_frame s g -> valid_frame s' g)
    by (intros g; apply valid_frame_kept; assumption).
  assert (Hat : frames_ s' !! Z.to_nat f = Some (unpinned k fh))
    by (apply lookup_insert_frame with (fh := fh); exact Hfh).
  assert (Hother : forall i, i <> Z.to_nat f -> frames_ s' !! i = frames_ s !! i)
    by (intros i Hi; apply list_lookup_insert_ne; congruence).
  assert (Hknown : forall g n', LRUKReplacer.node_store_ r' !! g = Some n' ->
            exists n, LRUKReplacer.node_store_ (replacer_ s) !! g = Some n).
  { intros g n' Hn'. destruct (decide (g = f)) as [-> | Hne].
    - destruct (Hnode n' Hn') as (n & Hn & _). eauto.
    - rewrite (Hnodes g Hne) in Hn'. eauto. }
  constructor.
  - constructor.
    + exact Hwf'.
    + intros q g Hq. apply Hkept, (wf_page_table s Hwf q g Hq).
    + intros g Hg. apply Hkept, (wf_free_frames s Hwf g Hg).
    + intros g Hg. destruct (ReplacerFacts.wf_listed _ g Hwf' Hg) as [n' Hn'].
      destruct (Hknown g n' Hn') as (n & Hn).
      apply Hkept. eapply coherent_valid_node; eassumption.
  - intros i fhi Hi. destruct (decide (i = Z.to_nat f)) as [-> | Hne].
    + rewrite Hat in Hi. injection Hi as <-. apply (co_frame_ids s Hco _ _ Hfh).
    + rewrite (Hother i Hne) in Hi. apply (co_frame_ids s Hco _ _ Hi).
  - intros q g Hq. destruct (co_resident s Hco q g Hq) as (fhg & Hg & Hpage).
    destruct (decide (Z.to_nat g = Z.to_nat f)) as [He | Hne].
    + rewrite He in Hg |- *. rewrite Hfh in Hg. injection Hg as <-.
      exists (unpinned k fh). split; [exact Hat | exact Hpage].
    + exists fhg. split; [rewrite (Hother _ Hne); exact Hg | exact Hpage].
  - apply (co_free_nodup s Hco).
  - intros g Hg. destruct (co_free s Hco g Hg) as (Hnot & Hnone).
    split; [exact Hnot |].
    change (LRUKReplacer.node_store_ r' !! g = None).
    destruct (LRUKReplacer.node_store_ r' !! g) as [n' |] eqn:Hn'; [| reflexivity].
    destruct (Hknown g n' Hn') as (n & Hn). congruence.
  - intros g n' Hn'. destruct (Hknown g n' Hn') as (n & Hn).
    apply (co_tracked s Hco g n Hn).
  - intros q g Hq. pose proof (co_known s Hco q g Hq) as Hsome.
    change (is_Some (LRUKReplacer.node_store_ r' !! g)).
    destruct (decide (g = f)) as [-> | Hne]; [apply Hstays, Hsome |].
    rewrite (Hnodes g Hne). exact Hsome.
  - intros g n' fhg Hn' Hg. destruct (decide (g = f)) as [-> | Hne].
    + rewrite Hat in Hg. injection Hg as <-.
      destruct (Hnode n' Hn') as (n & Hn & Hflag).
      pose proof (co_pins s Hco f n fh Hn Hfh) as Hiff.
      cbn [unpinned FrameHeader.pin_count_]. rewrite Hflag.
      destruct (Z.eqb_spec (FrameHeader.pin_count_ fh - 1) 0) as [He | Hne].
      * tauto.
      * split; [| intros; contradiction]. intros Hev. apply Hiff in Hev. lia.
    + cbn in Hn'. rewrite (Hnodes g Hne) in Hn'.
      destruct (coherent_valid_node s g n' Hco Hn') as ((Hg0 & _) & _).
      rewrite Hother in Hg by lia. apply (co_pins s Hco g n' fhg Hn' Hg).
  - intros i fhi Hi. destruct (decide (i = Z.to_nat f)) as [-> | Hne].
    + rewrite Hat in Hi. injection Hi as <-. cbn [unpinned FrameHeader.pin_count_].
      pose proof (co_pin_range s Hco _ _ Hfh). lia.
    + rewrite (Hother i Hne) in Hi. apply (co_pin_range s Hco _ _ Hi).
Qed.

(** X20. Dropping a valid guard keeps the pool coherent, and touches
    neither the page table, the free list, the disk nor the pool latch: the
    page stays resident, with one pin less. The guard points to a frame of
    a coherent pool that has a pin and whose latch the guard holds. *)
Theorem Drop_keeps_pool_coherent (k : guard_kind) (g : PageGuard.t) (s : t)
    (f : Z) (fh : FrameHeader.t) :
  coherent s ->
  PageGuard.is_valid_ g = true ->
  PageGuard.frame_ g = Some f ->
  PageGuard.replacer_ g = true ->
  0 <= f -> frames_ s !! Z.to_nat f = Some fh ->
  0 < FrameHeader.pin_count_ fh ->
  holds k (FrameHeader.rwlatch_ fh) ->
  exists s',
    PageGuard.Drop k g s = Ret (dropped g) s'
    /\ coherent s'
    /\ page_table_ s' = page_table_ s
    /\ free_frames_ s' = free_frames_ s
    /\ disk_scheduler_ s' = disk_scheduler_ s
    /\ bpm_latch_ s' = bpm_latch_ s
    /\ frames_ s' = <[Z.to_nat f := unpinned k fh]> (frames_ s).
Proof.
  intros Hco Hvalid Hframe Hrepl Hf Hfh Hpin Hheld.
  pose proof (co_pin_range s Hco _ _ Hfh) as Hrange. unfold size_modulus in Hrange.
  destruct (Drop_Ret k g s f fh Hvalid Hframe Hrepl Hf Hfh (conj Hpin (proj2 Hrange)) Hheld)
    as (r' & Hdrop & Hr').
  exists (set_frames (<[Z.to_nat f := unpinned k fh]> (frames_ s)) (set_replacer r' s)).
  split; [exact Hdrop |].
  split; [apply coherent_after_unpin; assumption |].
  repeat split.
Qed.

(** X21. Fetch and drop, the round trip. The guard a fetch hands out can
    be dropped, and the pool is coherent afterwards; every frame then has
    the pin count and the latch it had before the fetch, the page is
    resident, a write guard has left its frame dirty, and the frame is
    evictable again if it had no pin before the fetch. The pool latch,
    which the fetch locked, is still locked. *)
Theorem fetch_then_Drop_round_trip (k : guard_kind) (page_id : Z) (s s' : t)
    (g : PageGuard.t) :
  coherent s -> pins_have_room s -> bpm_latch_ s = false -> latches_free_for k s ->
  CheckedPage k page_id s = Ret (Some g) s' ->
  exists f s'',
    PageGuard.Drop k g s' = Ret (dropped g) s''
    /\ coherent s''
    /\ bpm_latch_ s'' = true
    /\ page_table_ s'' !! page_id = Some f
    /\ (forall i fh, frames_ s !! i = Some fh ->
          exists fh'', frames_ s'' !! i = Some fh''
            /\ FrameHeader.pin_count_ fh'' = FrameHeader.pin_count_ fh
            /\ FrameHeader.rwlatch_ fh'' = FrameHeader.rwlatch_ fh)
    /\ exists fh fh'',
         frames_ s !! Z.to_nat f = Some fh
         /\ frames_ s'' !! Z.to_nat f = Some fh''
         /\ FrameHeader.page_id_ fh'' = page_id
         /\ (k = Write -> FrameHeader.is_dirty_ fh'' = true)
         /\ (FrameHeader.pin_count_ fh = 0 ->
             ReplacerSpec.evictable_in (LRUKReplacer.node_store_ (replacer_ s'')) f = true).
Proof.
  intros Hco Hroom Hl Hlatches Hfetch.
  destruct (CheckedPage_inv _ _ _ _ _ Hfetch) as (_ & Hlocked).
  destruct (CheckedPage_result k page_id s (co_wf s Hco) Hl Hlatches)
    as [(_ & _ & _ & Hnone) | (f & s0 & fh0 & l' & r' & Hpath & Hf & Hfh0 & Hacq & Hpin & Hret)].
  { rewrite Hnone in Hfetch. discriminate. }
  rewrite Hret in Hfetch. injection Hfetch as <- <-.
  destruct (fetch_path_coherent k page_id f s s0 fh0 l' r' Hco Hroom Hpath Hf Hfh0 Hpin)
    as (Hco' & Htable & fh & Hfh & Hsame & Hlatch & Hframes & _ & Hid & n' & Hn' & Hev').
  destruct (acquire_released k _ _ Hacq) as (Hheld & Hrel).
  pose proof (co_pin_range s Hco _ _ Hfh) as Hrange. pose proof (Hroom _ _ Hfh) as Hfree.
  set (s1 := handed_out k page_id f l' fh0 r' s0) in *.
  set (fh1 := pinned k page_id l' fh0).
  assert (Hfh1 : frames_ s1 !! Z.to_nat f = Some fh1)
    by (rewrite Hframes; apply lookup_insert_frame with (fh := fh); exact Hfh).
  assert (Hpin1 : FrameHeader.pin_count_ fh1 = FrameHeader.pin_count_ fh + 1).
  { cbn [fh1 pinned FrameHeader.pin_count_]. rewrite Hsame.
    apply size_wrap_small. unfold size_modulus in *. lia. }
  assert (Hpos : 0 < FrameHeader.pin_count_ fh1 < 2 ^ 64)
    by (unfold size_modulus in *; lia).
  destruct (Drop_Ret k (guard_on page_id f) s1 f fh1 eq_refl eq_refl eq_refl Hf Hfh1 Hpos Hheld)
    as (r'' & Hdrop & Hr'').
  set (s2 := set_frames (<[Z.to_nat f := unpinned k fh1]> (frames_ s1)) (set_replacer r'' s1))
    in *.
  assert (Hco2 : coherent s2)
    by (apply coherent_after_unpin; [exact Hco' | exact Hf | exact Hfh1 | lia | exact Hr'']).
  assert (Hfh2 : frames_ s2 !! Z.to_nat f = Some (unpinned k fh1))
    by (apply lookup_insert_frame with (fh := fh1); exact Hfh1).
  exists f, s2.
  split; [exact Hdrop |]. split; [exact Hco2 |]. split; [exact Hlocked |].
  split; [exact Htable |]. split.
  - intros i fhi Hi. destruct (decide (i = Z.to_nat f)) as [-> | Hne].
    + rewrite Hfh in Hi. injection Hi as <-. exists (unpinned k fh1).
      split; [exact Hfh2 |]. cbn [unpinned FrameHeader.pin_count_ FrameHeader.rwlatch_].
      split; [lia |]. cbn [fh1 pinned FrameHeader.rwlatch_]. rewrite Hrel. exact Hlatch.
    + exists fhi. split; [| split; reflexivity].
      cbn [s2 frames_ set_frames]. rewrite list_lookup_insert_ne by congruence.
      change (frames_ s1 !! i = Some fhi).
      rewrite Hframes, list_lookup_insert_ne by congruence. exact Hi.
  - exists fh, (unpinned k fh1).
    split; [exact Hfh |]. split; [exact Hfh2 |]. split; [reflexivity |].
    split; [intros ->; reflexivity |].
    intros Hzero. rewrite Hpin1, Hzero in Hr''. cbn in Hr''.
    rewrite Hid in Hr''. change (replacer_ s1) with r' in Hr''.
    destruct (SetEvictable_store _ _ _ _ Hr'') as (_ & Hstore). rewrite Hn' in Hstore.
    unfold ReplacerSpec.evictable_in. change (replacer_ s2) with r''.
    rewrite Hstore, lookup_insert_eq. reflexivity.
Qed.

(** ** The disk traffic of a fetch *)

(** X23. What a fetch that hands out a guard asks of the disk, on a
    coherent pool. A resident page: nothing, and the bytes of the frame are
    untouched. A page that is not resident: one read of the page, after a
    write of the victim's bytes under the victim's page id if the frame
    comes from the replacer and is dirty; the frame then holds the bytes
    the disk had for the page, or zeros if it had none. *)
Theorem fetch_disk_traffic (k : guard_kind) (page_id : Z) (s s' : t) (g : PageGuard.t) :
  coherent s -> bpm_latch_ s = false -> latches_free_for k s ->
  CheckedPage k page_id s = Ret (Some g) s' ->
  exists f fh fh',
    g = guard_on page_id f
    /\ frames_ s !! Z.to_nat f = Some fh
    /\ frames_ s' !! Z.to_nat f = Some fh'
    /\ match page_table_ s !! page_id with
       | Some _ =>
           disk_scheduler_ s' = disk_scheduler_ s
           /\ FrameHeader.data_ fh' = FrameHeader.data_ fh
       | None =>
           let victim_write :=
             match free_frames_ s with
             | [] => if FrameHeader.is_dirty_ fh
                     then [(true, FrameHeader.page_id_ fh)] else []
             | _ :: _ => []
             end in
           DiskScheduler.served_ (disk_scheduler_ s')
           = DiskScheduler.served_ (disk_scheduler_ s) ++ victim_write ++ [(false, page_id)]
           /\ FrameHeader.data_ fh' = read_bytes s page_id (FrameHeader.data_ fh)
           /\ (victim_write <> [] ->
               DiskScheduler.pages_ (disk_scheduler_ s') !! FrameHeader.page_id_ fh
               = Some (FrameHeader.data_ fh))
       end.
Proof.
  intros Hco Hl Hlatches Hfetch.
  destruct (CheckedPage_result k page_id s (co_wf s Hco) Hl Hlatches)
    as [(_ & _ & _ & Hnone) | (f & s0 & fh0 & l' & r' & Hpath & Hf & Hfh0 & _ & _ & Hret)].
  { rewrite Hnone in Hfetch. discriminate. }
  rewrite Hret in Hfetch. injection Hfetch as <- <-.
  assert (Hat : forall fh, frames_ s0 !! Z.to_nat f = Some fh ->
            frames_ (handed_out k page_id f l' fh0 r' s0) !! Z.to_nat f
            = Some (pinned k page_id l' fh0))
    by (intros fh Hfh; apply lookup_insert_frame with (fh := fh); exact Hfh).
  destruct Hpath as [Hpt | rest fh Hpt Hfree Hfh | fh r1 Hpt Hfree Hev Hfh].
  - exists f, fh0, (pinned k page_id l' fh0).
    split; [reflexivity |]. split; [exact Hfh0 |]. split; [apply (Hat fh0 Hfh0) |].
    rewrite Hpt. split; reflexivity.
  - exists f, fh, (pinned k page_id l' fh0).
    split; [reflexivity |]. split; [exact Hfh |]. split; [apply (Hat fh0 Hfh0) |].
    rewrite Hpt, Hfree. cbv zeta.
    unfold from_free_list, loaded in Hfh0. cbn [frames_ set_frames] in Hfh0.
    rewrite (lookup_insert_frame _ _ fh _ Hfh) in Hfh0. injection Hfh0 as <-.
    split; [reflexivity |]. split; [reflexivity |]. intros Hno. contradiction.
  - exists f, fh, (pinned k page_id l' fh0).
    split; [reflexivity |]. split; [exact Hfh |]. split; [apply (Hat fh0 Hfh0) |].
    rewrite Hpt, Hfree. cbv zeta.
    pose proof (co_wf s Hco) as Hwf. pose proof (wf_replacer s Hwf) as Hrepl.
    pose proof (ReplacerFacts.Evict_Some_listed _ _ _ Hev) as Hlisted.
    destruct (ReplacerFacts.wf_listed _ f Hrepl Hlisted) as [n Hn].
    destruct (co_tracked s Hco f n Hn) as (vp & Hvp).
    destruct (co_resident s Hco vp f Hvp) as (fh_ & Hfh_ & Hpage).
    rewrite Hfh in Hfh_. injection Hfh_ as <-.
    assert (Hne : vp <> page_id) by congruence.
    set (s1 := after_flush (FrameHeader.page_id_ fh) (set_replacer r1 (set_bpm_latch true s))).
    assert (Hs1 : s1 = if FrameHeader.is_dirty_ fh
                       then written vp (FrameHeader.data_ fh)
                              (set_replacer r1 (set_bpm_latch true s))
                       else set_replacer r1 (set_bpm_latch true s)).
    { unfold s1, after_flush. cbn [page_table_ frames_ set_replacer set_bpm_latch].
      rewrite Hpage, Hvp, Hfh. reflexivity. }
    unfold from_replacer in Hfh0 |- *. fold s1 in Hfh0 |- *.
    unfold loaded in Hfh0. cbn [frames_ set_frames read_served set_page_table
                                 set_disk_scheduler] in Hfh0.
    assert (Hs1f : frames_ s1 = frames_ s) by (unfold s1; rewrite after_flush_frames; reflexivity).
    rewrite Hs1f, (lookup_insert_frame _ _ fh _ Hfh) in Hfh0. injection Hfh0 as <-.
    cbn [handed_out loaded disk_scheduler_ set_replacer set_frames read_served
         set_page_table set_disk_scheduler DiskScheduler.served_ DiskScheduler.pages_
         pinned FrameHeader.data_ FrameHeader.set_data].
    rewrite Hs1, Hpage. destruct (FrameHeader.is_dirty_ fh).
    + cbn. rewrite <- app_assoc. split; [reflexivity |].
      split; [| intros _; apply lookup_insert_eq].
      unfold read_bytes. cbn. rewrite lookup_insert_ne by exact Hne. reflexivity.
    + cbn. split; [reflexivity |]. split; [reflexivity |]. intros Hno. contradiction.
Qed.

End PoolLaws.

(** * The pool in the hands of a program *)

Module ClientLaws.

Import BufferPool BufferPoolManager GuardSpec PoolSpec ClientSpec.
Import GuardFacts PoolFacts GuardLaws PoolLaws.

(** ** Functions that leave the pool latch alone *)

Lemma latch_kept_bind {A B} (m : M BufferPool.t A) (f : A -> M BufferPool.t B) :
  latch_kept m -> (forall a, latch_kept (f a)) -> latch_kept (bind m f).
Proof.
  intros Hm Hf s. unfold bind. specialize (Hm s).
  destruct (m s) as [a s1 | e s1 | s1 |]; try exact Hm.
  specialize (Hf a s1). destruct (f a s1); congruence.
Qed.

Lemma latch_kept_ret {A} (a : A) : latch_kept (ret a : M BufferPool.t A).
Proof. intros s. reflexivity. Qed.

Lemma latch_kept_throw {A} (msg : string) : latch_kept (throw msg : M BufferPool.t A).
Proof. intros s. reflexivity. Qed.

Lemma latch_kept_undefined {A} : latch_kept (undefined : M BufferPool.t A).
Proof. intros s. exact I. Qed.

Lemma latch_kept_get : latch_kept (get : M BufferPool.t BufferPool.t).
Proof. intros s. reflexivity. Qed.

Lemma latch_kept_frame_at (f : Z) : latch_kept (frame_at f).
Proof.
  intros s. unfold frame_at. destruct (f <? 0); [exact I |].
  destruct (frames_ s !! Z.to_nat f); [reflexivity | exact I].
Qed.

Lemma latch_kept_update_frame (f : Z) (upd : FrameHeader.t -> FrameHeader.t) :
  latch_kept (update_frame f upd).
Proof.
  apply latch_kept_bind; [apply latch_kept_frame_at |]. intros fh s. reflexivity.
Qed.

Lemma latch_kept_on_rwlatch (f : Z) (m : M RWLatch.t unit) : latch_kept (on_rwlatch f m).
Proof.
  apply latch_kept_bind; [apply latch_kept_frame_at |]. intros fh s.
  destruct (m (FrameHeader.rwlatch_ fh)); first [reflexivity | exact I].
Qed.

Lemma latch_kept_on_replacer {A} (m : M LRUKReplacer.t A) : latch_kept (on_replacer m).
Proof.
  intros s. unfold on_replacer, zoom. destruct (m (replacer_ s)); first [reflexivity | exact I].
Qed.

Lemma latch_kept_on_disk {A} (m : M DiskScheduler.t A) : latch_kept (on_disk m).
Proof.
  intros s. unfold on_disk, zoom. destruct (m (disk_scheduler_ s)); first [reflexivity | exact I].
Qed.

Lemma latch_kept_Drop (k : guard_kind) (g : PageGuard.t) : latch_kept (PageGuard.Drop k g).
Proof.
  unfold PageGuard.Drop. destruct (negb (PageGuard.is_valid_ g)); [apply latch_kept_ret |].
  destruct (PageGuard.frame_ g) as [f |]; [| apply latch_kept_undefined].
  apply latch_kept_bind; [apply latch_kept_update_frame | intros _].
  apply latch_kept_bind; [apply latch_kept_frame_at | intros fh].
  apply latch_kept_bind.
  - destruct (FrameHeader.pin_count_ fh =? 0); [| apply latch_kept_ret].
    destruct (PageGuard.replacer_ g); [apply latch_kept_on_replacer | apply latch_kept_undefined].
  - intros _. apply latch_kept_bind; [apply latch_kept_on_rwlatch | intros _].
    apply latch_kept_ret.
Qed.

Lemma latch_kept_move_from (k : guard_kind) (this that : PageGuard.t) :
  latch_kept (PageGuard.move_from k this that).
Proof.
  unfold PageGuard.move_from.
  apply latch_kept_bind; [apply latch_kept_Drop | intros _].
  cbn [PageGuard.replacer_ PageGuard.frame_].
  destruct (PageGuard.replacer_ that); [| apply latch_kept_undefined].
  destruct (PageGuard.frame_ that) as [f |]; [| apply latch_kept_undefined].
  apply latch_kept_bind; [apply latch_kept_frame_at | intros fh].
  apply latch_kept_bind; [apply latch_kept_on_replacer | intros _].
  apply latch_kept_ret.
Qed.

Lemma latch_kept_construct (k : guard_kind) (page_id f : Z) :
  latch_kept (PageGuard.construct k page_id f).
Proof.
  unfold PageGuard.construct.
  apply latch_kept_bind.
  - destruct k; [apply latch_kept_ret | apply latch_kept_update_frame].
  - intros _. apply latch_kept_bind; [apply latch_kept_on_rwlatch | intros _].
    apply latch_kept_ret.
Qed.

Lemma latch_kept_pin_and_guard (k : guard_kind) (page_id f : Z) :
  latch_kept (pin_and_guard k page_id f).
Proof.
  unfold pin_and_guard.
  apply latch_kept_bind; [apply latch_kept_update_frame | intros _].
  apply latch_kept_bind; [apply latch_kept_on_replacer | intros _].
  apply latch_kept_bind; [apply latch_kept_on_replacer | intros _].
  apply latch_kept_bind; [apply latch_kept_construct | intros temporary].
  apply latch_kept_bind; [apply latch_kept_move_from | intros moved].
  apply latch_kept_bind; [apply latch_kept_Drop | intros _].
  apply latch_kept_ret.
Qed.

Lemma latch_kept_FlushPage (page_id : Z) : latch_kept (FlushPage page_id).
Proof.
  intros s. unfold FlushPage, get. cbn [bind].
  destruct (page_table_ s !! page_id) as [f |]; [| reflexivity].
  revert s. change (latch_kept
    (fh <- frame_at f;;
     (if FrameHeader.is_dirty_ fh
      then on_disk (DiskScheduler.write_page page_id (FrameHeader.data_ fh))
      else ret tt);;; ret true)%cpp).
  apply latch_kept_bind; [apply latch_kept_frame_at | intros fh].
  apply latch_kept_bind; [| intros _; apply latch_kept_ret].
  destruct (FrameHeader.is_dirty_ fh); [apply latch_kept_on_disk | apply latch_kept_ret].
Qed.

Lemma latch_kept_ensure_valid (k : guard_kind) (g : PageGuard.t) :
  latch_kept (PageGuard.ensure_valid k g).
Proof.
  unfold PageGuard.ensure_valid.
  destruct (PageGuard.is_valid_ g); [apply latch_kept_ret | apply latch_kept_throw].
Qed.

Lemma latch_kept_GetPageId (k : guard_kind) (g : PageGuard.t) :
  latch_kept (PageGuard.GetPageId k g).
Proof.
  apply latch_kept_bind; [apply latch_kept_ensure_valid | intros _; apply latch_kept_ret].
Qed.

Lemma latch_kept_GetData (k : guard_kind) (g : PageGuard.t) :
  latch_kept (PageGuard.GetData k g).
Proof.
  apply latch_kept_bind; [apply latch_kept_ensure_valid | intros _].
  destruct (PageGuard.frame_ g); [| apply latch_kept_undefined].
  apply latch_kept_bind; [apply latch_kept_frame_at | intros fh; apply latch_kept_ret].
Qed.

Lemma latch_kept_IsDirty (k : guard_kind) (g : PageGuard.t) :
  latch_kept (PageGuard.IsDirty k g).
Proof.
  apply latch_kept_bind; [apply latch_kept_ensure_valid | intros _].
  destruct (PageGuard.frame_ g); [| apply latch_kept_undefined].
  apply latch_kept_bind; [apply latch_kept_frame_at | intros fh; apply latch_kept_ret].
Qed.

Lemma latch_kept_GetDataMut (g : PageGuard.t) : latch_kept (WritePageGuard.GetDataMut g).
Proof.
  apply latch_kept_bind; [apply latch_kept_ensure_valid | intros _].
  destruct (PageGuard.frame_ g); [| apply latch_kept_undefined].
  apply latch_kept_bind; [apply latch_kept_frame_at | intros fh; apply latch_kept_ret].
Qed.

(** The pool of the program after a call that gave it no guard. *)
Lemma go_on_latch {A} (cl cl' : ClientSpec.t) (m : M BufferPool.t A) :
  latch_kept m -> go_on cl (m (pool cl)) = Some cl' ->
  bpm_latch_ (pool cl') = bpm_latch_ (pool cl).
Proof.
  intros Hm Hgo. specialize (Hm (pool cl)). unfold go_on in Hgo.
  destruct (m (pool cl)); try discriminate; injection Hgo as <-; exact Hm.
Qed.

Lemma go_on_Blocks {A} (cl cl' : ClientSpec.t) (o : outcome BufferPool.t A) :
  o = Blocks (pool cl) -> go_on cl o = Some cl' -> pool cl' = pool cl.
Proof. intros -> [= <-]. reflexivity. Qed.

Lemma scoped_lock_held {A} (body : M BufferPool.t A) (s : BufferPool.t) :
  bpm_latch_ s = true -> scoped_lock body s = Blocks s.
Proof. intros Hl. unfold scoped_lock. rewrite Hl. reflexivity. Qed.

Lemma Page_latch_held (k : guard_kind) (page_id : Z) (s : BufferPool.t) :
  bpm_latch_ s = true -> Page k page_id s = Blocks s.
Proof.
  intros Hl. unfold Page, bind. rewrite (CheckedPage_latch_held k page_id s Hl). reflexivity.
Qed.

(** ** Once the latch is locked *)

(** No call unlocks the pool latch. *)
Lemma perform_locked (c : call) (cl cl' : ClientSpec.t) :
  bpm_latch_ (pool cl) = true -> perform c cl = Some cl' ->
  bpm_latch_ (pool cl') = true.
Proof.
  intros Hl Hrun.
  assert (Hsame : forall A (m : M BufferPool.t A),
            latch_kept m -> go_on cl (m (pool cl)) = Some cl' ->
            bpm_latch_ (pool cl') = true)
    by (intros A m Hm Hgo; rewrite (go_on_latch cl cl' m Hm Hgo); exact Hl).
  assert (Hwait : forall A (o : outcome BufferPool.t A),
            o = Blocks (pool cl) -> go_on cl o = Some cl' ->
            bpm_latch_ (pool cl') = true)
    by (intros A o Ho Hgo; rewrite (go_on_Blocks cl cl' o Ho Hgo); exact Hl).
  destruct c as [| page_id | k page_id | k page_id | page_id | | page_id | k | i | i | i j
                 | i | i | i | i]; cbn [perform] in Hrun.
  - apply (Hwait _ _ (scoped_lock_held _ _ Hl) Hrun).
  - apply (Hwait _ _ (scoped_lock_held _ _ Hl) Hrun).
  - rewrite (CheckedPage_latch_held k page_id _ Hl) in Hrun. injection Hrun as <-. exact Hl.
  - rewrite (Page_latch_held k page_id _ Hl) in Hrun. injection Hrun as <-. exact Hl.
  - apply (Hsame _ _ (latch_kept_FlushPage page_id) Hrun).
  - apply (Hwait _ _ (scoped_lock_held _ _ Hl) Hrun).
  - apply (Hwait _ _ (scoped_lock_held _ _ Hl) Hrun).
  - injection Hrun as <-. exact Hl.
  - destruct (guards cl !! i) as [[k g] |]; [| injection Hrun as <-; exact Hl].
    pose proof (latch_kept_Drop k g (pool cl)) as Hkept.
    destruct (PageGuard.Drop k g (pool cl)) as [g' s' | e s' | s' |];
      try discriminate; injection Hrun as <-; cbn; congruence.
  - destruct (guards cl !! i) as [[k that] |]; [| injection Hrun as <-; exact Hl].
    pose proof (latch_kept_move_from k PageGuard.empty that (pool cl)) as Hkept.
    unfold PageGuard.move_construct in Hrun.
    destruct (PageGuard.move_from k PageGuard.empty that (pool cl)) as [[this' that'] s' | e s' | s' |];
      try discriminate; injection Hrun as <-; cbn; congruence.
  - destruct (guards cl !! i) as [[k this] |]; [| injection Hrun as <-; exact Hl].
    destruct (guards cl !! j) as [[k' that] |]; [| injection Hrun as <-; exact Hl].
    destruct (bool_decide (i = j)); [injection Hrun as <-; exact Hl |].
    assert (Hmove : forall k0,
              match PageGuard.move_assign k0 this that (pool cl) with
              | Ret (this', that') s' =>
                  Some (ClientSpec.mk s' (<[j := (k0, that')]> (<[i := (k0, this')]> (guards cl))))
              | o => go_on cl o
              end = Some cl' -> bpm_latch_ (pool cl') = true).
    { intros k0 Hrun0.
      pose proof (latch_kept_move_from k0 this that (pool cl)) as Hkept.
      unfold PageGuard.move_assign in Hrun0.
      destruct (PageGuard.move_from k0 this that (pool cl)) as [[this' that'] s' | e s' | s' |];
        try discriminate; injection Hrun0 as <-; cbn; congruence. }
    destruct k, k'; try (injection Hrun as <-; exact Hl); apply (Hmove _ Hrun).
  - destruct (guards cl !! i) as [[k g] |]; [| injection Hrun as <-; exact Hl].
    apply (Hsame _ _ (latch_kept_GetPageId k g) Hrun).
  - destruct (guards cl !! i) as [[k g] |]; [| injection Hrun as <-; exact Hl].
    apply (Hsame _ _ (latch_kept_GetData k g) Hrun).
  - destruct (guards cl !! i) as [[k g] |]; [| injection Hrun as <-; exact Hl].
    apply (Hsame _ _ (latch_kept_IsDirty k g) Hrun).
  - destruct (guards cl !! i) as [[[] g] |]; try (injection Hrun as <-; exact Hl).
    apply (Hsame _ _ (latch_kept_GetDataMut g) Hrun).
Qed.

Lemma perform_all_locked (calls : list call) (cl cl' : ClientSpec.t) :
  bpm_latch_ (pool cl) = true -> perform_all calls cl = Some cl' ->
  bpm_latch_ (pool cl') = true.
Proof.
  revert cl. induction calls as [| c rest IH]; intros cl Hl Hrun; cbn [perform_all] in Hrun.
  - injection Hrun as <-. exact Hl.
  - destruct (perform c cl) as [cl1 |] eqn:Hstep; [| discriminate].
    apply (IH cl1); [apply (perform_locked c cl cl1 Hl Hstep) | exact Hrun].
Qed.

(** ** While the latch is free *)

Lemma NewPage_untouched (P : nat) (n k : Z) : stays_untouched P n k NewPage.
Proof.
  intros s (Hl & Hfr & Hpt & Hfree & Hrepl & Hpages & Hserved).
  unfold NewPage, scoped_lock. rewrite Hl. unfold get, put. cbn [bind].
  unfold on_disk, zoom, DiskScheduler.IncreaseDiskSpace. cbn [bind].
  destruct (static_cast_int (next_page_id_ (set_bpm_latch true s) + 1) =? - 2 ^ 31);
    [exact I |].
  unfold ret. repeat split; assumption.
Qed.

Lemma DeletePage_untouched (P : nat) (n k : Z) (page_id : Z) :
  stays_untouched P n k (DeletePage page_id).
Proof.
  intros s (Hl & Hfr & Hpt & Hfree & Hrepl & Hpages & Hserved).
  unfold DeletePage, scoped_lock. rewrite Hl. unfold get. cbn [bind].
  cbn [page_table_ set_bpm_latch]. rewrite Hpt, lookup_empty.
  unfold on_disk, zoom, DiskScheduler.DeallocatePage. cbn [bind].
  unfold ret. repeat split; assumption.
Qed.

Lemma FlushPage_untouched (P : nat) (n k : Z) (page_id : Z) (s : BufferPool.t) :
  untouched P n k s -> FlushPage page_id s = Ret false s.
Proof.
  intros (Hl & Hfr & Hpt & Hfree & Hrepl & Hpages & Hserved).
  unfold FlushPage, get. cbn [bind]. rewrite Hpt, lookup_empty. reflexivity.
Qed.

Lemma GetPinCount_untouched (P : nat) (n k : Z) (page_id : Z) (s : BufferPool.t) :
  untouched P n k s -> GetPinCount page_id s = Ret None s.
Proof.
  intros (Hl & Hfr & Hpt & Hfree & Hrepl & Hpages & Hserved).
  unfold GetPinCount, scoped_lock. rewrite Hl. unfold get. cbn [bind].
  cbn [page_table_ set_bpm_latch]. rewrite Hpt, lookup_empty.
  unfold ret. f_equal. destruct s; cbn in *; subst. reflexivity.
Qed.

(** [FlushAllPages] has nothing to write when no frame is dirty. *)
Lemma flush_frames_clean (fs : list FrameHeader.t) (s : BufferPool.t) :
  Forall (fun fh => FrameHeader.is_dirty_ fh = false) fs ->
  flush_frames fs s = Ret tt s.
Proof.
  induction 1 as [| fh fs Hclean _ IH]; [reflexivity |].
  cbn [flush_frames]. rewrite Hclean. unfold ret at 1. cbn [bind]. exact IH.
Qed.

Lemma init_frames_clean (P : nat) (n k : Z) :
  Forall (fun fh => FrameHeader.is_dirty_ fh = false) (frames_ (init P n k)).
Proof.
  unfold init. cbn [frames_]. apply Forall_fmap, Forall_forall. intros id _. reflexivity.
Qed.

Lemma FlushAllPages_untouched (P : nat) (n k : Z) (s : BufferPool.t) :
  untouched P n k s -> FlushAllPages s = Ret tt s.
Proof.
  intros (Hl & Hfr & Hpt & Hfree & Hrepl & Hpages & Hserved).
  unfold FlushAllPages, scoped_lock. rewrite Hl. unfold get. cbn [bind].
  cbn [frames_ set_bpm_latch]. rewrite flush_frames_clean
    by (rewrite Hfr; apply init_frames_clean).
  f_equal. destruct s; cbn in *; subst. reflexivity.
Qed.

(** A fetch on an untouched pool: it returns no guard and leaves the pool
    untouched, which needs the free list empty, or it ends with the latch
    locked. It never asks the replacer for a victim that there is. *)
Lemma CheckedPage_untouched (P : nat) (n k : Z) (kind : guard_kind) (page_id : Z)
    (s : BufferPool.t) :
  untouched P n k s ->
  match CheckedPage kind page_id s with
  | Ret o s' => (o = None /\ s' = s /\ free_frames_ s = []) \/ bpm_latch_ s' = true
  | Throws _ s' => bpm_latch_ s' = true
  | Blocks s' => bpm_latch_ s' = true
  | Undefined => True
  end.
Proof.
  intros (Hl & Hfr & Hpt & Hfree & Hrepl & Hpages & Hserved).
  assert (Hmiss : page_table_ s !! page_id = None) by (rewrite Hpt; apply lookup_empty).
  destruct (free_frames_ s) as [| f rest] eqn:Hlist.
  - assert (Hev : LRUKReplacer.Evict (replacer_ s) = Ret None (replacer_ s))
      by (rewrite Hrepl; reflexivity).
    rewrite (CheckedPage_no_frame kind page_id s _ Hl Hmiss Hlist Hev), set_replacer_same.
    left. auto.
  - unfold CheckedPage, bind at 1, lock_latch. rewrite Hl.
    unfold get. cbn [bind]. cbn [page_table_ set_bpm_latch]. rewrite Hmiss.
    assert (Htake : take_frame page_id (set_bpm_latch true s)
                    = Ret (Some f)
                        (set_page_table (<[page_id := f]> (page_table_ s))
                           (set_free_frames rest (set_bpm_latch true s)))).
    { unfold take_frame, get. cbn [bind]. cbn [free_frames_ set_bpm_latch]. rewrite Hlist.
      reflexivity. }
    rewrite (bind_Ret _ _ _ _ _ Htake).
    match goal with |- match ?m ?s0 with _ => _ end =>
      assert (Hkept : latch_kept m); [| specialize (Hkept s0); destruct (m s0); auto]
    end.
    apply latch_kept_bind; [apply latch_kept_frame_at | intros fh].
    apply latch_kept_bind; [apply latch_kept_on_disk | intros data].
    apply latch_kept_bind; [apply latch_kept_update_frame | intros _].
    apply latch_kept_pin_and_guard.
Qed.

Lemma Page_untouched (P : nat) (n k : Z) (kind : guard_kind) (page_id : Z)
    (s : BufferPool.t) :
  untouched P n k s ->
  match Page kind page_id s with
  | Ret _ s' => bpm_latch_ s' = true
  | Throws _ s' => s' = s \/ bpm_latch_ s' = true
  | Blocks s' => s' = s \/ bpm_latch_ s' = true
  | Undefined => True
  end.
Proof.
  intros Hs. pose proof (CheckedPage_untouched P n k kind page_id s Hs) as Hfetch.
  unfold Page, bind at 1.
  destruct (CheckedPage kind page_id s) as [o s' | e s' | s' |]; auto.
  destruct o as [g |].
  - destruct Hfetch as [(Hnone & _) | Hlocked]; [discriminate |].
    match goal with |- match ?m ?s0 with _ => _ end =>
      assert (Hkept : latch_kept m);
        [| specialize (Hkept s0);
           destruct (m s0); [congruence | right; congruence | right; congruence | exact I]]
    end.
    apply latch_kept_bind; [apply latch_kept_move_from | intros moved].
    apply latch_kept_bind; [apply latch_kept_Drop | intros _].
    apply latch_kept_ret.
  - unfold throw. destruct Hfetch as [(_ & -> & _) | Hlocked]; auto.
Qed.

Lemma go_on_untouched {A} (P : nat) (n k : Z) (m : M BufferPool.t A)
    (cl cl' : ClientSpec.t) :
  stays_untouched P n k m -> idle P n k cl ->
  go_on cl (m (pool cl)) = Some cl' -> idle P n k cl'.
Proof.
  intros Hm (Hpool & Hguards) Hgo. specialize (Hm (pool cl) Hpool). unfold go_on in Hgo.
  destruct (m (pool cl)); try discriminate; injection Hgo as <-; split; assumption.
Qed.

Lemma go_on_same {A} (cl cl' : ClientSpec.t) (o : outcome BufferPool.t A) :
  match o with
  | Ret _ s' | Throws _ s' | Blocks s' => s' = pool cl
  | Undefined => True
  end ->
  go_on cl o = Some cl' -> cl' = cl.
Proof.
  intros Ho Hgo. unfold go_on in Hgo.
  destruct o; try discriminate; injection Hgo as <-; subst; destruct cl; reflexivity.
Qed.

(** The accessors of a guard that is not valid end the process and leave
    the pool as it is. *)
Lemma accessors_invalid (k : guard_kind) (g : PageGuard.t) (s : BufferPool.t) :
  PageGuard.is_valid_ g = false ->
  PageGuard.GetPageId k g s = Throws (invalid_use k) s
  /\ PageGuard.GetData k g s = Throws (invalid_use k) s
  /\ PageGuard.IsDirty k g s = Throws (invalid_use k) s
  /\ WritePageGuard.GetDataMut g s = Throws (invalid_use Write) s.
Proof.
  intros Hinvalid.
  unfold PageGuard.GetPageId, PageGuard.GetData, PageGuard.IsDirty, WritePageGuard.GetDataMut,
    PageGuard.ensure_valid, bind, throw.
  rewrite Hinvalid. destruct k; repeat split; reflexivity.
Qed.

(** One call of a program that has done nothing to the pool yet: the
    program has still done nothing to it, or the latch is locked. *)
Lemma perform_idle (P : nat) (n k : Z) (c : call) (cl cl' : ClientSpec.t) :
  idle P n k cl -> perform c cl = Some cl' ->
  idle P n k cl' \/ bpm_latch_ (pool cl') = true.
Proof.
  intros Hidle Hrun. pose proof Hidle as (Hpool & Hguards).
  assert (Hspent : forall i kind g, guards cl !! i = Some (kind, g) -> spent g).
  { intros i kind g Hi. apply (proj1 (Forall_lookup _ _) Hguards i (kind, g) Hi). }
  assert (Hstill : forall A (o : outcome BufferPool.t A),
            match o with
            | Ret _ s' | Throws _ s' | Blocks s' => s' = pool cl
            | Undefined => True
            end ->
            go_on cl o = Some cl' -> idle P n k cl' \/ bpm_latch_ (pool cl') = true).
  { intros A o Ho Hgo. rewrite (go_on_same cl cl' o Ho Hgo). left. exact Hidle. }
  destruct c as [| page_id | kind page_id | kind page_id | page_id | | page_id | kind | i | i
                 | i j | i | i | i | i]; cbn [perform] in Hrun.
  - left. apply (go_on_untouched P n k NewPage cl cl' (NewPage_untouched P n k) Hidle Hrun).
  - left. apply (go_on_untouched P n k _ cl cl' (DeletePage_untouched P n k page_id)
                   Hidle Hrun).
  - pose proof (CheckedPage_untouched P n k kind page_id (pool cl) Hpool) as Hfetch.
    destruct (CheckedPage kind page_id (pool cl)) as [[g |] s' | e s' | s' |];
      try discriminate; injection Hrun as <-; cbn [pool].
    + destruct Hfetch as [(Hnone & _) | Hlocked]; [discriminate | right; exact Hlocked].
    + destruct Hfetch as [(_ & -> & _) | Hlocked]; [left | right; exact Hlocked].
      split; assumption.
    + right. exact Hfetch.
    + right. exact Hfetch.
  - pose proof (Page_untouched P n k kind page_id (pool cl) Hpool) as Hfetch.
    destruct (Page kind page_id (pool cl)) as [g s' | e s' | s' |];
      try discriminate; injection Hrun as <-; cbn [pool].
    + right. exact Hfetch.
    + destruct Hfetch as [-> | Hlocked]; [left; split; assumption | right; exact Hlocked].
    + destruct Hfetch as [-> | Hlocked]; [left; split; assumption | right; exact Hlocked].
  - apply (Hstill _ (FlushPage page_id (pool cl))); [| exact Hrun].
    rewrite (FlushPage_untouched P n k page_id _ Hpool). reflexivity.
  - apply (Hstill _ (FlushAllPages (pool cl))); [| exact Hrun].
    rewrite (FlushAllPages_untouched P n k _ Hpool). reflexivity.
  - apply (Hstill _ (GetPinCount page_id (pool cl))); [| exact Hrun].
    rewrite (GetPinCount_untouched P n k page_id _ Hpool). reflexivity.
  - injection Hrun as <-. left. split; [exact Hpool |].
    apply Forall_app. split; [exact Hguards |].
    apply Forall_singleton. repeat split.
  - destruct (guards cl !! i) as [[kind g] |] eqn:Hi; [| injection Hrun as <-; left; exact Hidle].
    destruct (Hspent i kind g Hi) as (Hinvalid & _).
    rewrite (Drop_invalid kind g (pool cl) Hinvalid) in Hrun. injection Hrun as <-.
    left. rewrite list_insert_id by exact Hi. destruct cl; exact Hidle.
  - destruct (guards cl !! i) as [[kind that] |] eqn:Hi; [| injection Hrun as <-; left; exact Hidle].
    destruct (Hspent i kind that Hi) as (_ & _ & Hnull).
    unfold PageGuard.move_construct in Hrun.
    rewrite (move_from_null kind PageGuard.empty that (pool cl) Hnull) in Hrun. discriminate.
  - destruct (guards cl !! i) as [[kind this] |] eqn:Hi; [| injection Hrun as <-; left; exact Hidle].
    destruct (guards cl !! j) as [[kind' that] |] eqn:Hj; [| injection Hrun as <-; left; exact Hidle].
    destruct (bool_decide (i = j)).
    { apply (Hstill _ (PageGuard.move_assign_self kind this (pool cl))); [reflexivity | exact Hrun]. }
    destruct (Hspent j kind' that Hj) as (_ & _ & Hnull).
    unfold PageGuard.move_assign in Hrun.
    destruct kind, kind'; try (injection Hrun as <-; left; exact Hidle);
      rewrite (move_from_null _ this that (pool cl) Hnull) in Hrun; discriminate.
  - destruct (guards cl !! i) as [[kind g] |] eqn:Hi; [| injection Hrun as <-; left; exact Hidle].
    destruct (Hspent i kind g Hi) as (Hinvalid & _).
    destruct (accessors_invalid kind g (pool cl) Hinvalid) as (Hacc & _).
    apply (Hstill _ (PageGuard.GetPageId kind g (pool cl))); [rewrite Hacc; reflexivity | exact Hrun].
  - destruct (guards cl !! i) as [[kind g] |] eqn:Hi; [| injection Hrun as <-; left; exact Hidle].
    destruct (Hspent i kind g Hi) as (Hinvalid & _).
    destruct (accessors_invalid kind g (pool cl) Hinvalid) as (_ & Hacc & _).
    apply (Hstill _ (PageGuard.GetData kind g (pool cl))); [rewrite Hacc; reflexivity | exact Hrun].
  - destruct (guards cl !! i) as [[kind g] |] eqn:Hi; [| injection Hrun as <-; left; exact Hidle].
    destruct (Hspent i kind g Hi) as (Hinvalid & _).
    destruct (accessors_invalid kind g (pool cl) Hinvalid) as (_ & _ & Hacc & _).
    apply (Hstill _ (PageGuard.IsDirty kind g (pool cl))); [rewrite Hacc; reflexivity | exact Hrun].
  - destruct (guards cl !! i) as [[[] g] |] eqn:Hi; try (injection Hrun as <-; left; exact Hidle).
    destruct (Hspent i Write g Hi) as (Hinvalid & _).
    destruct (accessors_invalid Write g (pool cl) Hinvalid) as (_ & _ & _ & Hacc).
    apply (Hstill _ (WritePageGuard.GetDataMut g (pool cl))); [rewrite Hacc; reflexivity | exact Hrun].
Qed.

(** Whatever the program has done: it has done nothing to the pool, or the
    latch is locked. *)
Lemma perform_all_idle (P : nat) (n k : Z) (calls : list call) (cl cl' : ClientSpec.t) :
  idle P n k cl \/ bpm_latch_ (pool cl) = true ->
  perform_all calls cl = Some cl' ->
  idle P n k cl' \/ bpm_latch_ (pool cl') = true.
Proof.
  revert cl. induction calls as [| c rest IH]; intros cl Hcl Hrun; cbn [perform_all] in Hrun.
  - injection Hrun as <-. exact Hcl.
  - destruct (perform c cl) as [cl1 |] eqn:Hstep; [| discriminate].
    apply (IH cl1); [| exact Hrun].
    destruct Hcl as [Hidle | Hlocked].
    + apply (perform_idle P n k c cl cl1 Hidle Hstep).
    + right. apply (perform_locked c cl cl1 Hlocked Hstep).
Qed.

Lemma start_idle (P : nat) (n k : Z) : idle P n k (start P n k).
Proof. split; [repeat split | apply Forall_nil_2]. Qed.

(** X15. A program cannot find the pool latch free and the pool in use.
    Whatever calls a program makes on the pool it constructed and on its
    guards ([NewPage], [DeletePage], the four fetches, [FlushPage],
    [FlushAllPages], [GetPinCount], default construction, [Drop], moves and
    accessors of guards, in any order, going on after exceptions and after
    calls that wait, none of the calls being undefined behaviour), while the
    pool latch is free the pool is as the
    constructor made it, but for the counter of page ids and the room and
    hints of the disk scheduler: no page is resident, every frame is in the
    free list, without a pin, clean and unlatched, the replacer knows no
    frame, the disk has served no request, and every guard the program
    holds is invalid with null pointers. *)
Theorem pool_untouched_while_latch_free (P : nat) (n k : Z) (calls : list call)
    (cl : ClientSpec.t) :
  perform_all calls (start P n k) = Some cl ->
  bpm_latch_ (pool cl) = false ->
  page_table_ (pool cl) = ∅
  /\ free_frames_ (pool cl) = free_frames_ (init P n k)
  /\ frames_ (pool cl) = frames_ (init P n k)
  /\ (forall i fh,
        frames_ (pool cl) !! i = Some fh ->
        FrameHeader.pin_count_ fh = 0
        /\ FrameHeader.is_dirty_ fh = false
        /\ FrameHeader.rwlatch_ fh = RWLatch.free)
  /\ replacer_ (pool cl) = LRUKReplacer.init n k
  /\ DiskScheduler.pages_ (disk_scheduler_ (pool cl)) = ∅
  /\ DiskScheduler.served_ (disk_scheduler_ (pool cl)) = []
  /\ Forall (fun kg => spent kg.2) (guards cl).
Proof.
  intros Hrun Hl.
  destruct (perform_all_idle P n k calls _ cl (or_introl (start_idle P n k)) Hrun)
    as [((_ & Hfr & Hpt & Hfree & Hrepl & Hpages & Hserved) & Hguards) | Hlocked];
    [| congruence].
  split; [exact Hpt |]. split; [exact Hfree |]. split; [exact Hfr |].
  split; [| repeat split; assumption].
  intros i fh Hfh. rewrite Hfr in Hfh. unfold init in Hfh. cbn [frames_] in Hfh.
  rewrite list_lookup_fmap in Hfh.
  destruct ((static_cast_int <$> seqZ 0 n) !! i) as [id |]; [| discriminate].
  injection Hfh as <-. repeat split.
Qed.

(** A fetch that handed out a guard left the pool latch locked. *)
Lemma fetch_locks (kind : guard_kind) (page_id : Z) (s0 s1 : BufferPool.t)
    (g : PageGuard.t) :
  CheckedPage kind page_id s0 = Ret (Some g) s1 \/ Page kind page_id s0 = Ret g s1 ->
  bpm_latch_ s1 = true.
Proof.
  intros [Hfetch | Hfetch].
  - apply CheckedPage_inv in Hfetch as (_ & Hlocked). exact Hlocked.
  - unfold Page in Hfetch. apply bind_Ret_inv in Hfetch as (o & s' & Hchecked & Hrest).
    destruct o as [g0 |]; [| discriminate].
    apply CheckedPage_inv in Hchecked as (_ & Hlocked).
    assert (Hkept : latch_kept (moved <- PageGuard.move_construct kind g0;;
                                _ <- PageGuard.Drop kind (snd moved);;
                                ret (fst moved))%cpp).
    { apply latch_kept_bind; [apply latch_kept_move_from | intros moved].
      apply latch_kept_bind; [apply latch_kept_Drop | intros _]. apply latch_kept_ret. }
    specialize (Hkept s'). rewrite Hrest in Hkept. congruence.
Qed.

(** X16. The pool latch is locked for good. After [CheckedReadPage],
    [CheckedWritePage], [ReadPage] or [WritePage] has handed out a guard,
    whatever calls the program makes on the pool and on whatever guards it
    holds ([Drop] and the moves included, none of the calls being undefined
    behaviour), the latch stays locked: every
    later fetch, [NewPage], [DeletePage], [GetPinCount] and [FlushAllPages]
    waits for it at its first line and leaves the pool as it is. *)
Theorem pool_latch_locked_for_good (kind : guard_kind) (page_id : Z)
    (s0 s1 : BufferPool.t) (g : PageGuard.t)
    (gs : list (guard_kind * PageGuard.t)) (calls : list call) (cl : ClientSpec.t) :
  CheckedPage kind page_id s0 = Ret (Some g) s1 \/ Page kind page_id s0 = Ret g s1 ->
  perform_all calls (ClientSpec.mk s1 gs) = Some cl ->
  let s := pool cl in
  bpm_latch_ s = true
  /\ (forall kind' page_id',
        CheckedPage kind' page_id' s = Blocks s /\ Page kind' page_id' s = Blocks s)
  /\ (forall page_id',
        DeletePage page_id' s = Blocks s /\ GetPinCount page_id' s = Blocks s)
  /\ NewPage s = Blocks s
  /\ FlushAllPages s = Blocks s.
Proof.
  intros Hfetch Hrun s.
  assert (Hlocked : bpm_latch_ s = true).
  { apply (perform_all_locked calls (ClientSpec.mk s1 gs) cl); [| exact Hrun].
    apply (fetch_locks kind page_id s0 s1 g Hfetch). }
  split; [exact Hlocked |]. split; [| split; [| split]].
  - intros kind' page_id'.
    split; [apply CheckedPage_latch_held | apply Page_latch_held]; exact Hlocked.
  - intros page_id'. split; apply scoped_lock_held; exact Hlocked.
  - apply scoped_lock_held. exact Hlocked.
  - apply scoped_lock_held. exact Hlocked.
Qed.

(** An untouched pool made for fewer than 2^31 frames and K at least 2 is
    consistent and has its frame latches free. *)
Lemma untouched_wf (P : nat) (n k : Z) (s : BufferPool.t) :
  0 <= n < 2 ^ 31 -> 2 <= k < size_modulus -> untouched P n k s ->
  wf s /\ forall kind, latches_free_for kind s.
Proof.
  intros Hn Hk (Hl & Hfr & Hpt & Hfree & Hrepl & Hpages & Hserved).
  destruct (pool_init_wf P n k Hn Hk) as [Hwf1 _ Hwf3 _].
  destruct (init_ready P n k Hn) as (_ & Hlatches).
  split.
  - constructor.
    + rewrite Hrepl. exact Hwf1.
    + intros p f Hp. rewrite Hpt, lookup_empty in Hp. discriminate.
    + intros f Hf. rewrite Hfree in Hf. specialize (Hwf3 f Hf).
      unfold valid_frame in *. rewrite Hrepl, Hfr. exact Hwf3.
    + intros f Hf. rewrite Hrepl in Hf. cbn in Hf. inversion Hf.
  - intros kind i fh Hfh. rewrite Hfr in Hfh. apply (Hlatches kind i fh Hfh).
Qed.

(** X22. What the functions of the pool do for a program, on a pool made
    for fewer than 2^31 frames and K at least 2 and after whatever calls the
    program has made, none of them undefined behaviour. [DeletePage] waits, or passes the hint on and returns
    [true]: it never returns [false] and never frees a frame. [GetPinCount]
    waits or returns [nullopt]. [FlushAllPages] waits or returns without a
    change: it never writes. A fetch waits, or returns [nullopt] on a pool
    made without frames, or is the first fetch of a pool with frames: it
    takes frame 0 from the front of the free list, reads the page from
    disk and hands out the guard with the latch locked. No fetch finds its
    page resident and none takes a victim from the replacer. *)
Theorem pool_calls_of_a_program (P : nat) (n k : Z) (calls : list call)
    (cl : ClientSpec.t) :
  0 <= n < 2 ^ 31 -> 2 <= k < size_modulus ->
  perform_all calls (start P n k) = Some cl ->
  let s := pool cl in
  (forall page_id,
     DeletePage page_id s = Blocks s \/ DeletePage page_id s = Ret true (hinted page_id s))
  /\ (forall page_id, GetPinCount page_id s = Blocks s \/ GetPinCount page_id s = Ret None s)
  /\ (FlushAllPages s = Blocks s \/ FlushAllPages s = Ret tt s)
  /\ forall kind page_id,
       CheckedPage kind page_id s = Blocks s
       \/ (n = 0 /\ CheckedPage kind page_id s = Ret None s)
       \/ (0 < n
           /\ page_table_ s = ∅
           /\ exists s',
                CheckedPage kind page_id s = Ret (Some (guard_on page_id 0)) s'
                /\ page_table_ s' = {[page_id := 0]}
                /\ free_frames_ s' = seqZ 1 (n - 1)
                /\ bpm_latch_ s' = true
                /\ DiskScheduler.served_ (disk_scheduler_ s') = [(false, page_id)]).
Proof.
  intros Hn Hk Hrun s.
  destruct (perform_all_idle P n k calls _ cl (or_introl (start_idle P n k)) Hrun)
    as [(Hpool & _) | Hlocked].
  2:{ split; [intros page_id; left; apply scoped_lock_held, Hlocked |].
      split; [intros page_id; left; apply scoped_lock_held, Hlocked |].
      split; [left; apply scoped_lock_held, Hlocked |].
      intros kind page_id. left. apply CheckedPage_latch_held, Hlocked. }
  fold s in Hpool. pose proof Hpool as (Hl & Hfr & Hpt & Hfree & Hrepl & Hpages & Hserved).
  split; [| split; [| split]].
  - intros page_id. right. unfold DeletePage.
    erewrite scoped_lock_Ret; [| exact Hl |].
    2:{ unfold get. cbn [bind]. cbn [page_table_ set_bpm_latch]. rewrite Hpt, lookup_empty.
        erewrite bind_Ret; [| apply on_disk_Ret; reflexivity].
        reflexivity. }
    f_equal. destruct s; cbn in *; subst. reflexivity.
  - intros page_id. right. apply (GetPinCount_untouched P n k page_id s Hpool).
  - right. apply (FlushAllPages_untouched P n k s Hpool).
  - intros kind page_id. right.
    destruct (untouched_wf P n k s Hn Hk Hpool) as (Hwf & Hlatches).
    assert (Hids : free_frames_ s = seqZ 0 n).
    { rewrite Hfree. unfold init. cbn [free_frames_]. apply frame_ids_seq, Hn. }
    assert (Hnone : LRUKReplacer.Evict (replacer_ s) = Ret None (replacer_ s))
      by (rewrite Hrepl; reflexivity).
    destruct (CheckedPage_result kind page_id s Hwf Hl (Hlatches kind))
      as [(_ & Hempty & _ & Hret)
         | (f & s0 & fh0 & l' & r' & Hpath & _ & _ & _ & _ & Hret)].
    + left. split; [| exact Hret].
      rewrite Hids in Hempty. apply (f_equal length) in Hempty.
      rewrite length_seqZ in Hempty. cbn in Hempty. lia.
    + right.
      destruct Hpath as [Hhit | rest fh Hmiss Hlist Hfh | fh r1 Hmiss Hlist Hev Hfh].
      * rewrite Hpt, lookup_empty in Hhit. discriminate.
      * assert (Hpos : 0 < n).
        { destruct (Z.lt_ge_cases 0 n) as [Hlt | Hge]; [exact Hlt |].
          rewrite Hids, seqZ_nil in Hlist by lia. discriminate. }
        rewrite Hids, seqZ_cons in Hlist by exact Hpos. injection Hlist as <- <-.
        split; [exact Hpos |]. split; [exact Hpt |].
        eexists. split; [exact Hret |].
        cbn [handed_out from_free_list loaded page_table_ free_frames_ bpm_latch_
             disk_scheduler_ set_replacer set_frames set_page_table set_free_frames
             set_bpm_latch read_served set_disk_scheduler DiskScheduler.served_].
        rewrite Hpt, Hserved. repeat split.
      * rewrite Hnone in Hev. discriminate.
Qed.

End ClientLaws.

(** * The index iterator *)

Module IteratorLaws.

Import BufferPool BufferPoolManager GuardSpec PoolSpec GuardFacts PoolFacts GuardLaws.

Lemma GetPageId_cases (g : PageGuard.t) (s : t) :
  PageGuard.GetPageId Read g s
  = if PageGuard.is_valid_ g then Ret (PageGuard.page_id_ g) s
    else Throws (invalid_use Read) s.
Proof.
  unfold PageGuard.GetPageId, PageGuard.ensure_valid, bind.
  destruct (PageGuard.is_valid_ g); reflexivity.
Qed.

(** X25. The comparisons of two iterators. [operator!=] is the negation of
    [operator==] on every pair of iterators: it returns the negated value,
    and fails when [operator==] fails. Two end iterators are equal, and
    iterators with different indices are not, whatever their guards are;
    with equal indices other than -1 the page ids of the guards are
    compared, which ends the process if one of the guards is not valid. The
    pool is never changed. *)
Theorem iterator_comparison (this itr : IndexIterator.t) (s : t) :
  IndexIterator.not_equal this itr s
  = match IndexIterator.equal this itr s with
    | Ret b s' => Ret (negb b) s'
    | Throws e s' => Throws e s'
    | Blocks s' => Blocks s'
    | Undefined => Undefined
    end
  /\ (IndexIterator.IsEnd this = true -> IndexIterator.IsEnd itr = true ->
      IndexIterator.equal this itr s = Ret true s)
  /\ (IndexIterator.index_ this <> IndexIterator.index_ itr ->
      IndexIterator.equal this itr s = Ret false s)
  /\ (IndexIterator.index_ this = IndexIterator.index_ itr ->
      IndexIterator.IsEnd this = false ->
      IndexIterator.equal this itr s
      = if PageGuard.is_valid_ (IndexIterator.page_guard_ this)
           && PageGuard.is_valid_ (IndexIterator.page_guard_ itr)
        then Ret (PageGuard.page_id_ (IndexIterator.page_guard_ this)
                  =? PageGuard.page_id_ (IndexIterator.page_guard_ itr)) s
        else Throws (invalid_use Read) s).
Proof.
  destruct this as [g1 i1], itr as [g2 i2].
  unfold IndexIterator.not_equal, IndexIterator.equal, IndexIterator.IsEnd.
  cbn [IndexIterator.index_ IndexIterator.page_guard_].
  assert (Hpair : forall b : bool,
            (a <- PageGuard.GetPageId Read g1;;
             b' <- PageGuard.GetPageId Read g2;;
             ret (if b then a =? b' else negb (a =? b')))%cpp s
            = if PageGuard.is_valid_ g1 && PageGuard.is_valid_ g2
              then Ret (if b then PageGuard.page_id_ g1 =? PageGuard.page_id_ g2
                        else negb (PageGuard.page_id_ g1 =? PageGuard.page_id_ g2)) s
              else Throws (invalid_use Read) s).
  { intros b. unfold bind at 1. rewrite GetPageId_cases.
    destruct (PageGuard.is_valid_ g1); [| reflexivity].
    unfold bind. rewrite GetPageId_cases.
    destruct (PageGuard.is_valid_ g2); reflexivity. }
  pose proof (Hpair true) as Heq. pose proof (Hpair false) as Hneq.
  cbv iota in Heq, Hneq.
  split; [| split; [| split]].
  - destruct (Z.eqb_spec i1 i2) as [<- | Hne]; cbn [negb].
    + destruct (Z.eqb_spec i1 (-1)) as [He | Hn]; cbn [andb negb]; [reflexivity |].
      rewrite Heq, Hneq.
      destruct (PageGuard.is_valid_ g1 && PageGuard.is_valid_ g2); reflexivity.
    + destruct ((i1 =? -1) && (i2 =? -1)) eqn:Hboth; [| reflexivity].
      apply andb_true_iff in Hboth as (H1 & H2). lia.
  - intros -> ->. reflexivity.
  - intros Hne. destruct (Z.eqb_spec i1 i2) as [He | _]; [contradiction |].
    destruct ((i1 =? -1) && (i2 =? -1)) eqn:Hboth; [| reflexivity].
    apply andb_true_iff in Hboth as (H1 & H2). lia.
  - intros <- ->. cbn [andb]. rewrite Z.eqb_refl. exact Heq.
Qed.

Section LeafPage.

Variable LeafPage : Type.
Variable As : PageGuard.t -> M t LeafPage.
Variable GetSize : LeafPage -> Z.
Variable GetNextPageId : LeafPage -> Z.

(** X26. [operator++] on the last entry of a leaf never leaves the leaf. On
    the last leaf the assignment [page_guard_ = ReadPageGuard()] moves from
    a guard with null pointers, which is undefined behaviour: the iterator
    does not become the end iterator. On any other leaf, with the pool
    latch locked, as every fetch that handed out a guard leaves it, the
    iterator waits for the latch inside [ReadPage]. *)
Theorem increment_never_leaves_leaf (it : IndexIterator.t) (s s1 : t) (leaf : LeafPage) :
  As (IndexIterator.page_guard_ it) s = Ret leaf s1 ->
  GetSize leaf <= IndexIterator.index_ it + 1 ->
  IndexIterator.index_ it < 2 ^ 31 - 1 ->
  (GetNextPageId leaf = INVALID_PAGE_ID ->
   IndexIterator.increment LeafPage As GetSize GetNextPageId it s = Undefined)
  /\ (GetNextPageId leaf <> INVALID_PAGE_ID -> bpm_latch_ s1 = true ->
      IndexIterator.increment LeafPage As GetSize GetNextPageId it s = Blocks s1).
Proof.
  intros Hview Hsize Hint.
  assert (Hrun : IndexIterator.increment LeafPage As GetSize GetNextPageId it s
                 = (if GetNextPageId leaf =? INVALID_PAGE_ID
                    then (moved <- PageGuard.move_assign Read (IndexIterator.page_guard_ it)
                                     PageGuard.empty;;
                          _ <- PageGuard.Drop Read (snd moved);;
                          ret (IndexIterator.mk (fst moved) (-1)))%cpp
                    else (temporary <- ReadPage (GetNextPageId leaf);;
                          moved <- PageGuard.move_assign Read (IndexIterator.page_guard_ it)
                                     temporary;;
                          _ <- PageGuard.Drop Read (snd moved);;
                          ret (IndexIterator.mk (fst moved) 0))%cpp) s1).
  { unfold IndexIterator.increment.
    destruct (Z.eqb_spec (IndexIterator.index_ it) (2 ^ 31 - 1)) as [He | _]; [lia |].
    cbv zeta. rewrite (bind_Ret _ _ _ _ _ Hview).
    destruct (Z.geb_spec (IndexIterator.index_ it + 1) (GetSize leaf)) as [_ | Hlt]; [| lia].
    reflexivity. }
  rewrite Hrun. split.
  - intros Hlast. rewrite Hlast, Z.eqb_refl. unfold bind at 1.
    unfold PageGuard.move_assign. rewrite move_from_null by reflexivity. reflexivity.
  - intros Hnext Hlocked.
    destruct (Z.eqb_spec (GetNextPageId leaf) INVALID_PAGE_ID) as [He | _]; [contradiction |].
    unfold bind at 1. unfold ReadPage, Page. unfold bind at 1.
    rewrite (CheckedPage_latch_held Read _ s1 Hlocked). reflexivity.
Qed.

End LeafPage.

End IteratorLaws.

(** * The laws at concrete pools *)

Module LawWitness.

Import BufferPool BufferPoolManager GuardSpec PoolSpec Example GuardFacts PoolFacts.
Import GuardLaws PoolLaws ClientLaws IteratorLaws.

Lemma fresh_pool_coherent : coherent fresh_pool.
Proof. apply init_coherent; [lia | unfold size_modulus; lia]. Qed.

Lemma fresh_pool_ready :
  pins_have_room fresh_pool /\ forall k, latches_free_for k fresh_pool.
Proof. apply init_ready. lia. Qed.

Lemma pool_with_writer_coherent : coherent pool_with_writer.
Proof.
  destruct fresh_pool_ready as (Hroom & Hlatches).
  apply (fetch_coherent Write 0 fresh_pool pool_with_writer (guard_on 0 0)
           fresh_pool_coherent Hroom eq_refl (Hlatches Write)).
  vm_compute. reflexivity.
Qed.

Lemma released_guard_accessors_abort_witness :
  let s' := state_after (PageGuard.Drop Write (guard_on 0 0)) pool_with_writer in
  PageGuard.GetData Write (dropped (guard_on 0 0)) s' = Throws (invalid_use Write) s'
  /\ WritePageGuard.GetDataMut (dropped (guard_on 0 0)) s' = Throws (invalid_use Write) s'.
Proof.
  intros s'.
  destruct (released_guard_accessors_abort Write (guard_on 0 0) (dropped (guard_on 0 0))
              pool_with_writer s') as (_ & Hdata & _ & Hmut & _).
  - left. vm_compute. reflexivity.
  - split; [exact Hdata | exact Hmut].
Defined.

Lemma move_from_released_guard_undefined_witness :
  PageGuard.move_construct Read PageGuard.empty pool_with_readers = Undefined
  /\ PageGuard.move_assign Read (guard_on 0 0) PageGuard.empty pool_with_readers = Undefined.
Proof.
  exact (move_from_released_guard_undefined Read (guard_on 0 0) PageGuard.empty
           pool_with_readers eq_refl).
Defined.

Lemma new_pages_consecutive_witness :
  exists s', new_pages 3 fresh_pool = Ret [0; 1; 2] s' /\ next_page_id_ s' = 3.
Proof.
  destruct (new_pages_consecutive 3 fresh_pool) as (s' & Hrun & Hnext & _).
  - reflexivity.
  - vm_compute. discriminate.
  - vm_compute. reflexivity.
  - exists s'. split; [exact Hrun | exact Hnext].
Defined.

Lemma constructed_pool_coherent_witness :
  coherent fresh_pool /\ free_frames_ fresh_pool = [0; 1].
Proof.
  destruct (constructed_pool_coherent 4096 2 2) as (Hco & Hfree & _).
  - lia.
  - unfold size_modulus. lia.
  - split; [exact Hco | exact Hfree].
Defined.

Lemma fetch_keeps_pool_coherent_witness :
  coherent (state_after (CheckedReadPage 0) fresh_pool).
Proof.
  destruct (fetch_keeps_pool_coherent Read 0 fresh_pool
              (state_after (CheckedReadPage 0) fresh_pool) (guard_on 0 0))
    as (Hco & _).
  - exact fresh_pool_coherent.
  - apply fresh_pool_ready.
  - reflexivity.
  - apply fresh_pool_ready.
  - vm_compute. reflexivity.
  - exact Hco.
Defined.

Lemma Drop_keeps_pool_coherent_witness :
  exists s',
    PageGuard.Drop Write (guard_on 0 0) pool_with_writer = Ret (dropped (guard_on 0 0)) s'
    /\ coherent s'.
Proof.
  destruct (Drop_keeps_pool_coherent Write (guard_on 0 0) pool_with_writer 0 writer_frame)
    as (s' & Hdrop & Hco & _).
  - exact pool_with_writer_coherent.
  - reflexivity.
  - reflexivity.
  - reflexivity.
  - lia.
  - vm_compute. reflexivity.
  - vm_compute. reflexivity.
  - reflexivity.
  - exists s'. split; [exact Hdrop | exact Hco].
Defined.

Lemma fetch_then_Drop_round_trip_witness :
  exists s'',
    PageGuard.Drop Write (guard_on 0 0) pool_with_writer = Ret (dropped (guard_on 0 0)) s''
    /\ coherent s'' /\ bpm_latch_ s'' = true.
Proof.
  destruct (fetch_then_Drop_round_trip Write 0 fresh_pool pool_with_writer (guard_on 0 0))
    as (f & s'' & Hdrop & Hco & Hlocked & _).
  - exact fresh_pool_coherent.
  - apply fresh_pool_ready.
  - reflexivity.
  - apply fresh_pool_ready.
  - vm_compute. reflexivity.
  - exists s''. split; [exact Hdrop |]. split; [exact Hco | exact Hlocked].
Defined.

Lemma fetch_disk_traffic_witness :
  exists f fh fh',
    guard_on 0 0 = guard_on 0 f
    /\ frames_ fresh_pool !! Z.to_nat f = Some fh
    /\ frames_ pool_with_writer !! Z.to_nat f = Some fh'.
Proof.
  destruct (fetch_disk_traffic Write 0 fresh_pool pool_with_writer (guard_on 0 0))
    as (f & fh & fh' & Hg & Hfh & Hfh' & _).
  - exact fresh_pool_coherent.
  - reflexivity.
  - apply fresh_pool_ready.
  - vm_compute. reflexivity.
  - exists f, fh, fh'. split; [exact Hg |]. split; [exact Hfh | exact Hfh'].
Defined.

Lemma increment_never_leaves_leaf_witness :
  IndexIterator.increment (list Byte.byte) (PageGuard.GetData Read)
    (fun _ => 1) (fun _ => INVALID_PAGE_ID)
    (IndexIterator.mk (guard_on 0 0) 0) pool_with_readers
  = Undefined.
Proof.
  destruct (increment_never_leaves_leaf (list Byte.byte) (PageGuard.GetData Read)
              (fun _ => 1) (fun _ => INVALID_PAGE_ID)
              (IndexIterator.mk (guard_on 0 0) 0) pool_with_readers pool_with_readers
              (replicate 4096 Byte.x00))
    as (Hlast & _).
  - vm_compute. reflexivity.
  - vm_compute. discriminate.
  - vm_compute. reflexivity.
  - apply Hlast. reflexivity.
Defined.

Lemma pool_untouched_while_latch_free_witness :
  let calls := [ClientSpec.CallNewPage; ClientSpec.CallDeletePage 3;
                ClientSpec.CallGetPinCount 0; ClientSpec.CallFlushAllPages;
                ClientSpec.CallDefaultGuard Read; ClientSpec.CallDrop 0;
                ClientSpec.CallPage Write 0; ClientSpec.CallFlushPage 0] in
  let cl := after_calls [ClientSpec.CallNewPage; ClientSpec.CallDeletePage 3;
                         ClientSpec.CallGetPinCount 0; ClientSpec.CallFlushAllPages;
                         ClientSpec.CallDefaultGuard Read; ClientSpec.CallDrop 0;
                         ClientSpec.CallFlushPage 0]
              (ClientSpec.start 4096 2 2) in
  page_table_ (ClientSpec.pool cl) = ∅
  /\ free_frames_ (ClientSpec.pool cl) = [0; 1]
  /\ bpm_latch_ (ClientSpec.pool (after_calls calls (ClientSpec.start 4096 2 2))) = true.
Proof.
  intros calls cl.
  destruct (pool_untouched_while_latch_free 4096 2 2
              [ClientSpec.CallNewPage; ClientSpec.CallDeletePage 3;
               ClientSpec.CallGetPinCount 0; ClientSpec.CallFlushAllPages;
               ClientSpec.CallDefaultGuard Read; ClientSpec.CallDrop 0;
               ClientSpec.CallFlushPage 0] cl)
    as (Hpt & Hfree & _).
  - vm_compute. reflexivity.
  - vm_compute. reflexivity.
  - split; [exact Hpt |]. split; [exact Hfree |]. vm_compute. reflexivity.
Defined.

Lemma pool_latch_locked_for_good_witness :
  let cl := after_calls [ClientSpec.CallDrop 0; ClientSpec.CallFlushPage 0;
                         ClientSpec.CallDeletePage 0; ClientSpec.CallNewPage]
              (ClientSpec.mk pool_with_writer [(Write, guard_on 0 0)]) in
  bpm_latch_ (ClientSpec.pool cl) = true
  /\ DeletePage 0 (ClientSpec.pool cl) = Blocks (ClientSpec.pool cl)
  /\ CheckedReadPage 1 (ClientSpec.pool cl) = Blocks (ClientSpec.pool cl).
Proof.
  intros cl.
  destruct (pool_latch_locked_for_good Write 0 fresh_pool pool_with_writer (guard_on 0 0)
              [(Write, guard_on 0 0)]
              [ClientSpec.CallDrop 0; ClientSpec.CallFlushPage 0;
               ClientSpec.CallDeletePage 0; ClientSpec.CallNewPage] cl)
    as (Hlocked & Hfetch & Hdelete & _).
  - left. vm_compute. reflexivity.
  - vm_compute. reflexivity.
  - split; [exact Hlocked |]. split; [apply Hdelete | apply (Hfetch Read 1)].
Defined.

Lemma pool_calls_of_a_program_witness :
  let s := ClientSpec.pool
             (after_calls [ClientSpec.CallNewPage; ClientSpec.CallCheckedPage Write 0;
                           ClientSpec.CallDrop 0]
                (ClientSpec.start 4096 2 2)) in
  (GetPinCount 0 s = Blocks s \/ GetPinCount 0 s = Ret None s)
  /\ (DeletePage 0 s = Blocks s \/ DeletePage 0 s = Ret true (hinted 0 s)).
Proof.
  intros s.
  destruct (pool_calls_of_a_program 4096 2 2
              [ClientSpec.CallNewPage; ClientSpec.CallCheckedPage Write 0;
               ClientSpec.CallDrop 0]
              (after_calls [ClientSpec.CallNewPage; ClientSpec.CallCheckedPage Write 0;
                            ClientSpec.CallDrop 0]
                 (ClientSpec.start 4096 2 2)))
    as (Hdelete & Hcount & _).
  - lia.
  - unfold size_modulus. lia.
  - vm_compute. reflexivity.
  - split; [apply Hcount | apply Hdelete].
Defined.

End LawWitness.
